(** * Infographics editor: scene store, command stack and pointer gestures

    A shallow embedding of
      - [src/stores/InfographicsStore.js]  (scene store and command stack),
      - [src/stores/commands.js]           (command factories),
      - the canvas page component          (beginInteraction,
        handlePointerMove, endInteraction) and
      - the canvas configuration helpers   (clampCropValue, getCropValues,
        hasNumericSize).

    Conventions of the embedding.
      - A JavaScript number is a rational [Q]: the arithmetic of the source
        ([+ - * /], [Math.min], [Math.max], [%]) is exact on rationals, and
        [===] on numbers is [Qeq_bool].  [Math.cos], [Math.sin],
        [Math.atan2] and [Math.PI] are parameters of the geometry section.
        A rational is never NaN or infinite: where the source divides by a
        number that can be 0 without guarding it, the definition treats
        the zero divisor on its own.
      - A key that may be absent (or hold [undefined]) is an [option], and
        [None] is the absent key.  A key that holds [null] is represented
        where the code is modelled on it: the crop of a block, and the
        keys of a command or of a patch that the factories test against
        [null].
      - The width of a size is a number, a string (a CSS length such as
        "76%", which three blocks of the sample data carry) or absent; its
        height is a number or absent, as in all of the sample data.  The
        arithmetic of the move branch and of the group rotate branch on a
        string width gives NaN coordinates, which no rational stands for:
        the definitions of these two branches say so where it happens and
        write no position then, and the statements about the positions
        they write are made for widths that are numbers or absent.
      - A position has its keys in the order [x], [y] and a size in the
        order [width], [height], as in the sample data and in every object
        the code writes.  A crop is kept with its keys in their order,
        since pointer-up compares [JSON.stringify] outputs of crops.
      - A JavaScript array is a [list] in array order ([push] appends at the
        end, [pop] removes the last element).
      - An object used as a map (blockOffsets, child patch maps) is an
        association list in insertion order.
      - A command object is first-order data: the factory's arguments plus
        the variables its closures assign ([oldGroups], [createdGroup]);
        [do]/[undo] return the command as mutated.  The undo and redo
        lists hold commands of the six kinds of [Command]: the five that
        pointer-up pushes, and GroupCommand.  The store runs any object
        with [do] and [undo]; the other factories of commands.js are
        embedded by their [do] and [undo] functions and are not entries of
        the lists, so a statement about "every history" speaks of the
        histories of these six kinds. *)

From Stdlib Require Import List String Bool ZArith QArith Qabs Qround Qminmax Lqa Lia.
Import ListNotations.

Local Open Scope string_scope.
Local Open Scope Q_scope.
Local Open Scope list_scope.

(** ** Numbers *)

(** [Math.min] / [Math.max]. *)
Definition jsMin (a b : Q) : Q := if Qle_bool a b then a else b.
Definition jsMax (a b : Q) : Q := if Qle_bool a b then b else a.

(** Truncation toward zero, as in the quotient of the [%] operator. *)
Definition Qtrunc (q : Q) : Z := Z.quot (Qnum q) (Zpos (Qden q)).

(** The [%] operator on numbers: the result takes the sign of the
    dividend. *)
Definition jsRem (a m : Q) : Q := a - m * inject_Z (Qtrunc (a / m)).

(** [a !== b] on numbers. *)
Definition numNeq (a b : Q) : bool := negb (Qeq_bool a b).

(** [x ?? d] *)
Definition orElse {A : Type} (o : option A) (d : A) : A :=
  match o with Some v => v | None => d end.

(** ** Data model *)

Record Pos : Type := mkPos { x : Q; y : Q }.

(** A width: a number, or a string such as "76%" (not the text of a
    number: as an operand of [*] or [/] it is NaN). *)
Inductive Dim : Type :=
| pixels (n : Q)
| cssLength (s : string).

(** [size]: the width is a number, a string or absent; the height is a
    number or absent. *)
Record Size : Type := mkSize { width : option Dim; height : option Q }.

(** [typeof w === "number" ? w : undefined] *)
Definition numeric (w : option Dim) : option Q :=
  match w with
  | Some (pixels n) => Some n
  | _ => None
  end.

(** The number [w ?? 0] and [w || 0] are in arithmetic: [None] is NaN. *)
Definition numberOr0 (w : option Dim) : option Q :=
  match w with
  | None => Some 0
  | Some (pixels n) => Some n
  | Some (cssLength _) => None
  end.

(** A crop object: its keys with their values, in the order in which a
    spread and [JSON.stringify] go through them.  A value is a number, or
    [None] for [null]; a key whose value is [undefined] counts as absent,
    which no read of the code tells apart ([?? 0], a spread followed by
    [JSON.stringify]). *)
Definition Crop : Type := list (string * option Q).

Inductive BlockType : Type := text | image | line | palette | other.

Module Block.
Record t : Type := mk {
  id : string;
  type : BlockType;
  position : option Pos;
  size : option Size;
  rotation : option Q;
  fontSize : option Q;
  crop : option (option Crop);
  groupId : option string;
  locked : bool }.

Definition setGroupId (g : option string) (b : t) : t :=
  mk (id b) (type b) (position b) (size b) (rotation b) (fontSize b)
     (crop b) g (locked b).
End Block.

(** The [crop] key of a block: absent ([None]), [null] ([Some None]) or an
    object. *)

(** A patch handed to [updateBlock]: [None] is a key the patch does not
    have.  [size] can be patched to [null] (ResizeCommand does so when the
    block had no size), hence the nested option; a crop is always patched
    to an object. *)
Record Patch : Type := mkPatch {
  p_position : option Pos;
  p_size : option (option Size);
  p_rotation : option Q;
  p_fontSize : option Q;
  p_crop : option Crop }.

Definition emptyPatch : Patch := mkPatch None None None None None.

(** [Object.assign(b, patch)] *)
Definition assignPatch (patch : Patch) (b : Block.t) : Block.t :=
  Block.mk (Block.id b) (Block.type b)
    (match p_position patch with Some p => Some p | None => Block.position b end)
    (match p_size patch with Some s => s | None => Block.size b end)
    (match p_rotation patch with Some r => Some r | None => Block.rotation b end)
    (match p_fontSize patch with Some f => Some f | None => Block.fontSize b end)
    (match p_crop patch with
     | Some c => Some (Some c)
     | None => Block.crop b
     end)
    (Block.groupId b) (Block.locked b).

Record GSize : Type := mkGSize { gwidth : Q; gheight : Q }.

Definition Offsets : Type := list (string * Pos).

Module Group.
Record t : Type := mk {
  id : string;
  childIds : list string;
  blockIds : list string;
  position : Pos;
  size : GSize;
  rotation : Q;
  blockOffsets : Offsets }.
End Group.

(** The argument of [addGroup]. *)
Record GroupSpec : Type := mkGroupSpec {
  gs_id : option string;
  gs_childIds : option (list string);
  gs_blockIds : option (list string);
  gs_position : option Pos;
  gs_size : option GSize;
  gs_rotation : option Q;
  gs_blockOffsets : option Offsets }.

(** The patch of [updateGroup]. *)
Record GroupPatch : Type := mkGroupPatch {
  gp_childIds : option (list string);
  gp_blockIds : option (list string);
  gp_position : option Pos;
  gp_size : option GSize;
  gp_rotation : option Q;
  gp_blockOffsets : option Offsets }.

Definition emptyGroupPatch : GroupPatch :=
  mkGroupPatch None None None None None None.

Module Page.
Record t : Type := mk { id : string; blocks : list Block.t }.
End Page.

(** ** Commands (src/stores/commands.js) *)

Inductive Command : Type :=
| MoveCommand (blockId : string) (oldP newP : Pos)
| ResizeCommand (blockId : string) (oldS newS : option Size)
    (oldP newP : option Pos) (oldFontSize newFontSize : option Q)
| RotateCommand (blockId : string) (oldR newR : Q)
    (childOld childNew : option (list (string * Patch)))
| CropCommand (blockId : string) (oldC newC : Crop)
| GroupCommand (groupId : string) (ids : list string)
    (groupMeta : option GroupSpec)
    (oldGroups : option (list (string * option string)))
    (createdGroup : bool)
| GroupTransformCommand (groupId : string) (gb ga : option Group.t)
    (cb ca : list (string * Patch)).

(** ** The store (src/stores/InfographicsStore.js) *)

Record Store : Type := mkStore {
  pages : list Page.t;
  activePageId : option string;
  groups : list Group.t;
  undoStack : list Command;
  redoStack : list Command }.

Definition setPages (ps : list Page.t) (st : Store) : Store :=
  mkStore ps (activePageId st) (groups st) (undoStack st) (redoStack st).

Definition setGroups (gs : list Group.t) (st : Store) : Store :=
  mkStore (pages st) (activePageId st) gs (undoStack st) (redoStack st).

Definition hasId (i : string) (b : Block.t) : bool := String.eqb (Block.id b) i.

(** [getBlockById]: the first block with that id, pages in order. *)
Fixpoint findInPages (i : string) (ps : list Page.t) : option Block.t :=
  match ps with
  | [] => None
  | p :: rest =>
      match find (hasId i) (Page.blocks p) with
      | Some b => Some b
      | None => findInPages i rest
      end
  end.

Definition getBlockById (st : Store) (i : string) : option Block.t :=
  findInPages i (pages st).

(** [findPageContainingBlock] *)
Definition findPageContainingBlock (st : Store) (i : string) : option Page.t :=
  find (fun p => existsb (hasId i) (Page.blocks p)) (pages st).

(** [get activePage] *)
Definition activePage (st : Store) : option Page.t :=
  match activePageId st with
  | None => None
  | Some a => find (fun p => String.eqb (Page.id p) a) (pages st)
  end.

(** [setActivePage(pageId)] *)
Definition setActivePage (pageId : option string) (st : Store) : Store :=
  mkStore (pages st) pageId (groups st) (undoStack st) (redoStack st).

(** In-place mutation of the object [getBlockById] returns. *)
Fixpoint mutateFirst (i : string) (f : Block.t -> Block.t) (bs : list Block.t)
  : list Block.t :=
  match bs with
  | [] => []
  | b :: rest => if hasId i b then f b :: rest else b :: mutateFirst i f rest
  end.

Fixpoint mutateInPages (i : string) (f : Block.t -> Block.t) (ps : list Page.t)
  : list Page.t :=
  match ps with
  | [] => []
  | p :: rest =>
      if existsb (hasId i) (Page.blocks p)
      then Page.mk (Page.id p) (mutateFirst i f (Page.blocks p)) :: rest
      else p :: mutateInPages i f rest
  end.

Definition mutateBlock (i : string) (f : Block.t -> Block.t) (st : Store) : Store :=
  setPages (mutateInPages i f (pages st)) st.

(** [updateBlock(id, patch)] *)
Definition updateBlock (i : string) (patch : Patch) (st : Store) : Store :=
  mutateBlock i (assignPatch patch) st.

(** [getGroupById] *)
Definition getGroupById (st : Store) (g : string) : option Group.t :=
  find (fun gr => String.eqb (Group.id gr) g) (groups st).

(** [new Set(array)]: distinct elements in order of first occurrence. *)
Fixpoint jsSet (l : list string) : list string :=
  match l with
  | [] => []
  | a :: rest => a :: filter (fun b => negb (String.eqb a b)) (jsSet rest)
  end.

Definition includes (i : string) (l : list string) : bool :=
  existsb (String.eqb i) l.

(** [if (b && b.groupId === groupId) delete b.groupId] *)
Definition detachIfMember (groupId : string) (b : Block.t) : Block.t :=
  match Block.groupId b with
  | Some g => if String.eqb g groupId then Block.setGroupId None b else b
  | None => b
  end.

(** [addGroup(group)]; [genId] is the id [genId("group")] would return. *)
Definition normalizeGroup (genId : string) (group : GroupSpec) : Group.t :=
  Group.mk
    (orElse (gs_id group) genId)
    (match gs_childIds group with
     | Some c => c
     | None => orElse (gs_blockIds group) []
     end)
    (match gs_blockIds group with
     | Some c => c
     | None => orElse (gs_childIds group) []
     end)
    (orElse (gs_position group) (mkPos 0 0))
    (orElse (gs_size group) (mkGSize 0 0))
    (orElse (gs_rotation group) 0)
    (orElse (gs_blockOffsets group) []).

Definition addGroup (genId : string) (group : GroupSpec) (st : Store) : Store :=
  let g := normalizeGroup genId group in
  let st1 := setGroups (groups st ++ [g]) st in
  fold_left
    (fun s bid => mutateBlock bid (Block.setGroupId (Some (Group.id g))) s)
    (Group.childIds g) st1.

(** Replace the element [findIndex] points at. *)
Fixpoint replaceFirstGroup (g : string) (new : Group.t) (gs : list Group.t)
  : list Group.t :=
  match gs with
  | [] => []
  | gr :: rest =>
      if String.eqb (Group.id gr) g then new :: rest
      else gr :: replaceFirstGroup g new rest
  end.

(** [splice(idx, 1)] at the index [findIndex] returns. *)
Fixpoint removeFirstGroup (g : string) (gs : list Group.t) : list Group.t :=
  match gs with
  | [] => []
  | gr :: rest =>
      if String.eqb (Group.id gr) g then rest
      else gr :: removeFirstGroup g rest
  end.

(** The [childIds] a patch carries after the [blockIds] normalisation. *)
Definition patchChildIds (patch : GroupPatch) : option (list string) :=
  match gp_childIds patch with
  | Some c => Some c
  | None => gp_blockIds patch
  end.

(** The two loops of [updateGroup] over the old and the new id sets. *)
Definition detachRemoved (groupId : string) (oldIds newIds : list string)
  (st : Store) : Store :=
  fold_left
    (fun s oldId =>
       if negb (includes oldId newIds)
       then mutateBlock oldId (detachIfMember groupId) s else s)
    oldIds st.

Definition attachAdded (groupId : string) (oldIds newIds : list string)
  (st : Store) : Store :=
  fold_left
    (fun s newId =>
       if negb (includes newId oldIds)
       then mutateBlock newId (Block.setGroupId (Some groupId)) s else s)
    newIds st.

(** The [allowed] loop of [updateGroup] ([meta] is not modelled). *)
Definition assignAllowed (patch : GroupPatch) (g : Group.t) : Group.t :=
  Group.mk (Group.id g) (Group.childIds g) (Group.blockIds g)
    (orElse (gp_position patch) (Group.position g))
    (orElse (gp_size patch) (Group.size g))
    (orElse (gp_rotation patch) (Group.rotation g))
    (orElse (gp_blockOffsets patch) (Group.blockOffsets g)).

Definition setIds (ids : list string) (g : Group.t) : Group.t :=
  Group.mk (Group.id g) ids ids (Group.position g) (Group.size g)
    (Group.rotation g) (Group.blockOffsets g).

(** [updateGroup(groupId, patch)] *)
Definition updateGroup (groupId : string) (patch : GroupPatch) (st : Store)
  : Store :=
  match getGroupById st groupId with
  | None => st
  | Some g =>
      match patchChildIds patch with
      | Some newIds =>
          let oldSet := jsSet (Group.childIds g) in
          let newSet := jsSet newIds in
          let st1 := detachRemoved groupId oldSet newSet st in
          let st2 := attachAdded groupId oldSet newSet st1 in
          setGroups
            (replaceFirstGroup groupId (assignAllowed patch (setIds newIds g))
               (groups st2)) st2
      | None =>
          setGroups
            (replaceFirstGroup groupId (assignAllowed patch g) (groups st)) st
      end
  end.

(** [removeGroup(groupId)] *)
Definition removeGroup (groupId : string) (st : Store) : Store :=
  match getGroupById st groupId with
  | None => st
  | Some g =>
      let st1 :=
        fold_left (fun s bid => mutateBlock bid (detachIfMember groupId) s)
          (Group.childIds g) st in
      setGroups (removeFirstGroup groupId (groups st1)) st1
  end.

(** ** Command bodies *)

(** What running [do] or [undo] inside a [try] leaves behind: the store and
    the command object as mutated so far, and whether an exception
    escaped. *)
Inductive Outcome : Type :=
| Done (st : Store) (cmd : Command)
| Threw (st : Store) (cmd : Command).

Definition outcomeStore (o : Outcome) : Store :=
  match o with Done st _ => st | Threw st _ => st end.

(** [Object.entries(m).forEach(([id, patch]) => store.updateBlock(id, patch))] *)
Definition updateBlocks (m : list (string * Patch)) (st : Store) : Store :=
  fold_left (fun s e => updateBlock (fst e) (snd e) s) m st.

(** [obj[k] = v] on an object used as a map. *)
Fixpoint objSet {A : Type} (k : string) (v : A) (m : list (string * A))
  : list (string * A) :=
  match m with
  | [] => [(k, v)]
  | (k', v') :: rest =>
      if String.eqb k' k then (k, v) :: rest else (k', v') :: objSet k v rest
  end.

(** [obj[k]] *)
Fixpoint objGet {A : Type} (k : string) (m : list (string * A)) : option A :=
  match m with
  | [] => None
  | (k', v) :: rest => if String.eqb k' k then Some v else objGet k rest
  end.

(** [page.blocks = newBlocks] on the object [store.activePage] returned. *)
Fixpoint setBlocksOfPage (pid : string) (bs : list Block.t) (ps : list Page.t)
  : list Page.t :=
  match ps with
  | [] => []
  | p :: rest =>
      if String.eqb (Page.id p) pid then Page.mk (Page.id p) bs :: rest
      else p :: setBlocksOfPage pid bs rest
  end.

Definition setActiveBlocks (page : Page.t) (bs : list Block.t) (st : Store)
  : Store :=
  setPages (setBlocksOfPage (Page.id page) bs (pages st)) st.

(** The old group ids [GroupCommand.do] records while mapping the page. *)
Definition captureOldGroups (ids : list string) (bs : list Block.t)
  : list (string * option string) :=
  fold_left
    (fun m b =>
       if includes (Block.id b) ids
       then objSet (Block.id b) (Block.groupId b) m else m)
    bs [].

Definition groupToPatch (g : Group.t) : GroupPatch :=
  mkGroupPatch (Some (Group.childIds g)) (Some (Group.blockIds g))
    (Some (Group.position g)) (Some (Group.size g))
    (Some (Group.rotation g)) (Some (Group.blockOffsets g)).

(** [g.childIds = g.childIds.filter(...)] on the object [getGroupById]
    returned: the alias [blockIds] is left as it is. *)
Definition filterChildIds (ids : list string) (g : Group.t) : Group.t :=
  Group.mk (Group.id g)
    (filter (fun i => negb (includes i ids)) (Group.childIds g))
    (Group.blockIds g) (Group.position g) (Group.size g) (Group.rotation g)
    (Group.blockOffsets g).

Definition cmd_do (cmd : Command) (st : Store) : Outcome :=
  match cmd with
  | MoveCommand blockId _ newP =>
      Done (updateBlock blockId (mkPatch (Some newP) None None None None) st) cmd
  | ResizeCommand blockId _ newS _ newP _ newFontSize =>
      Done (updateBlock blockId
              (mkPatch newP (Some newS) None newFontSize None) st) cmd
  | RotateCommand blockId _ newR _ childNew =>
      let st1 :=
        updateBlock blockId (mkPatch None None (Some newR) None None) st in
      Done (match childNew with
            | Some m => updateBlocks m st1
            | None => st1
            end) cmd
  | CropCommand blockId _ newC =>
      Done (updateBlock blockId (mkPatch None None None None (Some newC)) st) cmd
  | GroupCommand groupId ids groupMeta _ createdGroup =>
      match activePage st with
      | None =>
          (* [page.blocks] on [null] raises a TypeError *)
          Threw st (GroupCommand groupId ids groupMeta (Some []) createdGroup)
      | Some page =>
          let oldGroups := captureOldGroups ids (Page.blocks page) in
          let st1 :=
            setActiveBlocks page
              (map (fun b =>
                      if includes (Block.id b) ids
                      then Block.setGroupId (Some groupId) b else b)
                 (Page.blocks page)) st in
          match getGroupById st1 groupId with
          | None =>
              let meta :=
                orElse groupMeta
                  (mkGroupSpec None (Some ids) None None None None None) in
              Done (addGroup groupId
                      (mkGroupSpec (Some groupId) (Some ids) None
                         (Some (orElse (gs_position meta) (mkPos 0 0)))
                         (Some (orElse (gs_size meta) (mkGSize 0 0)))
                         (Some (orElse (gs_rotation meta) 0))
                         None) st1)
                (GroupCommand groupId ids groupMeta (Some oldGroups) true)
          | Some existing =>
              let newChildIds := jsSet (Group.childIds existing ++ ids) in
              Done (updateGroup (Group.id existing)
                      (mkGroupPatch (Some newChildIds) None None None None None)
                      st1)
                (GroupCommand groupId ids groupMeta (Some oldGroups)
                   createdGroup)
          end
      end
  | GroupTransformCommand groupId _ ga _ ca =>
      let st1 :=
        match ga with
        | Some g => updateGroup groupId (groupToPatch g) st
        | None => st
        end in
      Done (updateBlocks ca st1) cmd
  end.

Definition cmd_undo (cmd : Command) (st : Store) : Outcome :=
  match cmd with
  | MoveCommand blockId oldP _ =>
      Done (updateBlock blockId (mkPatch (Some oldP) None None None None) st) cmd
  | ResizeCommand blockId oldS _ oldP _ oldFontSize _ =>
      Done (updateBlock blockId
              (mkPatch oldP (Some oldS) None oldFontSize None) st) cmd
  | RotateCommand blockId oldR _ childOld _ =>
      let st1 :=
        updateBlock blockId (mkPatch None None (Some oldR) None None) st in
      Done (match childOld with
            | Some m => updateBlocks m st1
            | None => st1
            end) cmd
  | CropCommand blockId oldC _ =>
      Done (updateBlock blockId (mkPatch None None None None (Some oldC)) st) cmd
  | GroupCommand groupId ids _ oldGroups createdGroup =>
      match activePage st with
      | None => Threw st cmd
      | Some page =>
          let st1 :=
            setActiveBlocks page
              (map (fun b =>
                      if includes (Block.id b) ids
                      then Block.setGroupId
                             (match oldGroups with
                              | Some m => orElse (objGet (Block.id b) m) None
                              | None => None
                              end) b
                      else b)
                 (Page.blocks page)) st in
          if createdGroup then Done (removeGroup groupId st1) cmd
          else
            match getGroupById st1 groupId with
            | Some g =>
                Done (setGroups
                        (replaceFirstGroup groupId (filterChildIds ids g)
                           (groups st1)) st1) cmd
            | None => Done st1 cmd
            end
      end
  | GroupTransformCommand groupId gb _ cb _ =>
      let st1 :=
        match gb with
        | Some g => updateGroup groupId (groupToPatch g) st
        | None => st
        end in
      Done (updateBlocks cb st1) cmd
  end.

(** ** The command stack *)

Definition setStacks (u r : list Command) (st : Store) : Store :=
  mkStore (pages st) (activePageId st) (groups st) u r.

(** [applyCommand(cmd)]: [do], [push] and the reset of [redoStack] are the
    three statements of one [try] block. *)
Definition applyCommand (cmd : Command) (st : Store) : Store :=
  match cmd_do cmd st with
  | Done st1 cmd1 => setStacks (undoStack st1 ++ [cmd1]) [] st1
  | Threw st1 _ => st1
  end.

(** [array.pop()] *)
Definition pop {A : Type} (l : list A) : option (list A * A) :=
  match rev l with
  | [] => None
  | a :: r => Some (rev r, a)
  end.

(** [undo()]: the [pop] comes before the [try]. *)
Definition undo (st : Store) : Store :=
  match pop (undoStack st) with
  | None => st
  | Some (rest, cmd) =>
      let st0 := setStacks rest (redoStack st) st in
      match cmd_undo cmd st0 with
      | Done st1 cmd1 => setStacks (undoStack st1) (redoStack st1 ++ [cmd1]) st1
      | Threw st1 _ => st1
      end
  end.

(** [redo()] *)
Definition redo (st : Store) : Store :=
  match pop (redoStack st) with
  | None => st
  | Some (rest, cmd) =>
      let st0 := setStacks (undoStack st) rest st in
      match cmd_do cmd st0 with
      | Done st1 cmd1 => setStacks (undoStack st1 ++ [cmd1]) (redoStack st1) st1
      | Threw st1 _ => st1
      end
  end.

Definition canUndo (st : Store) : bool := negb (Nat.eqb (List.length (undoStack st)) 0).
Definition canRedo (st : Store) : bool := negb (Nat.eqb (List.length (redoStack st)) 0).

(** ** Canvas configuration helpers *)

(** [clampCropValue(value, min = 0, max = 45)] *)
Definition clampCropValue (value : Q) : Q := jsMin (jsMax value 0) 45.

(** The object [getCropValues] returns, [{ top, right, bottom, left }]. *)
Record CropValues : Type := mkCropValues {
  cv_top : Q; cv_right : Q; cv_bottom : Q; cv_left : Q }.

(** [crop.k ?? 0] *)
Definition cropInset (k : string) (c : Crop) : Q :=
  match objGet k c with
  | Some (Some v) => v
  | _ => 0
  end.

(** [getCropValues(crop = {})] for an argument that is [undefined] or an
    object: every inset defaults to 0.  (On [null] the default parameter
    does not apply and [crop.top] throws a TypeError; the one caller that
    can pass [null], the group crop branch, is modelled with that case.) *)
Definition getCropValues (crop : option Crop) : CropValues :=
  match crop with
  | None => mkCropValues 0 0 0 0
  | Some c =>
      mkCropValues (cropInset "top" c) (cropInset "right" c)
        (cropInset "bottom" c) (cropInset "left" c)
  end.

(** A [CropValues] object as a crop: its four keys in the order in which
    [getCropValues] lists them. *)
Definition cropOfValues (v : CropValues) : Crop :=
  [("top", Some (cv_top v)); ("right", Some (cv_right v));
   ("bottom", Some (cv_bottom v)); ("left", Some (cv_left v))].

(** [b.crop ? { ...b.crop } : undefined]: the crop when it is an object. *)
Definition cropObject (c : option (option Crop)) : option Crop :=
  match c with
  | Some (Some o) => Some o
  | _ => None
  end.

Definition isText (t : BlockType) : bool :=
  match t with text => true | _ => false end.

Definition isImage (t : BlockType) : bool :=
  match t with image => true | _ => false end.

Definition isSome {A : Type} (o : option A) : bool :=
  match o with Some _ => true | None => false end.

(** [hasNumericSize(block)] on a type and a size. *)
Definition hasNumericSize (t : BlockType) (s : option Size) : bool :=
  match s with
  | None => false
  | Some sz =>
      if isText t then isSome (numeric (width sz))
      else isSome (numeric (width sz)) && isSome (height sz)
  end.

(** ** Interaction session (the canvas page component) *)

Inductive InteractionType : Type := move | resize | rotate | crop_.

Record Rect : Type := mkRect {
  r_left : Q; r_top : Q; r_width : Q; r_height : Q }.

Record PointerEvent : Type := mkEvent { clientX : Q; clientY : Q }.

(** What the handlers read from the DOM: the canvas rectangle
    ([canvasRef.current?.getBoundingClientRect()]), the workspace rectangle
    when [workspaceRef.current] is set, and the window's inner size. *)
Record Env : Type := mkEnv {
  canvas : option Rect;
  workspace : option Rect;
  innerWidth : Q;
  innerHeight : Q }.

Record BlockSnapshot : Type := mkBlockSnapshot {
  bs_id : string;
  bs_position : Pos;
  bs_size : Size;
  bs_rotation : Q;
  bs_fontSize : option Q;
  bs_type : BlockType;
  bs_crop : option Crop }.

Record ChildSnapshot : Type := mkChildSnapshot {
  cs_id : string;
  cs_position : Pos;
  cs_size : Size;
  cs_rotation : Q;
  cs_fontSize : option Q }.

(** The payload stored in [interactionRef.current].  For a group the
    source stores one cloned group under both [blockSnapshot] and
    [groupSnapshot]: that is [groupSnapshot] here, and [blockSnapshot] is
    the snapshot of a single block. *)
Record Interaction : Type := mkInteraction {
  i_type : InteractionType;
  i_blockId : string;
  startX : Q;
  startY : Q;
  canvasRect : Rect;
  blockSnapshot : option BlockSnapshot;
  groupSnapshot : option Group.t;
  groupSnapshotPosition : Pos;
  groupBlockIds : list string;
  childSnapshots : list ChildSnapshot;
  i_blockOffsets : Offsets;
  handle : option string;
  center : option Pos;
  startAngle : Q;
  initialRotation : Q }.

(** [id.startsWith("g-")] *)
Definition isGroupId (i : string) : bool := String.prefix "g-" i.

(** [getGroupBlockIds(group)] *)
Definition getGroupBlockIds (g : Group.t) : list string :=
  match Group.childIds g with
  | _ :: _ => Group.childIds g
  | [] => Group.blockIds g
  end.

(** [handle.includes(part)] *)
Fixpoint strIncludes (part s : string) : bool :=
  if String.prefix part s then true
  else match s with
       | EmptyString => false
       | String _ rest => strIncludes part rest
       end.

(** [x || d] on a number: 0 is falsy. *)
Definition orIfZero (v d : Q) : Q := if Qeq_bool v 0 then d else v.

Definition snapshotChild (b : Block.t) : ChildSnapshot :=
  mkChildSnapshot (Block.id b)
    (orElse (Block.position b) (mkPos 0 0))
    (orElse (Block.size b) (mkSize (Some (pixels 0)) (Some 0)))
    (orElse (Block.rotation b) 0)
    (Block.fontSize b).

Definition snapshotBlock (b : Block.t) : BlockSnapshot :=
  mkBlockSnapshot (Block.id b)
    (orElse (Block.position b) (mkPos 0 0))
    (orElse (Block.size b) (mkSize (Some (pixels 0)) (Some 0)))
    (orElse (Block.rotation b) 0)
    (Block.fontSize b) (Block.type b) (cropObject (Block.crop b)).

(** [.map(...).filter(Boolean)] over the group's child ids. *)
Fixpoint collectChildren (st : Store) (ids : list string) : list ChildSnapshot :=
  match ids with
  | [] => []
  | bid :: rest =>
      match getBlockById st bid with
      | Some b => snapshotChild b :: collectChildren st rest
      | None => collectChildren st rest
      end
  end.

(** Offsets computed from live positions when the group stores none. *)
Definition computeOffsets (st : Store) (groupPos : Pos) (ids : list string)
  : Offsets :=
  fold_left
    (fun m bid =>
       match getBlockById st bid with
       | None => m
       | Some b =>
           let p := orElse (Block.position b) (mkPos 0 0) in
           objSet bid (mkPos (x p - x groupPos) (y p - y groupPos)) m
       end)
    ids [].

Section Geometry.

(** [Math.cos], [Math.sin], [Math.atan2(y, x)], [Math.PI] *)
Variables (cos sin : Q -> Q) (atan2 : Q -> Q -> Q) (PI : Q).

(** [beginInteraction(event, type, blockId, options)]: the payload put in
    [interactionRef.current], or [None] when the function returns before
    storing one. *)
Definition beginInteraction (env : Env) (st : Store) (event : PointerEvent)
  (type : InteractionType) (blockId : string) (optHandle : option string)
  : option Interaction :=
  match canvas env with
  | None => None
  | Some cRect =>
      if isGroupId blockId then
        match getGroupById st blockId with
        | None => None
        | Some g =>
            let groupBlockIds := Group.childIds g in
            let childSnapshots := collectChildren st groupBlockIds in
            let storedOffsets := Group.blockOffsets g in
            let blockOffsets :=
              match storedOffsets with
              | _ :: _ => storedOffsets
              | [] => computeOffsets st (Group.position g) groupBlockIds
              end in
            let blockWidth := gwidth (Group.size g) in
            let blockHeight := gheight (Group.size g) in
            let centerX := r_left cRect + x (Group.position g) + blockWidth / 2 in
            let centerY := r_top cRect + y (Group.position g) + blockHeight / 2 in
            Some (mkInteraction type blockId (clientX event) (clientY event)
                    cRect None (Some g) (Group.position g) groupBlockIds
                    childSnapshots blockOffsets optHandle
                    (match type with
                     | rotate => Some (mkPos centerX centerY)
                     | _ => None
                     end)
                    (match type with
                     | rotate =>
                         atan2 (clientY event - centerY)
                           (clientX event - centerX)
                     | _ => 0
                     end)
                    (match type with
                     | rotate => Group.rotation g
                     | _ => 0
                     end))
        end
      else
        match getBlockById st blockId with
        | None => None
        | Some b =>
            if Block.locked b then None
            else
              let rot := match type with rotate => true | _ => false end
                         && hasNumericSize (Block.type b) (Block.size b) in
              let sz := orElse (Block.size b) (mkSize None None) in
              let blockWidth := orElse (numeric (width sz)) 0 in
              let blockHeight := orElse (height sz) 0 in
              let p := orElse (Block.position b) (mkPos 0 0) in
              let centerX := r_left cRect + x p + blockWidth / 2 in
              let centerY := r_top cRect + y p + blockHeight / 2 in
              Some (mkInteraction type blockId (clientX event) (clientY event)
                      cRect (Some (snapshotBlock b)) None (mkPos 0 0) [] []
                      [] optHandle
                      (if rot then Some (mkPos centerX centerY) else None)
                      (if rot
                       then atan2 (clientY event - centerY)
                              (clientX event - centerX)
                       else 0)
                      (if rot then orElse (Block.rotation b) 0 else 0))
        end
  end.

Definition workspaceRectOf (env : Env) : Rect :=
  match workspace env with
  | Some r => r
  | None => mkRect 0 0 (innerWidth env) (innerHeight env)
  end.

(** [Math.min(Math.max(v, lo), hi)] *)
Definition clampBetween (v lo hi : Q) : Q := jsMin (jsMax v lo) hi.

Definition allowOutsideFactor : Q := 0.9.

(** The move clamp shared by the group and the single-block branch: the
    clamped top-left corner for a candidate corner, a size and a
    rotation in degrees. *)
Definition clampTopLeft (env : Env) (cRect : Rect) (w h rot : Q)
  (cand : Pos) : Pos :=
  let workspaceRect := workspaceRectOf env in
  let theta := (rot * PI) / 180 in
  let c := Qabs (cos theta) in
  let s := Qabs (sin theta) in
  let effectiveW := Qabs (w * c) + Qabs (h * s) in
  let effectiveH := Qabs (w * s) + Qabs (h * c) in
  let workspaceLeftInCanvas := r_left workspaceRect - r_left cRect in
  let workspaceTopInCanvas := r_top workspaceRect - r_top cRect in
  let workspaceRightInCanvas := workspaceLeftInCanvas + r_width workspaceRect in
  let workspaceBottomInCanvas := workspaceTopInCanvas + r_height workspaceRect in
  let minX := workspaceLeftInCanvas - effectiveW * allowOutsideFactor in
  let minY := workspaceTopInCanvas - effectiveH * allowOutsideFactor in
  let maxX := workspaceRightInCanvas - effectiveW in
  let maxY := workspaceBottomInCanvas - effectiveH in
  mkPos (clampBetween (x cand) minX maxX) (clampBetween (y cand) minY maxY).

Definition positionPatch (p : Pos) : Patch :=
  mkPatch (Some p) None None None None.

Definition groupPositionPatch (p : Pos) : GroupPatch :=
  mkGroupPatch None None (Some p) None None None.

(** --- GROUP MOVE branch --- *)
Definition groupMove (env : Env) (i : Interaction) (event : PointerEvent)
  (st : Store) : Store :=
  let deltaX := clientX event - startX i in
  let deltaY := clientY event - startY i in
  let newGroupX := x (groupSnapshotPosition i) + deltaX in
  let newGroupY := y (groupSnapshotPosition i) + deltaY in
  let gw := match groupSnapshot i with
            | Some g => gwidth (Group.size g) | None => 0 end in
  let gh := match groupSnapshot i with
            | Some g => gheight (Group.size g) | None => 0 end in
  let grot := match groupSnapshot i with
              | Some g => Group.rotation g | None => 0 end in
  let clamped :=
    clampTopLeft env (canvasRect i) gw gh grot (mkPos newGroupX newGroupY) in
  let clampedGroupX := x clamped in
  let clampedGroupY := y clamped in
  let offsets := i_blockOffsets i in
  let childIds := groupBlockIds i in
  let st1 :=
    fold_left
      (fun s childId =>
         let offset := orElse (objGet childId offsets) (mkPos 0 0) in
         updateBlock childId
           (positionPatch
              (mkPos (clampedGroupX + x offset) (clampedGroupY + y offset)))
           s)
      childIds st in
  updateGroup (i_blockId i)
    (groupPositionPatch (mkPos clampedGroupX clampedGroupY)) st1.

(** [!interaction.handle]: a missing or empty handle. *)
Definition handleOf (i : Interaction) : option string :=
  match handle i with
  | Some EmptyString => None
  | h => h
  end.

(** [typeof size.width === "number"] scales the width, and likewise the
    height; a string width is kept. *)
Definition scaleSize (sx sy : Q) (s : Size) : Size :=
  mkSize (match width s with
          | Some (pixels w) => Some (pixels (w * sx))
          | w => w
          end)
    (option_map (fun h => h * sy) (height s)).

(** --- GROUP RESIZE branch --- *)
Definition groupResize (i : Interaction) (event : PointerEvent) (st : Store)
  : Store :=
  match groupSnapshot i, handleOf i with
  | Some snap, Some h =>
      let deltaX := clientX event - startX i in
      let deltaY := clientY event - startY i in
      let startWidth := gwidth (Group.size snap) in
      let startHeight := gheight (Group.size snap) in
      let startX := x (Group.position snap) in
      let startY := y (Group.position snap) in
      let '(newGroupWidth1, scaleX1) :=
        if strIncludes "right" h
        then (jsMax 40 (startWidth + deltaX),
              jsMax 40 (startWidth + deltaX) / orIfZero startWidth 1)
        else (startWidth, 1) in
      let '(newGroupWidth, scaleX, newGroupX) :=
        if strIncludes "left" h
        then let newWidth := jsMax 40 (startWidth - deltaX) in
             (newWidth, newWidth / orIfZero startWidth 1,
              startX + (startWidth - newWidth))
        else (newGroupWidth1, scaleX1, startX) in
      let '(newGroupHeight1, scaleY1) :=
        if strIncludes "bottom" h
        then (jsMax 40 (startHeight + deltaY),
              jsMax 40 (startHeight + deltaY) / orIfZero startHeight 1)
        else (startHeight, 1) in
      let '(newGroupHeight, scaleY, newGroupY) :=
        if strIncludes "top" h
        then let newHeight := jsMax 40 (startHeight - deltaY) in
             (newHeight, newHeight / orIfZero startHeight 1,
              startY + (startHeight - newHeight))
        else (newGroupHeight1, scaleY1, startY) in
      let blockOffsets := i_blockOffsets i in
      let st1 :=
        fold_left
          (fun s bid =>
             match find (fun c => String.eqb (cs_id c) bid) (childSnapshots i) with
             | None => s
             | Some snapshot =>
                 let offset := orElse (objGet bid blockOffsets) (mkPos 0 0) in
                 let newBlockX := newGroupX + x offset * scaleX in
                 let newBlockY := newGroupY + y offset * scaleY in
                 let newSize := scaleSize scaleX scaleY (cs_size snapshot) in
                 let newFontSize :=
                   match getBlockById s bid, cs_fontSize snapshot with
                   | Some blk, Some f =>
                       if isText (Block.type blk)
                       then Some (f * jsMin scaleX scaleY) else Some f
                   | _, f => f
                   end in
                 updateBlock bid
                   (mkPatch (Some (mkPos newBlockX newBlockY))
                      (Some (Some newSize)) None newFontSize None) s
             end)
          (groupBlockIds i) st in
      let newOffsets :=
        map (fun e => (fst e, mkPos (x (snd e) * scaleX) (y (snd e) * scaleY)))
          blockOffsets in
      updateGroup (i_blockId i)
        (mkGroupPatch None None (Some (mkPos newGroupX newGroupY))
           (Some (mkGSize newGroupWidth newGroupHeight)) None
           (Some newOffsets)) st1
  | _, _ => st
  end.

Definition scaleCropTotals (c : CropValues) : CropValues :=
  let totalHorizontal := cv_left c + cv_right c in
  let totalVertical := cv_top c + cv_bottom c in
  let c1 :=
    if Qlt_le_dec 90 totalHorizontal
    then let scale := 90 / totalHorizontal in
         mkCropValues (cv_top c) (cv_right c * scale) (cv_bottom c)
           (cv_left c * scale)
    else c in
  if Qlt_le_dec 90 totalVertical
  then let scale := 90 / totalVertical in
       mkCropValues (cv_top c1 * scale) (cv_right c1) (cv_bottom c1 * scale)
         (cv_left c1)
  else c1.

(** The crop one child of a group receives on a pointer move. *)
Definition groupCropNext (h : string) (cropDeltaX cropDeltaY : Q)
  (currentCrop : CropValues) : CropValues :=
  let l := if String.eqb h "left"
           then clampCropValue (cv_left currentCrop + cropDeltaX)
           else cv_left currentCrop in
  let r := if String.eqb h "right"
           then clampCropValue (cv_right currentCrop - cropDeltaX)
           else cv_right currentCrop in
  let t := if String.eqb h "top"
           then clampCropValue (cv_top currentCrop + cropDeltaY)
           else cv_top currentCrop in
  let b := if String.eqb h "bottom"
           then clampCropValue (cv_bottom currentCrop - cropDeltaY)
           else cv_bottom currentCrop in
  scaleCropTotals (mkCropValues t r b l).

Definition cropPatch (c : CropValues) : Patch :=
  mkPatch None None None None (Some (cropOfValues c)).

(** The [forEach] of the group crop branch over the child ids: a child
    that is missing or is not an image is skipped; on an image whose crop
    is [null], [getCropValues(block.crop)] throws and the handler ends
    there, with the children before it cropped and the others as they
    were. *)
Fixpoint cropChildren (h : string) (cropDeltaX cropDeltaY : Q)
  (ids : list string) (st : Store) : Store :=
  match ids with
  | [] => st
  | bid :: rest =>
      match getBlockById st bid with
      | None => cropChildren h cropDeltaX cropDeltaY rest st
      | Some block =>
          if isImage (Block.type block) then
            match Block.crop block with
            | Some None => st
            | currentCrop =>
                cropChildren h cropDeltaX cropDeltaY rest
                  (updateBlock bid
                     (cropPatch
                        (groupCropNext h cropDeltaX cropDeltaY
                           (getCropValues (cropObject currentCrop)))) st)
            end
          else cropChildren h cropDeltaX cropDeltaY rest st
      end
  end.

(** --- GROUP CROP branch ---: the store when the handler returns or
    throws. *)
Definition groupCrop (i : Interaction) (event : PointerEvent) (st : Store)
  : Store :=
  match groupSnapshot i, handleOf i with
  | Some group, Some h =>
      let deltaX := clientX event - startX i in
      let deltaY := clientY event - startY i in
      let startWidth := orIfZero (gwidth (Group.size group)) 1 in
      let startHeight := orIfZero (gheight (Group.size group)) 1 in
      let cropDeltaX := (deltaX / startWidth) * 100 in
      let cropDeltaY := (deltaY / startHeight) * 100 in
      cropChildren h cropDeltaX cropDeltaY (getGroupBlockIds group) st
  | _, _ => st
  end.

(** [((deltaAngle * 180) / Math.PI + initialRotation) % 360] *)
Definition rotationDegrees (deltaAngle initialRotation : Q) : Q :=
  jsRem ((deltaAngle * 180) / PI + initialRotation) 360.

(** The angle of the pointer around the centre, minus the start angle. *)
Definition pointerDeltaAngle (c : Pos) (startAngle : Q)
  (event : PointerEvent) : Q :=
  atan2 (clientY event - y c) (clientX event - x c) - startAngle.

(** [{ ...a, ...b }] on objects used as maps. *)
Definition objMerge {A : Type} (a b : list (string * A)) : list (string * A) :=
  fold_left (fun m e => objSet (fst e) (snd e) m) b a.

(** The position one child gets when its group is turned by
    [deltaRadians] around [(groupCx, groupCy)], for the number
    [childWidth] its width stands for. *)
Definition turnedPosition (groupCx groupCy deltaRadians childWidth : Q)
  (snapshot : ChildSnapshot) : Pos :=
  let childHeight := orElse (height (cs_size snapshot)) 0 in
  let childCx := x (cs_position snapshot) + childWidth / 2 in
  let childCy := y (cs_position snapshot) + childHeight / 2 in
  let dx := childCx - groupCx in
  let dy := childCy - groupCy in
  let newDx := dx * cos deltaRadians - dy * sin deltaRadians in
  let newDy := dx * sin deltaRadians + dy * cos deltaRadians in
  mkPos (groupCx + newDx - childWidth / 2) (groupCy + newDy - childHeight / 2).

(** The rotation and position one child gets when its group is turned.
    With a string for [snapshot.size.width], [childWidth / 2] is NaN and
    so are both coordinates of the position: that is [None]. *)
Definition rotateChild (groupCx groupCy deltaRadians deltaDegrees : Q)
  (snapshot : ChildSnapshot) : Q * option Pos :=
  (cs_rotation snapshot + deltaDegrees,
   option_map
     (fun childWidth =>
        turnedPosition groupCx groupCy deltaRadians childWidth snapshot)
     (numberOr0 (width (cs_size snapshot)))).

(** --- GROUP ROTATE branch ---.  For a child whose position is NaN
    (see [rotateChild]) the code writes the NaN coordinates and a NaN
    offset; here the child then gets its rotation only and keeps its
    position and the offset the group stores for it. *)
Definition groupRotate (i : Interaction) (event : PointerEvent) (st : Store)
  : Store :=
  match groupSnapshot i, center i with
  | Some snap, Some c =>
      let deltaAngle := pointerDeltaAngle c (startAngle i) event in
      let degrees := rotationDegrees deltaAngle (initialRotation i) in
      let deltaDegrees := (deltaAngle * 180) / PI in
      let groupCx := x (Group.position snap) + gwidth (Group.size snap) / 2 in
      let groupCy := y (Group.position snap) + gheight (Group.size snap) / 2 in
      let updates :=
        fold_left
          (fun m snapshot =>
             objSet (cs_id snapshot)
               (rotateChild groupCx groupCy deltaAngle deltaDegrees snapshot) m)
          (childSnapshots i) [] in
      let st1 :=
        fold_left
          (fun s e =>
             updateBlock (fst e)
               (mkPatch (snd (snd e)) None (Some (fst (snd e))) None None)
               s)
          updates st in
      let newBlockOffsets :=
        flat_map
          (fun e =>
             match snd (snd e) with
             | Some p =>
                 [(fst e,
                   mkPos (x p - x (Group.position snap))
                     (y p - y (Group.position snap)))]
             | None => []
             end)
          updates in
      let stored :=
        match getGroupById st1 (i_blockId i) with
        | Some g => Group.blockOffsets g
        | None => []
        end in
      updateGroup (i_blockId i)
        (mkGroupPatch None None None None (Some degrees)
           (Some (objMerge stored newBlockOffsets))) st1
  | _, _ => st
  end.

(** --- SINGLE BLOCK MOVE ---.  With a string for [bSnap.size.width],
    [w * c] is NaN, and so are both bounds of the clamp and both
    coordinates the code writes; a position holds rationals, and the
    store is left as it is in that case. *)
Definition singleMove (env : Env) (i : Interaction) (event : PointerEvent)
  (st : Store) : Store :=
  match blockSnapshot i with
  | None => st
  | Some bSnap =>
      let deltaX := clientX event - startX i in
      let deltaY := clientY event - startY i in
      let nextX := x (bs_position bSnap) + deltaX in
      let nextY := y (bs_position bSnap) + deltaY in
      match numberOr0 (width (bs_size bSnap)) with
      | Some w =>
          let h := orElse (height (bs_size bSnap)) 0 in
          updateBlock (bs_id bSnap)
            (positionPatch
               (clampTopLeft env (canvasRect i) w h (bs_rotation bSnap)
                  (mkPos nextX nextY))) st
      | None => st
      end
  end.

(** [Math.max(0.5, Math.min(newWidth / startWidth, 3))], the factor of the
    font size.  For a start width of 0 the quotient is not a rational: it
    is [Infinity] for a positive new width, which the clamp takes to 3,
    [-Infinity] for a negative one, which it takes to 0.5, and NaN for
    0 / 0, which the clamp leaves NaN: that is [None]. *)
Definition fontScale (newWidth startWidth : Q) : option Q :=
  if Qeq_bool startWidth 0 then
    if Qeq_bool newWidth 0 then None
    else if Qle_bool 0 newWidth then Some 3
    else Some 0.5
  else Some (jsMax 0.5 (jsMin (newWidth / startWidth) 3)).

(** The geometry a resize writes: position, size and, for the text
    top-left handle, the font size.  Where the factor of the font size is
    NaN (a text block of width 0 whose left edge stays at 0) the code
    writes [fontSize: NaN]; a font size is a rational here, and the patch
    of that one case carries no font size. *)
Definition resizePatch (cRect : Rect) (snap : BlockSnapshot) (h : string)
  (deltaX deltaY : Q) : Patch :=
  let startWidth := orElse (numeric (width (bs_size snap))) 0 in
  if isText (bs_type snap) && String.eqb h "top-left" then
    let minWidth := 20 in
    let rightEdge := x (bs_position snap) + startWidth in
    let newLeft0 := x (bs_position snap) + deltaX in
    let maxLeft := rightEdge - minWidth in
    let newLeft := jsMax 0 (jsMin newLeft0 maxLeft) in
    let newWidth := rightEdge - newLeft in
    let startFontSize := orElse (bs_fontSize snap) 16 in
    let newFontSize :=
      option_map (fun scale => startFontSize * scale)
        (fontScale newWidth startWidth) in
    mkPatch (Some (mkPos newLeft (y (bs_position snap))))
      (Some (Some (mkSize (Some (pixels newWidth)) (height (bs_size snap)))))
      None newFontSize None
  else
    let startHeight := height (bs_size snap) in
    let minSize := 40 in
    let nextWidth1 :=
      if strIncludes "right" h
      then let maxWidth := r_width cRect - x (bs_position snap) in
           jsMax minSize (jsMin (startWidth + deltaX) maxWidth)
      else startWidth in
    let '(nextX, nextWidth) :=
      if strIncludes "left" h
      then let rightEdge := x (bs_position snap) + startWidth in
           let newLeft :=
             jsMax 0 (jsMin (x (bs_position snap) + deltaX)
                        (rightEdge - minSize)) in
           (newLeft, rightEdge - newLeft)
      else (x (bs_position snap), nextWidth1) in
    let nextHeight1 :=
      match startHeight with
      | Some sh =>
          if strIncludes "bottom" h
          then let maxHeight := r_height cRect - y (bs_position snap) in
               Some (jsMax minSize (jsMin (sh + deltaY) maxHeight))
          else Some sh
      | None => None
      end in
    let '(nextY, nextHeight) :=
      match startHeight with
      | Some sh =>
          if strIncludes "top" h
          then let bottomEdge := y (bs_position snap) + sh in
               let newTop :=
                 jsMax 0 (jsMin (y (bs_position snap) + deltaY)
                            (bottomEdge - minSize)) in
               (newTop, Some (bottomEdge - newTop))
          else (y (bs_position snap), nextHeight1)
      | None => (y (bs_position snap), nextHeight1)
      end in
    mkPatch (Some (mkPos nextX nextY))
      (Some (Some (mkSize (Some (pixels nextWidth)) nextHeight))) None None None.

(** --- SINGLE BLOCK RESIZE --- *)
Definition singleResize (i : Interaction) (event : PointerEvent) (st : Store)
  : Store :=
  match blockSnapshot i with
  | None => st
  | Some snap =>
      if hasNumericSize (bs_type snap) (Some (bs_size snap)) then
        match handleOf i with
        | None => st
        | Some h =>
            updateBlock (bs_id snap)
              (resizePatch (canvasRect i) snap h
                 (clientX event - startX i) (clientY event - startY i)) st
        end
      else st
  end.

Definition MIN_VISIBLE_PERCENT : Q := 1.

Definition clamp100 (v : Q) : Q := jsMin (jsMax v 0) 100.

(** [dim > 0 ? (delta / dim) * 100 : 0] *)
Definition percentOf (dim delta : Q) : Q :=
  if Qlt_le_dec 0 dim then (delta / dim) * 100 else 0.

(** The crop a single image receives on a pointer move: the snapshot's
    insets, the image size, the handle and the pointer delta. *)
Definition cropNext (cropSnapshot : CropValues) (w h : Q) (hd : string)
  (deltaX deltaY : Q) : CropValues :=
  let dxPercent := percentOf w deltaX in
  let dyPercent := percentOf h deltaY in
  let l0 :=
    if String.eqb hd "left"
    then jsMin (clamp100 (cv_left cropSnapshot + dxPercent))
           (100 - cv_right cropSnapshot - MIN_VISIBLE_PERCENT)
    else cv_left cropSnapshot in
  let r0 :=
    if String.eqb hd "right"
    then jsMin (clamp100 (cv_right cropSnapshot - dxPercent))
           (100 - cv_left cropSnapshot - MIN_VISIBLE_PERCENT)
    else cv_right cropSnapshot in
  let t0 :=
    if String.eqb hd "top"
    then jsMin (clamp100 (cv_top cropSnapshot + dyPercent))
           (100 - cv_bottom cropSnapshot - MIN_VISIBLE_PERCENT)
    else cv_top cropSnapshot in
  let b0 :=
    if String.eqb hd "bottom"
    then jsMin (clamp100 (cv_bottom cropSnapshot - dyPercent))
           (100 - cv_top cropSnapshot - MIN_VISIBLE_PERCENT)
    else cv_bottom cropSnapshot in
  let l1 := clamp100 l0 in
  let r1 := clamp100 r0 in
  let t1 := clamp100 t0 in
  let b1 := clamp100 b0 in
  let visibleH := 100 - (l1 + r1) in
  let '(l2, r2) :=
    if Qlt_le_dec visibleH MIN_VISIBLE_PERCENT then
      if String.eqb hd "left"
      then (100 - r1 - MIN_VISIBLE_PERCENT, r1)
      else if String.eqb hd "right"
      then (l1, 100 - l1 - MIN_VISIBLE_PERCENT)
      else let excess := MIN_VISIBLE_PERCENT - visibleH in
           let l' := clamp100 (l1 - excess / 2) in
           (l', clamp100 (r1 - excess / 2))
    else (l1, r1) in
  let visibleV := 100 - (t1 + b1) in
  let '(t2, b2) :=
    if Qlt_le_dec visibleV MIN_VISIBLE_PERCENT then
      if String.eqb hd "top"
      then (100 - b1 - MIN_VISIBLE_PERCENT, b1)
      else if String.eqb hd "bottom"
      then (t1, 100 - t1 - MIN_VISIBLE_PERCENT)
      else let excess := MIN_VISIBLE_PERCENT - visibleV in
           let t' := clamp100 (t1 - excess / 2) in
           (t', clamp100 (b1 - excess / 2))
    else (t1, b1) in
  mkCropValues t2 r2 b2 l2.

(** --- SINGLE BLOCK CROP --- *)
Definition singleCrop (i : Interaction) (event : PointerEvent) (st : Store)
  : Store :=
  match blockSnapshot i with
  | None => st
  | Some snap =>
      if isImage (bs_type snap)
         && hasNumericSize (bs_type snap) (Some (bs_size snap))
      then
        match handleOf i with
        | None => st
        | Some hd =>
            updateBlock (bs_id snap)
              (cropPatch
                 (cropNext (getCropValues (bs_crop snap))
                    (orElse (numeric (width (bs_size snap))) 0)
                    (orElse (height (bs_size snap)) 0) hd
                    (clientX event - startX i) (clientY event - startY i)))
              st
        end
      else st
  end.

(** --- SINGLE BLOCK ROTATE --- *)
Definition singleRotate (i : Interaction) (event : PointerEvent) (st : Store)
  : Store :=
  match blockSnapshot i with
  | None => st
  | Some snap =>
      if hasNumericSize (bs_type snap) (Some (bs_size snap)) then
        match center i with
        | None => st
        | Some c =>
            let deltaAngle := pointerDeltaAngle c (startAngle i) event in
            updateBlock (bs_id snap)
              (mkPatch None None
                 (Some (rotationDegrees deltaAngle (initialRotation i)))
                 None None) st
        end
      else st
  end.

(** [handlePointerMove(event)] for the payload in [interactionRef]. *)
Definition handlePointerMove (env : Env) (i : Interaction)
  (event : PointerEvent) (st : Store) : Store :=
  if isGroupId (i_blockId i) then
    match i_type i with
    | move => groupMove env i event st
    | resize => groupResize i event st
    | crop_ => groupCrop i event st
    | rotate => groupRotate i event st
    end
  else
    match i_type i with
    | move => singleMove env i event st
    | resize => singleResize i event st
    | crop_ => singleCrop i event st
    | rotate => singleRotate i event st
    end.
End Geometry.

(** ** Finalisation on pointer-up *)

(** Equality of [JSON.stringify] outputs, on the values the handler
    serialises: numbers by value, a missing key equal only to a missing
    key, arrays and maps in order. *)
Definition optEqb {A : Type} (eqb : A -> A -> bool) (a b : option A) : bool :=
  match a, b with
  | Some u, Some v => eqb u v
  | None, None => true
  | _, _ => false
  end.

Fixpoint listEqb {A : Type} (eqb : A -> A -> bool) (a b : list A) : bool :=
  match a, b with
  | [], [] => true
  | u :: a', v :: b' => eqb u v && listEqb eqb a' b'
  | _, _ => false
  end.

Definition entryEqb {A : Type} (eqb : A -> A -> bool) (a b : string * A) : bool :=
  String.eqb (fst a) (fst b) && eqb (snd a) (snd b).

(** [JSON.stringify(a) === JSON.stringify(b)] on crop objects: the same
    keys in the same order, with equal values. *)
Definition cropEqb (a b : Crop) : bool :=
  listEqb (entryEqb (optEqb Qeq_bool)) a b.

Definition posEqb (a b : Pos) : bool :=
  Qeq_bool (x a) (x b) && Qeq_bool (y a) (y b).

Definition dimEqb (a b : Dim) : bool :=
  match a, b with
  | pixels m, pixels n => Qeq_bool m n
  | cssLength s, cssLength t => String.eqb s t
  | _, _ => false
  end.

Definition sizeEqb (a b : Size) : bool :=
  optEqb dimEqb (width a) (width b) && optEqb Qeq_bool (height a) (height b).

Definition patchEqb (a b : Patch) : bool :=
  optEqb posEqb (p_position a) (p_position b)
  && optEqb (optEqb sizeEqb) (p_size a) (p_size b)
  && optEqb Qeq_bool (p_rotation a) (p_rotation b)
  && optEqb Qeq_bool (p_fontSize a) (p_fontSize b)
  && optEqb cropEqb (p_crop a) (p_crop b).

Definition groupEqb (a b : Group.t) : bool :=
  String.eqb (Group.id a) (Group.id b)
  && listEqb String.eqb (Group.childIds a) (Group.childIds b)
  && listEqb String.eqb (Group.blockIds a) (Group.blockIds b)
  && posEqb (Group.position a) (Group.position b)
  && Qeq_bool (gwidth (Group.size a)) (gwidth (Group.size b))
  && Qeq_bool (gheight (Group.size a)) (gheight (Group.size b))
  && Qeq_bool (Group.rotation a) (Group.rotation b)
  && listEqb (entryEqb posEqb) (Group.blockOffsets a) (Group.blockOffsets b).

(** The entry of [childBefore] built from a captured snapshot. *)
Definition childBeforeOf (s : ChildSnapshot) : Patch :=
  mkPatch (Some (cs_position s)) (Some (Some (cs_size s)))
    (Some (cs_rotation s)) (cs_fontSize s) None.

(** The entry of [childAfter] read from the live block. *)
Definition childAfterOf (b : Block.t) : Patch :=
  mkPatch (Block.position b) (option_map Some (Block.size b))
    (Block.rotation b) (Block.fontSize b) None.

Definition buildChildBefore (snaps : list ChildSnapshot) : list (string * Patch) :=
  fold_left (fun m s => objSet (cs_id s) (childBeforeOf s) m) snaps [].

Definition buildChildAfter (st : Store) (ids : list string) : list (string * Patch) :=
  fold_left
    (fun m cid =>
       match getBlockById st cid with
       | Some b => objSet cid (childAfterOf b) m
       | None => m
       end)
    ids [].

(** The command [endInteraction] hands to [applyCommand], if any. *)
Definition finalCommand (i : Interaction) (st : Store) : option Command :=
  if isGroupId (i_blockId i) then
    let groupBefore :=
      match groupSnapshot i with
      | Some g => Some g
      | None => getGroupById st (i_blockId i)
      end in
    let groupAfter := getGroupById st (i_blockId i) in
    let childBefore := buildChildBefore (childSnapshots i) in
    let childIds :=
      match groupAfter with
      | Some g =>
          match Group.childIds g with
          | _ :: _ => Group.childIds g
          | [] => groupBlockIds i
          end
      | None => groupBlockIds i
      end in
    let childAfter := buildChildAfter st childIds in
    if optEqb groupEqb groupBefore groupAfter
       && listEqb (entryEqb patchEqb) childBefore childAfter
    then None
    else Some (GroupTransformCommand (i_blockId i) groupBefore groupAfter
                 childBefore childAfter)
  else
    match blockSnapshot i with
    | None => None
    | Some snap =>
        let blockIdFinal := bs_id snap in
        match getBlockById st blockIdFinal with
        | None => None
        | Some current =>
            match i_type i with
            | move =>
                let beforePos := bs_position snap in
                match Block.position current with
                | Some afterPos =>
                    if numNeq (x beforePos) (x afterPos)
                       || numNeq (y beforePos) (y afterPos)
                    then Some (MoveCommand blockIdFinal beforePos afterPos)
                    else None
                | None => None
                end
            | resize =>
                let beforeSize := Some (bs_size snap) in
                let afterSize := Block.size current in
                let beforePos := Some (bs_position snap) in
                let afterPos := Block.position current in
                let beforeFont := bs_fontSize snap in
                let afterFont := Block.fontSize current in
                if negb (optEqb sizeEqb beforeSize afterSize)
                   || negb (optEqb posEqb beforePos afterPos)
                   || negb (optEqb Qeq_bool beforeFont afterFont)
                then Some (ResizeCommand blockIdFinal beforeSize afterSize
                             beforePos afterPos beforeFont afterFont)
                else None
            | rotate =>
                let beforeRot := bs_rotation snap in
                let afterRot := orElse (Block.rotation current) 0 in
                if numNeq beforeRot afterRot
                then Some (RotateCommand blockIdFinal beforeRot afterRot
                             None None)
                else None
            | crop_ =>
                let beforeCrop := orElse (bs_crop snap) [] in
                let afterCrop := orElse (cropObject (Block.crop current)) [] in
                if negb (cropEqb beforeCrop afterCrop)
                then Some (CropCommand blockIdFinal beforeCrop afterCrop)
                else None
            end
        end
    end.

(** [endInteraction()] on the store, for the payload that was in
    [interactionRef]. *)
Definition endInteraction (i : Interaction) (st : Store) : Store :=
  match finalCommand i st with
  | Some cmd => applyCommand cmd st
  | None => st
  end.

(** ** The editor: the store and the single interaction slot *)

Record Editor : Type := mkEditor {
  store : Store;
  interactionRef : option Interaction }.

Section Gestures.

Variables (cos sin : Q -> Q) (atan2 : Q -> Q -> Q) (PI : Q).

Definition pointerDown (env : Env) (event : PointerEvent)
  (type : InteractionType) (blockId : string) (optHandle : option string)
  (ed : Editor) : Editor :=
  match beginInteraction atan2 env (store ed) event type blockId optHandle with
  | Some payload => mkEditor (store ed) (Some payload)
  | None => ed
  end.

Definition pointerMove (env : Env) (event : PointerEvent) (ed : Editor)
  : Editor :=
  match interactionRef ed with
  | Some i =>
      mkEditor (handlePointerMove cos sin atan2 PI env i event (store ed))
        (Some i)
  | None => ed
  end.

Definition pointerUp (ed : Editor) : Editor :=
  match interactionRef ed with
  | Some i => mkEditor (endInteraction i (store ed)) None
  | None => ed
  end.

End Gestures.

(** A loop that mutates the blocks of a list of ids, the block of id [i]
    with [F i]. *)
Definition mutateAll (F : string -> Block.t -> Block.t) (ids : list string)
  (st : Store) : Store :=
  fold_left (fun s i => mutateBlock i (F i) s) ids st.

(** ** Move gestures on one group *)

Inductive UiEvent : Type :=
| Down (e : PointerEvent)
| Move (e : PointerEvent)
| Up.

Section GroupMoveModel.

Variables (cos sin : Q -> Q) (atan2 : Q -> Q -> Q) (PI : Q).
Variables (env : Env) (gid : string).

(** Pointer events of move gestures on the group [gid]. *)
Definition moveStep (ed : Editor) (u : UiEvent) : Editor :=
  match u with
  | Down e => pointerDown atan2 env e move gid None ed
  | Move e => pointerMove cos sin atan2 PI env e ed
  | Up => pointerUp ed
  end.


Definition movedChild (offsets : Offsets) (cx cy : Q) (cid : string) : Patch :=
  positionPatch
    (mkPos (cx + x (orElse (objGet cid offsets) (mkPos 0 0)))
       (cy + y (orElse (objGet cid offsets) (mkPos 0 0)))).



End GroupMoveModel.

(** * Statements and sample values *)

(** Every block the store can look up that points at a group is listed in
    the [childIds] of a registered group with that id. *)
Definition membershipConsistent (st : Store) : Prop :=
  forall bid b gid,
    getBlockById st bid = Some b ->
    Block.groupId b = Some gid ->
    exists g, In g (groups st) /\ Group.id g = gid /\ In bid (Group.childIds g).

Inductive GroupOp : Type :=
| OpAddGroup (genId : string) (group : GroupSpec)
| OpUpdateGroup (groupId : string) (patch : GroupPatch)
| OpRemoveGroup (groupId : string).

Definition applyGroupOp (st : Store) (op : GroupOp) : Store :=
  match op with
  | OpAddGroup genId group => addGroup genId group st
  | OpUpdateGroup groupId patch => updateGroup groupId patch st
  | OpRemoveGroup groupId => removeGroup groupId st
  end.

Definition runGroupOps (ops : list GroupOp) (st : Store) : Store :=
  fold_left applyGroupOp ops st.

(** Sample values used by the examples below. *)
Definition demoBlock (i : string) (g : option string) : Block.t :=
  Block.mk i image (Some (mkPos 10 10)) (Some (mkSize (Some (pixels 50)) (Some 50)))
    None None None g false.

Definition demoStore : Store :=
  mkStore [Page.mk "page_1" [demoBlock "a" None; demoBlock "b" None]]
    (Some "page_1") [] [] [].

Definition childSpec (gid : string) (ids : list string) : GroupSpec :=
  mkGroupSpec (Some gid) (Some ids) None None None None None.

Definition childIdsPatch (ids : list string) : GroupPatch :=
  mkGroupPatch (Some ids) None None None None None.

(** A store where block "a" is still listed by "g-1" but points at
    "g-2". *)
Definition reassignedStore : Store :=
  addGroup "g-2" (childSpec "g-2" ["a"])
    (addGroup "g-1" (childSpec "g-1" ["a"; "b"]) demoStore).

Definition stacks (st : Store) : list Command * list Command :=
  (undoStack st, redoStack st).

(** The store [createInfographicsStore()] builds from its default
    argument: no page, hence no active page. *)
Definition emptyStore : Store := mkStore [] None [] [] [].

(** On a store without an active page [GroupCommand]'s [do] and [undo]
    throw at [page.blocks]. *)
Definition groupingCommand : Command := GroupCommand "g-1" ["a"] None None false.

Definition moveA : Command := MoveCommand "a" (mkPos 0 0) (mkPos 5 5).

Definition applyAll (cmds : list Command) (st : Store) : Store :=
  fold_left (fun s c => applyCommand c s) cmds st.

(** No [do] of the sequence throws. *)
Fixpoint allReturn (cmds : list Command) (st : Store) : bool :=
  match cmds with
  | [] => true
  | c :: rest =>
      match cmd_do c st with
      | Done _ _ => allReturn rest (applyCommand c st)
      | Threw _ _ => false
      end
  end.

(** A group "g-1" with children "a" and "b", and a free block "c". *)
Definition mergeStore : Store :=
  addGroup "g-1" (childSpec "g-1" ["a"; "b"])
    (mkStore
       [Page.mk "page_1"
          [demoBlock "a" None; demoBlock "b" None; demoBlock "c" None]]
       (Some "page_1") [] [] []).

(** Group "b" and "c" into the existing group "g-1". *)
Definition mergeCommand : Command :=
  GroupCommand "g-1" ["b"; "c"] None None false.

(** A text block without a fontSize, and the ResizeCommand endInteraction
    builds after its top-left handle was dragged. *)
Definition plainText : Block.t :=
  Block.mk "t" text (Some (mkPos 10 10)) (Some (mkSize (Some (pixels 100)) None))
    None None None None false.

Definition textStore : Store :=
  mkStore [Page.mk "page_1" [plainText]] (Some "page_1") [] [] [].

Definition textResize : Command :=
  ResizeCommand "t" (Some (mkSize (Some (pixels 100)) None))
    (Some (mkSize (Some (pixels 80)) None))
    (Some (mkPos 10 10)) (Some (mkPos 30 10)) None (Some 12.8).

(** What [v % 360] is: congruent to [v] modulo 360, strictly between -360
    and 360, and of the sign of [v]. *)
Definition remainderOf (v r : Q) : Prop :=
  -360 < r /\ r < 360
  /\ (exists k : Z, r == v - 360 * inject_Z k)
  /\ (0 <= v -> 0 <= r)
  /\ (v <= 0 -> r <= 0).

(** Stand-ins for [Math.PI], [Math.atan2], [Math.cos] and [Math.sin] in
    the examples: a rational half turn, and functions that take their
    exact values (in units of that half turn) at the multiples of a
    quarter turn, the only angles the examples use. *)
Definition ratPI : Q := 355 # 113.

Definition axisAtan2 (dy dx : Q) : Q :=
  if Qeq_bool dy 0 then (if Qle_bool 0 dx then 0 else ratPI)
  else if Qle_bool 0 dy then ratPI / 2 else - (ratPI / 2).

Definition axisCos (t : Q) : Q :=
  if Qeq_bool t 0 then 1
  else if Qeq_bool (Qabs t) ratPI then -1 else 0.

Definition axisSin (t : Q) : Q :=
  if Qeq_bool t (ratPI / 2) then 1
  else if Qeq_bool t (- (ratPI / 2)) then -1 else 0.

(** A 260 x 551 canvas at the origin of a 1000 x 800 window, no workspace
    element. *)
Definition demoEnv : Env := mkEnv (Some (mkRect 0 0 260 551)) None 1000 800.

(** A block with the rotation of the first image of the sample data. *)
Definition tiltedStore : Store :=
  mkStore
    [Page.mk "page_1"
       [Block.mk "img" image (Some (mkPos 10 10))
          (Some (mkSize (Some (pixels 50)) (Some 50))) (Some (-20)) None None
          None false]]
    (Some "page_1") [] [] [].

(** The bounds of the crop insets: each within [0, 100], and at least
    [MIN_VISIBLE_PERCENT] of the image left visible on each axis. *)
Definition cropBounds (c : CropValues) : Prop :=
  0 <= cv_top c /\ cv_top c <= 100
  /\ 0 <= cv_right c /\ cv_right c <= 100
  /\ 0 <= cv_bottom c /\ cv_bottom c <= 100
  /\ 0 <= cv_left c /\ cv_left c <= 100
  /\ cv_left c + cv_right c <= 100 - MIN_VISIBLE_PERCENT
  /\ cv_top c + cv_bottom c <= 100 - MIN_VISIBLE_PERCENT.

(** One application of a crop delta: by the single-block crop branch, to
    an image of size [w] x [h] and for a pointer delta in pixels, or by
    the group crop branch, for a delta in percent of the size of the
    group. *)
Inductive CropStep : Type :=
| SingleStep (hd : string) (w h deltaX deltaY : Q)
| GroupStep (hd : string) (cropDeltaX cropDeltaY : Q).

Definition applyCropStep (c : CropValues) (s : CropStep) : CropValues :=
  match s with
  | SingleStep hd w h deltaX deltaY => cropNext c w h hd deltaX deltaY
  | GroupStep hd cropDeltaX cropDeltaY =>
      groupCropNext hd cropDeltaX cropDeltaY c
  end.

Definition demoCropSteps : list CropStep :=
  [SingleStep "left" 200 100 20 0;
   SingleStep "right" 200 100 (-400) 0;
   GroupStep "left" 60 0;
   SingleStep "top" 200 100 0 500;
   GroupStep "bottom" 0 (-70)].

(** The scenario of the specification: group "g-1" at (10, 10) with
    children "a" (offset (0, 0)) and "b" (offset (30, 0)). *)
Definition groupedStore : Store :=
  addGroup "g-1"
    (mkGroupSpec (Some "g-1") (Some ["a"; "b"]) None (Some (mkPos 10 10))
       (Some (mkGSize 80 50)) None
       (Some [("a", mkPos 0 0); ("b", mkPos 30 0)]))
    (mkStore
       [Page.mk "page_1"
          [Block.mk "a" image (Some (mkPos 10 10))
             (Some (mkSize (Some (pixels 50)) (Some 50))) (Some 0) None None
             None false;
           Block.mk "b" image (Some (mkPos 40 10))
             (Some (mkSize (Some (pixels 50)) (Some 50))) (Some 0) None None
             None false]]
       (Some "page_1") [] [] []).

Definition groupedEditor : Editor := mkEditor groupedStore None.

(** The same scenario after the right edge of "a" was cropped by 80% (by
    a crop gesture on the block itself). *)
Definition croppedGroupStore : Store :=
  updateBlock "a" (cropPatch (mkCropValues 0 80 0 0)) groupedStore.

(** The block [i] of the store sits at [p]. *)
Definition blockAt (st : Store) (i : string) (p : Pos) : bool :=
  match getBlockById st i with
  | Some b => optEqb posEqb (Block.position b) (Some p)
  | None => false
  end.

(** A text block with a font size, and an image whose left edge lies
    left of the canvas origin. *)
Definition labelStore : Store :=
  mkStore
    [Page.mk "page_1"
       [Block.mk "t" text (Some (mkPos 10 10))
          (Some (mkSize (Some (pixels 100)) None))
          None (Some 16) None None false;
        Block.mk "e" image (Some (mkPos (-20) 10))
          (Some (mkSize (Some (pixels 50)) (Some 50))) None None None None false]]
    (Some "page_1") [] [] [].

(** A pointer-down on [handle] of block [i] at [down], then a pointer move
    to [event]. *)
Definition dragHandle (st : Store) (type : InteractionType) (i h : string)
  (down event : PointerEvent) : Editor :=
  pointerMove axisCos axisSin axisAtan2 ratPI demoEnv event
    (pointerDown axisAtan2 demoEnv down type i (Some h) (mkEditor st None)).

Definition sizeIs (st : Store) (i : string) (s : Size) : bool :=
  match getBlockById st i with
  | Some b => optEqb sizeEqb (Block.size b) (Some s)
  | None => false
  end.

Definition fontSizeIs (st : Store) (i : string) (f : Q) : bool :=
  match getBlockById st i with
  | Some b => optEqb Qeq_bool (Block.fontSize b) (Some f)
  | None => false
  end.

Definition demoRect : Rect := mkRect 0 0 260 551.

Definition labelSnapshot : BlockSnapshot :=
  snapshotBlock
    (Block.mk "t" text (Some (mkPos 10 10)) (Some (mkSize (Some (pixels 100)) None))
       None (Some 16) None None false).



(** The group "g-1" over the blocks "a" and "b", which have no rotation
    field. *)
Definition looseGroupStore : Store :=
  addGroup "g-1" (childSpec "g-1" ["a"; "b"]) demoStore.

(** An image whose crop object has the one key [left]. *)
Definition leftCropStore : Store :=
  mkStore
    [Page.mk "page_1"
       [Block.mk "a" image (Some (mkPos 10 10))
          (Some (mkSize (Some (pixels 50)) (Some 50))) None None
          (Some (Some [("left", Some 10)])) None false]]
    (Some "page_1") [] [] [].

(** * The rest of the store and of the command factories *)

(** ** Pages and blocks (src/stores/InfographicsStore.js) *)


(** [replaceProject(newProject)] *)
Definition replaceProject (projectPages : list Page.t)
  (projectActivePageId : option string) (st : Store) : Store :=
  mkStore projectPages
    (match projectActivePageId with
     | Some a => Some a
     | None =>
         match projectPages with
         | p :: _ => Some (Page.id p)
         | [] => activePageId st
         end
     end) (groups st) (undoStack st) (redoStack st).

(** [get blocks()] *)
Definition blocks (st : Store) : list Block.t :=
  match activePage st with
  | Some page => Page.blocks page
  | None => []
  end.


(** [(p) => p.id === pid] and [(p) => p.blocks?.some((b) => b.id === i)] *)
Definition isPage (pid : string) (p : Page.t) : bool :=
  String.eqb (Page.id p) pid.

Definition holdsBlock (i : string) (p : Page.t) : bool :=
  existsb (hasId i) (Page.blocks p).

(** [page.blocks = f(page.blocks)] on the page object [pages.find(pred)]
    returned, that is, on the first page that satisfies [pred]. *)
Fixpoint updateFirstPage (pred : Page.t -> bool)
  (f : list Block.t -> list Block.t) (ps : list Page.t) : list Page.t :=
  match ps with
  | [] => []
  | p :: rest =>
      if pred p then Page.mk (Page.id p) (f (Page.blocks p)) :: rest
      else p :: updateFirstPage pred f rest
  end.

(** [pageId ?? store.activePageId] *)
Definition pageIdOr (pageId : option string) (st : Store) : option string :=
  match pageId with
  | Some p => Some p
  | None => activePageId st
  end.

(** [pages.find((p) => p.id === pid)] for a [pid] that may be [null]. *)
Definition findPage (pid : option string) (st : Store) : option Page.t :=
  match pid with
  | Some p => find (isPage p) (pages st)
  | None => None
  end.

Definition withId (i : string) (b : Block.t) : Block.t :=
  Block.mk i (Block.type b) (Block.position b) (Block.size b)
    (Block.rotation b) (Block.fontSize b) (Block.crop b) (Block.groupId b)
    (Block.locked b).

(** [!id] on a string. *)
Definition emptyId (i : string) : bool :=
  match i with
  | EmptyString => true
  | String _ _ => false
  end.

(** [addBlockToPage(block, pageId = null)]: the store and the value
    returned; [genId] is the id [genId("b")] would return. *)
Definition addBlockToPage (genId : string) (block : Block.t)
  (pageId : option string) (st : Store) : Store * option Block.t :=
  match pageIdOr pageId st with
  | None => (st, None)
  | Some pid =>
      match find (isPage pid) (pages st) with
      | None => (st, None)
      | Some _ =>
          let b := if emptyId (Block.id block) then withId genId block
                   else block in
          (setPages
             (updateFirstPage (isPage pid) (fun bs => bs ++ [b]) (pages st))
             st,
           Some b)
      end
  end.

(** [blocks.filter((b) => b.id !== blockId)] *)
Definition dropBlock (blockId : string) (bs : list Block.t) : list Block.t :=
  filter (fun b => negb (hasId blockId b)) bs.

Definition withChildIds (ids : list string) (g : Group.t) : Group.t :=
  Group.mk (Group.id g) ids (Group.blockIds g) (Group.position g)
    (Group.size g) (Group.rotation g) (Group.blockOffsets g).

(** [ensureGroupRemovedForBlock(blockId)]: only [childIds] is filtered. *)
Definition ensureGroupRemovedForBlock (blockId : string) (st : Store) : Store :=
  setGroups
    (map (fun g =>
            if includes blockId (Group.childIds g)
            then withChildIds
                   (filter (fun i => negb (String.eqb i blockId))
                      (Group.childIds g)) g
            else g)
       (groups st)) st.

(** [removeBlock(blockId)] *)
Definition removeBlock (blockId : string) (st : Store) : Store :=
  match findPageContainingBlock st blockId with
  | Some _ =>
      ensureGroupRemovedForBlock blockId
        (setPages
           (updateFirstPage (holdsBlock blockId) (dropBlock blockId) (pages st))
           st)
  | None =>
      match activePageId st, activePage st with
      | Some a, Some _ =>
          ensureGroupRemovedForBlock blockId
            (setPages
               (updateFirstPage (isPage a) (dropBlock blockId) (pages st)) st)
      | _, _ => st
      end
  end.

(** The ids of the pages and of their blocks, in order. *)
Definition layout (ps : list Page.t) : list (string * list string) :=
  map (fun p => (Page.id p, map Block.id (Page.blocks p))) ps.

(** [(g) => g.id === gid] *)
Definition isGroup (gid : string) (g : Group.t) : bool :=
  String.eqb (Group.id g) gid.

(** ** Walking the history *)

(** Cmd/Ctrl+Z and Cmd/Ctrl+Shift+Z. *)
Inductive HistoryOp : Type := OpUndo | OpRedo.

Definition applyHistoryOp (st : Store) (op : HistoryOp) : Store :=
  match op with
  | OpUndo => if canUndo st then undo st else st
  | OpRedo => if canRedo st then redo st else st
  end.

Definition runHistory (ops : list HistoryOp) (st : Store) : Store :=
  fold_left applyHistoryOp ops st.

(** The kinds of command pointer-up pushes: MoveCommand, ResizeCommand,
    RotateCommand, CropCommand and GroupTransformCommand.  Their [do] and
    [undo] only call [updateBlock] and [updateGroup]: they access no page
    object and assign to no variable of the command. *)
Definition plainCommand (c : Command) : bool :=
  match c with
  | MoveCommand _ _ _ => true
  | ResizeCommand _ _ _ _ _ _ _ => true
  | RotateCommand _ _ _ _ _ => true
  | CropCommand _ _ _ => true
  | GroupTransformCommand _ _ _ _ _ => true
  | GroupCommand _ _ _ _ _ => false
  end.

(** The applied commands, oldest first, followed by the undone ones in the
    order in which redo would apply them again. *)
Definition timeline (st : Store) : list Command :=
  undoStack st ++ rev (redoStack st).

(** ** Single-block commands and the block they were built for *)

(** [undo] writes a key back exactly when [old] is there: the key is
    restored when that value is the current one, and, when [undo] leaves
    the key alone, when [do] does not write it either. *)
Definition restores {A : Type} (old new cur : option A) : Prop :=
  match old with
  | Some o => cur = Some o
  | None => new = None
  end.

(** The "before" payload of a single-block command is the state of the
    block [b]. *)
Definition beforeMatches (cmd : Command) (b : Block.t) : Prop :=
  match cmd with
  | MoveCommand _ oldP _ => Block.position b = Some oldP
  | ResizeCommand _ oldS _ oldP newP oldFontSize newFontSize =>
      Block.size b = oldS
      /\ restores oldP newP (Block.position b)
      /\ restores oldFontSize newFontSize (Block.fontSize b)
  | RotateCommand _ oldR _ None None => Block.rotation b = Some oldR
  | CropCommand _ oldC _ => Block.crop b = Some (Some oldC)
  | _ => False
  end.

Definition commandTarget (cmd : Command) : string :=
  match cmd with
  | MoveCommand blockId _ _ => blockId
  | ResizeCommand blockId _ _ _ _ _ _ => blockId
  | RotateCommand blockId _ _ _ _ => blockId
  | CropCommand blockId _ _ => blockId
  | GroupCommand groupId _ _ _ _ => groupId
  | GroupTransformCommand groupId _ _ _ _ => groupId
  end.

(** ** Arrays by index *)

(** [array.findIndex(pred)] *)
Fixpoint findIndex {A : Type} (pred : A -> bool) (l : list A) : Z :=
  match l with
  | [] => (-1)%Z
  | a :: rest =>
      if pred a then 0%Z
      else let k := findIndex pred rest in
           if (k <? 0)%Z then (-1)%Z else (k + 1)%Z
  end.

(** The index at which [array.splice(start, ...)] starts: a negative
    [start] counts from the end, and the result is kept within the
    array. *)
Definition spliceStart (start : Z) (len : nat) : nat :=
  Z.to_nat
    (if (start <? 0)%Z then Z.max (Z.of_nat len + start) 0
     else Z.min start (Z.of_nat len)).

(** [array.splice(start, 1)] *)
Definition spliceOut {A : Type} (start : Z) (l : list A) : list A :=
  firstn (spliceStart start (List.length l)) l
  ++ skipn (S (spliceStart start (List.length l))) l.

(** [array.splice(start, 0, item)] *)
Definition spliceIn {A : Type} (start : Z) (item : A) (l : list A) : list A :=
  firstn (spliceStart start (List.length l)) l
  ++ item :: skipn (spliceStart start (List.length l)) l.

(** ** Page commands (src/stores/commands.js) *)

(** The variables [index] of AddPageCommand and [oldPage], [oldIndex] of
    RemovePageCommand, which [do] assigns and [undo] reads. *)
Record RemovePageVars : Type := mkRemovePageVars {
  rp_oldPage : option Page.t;
  rp_oldIndex : Z }.

Definition RemovePageCommand_new : RemovePageVars :=
  mkRemovePageVars None (-1)%Z.

(** [AddPageCommand(newPage).do]; [page] is [newPage], or the page the
    factory makes up when it is given none. *)
Definition AddPageCommand_do (page : Page.t) (st : Store) : Store * option Z :=
  (setPages (pages st ++ [page]) st,
   Some (Z.of_nat (List.length (pages st ++ [page])) - 1)%Z).

Definition AddPageCommand_undo (page : Page.t) (index : option Z) (st : Store)
  : Store :=
  match index with
  | Some k => setPages (spliceOut k (pages st)) st
  | None =>
      setPages (filter (fun p => negb (isPage (Page.id page) p)) (pages st)) st
  end.

Definition RemovePageCommand_do (pageId : string) (v : RemovePageVars)
  (st : Store) : Store * RemovePageVars :=
  let idx := findIndex (isPage pageId) (pages st) in
  if (idx =? -1)%Z then (st, v)
  else (setPages (spliceOut idx (pages st)) st,
        mkRemovePageVars (nth_error (pages st) (Z.to_nat idx)) idx).

Definition RemovePageCommand_undo (v : RemovePageVars) (st : Store) : Store :=
  match rp_oldPage v with
  | None => st
  | Some oldPage => setPages (spliceIn (rp_oldIndex v) oldPage (pages st)) st
  end.

(** ** Block commands (src/stores/commands.js) *)

(** A page object the code holds on to is identified by the predicate it
    was found with: it is the first page that satisfies the predicate. *)
Definition PageRef : Type := Page.t -> bool.

(** [store.findPageContainingBlock(blockId) || store.activePage] *)
Definition containingOrActive (blockId : string) (st : Store)
  : option (Page.t * PageRef) :=
  match findPageContainingBlock st blockId with
  | Some page => Some (page, holdsBlock blockId)
  | None =>
      match activePageId st, activePage st with
      | Some a, Some page => Some (page, isPage a)
      | _, _ => None
      end
  end.

(** The variables [oldBlock], [oldIndex] and [pageId] of
    DeleteBlockCommand. *)
Record DeleteBlockVars : Type := mkDeleteBlockVars {
  db_oldBlock : option Block.t;
  db_oldIndex : Z;
  db_pageId : option string }.

Definition DeleteBlockCommand_new : DeleteBlockVars :=
  mkDeleteBlockVars None (-1)%Z None.

Definition DeleteBlockCommand_do (blockId : string) (v : DeleteBlockVars)
  (st : Store) : Store * DeleteBlockVars :=
  match containingOrActive blockId st with
  | None => (st, v)
  | Some (page, ref) =>
      let idx := findIndex (hasId blockId) (Page.blocks page) in
      if (idx =? -1)%Z
      then (st,
            mkDeleteBlockVars (db_oldBlock v) (db_oldIndex v)
              (Some (Page.id page)))
      else (ensureGroupRemovedForBlock blockId
              (setPages
                 (updateFirstPage ref (dropBlock blockId) (pages st)) st),
            mkDeleteBlockVars
              (nth_error (Page.blocks page) (Z.to_nat idx)) idx
              (Some (Page.id page)))
  end.

Definition DeleteBlockCommand_undo (v : DeleteBlockVars) (st : Store) : Store :=
  let target : option PageRef :=
    match findPage (db_pageId v) st with
    | Some _ => option_map isPage (db_pageId v)
    | None =>
        match activePageId st, activePage st with
        | Some a, Some _ => Some (isPage a)
        | _, _ => None
        end
    end in
  match target, db_oldBlock v with
  | Some ref, Some oldBlock =>
      setPages
        (updateFirstPage ref (spliceIn (db_oldIndex v) oldBlock) (pages st)) st
  | _, _ => st
  end.

(** The variables [created] and [createdId] of AddBlockCommand and of
    DuplicateCommand. *)
Record CreatedVars : Type := mkCreatedVars {
  cr_created : option Block.t;
  cr_createdId : option string }.

(** [created?.id ?? null] at the time the factory runs. *)
Definition AddBlockCommand_new (createdBlock : option Block.t) : CreatedVars :=
  mkCreatedVars createdBlock (option_map Block.id createdBlock).

(** [{ id }]: a block object with an id and no other key. *)
Definition bareBlock (i : string) : Block.t :=
  Block.mk i other None None None None None None false.

(** [!createdId] *)
Definition noId (o : option string) : bool :=
  match o with
  | Some i => emptyId i
  | None => true
  end.

(** [AddBlockCommand({ pageId, createdBlock }).do]; [genId] is the id the
    template string would produce. *)
Definition AddBlockCommand_do (genId : string) (pageId : option string)
  (v : CreatedVars) (st : Store) : Store * CreatedVars :=
  match findPage (pageIdOr pageId st) st, pageIdOr pageId st with
  | Some _, Some pid =>
      let '(c, cid) :=
        match cr_created v with
        | None => (bareBlock genId, Some genId)
        | Some c =>
            if noId (cr_createdId v) then (withId genId c, Some genId)
            else (c, cr_createdId v)
        end in
      (setPages
         (updateFirstPage (isPage pid) (fun bs => bs ++ [c]) (pages st)) st,
       mkCreatedVars (Some c) cid)
  | _, _ => (st, v)
  end.

(** [(b) => b.id !== createdId] *)
Definition notCreated (createdId : option string) (b : Block.t) : bool :=
  match createdId with
  | Some cid => negb (hasId cid b)
  | None => true
  end.

Definition AddBlockCommand_undo (pageId : option string) (v : CreatedVars)
  (st : Store) : Store :=
  let target : option PageRef :=
    match cr_createdId v with
    | Some cid =>
        match findPageContainingBlock st cid with
        | Some _ => Some (holdsBlock cid)
        | None =>
            match findPage (pageIdOr pageId st) st with
            | Some _ => option_map isPage (pageIdOr pageId st)
            | None => None
            end
        end
    | None =>
        match findPage (pageIdOr pageId st) st with
        | Some _ => option_map isPage (pageIdOr pageId st)
        | None => None
        end
    end in
  match target with
  | Some ref =>
      setPages
        (updateFirstPage ref (filter (notCreated (cr_createdId v))) (pages st))
        st
  | None => st
  end.

(** [DuplicateCommand({ pageId, createdBlock, originalBlock })]: the
    factory throws when it is given neither block. *)
Definition DuplicateCommand_new (createdBlock originalBlock : option Block.t)
  : option CreatedVars :=
  match createdBlock, originalBlock with
  | None, None => None
  | _, _ => Some (mkCreatedVars createdBlock (option_map Block.id createdBlock))
  end.

(** The copy [do] makes of the original when it was given no created
    block. *)
Definition duplicateOf (genId : string) (orig : Block.t) : Block.t :=
  Block.mk genId (Block.type orig)
    (match Block.position orig with
     | Some p => Some (mkPos (orIfZero (x p) 0 + 12) (orIfZero (y p) 0 + 12))
     | None => None
     end)
    (Block.size orig) (Block.rotation orig) (Block.fontSize orig)
    (Block.crop orig) (Block.groupId orig) (Block.locked orig).

(** [DuplicateCommand(...).do]: [None] is the TypeError of [copy.id = ...]
    on the clone of a null original. *)
Definition DuplicateCommand_do (genId : string) (pageId : option string)
  (orig : option Block.t) (v : CreatedVars) (st : Store)
  : option (Store * CreatedVars) :=
  match findPage (pageIdOr pageId st) st, pageIdOr pageId st with
  | Some _, Some pid =>
      match cr_created v, orig with
      | Some c, _ =>
          Some (setPages
                  (updateFirstPage (isPage pid) (fun bs => bs ++ [c])
                     (pages st)) st, v)
      | None, Some o =>
          Some (setPages
                  (updateFirstPage (isPage pid)
                     (fun bs => bs ++ [duplicateOf genId o]) (pages st)) st,
                mkCreatedVars (Some (duplicateOf genId o)) (Some genId))
      | None, None => None
      end
  | _, _ => Some (st, v)
  end.

Definition DuplicateCommand_undo (pageId : option string) (v : CreatedVars)
  (st : Store) : Store :=
  match findPage (pageIdOr pageId st) st, pageIdOr pageId st with
  | Some _, Some pid =>
      setPages
        (updateFirstPage (isPage pid) (filter (notCreated (cr_createdId v)))
           (pages st)) st
  | _, _ => st
  end.

(** The id the block AddBlockCommand appends ends up with. *)
Definition createdIdOf (genId : string) (createdBlock : option Block.t)
  : string :=
  match createdBlock with
  | Some c => if emptyId (Block.id c) then genId else Block.id c
  | None => genId
  end.

(** ** UngroupCommand (src/stores/commands.js) *)

(** What a [do] or [undo] that can throw leaves behind: the store and the
    variables of the command as they are when it returns or throws. *)
Inductive Ran (V : Type) : Type :=
| Returned (st : Store) (vars : V)
| Raised (st : Store) (vars : V).

Arguments Returned {V} st vars.
Arguments Raised {V} st vars.

Definition ranStore {V : Type} (r : Ran V) : Store :=
  match r with
  | Returned st _ => st
  | Raised st _ => st
  end.

Definition ranVars {V : Type} (r : Ran V) : V :=
  match r with
  | Returned _ v => v
  | Raised _ v => v
  end.

(** The variables [oldGroups], [removedGroup] and [oldGroupSnapshot]. *)
Record UngroupVars : Type := mkUngroupVars {
  ug_oldGroups : option (list (string * option string));
  ug_removedGroup : bool;
  ug_oldGroupSnapshot : option Group.t }.

Definition UngroupCommand_new : UngroupVars := mkUngroupVars None false None.

(** [b.groupId === groupId] *)
Definition pointsAt (groupId : string) (b : Block.t) : bool :=
  match Block.groupId b with
  | Some h => String.eqb h groupId
  | None => false
  end.

(** [Array.isArray(blockIds) && blockIds.length]: the ids, when there are
    some. *)
Definition someIds (blockIds : option (list string)) : option (list string) :=
  match blockIds with
  | Some (i :: rest) => Some (i :: rest)
  | _ => None
  end.

(** The [targets] of UngroupCommand's [do]. *)
Definition ungroupTargets (groupId : string) (blockIds : option (list string))
  (st : Store) : list string :=
  match someIds blockIds with
  | Some ids => ids
  | None =>
      match getGroupById st groupId with
      | Some g => Group.childIds g
      | None => []
      end
  end.

(** [targets.includes(b.id) || b.groupId === groupId] *)
Definition ungroupHit (groupId : string) (targets : list string) (b : Block.t)
  : bool :=
  includes (Block.id b) targets || pointsAt groupId b.

(** A group record handed to [addGroup]. *)
Definition groupToSpec (g : Group.t) : GroupSpec :=
  mkGroupSpec (Some (Group.id g)) (Some (Group.childIds g))
    (Some (Group.blockIds g)) (Some (Group.position g)) (Some (Group.size g))
    (Some (Group.rotation g)) (Some (Group.blockOffsets g)).

Definition UngroupCommand_do (groupId : string)
  (blockIds : option (list string)) (v : UngroupVars) (st : Store)
  : Ran UngroupVars :=
  let g := getGroupById st groupId in
  let targets := ungroupTargets groupId blockIds st in
  match activePage st with
  | None =>
      (* [page.blocks] on [null] raises a TypeError *)
      Raised st
        (mkUngroupVars (Some []) (ug_removedGroup v) (ug_oldGroupSnapshot v))
  | Some page =>
      let oldGroups :=
        fold_left
          (fun m b =>
             if ungroupHit groupId targets b
             then objSet (Block.id b) (Block.groupId b) m else m)
          (Page.blocks page) [] in
      let st1 :=
        setActiveBlocks page
          (map (fun b =>
                  if ungroupHit groupId targets b
                  then Block.setGroupId None b else b)
             (Page.blocks page)) st in
      match g with
      | None =>
          Returned st1
            (mkUngroupVars (Some oldGroups) (ug_removedGroup v)
               (ug_oldGroupSnapshot v))
      | Some gr =>
          match someIds blockIds with
          | Some ids =>
              Returned
                (updateGroup groupId
                   (mkGroupPatch
                      (Some (filter (fun i => negb (includes i ids))
                               (Group.childIds gr)))
                      None None None None None) st1)
                (mkUngroupVars (Some oldGroups) (ug_removedGroup v) (Some gr))
          | None =>
              Returned (removeGroup groupId st1)
                (mkUngroupVars (Some oldGroups) true (Some gr))
          end
      end
  end.

Definition UngroupCommand_undo (groupId : string) (v : UngroupVars)
  (st : Store) : Ran UngroupVars :=
  match activePage st with
  | None => Raised st v
  | Some page =>
      let st1 :=
        setActiveBlocks page
          (map (fun b =>
                  match ug_oldGroups v with
                  | Some m =>
                      match objGet (Block.id b) m with
                      | Some old => Block.setGroupId old b
                      | None => b
                      end
                  | None => b
                  end)
             (Page.blocks page)) st in
      match ug_oldGroupSnapshot v with
      | Some snap =>
          if ug_removedGroup v
          then Returned (addGroup (Group.id snap) (groupToSpec snap) st1) v
          else Returned
                 (updateGroup groupId
                    (mkGroupPatch (Some (Group.childIds snap)) None None None
                       None None) st1) v
      | None => Returned st1 v
      end
  end.

(** [ids.includes(b.id) ? { ...b, groupId } : b] *)
Definition stampGroup (groupId : string) (ids : list string) (b : Block.t)
  : Block.t :=
  if includes (Block.id b) ids then Block.setGroupId (Some groupId) b else b.

(** No page other than [page] holds a block with one of the ids. *)
Definition onlyOnPage (page : Page.t) (ids : list string) (st : Store) : Prop :=
  forall i u,
    In i ids -> In u (pages st) -> holdsBlock i u = true -> u = page.

(** ** Gestures on any target *)

(** What the blocks, pages and groups of a store are, apart from their
    contents: the ids of the pages and of their blocks in order, the ids of
    the group records in order, and the active page id. *)
Definition shape (st : Store)
  : list (string * list string) * list string * option string :=
  (layout (pages st), map Group.id (groups st), activePageId st).

(** A pointer-down on a block or group (with the handle, if the pointer
    went down on one), a pointer move and a pointer-up. *)
Inductive Gesture : Type :=
| GDown (e : PointerEvent) (type : InteractionType) (blockId : string)
    (optHandle : option string)
| GMove (e : PointerEvent)
| GUp.

Section GestureRuns.

Variables (cos sin : Q -> Q) (atan2 : Q -> Q -> Q) (PI : Q).
Variable env : Env.

Definition gestureStep (ed : Editor) (g : Gesture) : Editor :=
  match g with
  | GDown e type blockId optHandle =>
      pointerDown atan2 env e type blockId optHandle ed
  | GMove e => pointerMove cos sin atan2 PI env e ed
  | GUp => pointerUp ed
  end.

Definition runGestures (gs : list Gesture) (ed : Editor) : Editor :=
  fold_left gestureStep gs ed.

End GestureRuns.

(** ** Editing sessions *)

(** What the user does on the canvas: pointer gestures, and the undo and
    redo keys. *)
Inductive EditorAction : Type :=
| Pointer (g : Gesture)
| Key (op : HistoryOp).

Section EditorRuns.

Variables (cos sin : Q -> Q) (atan2 : Q -> Q -> Q) (PI : Q).
Variable env : Env.

Definition editorStep (ed : Editor) (a : EditorAction) : Editor :=
  match a with
  | Pointer g => gestureStep cos sin atan2 PI env ed g
  | Key op => mkEditor (applyHistoryOp (store ed) op) (interactionRef ed)
  end.

Definition runEditor (acts : list EditorAction) (ed : Editor) : Editor :=
  fold_left editorStep acts ed.

End EditorRuns.

(** ** LockUnlockCommand (src/stores/commands.js) *)

Definition setLocked (l : bool) (b : Block.t) : Block.t :=
  Block.mk (Block.id b) (Block.type b) (Block.position b) (Block.size b)
    (Block.rotation b) (Block.fontSize b) (Block.crop b) (Block.groupId b) l.

(** [store.updateBlock(blockId, { locked: newL })] and
    [store.updateBlock(blockId, { locked: oldL })] *)
Definition LockUnlockCommand_do (blockId : string) (oldLocked newLocked : bool)
  (st : Store) : Store :=
  mutateBlock blockId (setLocked newLocked) st.

Definition LockUnlockCommand_undo (blockId : string)
  (oldLocked newLocked : bool) (st : Store) : Store :=
  mutateBlock blockId (setLocked oldLocked) st.

(** Every pointer-down of the sequence is on the block [id]. *)
Definition onlyTarget (id : string) (gs : list Gesture) : Prop :=
  forall e type blockId optHandle,
    In (GDown e type blockId optHandle) gs -> blockId = id.

(** ** A gesture on one block and its undo *)

(** The block has the keys a gesture of the type edits, so that the
    snapshot taken at pointer-down holds the block's own values and not
    defaults. *)
Definition editable (type : InteractionType) (b : Block.t) : Prop :=
  match type with
  | move => Block.position b <> None
  | resize =>
      Block.position b <> None /\ Block.size b <> None
      /\ (isText (Block.type b) = true -> Block.fontSize b <> None)
  | rotate => Block.rotation b <> None
  | crop_ => cropObject (Block.crop b) <> None
  end.

(** The patches a pointer move of a gesture of the type hands to
    [updateBlock]: which keys they have. *)
Definition gesturePatch (type : InteractionType) (textBlock : bool) (q : Patch)
  : Prop :=
  match type with
  | move => exists p, q = mkPatch (Some p) None None None None
  | resize =>
      exists p sz f,
        q = mkPatch (Some p) (Some (Some sz)) None f None
        /\ (f <> None -> textBlock = true)
  | rotate => exists r, q = mkPatch None None (Some r) None None
  | crop_ => exists c, q = mkPatch None None None None (Some c)
  end.

(** A whole gesture: pointer-down, pointer moves, pointer-up. *)
Definition dragGesture (down : PointerEvent) (type : InteractionType)
  (blockId : string) (optHandle : option string) (moves : list PointerEvent)
  : list Gesture :=
  GDown down type blockId optHandle :: map GMove moves ++ [GUp].

(** ** The window a move is clamped to *)

Section MoveWindow.

Variables (cos sin : Q -> Q) (PI : Q).

(** The sides of the axis-aligned box around a [w] x [h] element turned by
    [rot] degrees ([effectiveW] and [effectiveH] of the move branches). *)
Definition effectiveW (w h rot : Q) : Q :=
  Qabs (w * Qabs (cos ((rot * PI) / 180)))
  + Qabs (h * Qabs (sin ((rot * PI) / 180))).

Definition effectiveH (w h rot : Q) : Q :=
  Qabs (w * Qabs (sin ((rot * PI) / 180)))
  + Qabs (h * Qabs (cos ((rot * PI) / 180))).

(** A top-left corner [p] keeps the box of the element inside the
    workspace on the right and at the bottom, and at most
    [allowOutsideFactor] of it outside on the left and at the top; the
    workspace is given in canvas coordinates. *)
Definition inMoveWindow (env : Env) (cRect : Rect) (w h rot : Q) (p : Pos)
  : Prop :=
  let ws := workspaceRectOf env in
  let wsLeft := r_left ws - r_left cRect in
  let wsTop := r_top ws - r_top cRect in
  x p + effectiveW w h rot <= wsLeft + r_width ws
  /\ y p + effectiveH w h rot <= wsTop + r_height ws
  /\ (effectiveW w h rot * (1 - allowOutsideFactor) <= r_width ws ->
      wsLeft <= x p + effectiveW w h rot * allowOutsideFactor)
  /\ (effectiveH w h rot * (1 - allowOutsideFactor) <= r_height ws ->
      wsTop <= y p + effectiveH w h rot * allowOutsideFactor).

End MoveWindow.

(** ** Turning a group *)

(** The centre of an element of width [w], as the rotate branch computes
    it: a missing height counts as 0. *)
Definition centreOf (p : Pos) (w : Q) (s : Size) : Pos :=
  mkPos (x p + w / 2) (y p + orElse (height s) 0 / 2).

(** The square of the distance between two points. *)
Definition sqDistance (a b : Pos) : Q :=
  (x a - x b) * (x a - x b) + (y a - y b) * (y a - y b).

(** ** Resizing a group *)

(** What the group resize branch computes on one axis, from whether the
    handle names the near side ("left", "top") or the far side ("right",
    "bottom"), the start coordinate, the start extent and the pointer
    delta: the new extent, the scale factor and the new start
    coordinate. *)
Definition resizeAxis (near far : bool) (start extent delta : Q) : Q * Q * Q :=
  let '(extent1, scale1) :=
    if far
    then (jsMax 40 (extent + delta),
          jsMax 40 (extent + delta) / orIfZero extent 1)
    else (extent, 1) in
  if near
  then let newExtent := jsMax 40 (extent - delta) in
       (newExtent, newExtent / orIfZero extent 1,
        start + (extent - newExtent))
  else (extent1, scale1, start).

(** ** Cropping a group *)

(** Every inset is a percentage. *)
Definition insetsInRange (c : CropValues) : Prop :=
  0 <= cv_top c /\ cv_top c <= 100
  /\ 0 <= cv_right c /\ cv_right c <= 100
  /\ 0 <= cv_bottom c /\ cv_bottom c <= 100
  /\ 0 <= cv_left c /\ cv_left c <= 100.

(** The crop of every image an id resolves to is absent or an object (not
    [null]) and holds percentages. *)
Definition imageCropsInRange (st : Store) : Prop :=
  forall j b,
    getBlockById st j = Some b -> isImage (Block.type b) = true ->
    Block.crop b <> Some None
    /\ insetsInRange (getCropValues (cropObject (Block.crop b))).

(** What the loop of the group crop branch has done to the block an id
    resolved to before the loop, once it has gone through the ids [l]:
    the block [b0] has become the block in the store [s]. *)
Definition croppedSoFar (st : Store) (l : list string) (s : Store) : Prop :=
  forall j,
    match getBlockById st j with
    | None => getBlockById s j = None
    | Some b0 =>
        (isImage (Block.type b0) = true /\ In j l
         /\ exists c, cropBounds c
                      /\ getBlockById s j = Some (assignPatch (cropPatch c) b0))
        \/ ((isImage (Block.type b0) = false \/ ~ In j l)
            /\ getBlockById s j = Some b0)
    end.

(** ** More sample values *)

(** A drag of block "a" of the sample store from (10, 10) to (15, 15). *)
Definition dragA : Command := MoveCommand "a" (mkPos 10 10) (mkPos 15 15).

(** The page of [mergeStore]: "a" and "b" carry the id of their group. *)
Definition mergePage : Page.t :=
  Page.mk "page_1"
    [demoBlock "a" (Some "g-1"); demoBlock "b" (Some "g-1");
     demoBlock "c" None].

Definition demoPage : Page.t :=
  Page.mk "page_1" [demoBlock "a" None; demoBlock "b" None].


(** * Properties *)

(** ** Lists of ids *)

Lemma includes_In (i : string) (l : list string) :
  includes i l = true <-> In i l.
Proof.
  unfold includes. rewrite existsb_exists. split.
  - intros [j [Hj He]]. apply String.eqb_eq in He. now subst.
  - intros H. exists i. split; [assumption | apply String.eqb_refl].
Qed.

Lemma includes_filter (f : string -> bool) (i : string) (l : list string) :
  includes i (filter f l) = includes i l && f i.
Proof.
  unfold includes. induction l as [|a l IH]; simpl; [reflexivity|].
  destruct (String.eqb_spec i a) as [->|Hne].
  - destruct (f a) eqn:Hf; simpl.
    + now rewrite String.eqb_refl.
    + rewrite IH. now rewrite andb_false_r.
  - destruct (f a); simpl; [|exact IH].
    destruct (String.eqb_spec i a); [contradiction | exact IH].
Qed.

Lemma jsSet_In (i : string) (l : list string) : In i (jsSet l) <-> In i l.
Proof.
  induction l as [|a l IH]; simpl; [tauto|].
  rewrite filter_In, IH. split.
  - intros [H | [H _]]; auto.
  - intros [H | H]; auto.
    destruct (String.eqb_spec a i); auto.
Qed.

Lemma includes_jsSet (i : string) (l : list string) :
  includes i (jsSet l) = includes i l.
Proof.
  apply eq_true_iff_eq. now rewrite !includes_In, jsSet_In.
Qed.

Lemma fold_left_cond {A B : Type} (c : B -> bool) (F : A -> B -> A)
  (l : list B) (a : A) :
  fold_left (fun s i => if c i then F s i else s) l a
  = fold_left F (filter c l) a.
Proof.
  revert a. induction l as [|b l IH]; intros a; simpl; [reflexivity|].
  destruct (c b); simpl; apply IH.
Qed.

(** ** Lookup after in-place mutation *)

Section Mutation.

Variable f : Block.t -> Block.t.
Hypothesis f_id : forall b, Block.id (f b) = Block.id b.

Lemma find_hasId (i : string) (bs : list Block.t) (b : Block.t) :
  find (hasId i) bs = Some b -> Block.id b = i.
Proof.
  intros H. apply find_some in H. destruct H as [_ H].
  now apply String.eqb_eq in H.
Qed.

Lemma existsb_hasId (i : string) (bs : list Block.t) :
  existsb (hasId i) bs = isSome (find (hasId i) bs).
Proof.
  induction bs as [|b bs IH]; simpl; [reflexivity|].
  destruct (hasId i b); simpl; auto.
Qed.

Lemma find_mutateFirst (i j : string) (bs : list Block.t) :
  find (hasId j) (mutateFirst i f bs)
  = if String.eqb i j then option_map f (find (hasId i) bs)
    else find (hasId j) bs.
Proof.
  induction bs as [|b bs IH]; simpl.
  - now destruct (String.eqb i j).
  - destruct (hasId i b) eqn:Hi; simpl.
    + unfold hasId in Hi |- *. rewrite f_id.
      apply String.eqb_eq in Hi. rewrite Hi.
      destruct (String.eqb i j); reflexivity.
    + rewrite IH. unfold hasId in Hi |- *.
      destruct (String.eqb_spec i j) as [Hij|Hij]; [|reflexivity].
      subst j. now rewrite Hi.
Qed.

Lemma findInPages_mutate (i j : string) (ps : list Page.t) :
  findInPages j (mutateInPages i f ps)
  = if String.eqb i j then option_map f (findInPages i ps)
    else findInPages j ps.
Proof.
  induction ps as [|p ps IH]; simpl.
  - now destruct (String.eqb i j).
  - rewrite existsb_hasId.
    destruct (find (hasId i) (Page.blocks p)) as [b|] eqn:Hfi; simpl.
    + rewrite find_mutateFirst, Hfi.
      destruct (String.eqb i j); reflexivity.
    + rewrite IH.
      destruct (String.eqb_spec i j) as [->|Hij].
      * now rewrite Hfi.
      * reflexivity.
Qed.

Lemma getBlockById_mutateBlock (i j : string) (st : Store) :
  getBlockById (mutateBlock i f st) j
  = if String.eqb i j then option_map f (getBlockById st i)
    else getBlockById st j.
Proof. apply findInPages_mutate. Qed.

End Mutation.

Lemma getBlockById_id (st : Store) (i : string) (b : Block.t) :
  getBlockById st i = Some b -> Block.id b = i.
Proof.
  unfold getBlockById. induction (pages st) as [|p ps IH]; simpl; [discriminate|].
  destruct (find (hasId i) (Page.blocks p)) eqn:Hf; [|exact IH].
  intros [= <-]. eapply find_hasId; eassumption.
Qed.

(** A loop that mutates the blocks of a list of ids, each with a function
    that keeps the id and is idempotent. *)
Section MutationLoop.

Variable F : string -> Block.t -> Block.t.
Hypothesis F_id : forall i b, Block.id (F i b) = Block.id b.
Hypothesis F_idem : forall i b, F i (F i b) = F i b.

Lemma mutateAll_frame (ids : list string) (st : Store) :
  groups (mutateAll F ids st) = groups st
  /\ undoStack (mutateAll F ids st) = undoStack st
  /\ redoStack (mutateAll F ids st) = redoStack st
  /\ activePageId (mutateAll F ids st) = activePageId st.
Proof.
  unfold mutateAll. revert st.
  induction ids as [|a ids IH]; intros st; simpl; [tauto|].
  destruct (IH (mutateBlock a (F a) st)) as (H1 & H2 & H3 & H4).
  now rewrite H1, H2, H3, H4.
Qed.

Lemma getBlockById_mutateAll (ids : list string) (st : Store) (j : string) :
  getBlockById (mutateAll F ids st) j
  = if includes j ids then option_map (F j) (getBlockById st j)
    else getBlockById st j.
Proof.
  unfold mutateAll. revert st.
  induction ids as [|a ids IH]; intros st; simpl; [reflexivity|].
  rewrite IH, (getBlockById_mutateBlock (F a) (F_id a)).
  rewrite (String.eqb_sym j a).
  destruct (String.eqb_spec a j) as [->|Hne]; simpl.
  - destruct (includes j ids); [|reflexivity].
    destruct (getBlockById st j); simpl; [|reflexivity].
    now rewrite F_idem.
  - reflexivity.
Qed.

End MutationLoop.

Lemma setGroupId_id (g : option string) (b : Block.t) :
  Block.id (Block.setGroupId g b) = Block.id b.
Proof. reflexivity. Qed.

Lemma detachIfMember_id (g : string) (b : Block.t) :
  Block.id (detachIfMember g b) = Block.id b.
Proof.
  unfold detachIfMember. destruct (Block.groupId b); [|reflexivity].
  destruct (String.eqb s g); reflexivity.
Qed.

Lemma detachIfMember_idem (g : string) (b : Block.t) :
  detachIfMember g (detachIfMember g b) = detachIfMember g b.
Proof.
  unfold detachIfMember. destruct (Block.groupId b) as [h|] eqn:Hg.
  - destruct (String.eqb h g) eqn:He; simpl; [reflexivity|].
    now rewrite Hg, He.
  - now rewrite Hg.
Qed.

Lemma assignPatch_id (p : Patch) (b : Block.t) :
  Block.id (assignPatch p b) = Block.id b.
Proof. reflexivity. Qed.

Lemma assignPatch_idem (p : Patch) (b : Block.t) :
  assignPatch p (assignPatch p b) = assignPatch p b.
Proof.
  destruct p as [pp ps pr pf pc], b; unfold assignPatch; simpl.
  destruct pp, ps, pr, pf, pc; reflexivity.
Qed.

(** ** Groups: lookup and the three group operations *)

Lemma find_group_split (gid : string) (gs : list Group.t) (g : Group.t) :
  find (fun gr => String.eqb (Group.id gr) gid) gs = Some g ->
  exists l1 l2,
    gs = l1 ++ g :: l2
    /\ Group.id g = gid
    /\ (forall u, In u l1 -> Group.id u <> gid)
    /\ (forall new, replaceFirstGroup gid new gs = l1 ++ new :: l2)
    /\ removeFirstGroup gid gs = l1 ++ l2.
Proof.
  induction gs as [|a gs IH]; simpl; [discriminate|].
  destruct (String.eqb_spec (Group.id a) gid) as [Ha|Ha].
  - intros [= <-]. exists [], gs. simpl. repeat split; auto.
  - intros H. destruct (IH H) as (l1 & l2 & -> & Hid & Hl1 & Hrep & Hrem).
    exists (a :: l1), l2. simpl. repeat split; auto.
    + intros u [<-|Hu]; auto.
    + intros new. now rewrite Hrep.
    + now rewrite Hrem.
Qed.

Lemma find_group_middle (gid : string) (l1 l2 : list Group.t) (g : Group.t) :
  (forall u, In u l1 -> Group.id u <> gid) ->
  Group.id g = gid ->
  find (fun gr => String.eqb (Group.id gr) gid) (l1 ++ g :: l2) = Some g.
Proof.
  intros Hl1 Hg. induction l1 as [|a l1 IH]; simpl.
  - subst gid. now rewrite String.eqb_refl.
  - destruct (String.eqb_spec (Group.id a) gid) as [Ha|Ha].
    + exfalso. apply (Hl1 a); simpl; auto.
    + apply IH. intros u Hu. apply Hl1. simpl; auto.
Qed.

Lemma lookup_addGroup (genId : string) (spec : GroupSpec) (st : Store)
  (j : string) :
  let g := normalizeGroup genId spec in
  getBlockById (addGroup genId spec st) j
  = if includes j (Group.childIds g)
    then option_map (Block.setGroupId (Some (Group.id g))) (getBlockById st j)
    else getBlockById st j.
Proof.
  intros g. unfold addGroup. fold g.
  etransitivity.
  - apply (getBlockById_mutateAll
             (fun _ => Block.setGroupId (Some (Group.id g)))); reflexivity.
  - reflexivity.
Qed.

Lemma groups_addGroup (genId : string) (spec : GroupSpec) (st : Store) :
  groups (addGroup genId spec st) = groups st ++ [normalizeGroup genId spec].
Proof.
  unfold addGroup.
  destruct (mutateAll_frame
              (fun _ => Block.setGroupId
                          (Some (Group.id (normalizeGroup genId spec))))
              (Group.childIds (normalizeGroup genId spec))
              (setGroups (groups st ++ [normalizeGroup genId spec]) st))
    as [H _].
  exact H.
Qed.

Lemma lookup_detachAll (gid : string) (ids : list string) (st : Store)
  (j : string) :
  getBlockById
    (fold_left (fun s bid => mutateBlock bid (detachIfMember gid) s) ids st) j
  = if includes j ids
    then option_map (detachIfMember gid) (getBlockById st j)
    else getBlockById st j.
Proof.
  apply (getBlockById_mutateAll (fun _ => detachIfMember gid)).
  - intros _ b. apply detachIfMember_id.
  - intros _ b. apply detachIfMember_idem.
Qed.

Lemma lookup_attachAll (gid : string) (ids : list string) (st : Store)
  (j : string) :
  getBlockById
    (fold_left (fun s bid => mutateBlock bid (Block.setGroupId (Some gid)) s)
       ids st) j
  = if includes j ids
    then option_map (Block.setGroupId (Some gid)) (getBlockById st j)
    else getBlockById st j.
Proof.
  apply (getBlockById_mutateAll (fun _ => Block.setGroupId (Some gid)));
    reflexivity.
Qed.

Lemma lookup_detachRemoved (gid : string) (oldIds newIds : list string)
  (st : Store) (j : string) :
  getBlockById (detachRemoved gid oldIds newIds st) j
  = if includes j oldIds && negb (includes j newIds)
    then option_map (detachIfMember gid) (getBlockById st j)
    else getBlockById st j.
Proof.
  unfold detachRemoved.
  rewrite (fold_left_cond (fun i => negb (includes i newIds))
             (fun s i => mutateBlock i (detachIfMember gid) s)).
  rewrite lookup_detachAll, includes_filter. reflexivity.
Qed.

Lemma lookup_attachAdded (gid : string) (oldIds newIds : list string)
  (st : Store) (j : string) :
  getBlockById (attachAdded gid oldIds newIds st) j
  = if includes j newIds && negb (includes j oldIds)
    then option_map (Block.setGroupId (Some gid)) (getBlockById st j)
    else getBlockById st j.
Proof.
  unfold attachAdded.
  rewrite (fold_left_cond (fun i => negb (includes i oldIds))
             (fun s i => mutateBlock i (Block.setGroupId (Some gid)) s)).
  rewrite lookup_attachAll, includes_filter. reflexivity.
Qed.

Lemma groups_detachRemoved (gid : string) (oldIds newIds : list string)
  (st : Store) :
  groups (detachRemoved gid oldIds newIds st) = groups st.
Proof.
  unfold detachRemoved.
  rewrite (fold_left_cond (fun i => negb (includes i newIds))
             (fun s i => mutateBlock i (detachIfMember gid) s)).
  apply (mutateAll_frame (fun _ => detachIfMember gid)).
Qed.

Lemma groups_attachAdded (gid : string) (oldIds newIds : list string)
  (st : Store) :
  groups (attachAdded gid oldIds newIds st) = groups st.
Proof.
  unfold attachAdded.
  rewrite (fold_left_cond (fun i => negb (includes i oldIds))
             (fun s i => mutateBlock i (Block.setGroupId (Some gid)) s)).
  apply (mutateAll_frame (fun _ => Block.setGroupId (Some gid))).
Qed.

(** The blocks [updateGroup] leaves behind, by id. *)
Lemma lookup_updateGroup_childIds (gid : string) (patch : GroupPatch)
  (st : Store) (g : Group.t) (newIds : list string) (j : string) :
  getGroupById st gid = Some g ->
  patchChildIds patch = Some newIds ->
  getBlockById (updateGroup gid patch st) j
  = if includes j newIds && negb (includes j (Group.childIds g))
    then option_map (Block.setGroupId (Some gid)) (getBlockById st j)
    else if includes j (Group.childIds g) && negb (includes j newIds)
    then option_map (detachIfMember gid) (getBlockById st j)
    else getBlockById st j.
Proof.
  intros Hg Hp. unfold updateGroup. rewrite Hg, Hp.
  change (getBlockById (setGroups ?gs ?s) j) with (getBlockById s j).
  rewrite lookup_attachAdded, lookup_detachRemoved, !includes_jsSet.
  destruct (includes j newIds), (includes j (Group.childIds g)); reflexivity.
Qed.

Lemma groups_updateGroup (gid : string) (patch : GroupPatch) (st : Store)
  (g : Group.t) :
  getGroupById st gid = Some g ->
  groups (updateGroup gid patch st)
  = replaceFirstGroup gid
      (assignAllowed patch
         (match patchChildIds patch with
          | Some newIds => setIds newIds g
          | None => g
          end)) (groups st).
Proof.
  intros Hg. unfold updateGroup. rewrite Hg.
  destruct (patchChildIds patch) as [newIds|]; simpl; [|reflexivity].
  now rewrite groups_attachAdded, groups_detachRemoved.
Qed.

Lemma lookup_updateGroup_other (gid : string) (patch : GroupPatch) (st : Store)
  (j : string) :
  patchChildIds patch = None ->
  getBlockById (updateGroup gid patch st) j = getBlockById st j.
Proof.
  intros Hp. unfold updateGroup. rewrite Hp.
  destruct (getGroupById st gid); reflexivity.
Qed.

Lemma lookup_removeGroup (gid : string) (st : Store) (g : Group.t) (j : string) :
  getGroupById st gid = Some g ->
  getBlockById (removeGroup gid st) j
  = if includes j (Group.childIds g)
    then option_map (detachIfMember gid) (getBlockById st j)
    else getBlockById st j.
Proof.
  intros Hg. unfold removeGroup. rewrite Hg.
  change (getBlockById (setGroups ?gs ?s) j) with (getBlockById s j).
  apply lookup_detachAll.
Qed.

Lemma groups_removeGroup (gid : string) (st : Store) (g : Group.t) :
  getGroupById st gid = Some g ->
  groups (removeGroup gid st) = removeFirstGroup gid (groups st).
Proof.
  intros Hg. unfold removeGroup. rewrite Hg. simpl.
  f_equal. apply (mutateAll_frame (fun _ => detachIfMember gid)).
Qed.

(** ** Group membership *)

Lemma detachIfMember_other (gid h : string) (b : Block.t) :
  Block.groupId b = Some h -> h <> gid -> detachIfMember gid b = b.
Proof.
  intros Hb Hne. unfold detachIfMember. rewrite Hb.
  destruct (String.eqb_spec h gid); [contradiction | reflexivity].
Qed.

Lemma detachIfMember_member (gid : string) (b : Block.t) :
  Block.groupId b = Some gid -> detachIfMember gid b = Block.setGroupId None b.
Proof.
  intros Hb. unfold detachIfMember. now rewrite Hb, String.eqb_refl.
Qed.

Lemma detachIfMember_groupId (gid h : string) (b : Block.t) :
  Block.groupId (detachIfMember gid b) = Some h ->
  Block.groupId b = Some h /\ h <> gid.
Proof.
  unfold detachIfMember. destruct (Block.groupId b) as [k|] eqn:Hb.
  - destruct (String.eqb_spec k gid) as [->|Hne]; simpl.
    + discriminate.
    + rewrite Hb. intros [= ->]. auto.
  - rewrite Hb. discriminate.
Qed.

Lemma consistent_addGroup (genId : string) (spec : GroupSpec) (st : Store) :
  membershipConsistent st -> membershipConsistent (addGroup genId spec st).
Proof.
  intros J bid b gid Hb Hg.
  rewrite lookup_addGroup in Hb. rewrite groups_addGroup.
  destruct (includes bid (Group.childIds (normalizeGroup genId spec))) eqn:Hin.
  - destruct (getBlockById st bid) as [b0|]; [|discriminate].
    simpl in Hb. injection Hb as <-. simpl in Hg. injection Hg as <-.
    exists (normalizeGroup genId spec). repeat split.
    + apply in_or_app. right. now left.
    + now apply includes_In.
  - destruct (J bid b gid Hb Hg) as (g & Hin' & Hid & Hc).
    exists g. repeat split; auto. apply in_or_app. now left.
Qed.

Lemma consistent_removeGroup (gid : string) (st : Store) :
  membershipConsistent st -> membershipConsistent (removeGroup gid st).
Proof.
  intros J bid b h Hb Hh.
  destruct (getGroupById st gid) as [g|] eqn:Hg.
  2:{ unfold removeGroup in *. rewrite Hg in *. eauto. }
  rewrite (lookup_removeGroup _ _ _ _ Hg) in Hb.
  rewrite (groups_removeGroup _ _ _ Hg).
  destruct (find_group_split _ _ _ Hg) as (l1 & l2 & Hgs & Hid & Hl1 & _ & Hrem).
  rewrite Hrem.
  assert (Hsel : forall u, In u (groups st) -> u <> g -> In u (l1 ++ l2)).
  { intros u Hu Hne. rewrite Hgs in Hu. apply in_app_or in Hu.
    apply in_or_app. destruct Hu as [Hu|[Hu|Hu]]; auto. congruence. }
  destruct (includes bid (Group.childIds g)) eqn:Hin.
  - destruct (getBlockById st bid) as [b0|] eqn:Hb0; [|discriminate].
    simpl in Hb. injection Hb as <-.
    apply detachIfMember_groupId in Hh. destruct Hh as [Hh Hne].
    destruct (J bid b0 h Hb0 Hh) as (u & Hu & Huid & Hc).
    exists u. repeat split; auto. apply Hsel; auto. congruence.
  - destruct (J bid b h Hb Hh) as (u & Hu & Huid & Hc).
    exists u. repeat split; auto. apply Hsel; auto.
    intros ->. apply includes_In in Hc. congruence.
Qed.

Lemma consistent_updateGroup (gid : string) (patch : GroupPatch) (st : Store) :
  membershipConsistent st -> membershipConsistent (updateGroup gid patch st).
Proof.
  intros J bid b h Hb Hh.
  destruct (getGroupById st gid) as [g|] eqn:Hg.
  2:{ unfold updateGroup in *. rewrite Hg in *. eauto. }
  rewrite (groups_updateGroup _ patch _ _ Hg).
  destruct (find_group_split _ _ _ Hg) as (l1 & l2 & Hgs & Hid & Hl1 & Hrep & _).
  rewrite Hrep.
  set (g' := assignAllowed patch
               match patchChildIds patch with
               | Some newIds => setIds newIds g
               | None => g
               end).
  assert (Hid' : Group.id g' = gid).
  { unfold g'. destruct (patchChildIds patch); exact Hid. }
  assert (Hsel : forall u, In u (groups st) -> u <> g -> In u (l1 ++ g' :: l2)).
  { intros u Hu Hne. rewrite Hgs in Hu. apply in_app_or in Hu.
    apply in_or_app. destruct Hu as [Hu|[Hu|Hu]]; auto.
    - congruence.
    - right. now right. }
  assert (Hnew : In g' (l1 ++ g' :: l2)).
  { apply in_or_app. right. now left. }
  destruct (patchChildIds patch) as [newIds|] eqn:Hp.
  - assert (Hc' : Group.childIds g' = newIds) by reflexivity.
    rewrite (lookup_updateGroup_childIds _ _ _ _ _ _ Hg Hp) in Hb.
    destruct (includes bid newIds) eqn:Hn;
      destruct (includes bid (Group.childIds g)) eqn:Ho; simpl in Hb.
    + destruct (J bid b h Hb Hh) as (u & Hu & Huid & Hc).
      rewrite Hgs in Hu. apply in_app_or in Hu.
      destruct Hu as [Hu|[Hu|Hu]].
      * exists u. repeat split; auto. apply in_or_app. now left.
      * subst u. exists g'. split; [exact Hnew|]. split; [congruence|].
        rewrite Hc'. now apply includes_In.
      * exists u. repeat split; auto. apply in_or_app. right. now right.
    + destruct (getBlockById st bid) as [b0|]; [|discriminate].
      simpl in Hb. injection Hb as <-. simpl in Hh. injection Hh as <-.
      exists g'. repeat split; auto. rewrite Hc'. now apply includes_In.
    + destruct (getBlockById st bid) as [b0|] eqn:Hb0; [|discriminate].
      simpl in Hb. injection Hb as <-.
      apply detachIfMember_groupId in Hh. destruct Hh as [Hh Hne].
      destruct (J bid b0 h Hb0 Hh) as (u & Hu & Huid & Hc).
      exists u. repeat split; auto. apply Hsel; auto. congruence.
    + destruct (J bid b h Hb Hh) as (u & Hu & Huid & Hc).
      exists u. repeat split; auto. apply Hsel; auto.
      intros ->. apply includes_In in Hc. congruence.
  - rewrite (lookup_updateGroup_other _ _ _ _ Hp) in Hb.
    destruct (J bid b h Hb Hh) as (u & Hu & Huid & Hc).
    rewrite Hgs in Hu. apply in_app_or in Hu.
    destruct Hu as [Hu|[Hu|Hu]].
    + exists u. repeat split; auto. apply in_or_app. now left.
    + subst u. exists g'. repeat split; auto; congruence.
    + exists u. repeat split; auto. apply in_or_app. right. now right.
Qed.

Lemma consistent_runGroupOps (ops : list GroupOp) (st : Store) :
  membershipConsistent st -> membershipConsistent (runGroupOps ops st).
Proof.
  unfold runGroupOps. revert st.
  induction ops as [|op ops IH]; intros st J; simpl; [exact J|].
  apply IH. destruct op; simpl.
  - now apply consistent_addGroup.
  - now apply consistent_updateGroup.
  - now apply consistent_removeGroup.
Qed.

Lemma getBlockById_In (st : Store) (i : string) (b : Block.t) :
  getBlockById st i = Some b ->
  exists p, In p (pages st) /\ In b (Page.blocks p).
Proof.
  unfold getBlockById. induction (pages st) as [|p ps IH]; simpl; [discriminate|].
  destruct (find (hasId i) (Page.blocks p)) eqn:Hf.
  - intros [= <-]. exists p. split; [now left|].
    apply find_some in Hf. tauto.
  - intros H. destruct (IH H) as (q & Hq & Hb). exists q. auto.
Qed.

Lemma consistent_without_groupIds (st : Store) :
  (forall p b, In p (pages st) -> In b (Page.blocks p) -> Block.groupId b = None) ->
  membershipConsistent st.
Proof.
  intros H bid b gid Hb Hg.
  destruct (getBlockById_In _ _ _ Hb) as (p & Hp & Hin).
  rewrite (H p b Hp Hin) in Hg. discriminate.
Qed.

(** C3 (amended): after any sequence of addGroup, updateGroup and
    removeGroup, every block the store can look up whose groupId is G is
    listed in the childIds of a registered group with id G (the converse is
    not maintained).  A childIds patch to updateGroup of a registered group
    stores the new list, gives the group's id to every added member found
    in the store, clears the groupId of every removed member that still
    pointed at the group, and keeps the group registered whatever the new
    list is, the empty list included. *)
Theorem group_ops_keep_membership :
  (forall st ops,
      membershipConsistent st -> membershipConsistent (runGroupOps ops st))
  /\ (forall st gid patch g newIds,
         getGroupById st gid = Some g ->
         patchChildIds patch = Some newIds ->
         (exists g',
             getGroupById (updateGroup gid patch st) gid = Some g'
             /\ Group.childIds g' = newIds)
         /\ List.length (groups (updateGroup gid patch st))
            = List.length (groups st)
         /\ (forall bid b,
                getBlockById st bid = Some b ->
                In bid newIds -> ~ In bid (Group.childIds g) ->
                getBlockById (updateGroup gid patch st) bid
                = Some (Block.setGroupId (Some gid) b))
         /\ (forall bid b,
                getBlockById st bid = Some b ->
                In bid (Group.childIds g) -> ~ In bid newIds ->
                Block.groupId b = Some gid ->
                getBlockById (updateGroup gid patch st) bid
                = Some (Block.setGroupId None b))).
Proof.
  split.
  - intros st ops. apply consistent_runGroupOps.
  - intros st gid patch g newIds Hg Hp.
    destruct (find_group_split _ _ _ Hg) as (l1 & l2 & Hgs & Hid & Hl1 & Hrep & _).
    assert (Hgroups := groups_updateGroup gid patch st g Hg).
    rewrite Hp, Hrep in Hgroups.
    repeat split.
    + exists (assignAllowed patch (setIds newIds g)). split; [|reflexivity].
      unfold getGroupById. rewrite Hgroups.
      apply find_group_middle; assumption.
    + rewrite Hgroups, Hgs, !length_app. reflexivity.
    + intros bid b Hb Hn Ho.
      rewrite (lookup_updateGroup_childIds _ _ _ _ _ _ Hg Hp), Hb.
      apply includes_In in Hn. rewrite Hn.
      destruct (includes bid (Group.childIds g)) eqn:Hi; [|reflexivity].
      apply includes_In in Hi. contradiction.
    + intros bid b Hb Ho Hn Hm.
      rewrite (lookup_updateGroup_childIds _ _ _ _ _ _ Hg Hp), Hb.
      apply includes_In in Ho. rewrite Ho.
      destruct (includes bid newIds) eqn:Hi.
      * apply includes_In in Hi. contradiction.
      * simpl. now rewrite (detachIfMember_member _ _ Hm).
Qed.

Lemma group_ops_keep_membership_witness :
  membershipConsistent
    (runGroupOps
       [OpAddGroup "g-1" (childSpec "g-1" ["a"; "b"]);
        OpUpdateGroup "g-1" (childIdsPatch ["a"]);
        OpRemoveGroup "g-1"] demoStore)
  /\ getBlockById
       (updateGroup "g-1" (childIdsPatch ["a"])
          (addGroup "g-1" (childSpec "g-1" ["a"; "b"]) demoStore)) "b"
     = Some (Block.setGroupId None (demoBlock "b" (Some "g-1"))).
Proof.
  split.
  - apply (proj1 group_ops_keep_membership).
    apply consistent_without_groupIds. simpl.
    intros p b [<-|[]] [<-|[<-|[]]]; reflexivity.
  - destruct (proj2 group_ops_keep_membership
                (addGroup "g-1" (childSpec "g-1" ["a"; "b"]) demoStore)
                "g-1" (childIdsPatch ["a"])
                (normalizeGroup "g-1" (childSpec "g-1" ["a"; "b"])) ["a"]
                eq_refl eq_refl) as (_ & _ & _ & H).
    apply H.
    + reflexivity.
    + simpl. auto.
    + simpl. intros [H0|[]]. discriminate H0.
    + reflexivity.
Defined.

(** C3 as stated fails: a child listed by two groups points at the last
    one only, and a group whose childIds become empty stays registered. *)
Lemma membership_iff_counterexample :
  (let st := runGroupOps
               [OpAddGroup "g-1" (childSpec "g-1" ["a"]);
                OpAddGroup "g-2" (childSpec "g-2" ["a"])] demoStore in
   exists g b,
     In g (groups st) /\ getBlockById st "a" = Some b
     /\ In (Block.id b) (Group.childIds g)
     /\ Block.groupId b <> Some (Group.id g))
  /\ (let st := runGroupOps
                  [OpAddGroup "g-1" (childSpec "g-1" ["a"]);
                   OpUpdateGroup "g-1" (childIdsPatch [])] demoStore in
      exists g, getGroupById st "g-1" = Some g /\ Group.childIds g = []).
Proof.
  split.
  - exists (normalizeGroup "g-1" (childSpec "g-1" ["a"])),
      (demoBlock "a" (Some "g-2")).
    repeat split.
    + simpl. auto.
    + simpl. auto.
    + simpl. discriminate.
  - eexists. split; reflexivity.
Qed.

(** C10: removeGroup and a childIds patch to updateGroup clear a child's
    groupId only when it still equals the id of the group being modified.
    A block listed in the group's childIds that points at another group
    is left exactly as it was, while the group record is still removed from
    the list (removeGroup) or still gets the new childIds (updateGroup). *)
Theorem detach_only_when_still_member :
  forall st gid g bid b h,
    getGroupById st gid = Some g ->
    In bid (Group.childIds g) ->
    getBlockById st bid = Some b ->
    Block.groupId b = Some h ->
    h <> gid ->
    (getBlockById (removeGroup gid st) bid = Some b
     /\ exists l1 l2,
         groups st = l1 ++ g :: l2
         /\ (forall u, In u l1 -> Group.id u <> gid)
         /\ groups (removeGroup gid st) = l1 ++ l2)
    /\ (forall patch newIds,
           patchChildIds patch = Some newIds ->
           ~ In bid newIds ->
           getBlockById (updateGroup gid patch st) bid = Some b
           /\ exists g',
               getGroupById (updateGroup gid patch st) gid = Some g'
               /\ Group.childIds g' = newIds).
Proof.
  intros st gid g bid b h Hg Hin Hb Hh Hne.
  assert (Hkeep : detachIfMember gid b = b)
    by (eapply detachIfMember_other; eassumption).
  destruct (find_group_split _ _ _ Hg) as (l1 & l2 & Hgs & Hid & Hl1 & Hrep & Hrem).
  split; [split|].
  - rewrite (lookup_removeGroup _ _ _ _ Hg), Hb. simpl. rewrite Hkeep.
    now destruct (includes bid (Group.childIds g)).
  - exists l1, l2. repeat split; auto.
    now rewrite (groups_removeGroup _ _ _ Hg).
  - intros patch newIds Hp Hn. split.
    + rewrite (lookup_updateGroup_childIds _ _ _ _ _ _ Hg Hp), Hb. simpl.
      rewrite Hkeep.
      apply includes_In in Hin. rewrite Hin. simpl.
      destruct (includes bid newIds) eqn:Hi; [|reflexivity].
      apply includes_In in Hi. contradiction.
    + exists (assignAllowed patch (setIds newIds g)). split; [|reflexivity].
      unfold getGroupById.
      rewrite (groups_updateGroup _ patch _ _ Hg), Hp, Hrep.
      apply find_group_middle; assumption.
Qed.

Lemma detach_only_when_still_member_witness :
  getBlockById (removeGroup "g-1" reassignedStore) "a"
  = Some (demoBlock "a" (Some "g-2"))
  /\ getBlockById (updateGroup "g-1" (childIdsPatch ["b"]) reassignedStore) "a"
     = Some (demoBlock "a" (Some "g-2")).
Proof.
  destruct (detach_only_when_still_member reassignedStore "g-1"
              (normalizeGroup "g-1" (childSpec "g-1" ["a"; "b"])) "a"
              (demoBlock "a" (Some "g-2")) "g-2"
              eq_refl (or_introl eq_refl) eq_refl eq_refl)
    as [[H1 _] H2].
  - discriminate.
  - split; [exact H1|].
    apply (H2 (childIdsPatch ["b"]) ["b"] eq_refl).
    simpl. intros [H0|[]]. discriminate H0.
Defined.

(** ** The command stack *)

Lemma fold_left_frame {B X : Type} (proj : Store -> X) (F : Store -> B -> Store)
  (l : list B) (st : Store) :
  (forall s b, proj (F s b) = proj s) ->
  proj (fold_left F l st) = proj st.
Proof.
  intros HF. revert st. induction l as [|b l IH]; intros st; simpl; [reflexivity|].
  now rewrite IH, HF.
Qed.

Lemma cropChildren_frame {X : Type} (proj : Store -> X) (h : string)
  (dx dy : Q) (ids : list string) (st : Store) :
  (forall s i p, proj (updateBlock i p s) = proj s) ->
  proj (cropChildren h dx dy ids st) = proj st.
Proof.
  intros HF. revert st. induction ids as [|bid ids IH]; intros st; simpl;
    [reflexivity|].
  destruct (getBlockById st bid) as [blk|]; [|apply IH].
  destruct (isImage (Block.type blk)); [|apply IH].
  destruct (Block.crop blk) as [[c|]|]; try reflexivity;
    now rewrite IH, HF.
Qed.

Lemma stacks_updateBlocks (m : list (string * Patch)) (st : Store) :
  stacks (updateBlocks m st) = stacks st.
Proof. apply fold_left_frame. reflexivity. Qed.

Lemma stacks_addGroup (genId : string) (spec : GroupSpec) (st : Store) :
  stacks (addGroup genId spec st) = stacks st.
Proof.
  unfold addGroup. rewrite fold_left_frame; reflexivity.
Qed.

Lemma stacks_updateGroup (gid : string) (patch : GroupPatch) (st : Store) :
  stacks (updateGroup gid patch st) = stacks st.
Proof.
  unfold updateGroup. destruct (getGroupById st gid); [|reflexivity].
  destruct (patchChildIds patch); [|reflexivity].
  unfold attachAdded, detachRemoved.
  change (stacks (setGroups ?g ?s)) with (stacks s).
  rewrite fold_left_frame; [|intros s b; now destruct (negb _)].
  rewrite fold_left_frame; [|intros s b; now destruct (negb _)].
  reflexivity.
Qed.

Lemma stacks_removeGroup (gid : string) (st : Store) :
  stacks (removeGroup gid st) = stacks st.
Proof.
  unfold removeGroup. destruct (getGroupById st gid); [|reflexivity].
  change (stacks (setGroups ?g ?s)) with (stacks s).
  rewrite fold_left_frame; reflexivity.
Qed.

(** Command bodies never touch the two stacks. *)
Lemma stacks_cmd_do (cmd : Command) (st : Store) :
  stacks (outcomeStore (cmd_do cmd st)) = stacks st.
Proof.
  destruct cmd; simpl; try reflexivity.
  - destruct childNew; [now rewrite stacks_updateBlocks | reflexivity].
  - destruct (activePage st) as [page|]; [|reflexivity].
    match goal with
    | |- context [getGroupById ?s groupId] => destruct (getGroupById s groupId)
    end; simpl.
    + now rewrite stacks_updateGroup.
    + now rewrite stacks_addGroup.
  - rewrite stacks_updateBlocks.
    destruct ga; [apply stacks_updateGroup | reflexivity].
Qed.

Lemma stacks_cmd_undo (cmd : Command) (st : Store) :
  stacks (outcomeStore (cmd_undo cmd st)) = stacks st.
Proof.
  destruct cmd; simpl; try reflexivity.
  - destruct childOld; [now rewrite stacks_updateBlocks | reflexivity].
  - destruct (activePage st) as [page|]; [|reflexivity].
    destruct createdGroup; simpl.
    + now rewrite stacks_removeGroup.
    + match goal with
      | |- context [getGroupById ?s groupId] => destruct (getGroupById s groupId)
      end; reflexivity.
  - rewrite stacks_updateBlocks.
    destruct gb; [apply stacks_updateGroup | reflexivity].
Qed.

Lemma pop_app {A : Type} (l : list A) (a : A) : pop (l ++ [a]) = Some (l, a).
Proof.
  unfold pop. rewrite rev_app_distr. simpl. now rewrite rev_involutive.
Qed.

Lemma applyCommand_stacks (cmd : Command) (st : Store) :
  match cmd_do cmd st with
  | Done _ c1 => stacks (applyCommand cmd st) = (undoStack st ++ [c1], [])
  | Threw _ _ => stacks (applyCommand cmd st) = stacks st
  end.
Proof.
  unfold applyCommand. assert (H := stacks_cmd_do cmd st).
  destruct (cmd_do cmd st) as [st1 c1|st1 c1]; simpl in *.
  - unfold stacks in *. simpl. injection H as -> _. reflexivity.
  - exact H.
Qed.

Lemma undo_stacks (st : Store) (rest : list Command) (cmd : Command) :
  undoStack st = rest ++ [cmd] ->
  match cmd_undo cmd (setStacks rest (redoStack st) st) with
  | Done _ c1 => stacks (undo st) = (rest, redoStack st ++ [c1])
  | Threw _ _ => stacks (undo st) = (rest, redoStack st)
  end.
Proof.
  intros Hu. unfold undo. rewrite Hu, pop_app.
  assert (H := stacks_cmd_undo cmd (setStacks rest (redoStack st) st)).
  destruct (cmd_undo cmd (setStacks rest (redoStack st) st)) as [st1 c1|st1 c1];
    simpl in *; unfold stacks in *; simpl in *.
  - injection H as -> ->. reflexivity.
  - exact H.
Qed.

Lemma redo_stacks (st : Store) (rest : list Command) (cmd : Command) :
  redoStack st = rest ++ [cmd] ->
  match cmd_do cmd (setStacks (undoStack st) rest st) with
  | Done _ c1 => stacks (redo st) = (undoStack st ++ [c1], rest)
  | Threw _ _ => stacks (redo st) = (undoStack st, rest)
  end.
Proof.
  intros Hr. unfold redo. rewrite Hr, pop_app.
  assert (H := stacks_cmd_do cmd (setStacks (undoStack st) rest st)).
  destruct (cmd_do cmd (setStacks (undoStack st) rest st)) as [st1 c1|st1 c1];
    simpl in *; unfold stacks in *; simpl in *.
  - injection H as -> ->. reflexivity.
  - exact H.
Qed.

(** C2 (amended): an exception thrown by a command's do or undo is caught
    by applyCommand, undo and redo, which still return.  When the body
    throws, nothing is pushed: applyCommand leaves the undo list and the
    redo list as they were, and undo (redo) has already popped the command
    from the undo (redo) list and does not push it onto the other list, so
    the command is dropped from the history.  When the body returns,
    applyCommand pushes the command on the undo list and empties the redo
    list, undo moves it to the redo list and redo moves it back. *)
Theorem command_stack_exception_policy :
  (forall cmd st st1 c1,
      (cmd_do cmd st = Done st1 c1 ->
       undoStack (applyCommand cmd st) = undoStack st ++ [c1]
       /\ redoStack (applyCommand cmd st) = [])
      /\ (cmd_do cmd st = Threw st1 c1 ->
          undoStack (applyCommand cmd st) = undoStack st
          /\ redoStack (applyCommand cmd st) = redoStack st))
  /\ (forall st rest cmd st1 c1,
         undoStack st = rest ++ [cmd] ->
         (cmd_undo cmd (setStacks rest (redoStack st) st) = Done st1 c1 ->
          undoStack (undo st) = rest
          /\ redoStack (undo st) = redoStack st ++ [c1])
         /\ (cmd_undo cmd (setStacks rest (redoStack st) st) = Threw st1 c1 ->
             undoStack (undo st) = rest
             /\ redoStack (undo st) = redoStack st))
  /\ (forall st rest cmd st1 c1,
         redoStack st = rest ++ [cmd] ->
         (cmd_do cmd (setStacks (undoStack st) rest st) = Done st1 c1 ->
          undoStack (redo st) = undoStack st ++ [c1]
          /\ redoStack (redo st) = rest)
         /\ (cmd_do cmd (setStacks (undoStack st) rest st) = Threw st1 c1 ->
             undoStack (redo st) = undoStack st
             /\ redoStack (redo st) = rest)).
Proof.
  split; [|split].
  - intros cmd st st1 c1. assert (H := applyCommand_stacks cmd st).
    split; intros E; rewrite E in H; unfold stacks in H;
      injection H as -> ->; auto.
  - intros st rest cmd st1 c1 Hu. assert (H := undo_stacks st rest cmd Hu).
    split; intros E; rewrite E in H; unfold stacks in H;
      injection H as -> ->; auto.
  - intros st rest cmd st1 c1 Hr. assert (H := redo_stacks st rest cmd Hr).
    split; intros E; rewrite E in H; unfold stacks in H;
      injection H as -> ->; auto.
Qed.

Lemma command_stack_exception_policy_witness :
  (undoStack (applyCommand groupingCommand (setStacks [] [moveA] emptyStore)) = []
   /\ redoStack (applyCommand groupingCommand (setStacks [] [moveA] emptyStore))
      = [moveA])
  /\ (undoStack (undo (setStacks [moveA] [] demoStore)) = []
      /\ redoStack (undo (setStacks [moveA] [] demoStore)) = [moveA])
  /\ (undoStack (redo (setStacks [] [groupingCommand] emptyStore)) = []
      /\ redoStack (redo (setStacks [] [groupingCommand] emptyStore)) = []).
Proof.
  split; [|split].
  - apply (proj2 (proj1 command_stack_exception_policy groupingCommand
                    (setStacks [] [moveA] emptyStore)
                    (setStacks [] [moveA] emptyStore)
                    (GroupCommand "g-1" ["a"] None (Some []) false))).
    reflexivity.
  - apply (proj1 (proj1 (proj2 command_stack_exception_policy)
                    (setStacks [moveA] [] demoStore) [] moveA
                    (updateBlock "a" (positionPatch (mkPos 0 0)) demoStore)
                    moveA eq_refl)).
    reflexivity.
  - apply (proj2 (proj2 (proj2 command_stack_exception_policy)
                    (setStacks [] [groupingCommand] emptyStore) [] groupingCommand
                    emptyStore
                    (GroupCommand "g-1" ["a"] None (Some []) false) eq_refl)).
    reflexivity.
Defined.

(** C2 as stated fails.  On the default store, which has no active page,
    [do] of a GroupCommand throws inside applyCommand: the command is not
    on the undo list and the redo list is not cleared.  After the same
    command was applied on a store with an active page and the active page
    was then set to a page that does not exist, [undo] throws: the command
    has left the undo list and is not on the redo list. *)
Lemma exception_policy_counterexample :
  (exists st1 c1,
      cmd_do groupingCommand (setStacks [] [moveA] emptyStore) = Threw st1 c1)
  /\ undoStack (applyCommand groupingCommand (setStacks [] [moveA] emptyStore))
     = []
  /\ redoStack (applyCommand groupingCommand (setStacks [] [moveA] emptyStore))
     = [moveA]
  /\ (let st := setActivePage (Some "page_9")
                  (applyCommand groupingCommand demoStore) in
      undoStack st
      = [GroupCommand "g-1" ["a"] None (Some [("a", None)]) true]
      /\ undoStack (undo st) = []
      /\ redoStack (undo st) = []).
Proof.
  repeat split. eexists. eexists. reflexivity.
Qed.

(** ** History length *)

Lemma history_extends (cmds : list Command) (st : Store) :
  allReturn cmds st = true ->
  exists pushed,
    undoStack (applyAll cmds st) = undoStack st ++ pushed
    /\ List.length pushed = List.length cmds.
Proof.
  unfold applyAll. revert st.
  induction cmds as [|c cmds IH]; intros st H; simpl in *.
  - exists []. now rewrite app_nil_r.
  - assert (Hs := applyCommand_stacks c st).
    destruct (cmd_do c st) as [st1 c1|] eqn:E; [|discriminate].
    destruct (IH _ H) as (pushed & Hp & Hl).
    unfold stacks in Hs. injection Hs as Hu _.
    exists (c1 :: pushed). split.
    + rewrite Hp, Hu, <- app_assoc. reflexivity.
    + simpl. now rewrite Hl.
Qed.

Lemma allReturn_moves (n : nat) (st : Store) :
  allReturn (repeat moveA n) st = true.
Proof.
  revert st. induction n as [|n IH]; intros st; simpl; [reflexivity|apply IH].
Qed.

(** C9 (amended): the undo list is not bounded.  Every applyCommand whose
    do returns appends one entry and evicts none: after a sequence of such
    commands the undo list is the old list followed by one entry per
    command. *)
Theorem undo_list_keeps_every_entry :
  forall cmds st,
    allReturn cmds st = true ->
    exists pushed,
      undoStack (applyAll cmds st) = undoStack st ++ pushed
      /\ List.length pushed = List.length cmds.
Proof. exact history_extends. Qed.

Lemma undo_list_keeps_every_entry_witness :
  exists pushed,
    undoStack (applyAll [moveA; moveA; moveA] demoStore)
    = undoStack demoStore ++ pushed
    /\ List.length pushed = 3%nat.
Proof.
  apply (undo_list_keeps_every_entry [moveA; moveA; moveA] demoStore).
  reflexivity.
Defined.

(** C9 as stated fails: no limit bounds the length of the undo list. *)
Lemma bounded_history_counterexample :
  ~ (exists limit : nat,
        forall cmds,
          (List.length (undoStack (applyAll cmds demoStore)) <= limit)%nat).
Proof.
  intros [limit H].
  specialize (H (repeat moveA (S limit))).
  destruct (history_extends (repeat moveA (S limit)) demoStore
              (allReturn_moves _ _)) as (pushed & Hp & Hl).
  rewrite Hp, repeat_length in *. simpl in H. lia.
Qed.

(** ** Undo after do *)

Lemma getBlockById_updateBlock (i j : string) (patch : Patch) (st : Store) :
  getBlockById (updateBlock i patch st) j
  = if String.eqb i j then option_map (assignPatch patch) (getBlockById st i)
    else getBlockById st j.
Proof. apply getBlockById_mutateBlock. apply assignPatch_id. Qed.

(** Where the symmetry holds: a MoveCommand whose old position is the
    block's current one is undone exactly, and redone to the same state. *)
Lemma MoveCommand_undo_do (st : Store) (i : string) (b : Block.t)
  (oldP newP : Pos) :
  getBlockById st i = Some b ->
  Block.position b = Some oldP ->
  let s1 := outcomeStore (cmd_do (MoveCommand i oldP newP) st) in
  let s2 := outcomeStore (cmd_undo (MoveCommand i oldP newP) s1) in
  let s3 := outcomeStore (cmd_do (MoveCommand i oldP newP) s2) in
  getBlockById s2 i = Some b /\ getBlockById s3 i = getBlockById s1 i.
Proof.
  intros Hb Hp. simpl.
  rewrite !getBlockById_updateBlock, !String.eqb_refl, Hb. simpl.
  split; [|reflexivity].
  f_equal. destruct b. simpl in *. subst. reflexivity.
Qed.

(** C1 at its failing inputs.  GroupCommand: "b" was a child of "g-1"
    before [do]; after [do] then [undo] the group lists only "a" although
    "b" still points at it, and the alias [blockIds] keeps all three ids.
    ResizeCommand: the block had no fontSize before [do]; after [do] then
    [undo] it still has the new one. *)
Theorem undo_after_do_not_inverse :
  (exists st1 c1 st2 c2,
      cmd_do mergeCommand mergeStore = Done st1 c1
      /\ cmd_undo c1 st1 = Done st2 c2
      /\ option_map Group.childIds (getGroupById mergeStore "g-1")
         = Some ["a"; "b"]
      /\ option_map Group.childIds (getGroupById st2 "g-1") = Some ["a"]
      /\ option_map Group.blockIds (getGroupById st2 "g-1")
         = Some ["a"; "b"; "c"]
      /\ option_map Block.groupId (getBlockById st2 "b") = Some (Some "g-1"))
  /\ (exists st1 c1 st2 c2,
         cmd_do textResize textStore = Done st1 c1
         /\ cmd_undo c1 st1 = Done st2 c2
         /\ option_map Block.fontSize (getBlockById textStore "t") = Some None
         /\ option_map Block.fontSize (getBlockById st2 "t")
            = Some (Some 12.8)).
Proof.
  split.
  - do 4 eexists. split; [reflexivity|]. split; [reflexivity|].
    repeat split.
  - do 4 eexists. split; [reflexivity|]. split; [reflexivity|].
    repeat split.
Qed.

(** ** The remainder operator *)

Lemma Qtrunc_nonneg (q : Q) :
  0 <= q -> inject_Z (Qtrunc q) <= q /\ q < inject_Z (Qtrunc q) + 1.
Proof.
  destruct q as [n d]. unfold Qtrunc, Qle, Qlt, inject_Z, Qplus. simpl.
  intros Hn.
  assert (H0 : (0 <= n)%Z) by lia.
  pose proof (Z.quot_rem' n (Zpos d)) as E.
  pose proof (Z.rem_bound_pos_pos n (Zpos d) (Pos2Z.is_pos d) H0) as B.
  split; nia.
Qed.

Lemma Qtrunc_nonpos (q : Q) :
  q <= 0 -> q <= inject_Z (Qtrunc q) /\ inject_Z (Qtrunc q) - 1 < q.
Proof.
  destruct q as [n d].
  unfold Qtrunc, Qle, Qlt, inject_Z, Qminus, Qplus, Qopp. simpl.
  intros Hn.
  assert (H0 : (n <= 0)%Z) by lia.
  pose proof (Z.quot_rem' n (Zpos d)) as E.
  pose proof (Z.rem_bound_pos_neg n (Zpos d) (Pos2Z.is_pos d) H0) as B.
  split; nia.
Qed.

Lemma jsRem_360 (v : Q) : remainderOf v (jsRem v 360).
Proof.
  unfold remainderOf, jsRem. set (q := v / 360).
  assert (E : v == 360 * q) by (unfold q; field).
  destruct (Qlt_le_dec v 0) as [Hneg|Hpos].
  - assert (Hq : q <= 0) by lra.
    destruct (Qtrunc_nonpos q Hq) as [H1 H2].
    repeat split; try (intros; lra).
    exists (Qtrunc q). reflexivity.
  - assert (Hq : 0 <= q) by lra.
    destruct (Qtrunc_nonneg q Hq) as [H1 H2].
    repeat split; try (intros; lra).
    + exists (Qtrunc q). reflexivity.
    + intros Hle.
      assert (Ht : Qtrunc q = 0%Z).
      { assert (A : (Qtrunc q <= 0)%Z).
        { rewrite Zle_Qle. change (inject_Z 0) with 0. lra. }
        assert (B : (-1 < Qtrunc q)%Z).
        { rewrite Zlt_Qlt. change (inject_Z (-1)) with (-1 # 1). lra. }
        lia. }
      rewrite Ht. change (inject_Z 0) with 0. lra.
Qed.

(** ** Group records under live updates *)

Lemma groups_updateBlock (i : string) (patch : Patch) (st : Store) :
  groups (updateBlock i patch st) = groups st.
Proof. reflexivity. Qed.

Lemma getGroupById_pages (st : Store) (ps : list Page.t) (gid : string) :
  getGroupById (setPages ps st) gid = getGroupById st gid.
Proof. reflexivity. Qed.

Lemma getGroupById_updateGroup (gid : string) (patch : GroupPatch) (st : Store)
  (g : Group.t) :
  getGroupById st gid = Some g ->
  getGroupById (updateGroup gid patch st) gid
  = Some (assignAllowed patch
            (match patchChildIds patch with
             | Some newIds => setIds newIds g
             | None => g
             end)).
Proof.
  intros Hg. unfold getGroupById at 1.
  rewrite (groups_updateGroup _ patch _ _ Hg).
  destruct (find_group_split _ _ _ Hg) as (l1 & l2 & _ & Hid & Hl1 & Hrep & _).
  rewrite Hrep. apply find_group_middle; [assumption|].
  destruct (patchChildIds patch); exact Hid.
Qed.

(** ** Rotate gesture *)

Section RotateGesture.

Variables (cos sin : Q -> Q) (atan2 : Q -> Q -> Q) (PI : Q).

Lemma hasNumericSize_snapshot (b : Block.t) :
  hasNumericSize (Block.type b) (Block.size b) = true ->
  hasNumericSize (bs_type (snapshotBlock b)) (Some (bs_size (snapshotBlock b)))
  = true.
Proof.
  unfold snapshotBlock. simpl. destruct (Block.size b); [|discriminate].
  auto.
Qed.

Lemma singleRotate_writes (env : Env) (st0 st : Store) (down event : PointerEvent)
  (id : string) (i : Interaction) (b0 b : Block.t) :
  beginInteraction atan2 env st0 down rotate id None = Some i ->
  isGroupId id = false ->
  getBlockById st0 id = Some b0 ->
  hasNumericSize (Block.type b0) (Block.size b0) = true ->
  getBlockById st id = Some b ->
  exists c b',
    center i = Some c
    /\ startAngle i = atan2 (clientY down - y c) (clientX down - x c)
    /\ getBlockById (handlePointerMove cos sin atan2 PI env i event st) id
       = Some b'
    /\ Block.rotation b'
       = Some (jsRem
                 ((pointerDeltaAngle atan2 c (startAngle i) event * 180) / PI
                  + orElse (Block.rotation b0) 0) 360).
Proof.
  intros Hbegin Hng Hb0 Hnum Hb.
  assert (Hid := getBlockById_id _ _ _ Hb0).
  assert (Hsnap := hasNumericSize_snapshot b0 Hnum).
  unfold beginInteraction in Hbegin.
  destruct (canvas env) as [cRect|]; [|discriminate].
  rewrite Hng, Hb0 in Hbegin.
  destruct (Block.locked b0); [discriminate|].
  rewrite Hnum in Hbegin. simpl in Hbegin. injection Hbegin as <-.
  eexists. eexists. split; [reflexivity|]. split; [reflexivity|].
  unfold handlePointerMove. cbn [i_blockId i_type]. rewrite Hng.
  unfold singleRotate. cbn [blockSnapshot center startAngle initialRotation].
  rewrite Hsnap.
  change (bs_id (snapshotBlock b0)) with (Block.id b0). rewrite Hid.
  rewrite getBlockById_updateBlock, String.eqb_refl, Hb.
  split; reflexivity.
Qed.

Lemma groups_updateRotated (m : list (string * (Q * option Pos)))
  (st : Store) :
  groups
    (fold_left
       (fun s e =>
          updateBlock (fst e)
            (mkPatch (snd (snd e)) None (Some (fst (snd e))) None None)
            s)
       m st)
  = groups st.
Proof. apply fold_left_frame. reflexivity. Qed.

Lemma groupRotate_writes (env : Env) (st0 st : Store) (down event : PointerEvent)
  (id : string) (i : Interaction) (g0 g : Group.t) :
  beginInteraction atan2 env st0 down rotate id None = Some i ->
  isGroupId id = true ->
  getGroupById st0 id = Some g0 ->
  getGroupById st id = Some g ->
  exists c g',
    center i = Some c
    /\ startAngle i = atan2 (clientY down - y c) (clientX down - x c)
    /\ getGroupById (handlePointerMove cos sin atan2 PI env i event st) id
       = Some g'
    /\ Group.rotation g'
       = jsRem
           ((pointerDeltaAngle atan2 c (startAngle i) event * 180) / PI
            + Group.rotation g0) 360.
Proof.
  intros Hbegin Hgid Hg0 Hg.
  unfold beginInteraction in Hbegin.
  destruct (canvas env) as [cRect|]; [|discriminate].
  rewrite Hgid, Hg0 in Hbegin. injection Hbegin as <-.
  eexists. eexists. split; [reflexivity|]. split; [reflexivity|].
  unfold handlePointerMove. cbn [i_blockId i_type]. rewrite Hgid.
  unfold groupRotate.
  cbn [groupSnapshot center startAngle initialRotation i_blockId childSnapshots].
  match goal with
  | |- context [updateGroup id ?p ?s] =>
      assert (Hs : getGroupById s id = Some g)
        by (unfold getGroupById; rewrite groups_updateRotated; exact Hg);
      rewrite (getGroupById_updateGroup id p s g Hs)
  end.
  split; reflexivity.
Qed.

(** C5 (amended): on a pointer move of a rotate gesture the rotation
    written to the target (the block, or the group record) is
    [v % 360] for [v = initialRotation + (currentAngle − startAngle)] in
    degrees, where [%] keeps the sign of [v]: the value is congruent to
    [v] modulo 360 and lies strictly between -360 and 360; it is
    non-negative when [v] is, and negative or zero when [v] is. *)
Theorem rotate_gesture_rotation :
  forall env st0 st down event id i,
    beginInteraction atan2 env st0 down rotate id None = Some i ->
    (isGroupId id = false ->
     forall b0 b,
       getBlockById st0 id = Some b0 ->
       hasNumericSize (Block.type b0) (Block.size b0) = true ->
       getBlockById st id = Some b ->
       exists c b' r,
         center i = Some c
         /\ startAngle i = atan2 (clientY down - y c) (clientX down - x c)
         /\ getBlockById (handlePointerMove cos sin atan2 PI env i event st) id
            = Some b'
         /\ Block.rotation b' = Some r
         /\ remainderOf
              ((pointerDeltaAngle atan2 c (startAngle i) event * 180) / PI
               + orElse (Block.rotation b0) 0) r)
    /\ (isGroupId id = true ->
        forall g0 g,
          getGroupById st0 id = Some g0 ->
          getGroupById st id = Some g ->
          exists c g',
            center i = Some c
            /\ startAngle i = atan2 (clientY down - y c) (clientX down - x c)
            /\ getGroupById (handlePointerMove cos sin atan2 PI env i event st)
                 id = Some g'
            /\ remainderOf
                 ((pointerDeltaAngle atan2 c (startAngle i) event * 180) / PI
                  + Group.rotation g0) (Group.rotation g')).
Proof.
  intros env st0 st down event id i Hbegin. split.
  - intros Hng b0 b Hb0 Hnum Hb.
    destruct (singleRotate_writes env st0 st down event id i b0 b
                Hbegin Hng Hb0 Hnum Hb) as (c & b' & Hc & Hs & Hl & Hr).
    exists c, b'. eexists.
    split; [exact Hc|]. split; [exact Hs|]. split; [exact Hl|].
    split; [exact Hr|]. apply jsRem_360.
  - intros Hgid g0 g Hg0 Hg.
    destruct (groupRotate_writes env st0 st down event id i g0 g
                Hbegin Hgid Hg0 Hg) as (c & g' & Hc & Hs & Hl & Hr).
    exists c, g'.
    split; [exact Hc|]. split; [exact Hs|]. split; [exact Hl|].
    rewrite Hr. apply jsRem_360.
Qed.

End RotateGesture.

(** ** Sample gestures *)

Lemma rotate_gesture_rotation_witness :
  exists i,
    beginInteraction axisAtan2 demoEnv demoStore (mkEvent 85 35) rotate "a" None
    = Some i
    /\ exists c b' r,
        center i = Some c
        /\ getBlockById
             (handlePointerMove axisCos axisSin axisAtan2 ratPI demoEnv i
                (mkEvent 35 85) demoStore) "a" = Some b'
        /\ Block.rotation b' = Some r
        /\ remainderOf
             ((pointerDeltaAngle axisAtan2 c (startAngle i) (mkEvent 35 85) * 180)
              / ratPI + 0) r.
Proof.
  eexists. split; [reflexivity|].
  destruct (proj1 (rotate_gesture_rotation axisCos axisSin axisAtan2 ratPI
                     demoEnv demoStore demoStore (mkEvent 85 35) (mkEvent 35 85)
                     "a" _ eq_refl)
              eq_refl (demoBlock "a" None) (demoBlock "a" None)
              eq_refl eq_refl eq_refl)
    as (c & b' & r & Hc & _ & Hl & Hr & Hp).
  exists c, b', r. repeat split; try assumption; apply Hp.
Defined.

(** C5 as stated fails: the stored rotation can be negative.  Dragging the
    rotate handle of an upright block a quarter turn counter-clockwise
    (from the right of its centre to straight above it) stores -90, and a
    pointer move that does not leave the pointer-down point stores the
    initial -20 of a block that starts with that rotation. *)
Lemma rotation_normalized_counterexample :
  (exists i b' r,
      beginInteraction axisAtan2 demoEnv demoStore (mkEvent 85 35) rotate "a" None
      = Some i
      /\ getBlockById
           (handlePointerMove axisCos axisSin axisAtan2 ratPI demoEnv i
              (mkEvent 35 (-15)) demoStore) "a" = Some b'
      /\ Block.rotation b' = Some r
      /\ r == -90)
  /\ (exists i b' r,
         beginInteraction axisAtan2 demoEnv tiltedStore (mkEvent 85 35) rotate
           "img" None = Some i
         /\ getBlockById
              (handlePointerMove axisCos axisSin axisAtan2 ratPI demoEnv i
                 (mkEvent 85 35) tiltedStore) "img" = Some b'
         /\ Block.rotation b' = Some r
         /\ r == -20).
Proof.
  split.
  - do 3 eexists. split; [reflexivity|]. split; [vm_compute; reflexivity|].
    split; [reflexivity|]. vm_compute. reflexivity.
  - do 3 eexists. split; [reflexivity|]. split; [vm_compute; reflexivity|].
    split; [reflexivity|]. vm_compute. reflexivity.
Qed.

(** ** Crop insets *)

Lemma jsMin_cases (a b : Q) :
  (a <= b /\ jsMin a b = a) \/ (b < a /\ jsMin a b = b).
Proof.
  unfold jsMin. destruct (Qle_bool a b) eqn:E.
  - left. split; [now apply Qle_bool_iff | reflexivity].
  - right. split; [|reflexivity].
    apply Qnot_le_lt. intros H. apply Qle_bool_iff in H. congruence.
Qed.

Lemma jsMax_cases (a b : Q) :
  (a <= b /\ jsMax a b = b) \/ (b < a /\ jsMax a b = a).
Proof.
  unfold jsMax. destruct (Qle_bool a b) eqn:E.
  - left. split; [now apply Qle_bool_iff | reflexivity].
  - right. split; [|reflexivity].
    apply Qnot_le_lt. intros H. apply Qle_bool_iff in H. congruence.
Qed.

Lemma clamp100_cases (v : Q) :
  (v <= 0 /\ clamp100 v = 0)
  \/ (0 < v /\ v <= 100 /\ clamp100 v = v)
  \/ (100 < v /\ clamp100 v = 100).
Proof.
  unfold clamp100.
  destruct (jsMax_cases v 0) as [[H1 ->]|[H1 ->]].
  - left. split; [assumption | reflexivity].
  - destruct (jsMin_cases v 100) as [[H2 ->]|[H2 ->]].
    + right. left. auto.
    + right. right. auto.
Qed.

Lemma clamp100_id (v : Q) : 0 <= v -> v <= 100 -> clamp100 v == v.
Proof.
  intros H0 H1.
  destruct (clamp100_cases v) as [[? ->]|[(? & ? & ->)|[? ->]]]; lra.
Qed.

Ltac prune := try (exfalso; lra).

(** Case analysis on the clamps of the goal, innermost first; a clamp of
    a value known to lie in [0, 100] is replaced by an equal number. *)
Ltac crop_split :=
  match goal with
  | |- context [clamp100 ?v] =>
      is_var v;
      let e := fresh "e" in
      assert (e : clamp100 v == v) by (apply clamp100_id; lra);
      revert e; generalize (clamp100 v); intros ? e
  | |- context [clamp100 ?v] =>
      lazymatch v with
      | context [clamp100] => fail
      | context [jsMin] => fail
      | _ => destruct (clamp100_cases v) as [[? ->]|[(? & ? & ->)|[? ->]]]; prune
      end
  | |- context [jsMin ?a ?b] =>
      lazymatch a with
      | context [clamp100] => fail
      | _ => destruct (jsMin_cases a b) as [[? ->]|[? ->]]; prune
      end
  | |- context [Qlt_le_dec ?a ?b] => destruct (Qlt_le_dec a b); prune
  end.

Ltac crop_solve :=
  unfold MIN_VISIBLE_PERCENT in *; repeat crop_split;
  cbn [cv_top cv_right cv_bottom cv_left]; repeat split; lra.

Ltac crop_start :=
  unfold cropBounds;
  intros (Ht0 & Ht1 & Hr0 & Hr1 & Hb0 & Hb1 & Hl0 & Hl1 & Hh & Hv);
  unfold cropNext.

Ltac crop_finish w h dx dy c :=
  generalize (percentOf w dx) (percentOf h dy); intros px py;
  destruct c as [t r b l]; cbn [cv_top cv_right cv_bottom cv_left] in *;
  crop_solve.

Lemma cropNext_left (c : CropValues) (w h dx dy : Q) :
  cropBounds c ->
  let n := cropNext c w h "left" dx dy in
  cropBounds n
  /\ cv_left n
     == jsMin (clamp100 (cv_left c + percentOf w dx))
          (100 - cv_right c - MIN_VISIBLE_PERCENT)
  /\ cv_right n == cv_right c /\ cv_top n == cv_top c
  /\ cv_bottom n == cv_bottom c.
Proof.
  crop_start. cbn [String.eqb Ascii.eqb Bool.eqb andb].
  crop_finish w h dx dy c.
Qed.

Lemma cropNext_right (c : CropValues) (w h dx dy : Q) :
  cropBounds c ->
  let n := cropNext c w h "right" dx dy in
  cropBounds n
  /\ cv_right n
     == jsMin (clamp100 (cv_right c - percentOf w dx))
          (100 - cv_left c - MIN_VISIBLE_PERCENT)
  /\ cv_left n == cv_left c /\ cv_top n == cv_top c
  /\ cv_bottom n == cv_bottom c.
Proof.
  crop_start. cbn [String.eqb Ascii.eqb Bool.eqb andb].
  crop_finish w h dx dy c.
Qed.

Lemma cropNext_top (c : CropValues) (w h dx dy : Q) :
  cropBounds c ->
  let n := cropNext c w h "top" dx dy in
  cropBounds n
  /\ cv_top n
     == jsMin (clamp100 (cv_top c + percentOf h dy))
          (100 - cv_bottom c - MIN_VISIBLE_PERCENT)
  /\ cv_left n == cv_left c /\ cv_right n == cv_right c
  /\ cv_bottom n == cv_bottom c.
Proof.
  crop_start. cbn [String.eqb Ascii.eqb Bool.eqb andb].
  crop_finish w h dx dy c.
Qed.

Lemma cropNext_bottom (c : CropValues) (w h dx dy : Q) :
  cropBounds c ->
  let n := cropNext c w h "bottom" dx dy in
  cropBounds n
  /\ cv_bottom n
     == jsMin (clamp100 (cv_bottom c - percentOf h dy))
          (100 - cv_top c - MIN_VISIBLE_PERCENT)
  /\ cv_left n == cv_left c /\ cv_right n == cv_right c
  /\ cv_top n == cv_top c.
Proof.
  crop_start. cbn [String.eqb Ascii.eqb Bool.eqb andb].
  crop_finish w h dx dy c.
Qed.

Lemma cropNext_other (c : CropValues) (w h dx dy : Q) (hd : string) :
  hd <> "left" -> hd <> "right" -> hd <> "top" -> hd <> "bottom" ->
  cropBounds c ->
  let n := cropNext c w h hd dx dy in
  cropBounds n
  /\ cv_left n == cv_left c /\ cv_right n == cv_right c
  /\ cv_top n == cv_top c /\ cv_bottom n == cv_bottom c.
Proof.
  intros H1 H2 H3 H4. apply String.eqb_neq in H1, H2, H3, H4.
  crop_start. rewrite H1, H2, H3, H4.
  crop_finish w h dx dy c.
Qed.

(** The fallback of the horizontal correction: when the handle is not a
    horizontal one and less than [MIN_VISIBLE_PERCENT] is visible, both
    insets give up half of the excess (and are clamped again). *)
Lemma cropNext_fallback (c : CropValues) (w h dx dy : Q) (hd : string) :
  hd <> "left" -> hd <> "right" ->
  0 <= cv_left c -> cv_left c <= 100 ->
  0 <= cv_right c -> cv_right c <= 100 ->
  100 - MIN_VISIBLE_PERCENT < cv_left c + cv_right c ->
  let n := cropNext c w h hd dx dy in
  let excess := cv_left c + cv_right c - (100 - MIN_VISIBLE_PERCENT) in
  cv_left n == clamp100 (cv_left c - excess / 2)
  /\ cv_right n == clamp100 (cv_right c - excess / 2).
Proof.
  intros H1 H2 Hl0 Hl1 Hr0 Hr1 Hex. apply String.eqb_neq in H1, H2.
  unfold cropNext. rewrite H1, H2.
  generalize (percentOf w dx) (percentOf h dy). intros px py.
  destruct c as [t r b l]; cbn [cv_top cv_right cv_bottom cv_left] in *.
  unfold MIN_VISIBLE_PERCENT, Qdiv in *. change (/ 2) with (1 # 2) in *.
  assert (el : clamp100 l == l) by (apply clamp100_id; lra).
  assert (er : clamp100 r == r) by (apply clamp100_id; lra).
  destruct (Qlt_le_dec (100 - (clamp100 l + clamp100 r)) 1) as [Hlt|Hge];
    [|exfalso; lra].
  match goal with
  | |- context [let '(a, b) := ?V in _] => destruct V as [t2 b2]
  end.
  cbn [cv_left cv_right].
  revert el er Hlt. generalize (clamp100 l) (clamp100 r). intros l1 r1 el er Hlt.
  split.
  - destruct (clamp100_cases (l1 - (1 - (100 - (l1 + r1))) * (1 # 2)))
      as [[? ->]|[(? & ? & ->)|[? ->]]];
      destruct (clamp100_cases (l - (l + r - (100 - 1)) * (1 # 2)))
        as [[? ->]|[(? & ? & ->)|[? ->]]]; lra.
  - destruct (clamp100_cases (r1 - (1 - (100 - (l1 + r1))) * (1 # 2)))
      as [[? ->]|[(? & ? & ->)|[? ->]]];
      destruct (clamp100_cases (r - (l + r - (100 - 1)) * (1 # 2)))
        as [[? ->]|[(? & ? & ->)|[? ->]]]; lra.
Qed.

Lemma cropNext_bounds (c : CropValues) (w h dx dy : Q) (hd : string) :
  cropBounds c -> cropBounds (cropNext c w h hd dx dy).
Proof.
  intros Hc.
  destruct (String.eqb_spec hd "left") as [->|H1];
    [now apply cropNext_left|].
  destruct (String.eqb_spec hd "right") as [->|H2];
    [now apply cropNext_right|].
  destruct (String.eqb_spec hd "top") as [->|H3];
    [now apply cropNext_top|].
  destruct (String.eqb_spec hd "bottom") as [->|H4];
    [now apply cropNext_bottom|].
  now apply cropNext_other.
Qed.

Section CropGesture.

Variables (cos sin : Q -> Q) (atan2 : Q -> Q -> Q) (PI : Q).

(** The single-block crop branch writes [cropNext] of the snapshot taken
    at pointer-down. *)
Lemma singleCrop_writes (env : Env) (st0 st : Store)
  (down event : PointerEvent) (id hd : string) (i : Interaction)
  (b0 b : Block.t) (w h : Q) :
  beginInteraction atan2 env st0 down crop_ id (Some hd) = Some i ->
  isGroupId id = false ->
  hd <> EmptyString ->
  getBlockById st0 id = Some b0 ->
  Block.type b0 = image ->
  Block.size b0 = Some (mkSize (Some (pixels w)) (Some h)) ->
  getBlockById st id = Some b ->
  exists b',
    getBlockById (handlePointerMove cos sin atan2 PI env i event st) id
    = Some b'
    /\ Block.crop b'
       = Some (Some (cropOfValues
                       (cropNext
                          (getCropValues (cropObject (Block.crop b0))) w h hd
                          (clientX event - clientX down)
                          (clientY event - clientY down)))).
Proof.
  intros Hbegin Hng Hhd Hb0 Hty Hsz Hb.
  assert (Hid := getBlockById_id _ _ _ Hb0).
  unfold beginInteraction in Hbegin.
  destruct (canvas env) as [cRect|]; [|discriminate].
  rewrite Hng, Hb0 in Hbegin.
  destruct (Block.locked b0); [discriminate|].
  simpl in Hbegin. injection Hbegin as <-.
  unfold handlePointerMove. cbn [i_blockId i_type]. rewrite Hng.
  unfold singleCrop, handleOf. cbn [blockSnapshot handle startX startY].
  unfold snapshotBlock. cbn [bs_type bs_size bs_id bs_crop].
  rewrite Hty, Hsz, Hid.
  cbn [orElse isImage hasNumericSize isText width height numeric isSome andb].
  destruct hd as [|a hd]; [contradiction|].
  rewrite getBlockById_updateBlock, String.eqb_refl, Hb.
  eexists. split; reflexivity.
Qed.

End CropGesture.

Lemma zeroCrop_bounds : cropBounds (getCropValues None).
Proof.
  unfold cropBounds, MIN_VISIBLE_PERCENT. cbn. repeat split; lra.
Defined.

(** The scenario of the specification: all insets 0, the "left" handle
    dragged inward by 10% of the width. *)
Example crop_left_ten_percent :
  let n := cropNext (getCropValues None) 200 100 "left" 20 0 in
  cv_left n == 10 /\ cv_right n == 0 /\ cv_top n == 0 /\ cv_bottom n == 0
  /\ cv_left n + cv_right n <= 99.
Proof. vm_compute. repeat split; discriminate. Qed.

(** ** Group move *)

Section GroupMove.

Variables (cos sin : Q -> Q) (atan2 : Q -> Q -> Q) (PI : Q).
Variables (env : Env) (gid : string).

Lemma lookup_moveChildren (offsets : Offsets) (cx cy : Q) (ids : list string)
  (st : Store) (j : string) :
  getBlockById
    (fold_left
       (fun s childId =>
          let offset := orElse (objGet childId offsets) (mkPos 0 0) in
          updateBlock childId
            (positionPatch (mkPos (cx + x offset) (cy + y offset))) s)
       ids st) j
  = if includes j ids
    then option_map (assignPatch (movedChild offsets cx cy j)) (getBlockById st j)
    else getBlockById st j.
Proof.
  apply (getBlockById_mutateAll
           (fun i => assignPatch (movedChild offsets cx cy i))).
  - intros i b. apply assignPatch_id.
  - intros i b. apply assignPatch_idem.
Qed.









End GroupMove.


(** Moving the group by (5, 5) moves both children by exactly (5, 5);
    dragging it far to the right clamps the group at the right edge of the
    1000 px wide workspace and the children follow at their offsets. *)
Example group_move_by_five :
  let run e :=
    store
      (moveStep axisCos axisSin axisAtan2 ratPI demoEnv "g-1"
         (moveStep axisCos axisSin axisAtan2 ratPI demoEnv "g-1" groupedEditor
            (Down (mkEvent 100 100)))
         (Move e)) in
  blockAt (run (mkEvent 105 105)) "a" (mkPos 15 15) = true
  /\ blockAt (run (mkEvent 105 105)) "b" (mkPos 45 15) = true
  /\ option_map (fun g => posEqb (Group.position g) (mkPos 920 15))
       (getGroupById (run (mkEvent 5000 105)) "g-1") = Some true
  /\ blockAt (run (mkEvent 5000 105)) "a" (mkPos 920 15) = true
  /\ blockAt (run (mkEvent 5000 105)) "b" (mkPos 950 15) = true.
Proof. vm_compute. repeat split. Qed.

(** ** Resize *)

Ltac minmax_split :=
  match goal with
  | |- context [jsMin ?a ?b] =>
      lazymatch a with
      | context [jsMin] => fail
      | context [jsMax] => fail
      | _ => lazymatch b with
             | context [jsMin] => fail
             | context [jsMax] => fail
             | _ => destruct (jsMin_cases a b) as [[? ->]|[? ->]]
             end
      end
  | |- context [jsMax ?a ?b] =>
      lazymatch a with
      | context [jsMin] => fail
      | context [jsMax] => fail
      | _ => lazymatch b with
             | context [jsMin] => fail
             | context [jsMax] => fail
             | _ => destruct (jsMax_cases a b) as [[? ->]|[? ->]]
             end
      end
  end.

(** Dragging an edge towards the opposite one: the new edge is
    [max(0, min(start + delta, opposite - minSize))]. *)
Lemma dragged_edge (start extent delta minSize : Q) :
  let opposite := start + extent in
  let edge := jsMax 0 (jsMin (start + delta) (opposite - minSize)) in
  edge + (opposite - edge) == start + extent
  /\ 0 <= edge
  /\ (minSize <= opposite -> minSize <= opposite - edge).
Proof.
  cbv zeta. repeat minmax_split; repeat split; intros; lra.
Qed.

(** Dragging the far edge: the new extent is
    [max(minSize, min(extent + delta, limit))]. *)
Lemma dragged_extent (extent delta limit minSize : Q) :
  minSize <= jsMax minSize (jsMin (extent + delta) limit).
Proof. repeat minmax_split; lra. Qed.

(** The default resize, on the horizontal axis. *)
Lemma resizePatch_default_x (cRect : Rect) (snap : BlockSnapshot) (h : string)
  (dx dy w : Q) :
  isText (bs_type snap) && String.eqb h "top-left" = false ->
  width (bs_size snap) = Some (pixels w) ->
  exists nx ny nw nh,
    resizePatch cRect snap h dx dy
    = mkPatch (Some (mkPos nx ny)) (Some (Some (mkSize (Some (pixels nw)) nh)))
        None None None
    /\ (strIncludes "left" h = false ->
        nx = x (bs_position snap)
        /\ (strIncludes "right" h = true -> 40 <= nw)
        /\ (strIncludes "right" h = false -> nw = w))
    /\ (strIncludes "left" h = true ->
        nx + nw == x (bs_position snap) + w
        /\ 0 <= nx
        /\ (40 <= x (bs_position snap) + w -> 40 <= nw)
        /\ (x (bs_position snap) + w < 40 ->
            nx == 0 /\ nw == x (bs_position snap) + w)).
Proof.
  intros Hpath Hw. unfold resizePatch. rewrite Hpath, Hw. cbn [orElse numeric].
  destruct (strIncludes "left" h) eqn:Hl.
  - match goal with
    | |- context [let '(a, b) := ?V in _] => destruct V as [ny nh]
    end.
    do 4 eexists. split; [reflexivity|]. split; [discriminate|].
    intros _.
    destruct (dragged_edge (x (bs_position snap)) w dx 40) as (E & H0 & Hmin).
    cbv zeta in E, H0, Hmin.
    split; [exact E|]. split; [exact H0|]. split; [exact Hmin|].
    intros Hlt. repeat minmax_split; split; lra.
  - match goal with
    | |- context [let '(a, b) := ?V in _] => destruct V as [ny nh]
    end.
    do 4 eexists. split; [reflexivity|]. split; [|discriminate].
    intros _. split; [reflexivity|].
    destruct (strIncludes "right" h); split; intros; try discriminate.
    + apply dragged_extent.
    + reflexivity.
Qed.

(** The default resize, on the vertical axis, for a numeric height. *)
Lemma resizePatch_default_y (cRect : Rect) (snap : BlockSnapshot) (h : string)
  (dx dy sh : Q) :
  isText (bs_type snap) && String.eqb h "top-left" = false ->
  height (bs_size snap) = Some sh ->
  exists nx ny nw nh,
    resizePatch cRect snap h dx dy
    = mkPatch (Some (mkPos nx ny)) (Some (Some (mkSize nw (Some nh))))
        None None None
    /\ (strIncludes "top" h = false ->
        ny = y (bs_position snap)
        /\ (strIncludes "bottom" h = true -> 40 <= nh)
        /\ (strIncludes "bottom" h = false -> nh = sh))
    /\ (strIncludes "top" h = true ->
        ny + nh == y (bs_position snap) + sh
        /\ 0 <= ny
        /\ (40 <= y (bs_position snap) + sh -> 40 <= nh)
        /\ (y (bs_position snap) + sh < 40 ->
            ny == 0 /\ nh == y (bs_position snap) + sh)).
Proof.
  intros Hpath Hh. unfold resizePatch. rewrite Hpath, Hh.
  match goal with
  | |- context [let '(a, b) := ?V in _] => destruct V as [nx nw]
  end.
  destruct (strIncludes "top" h) eqn:Ht.
  - do 4 eexists. split; [reflexivity|]. split; [discriminate|].
    intros _.
    destruct (dragged_edge (y (bs_position snap)) sh dy 40) as (E & H0 & Hmin).
    cbv zeta in E, H0, Hmin.
    split; [exact E|]. split; [exact H0|]. split; [exact Hmin|].
    intros Hlt. repeat minmax_split; split; lra.
  - destruct (strIncludes "bottom" h) eqn:Hb.
    + do 4 eexists. split; [reflexivity|]. split; [|discriminate].
      intros _. split; [reflexivity|]. split; intros; try discriminate.
      apply dragged_extent.
    + do 4 eexists. split; [reflexivity|]. split; [|discriminate].
      intros _. split; [reflexivity|]. split; intros; try discriminate.
      reflexivity.
Qed.

(** The factor of the font size for a start width other than 0. *)
Lemma fontScale_nonzero (nw w : Q) :
  ~ w == 0 ->
  fontScale nw w = Some (jsMax 0.5 (jsMin (nw / w) 3))
  /\ 0.5 <= jsMax 0.5 (jsMin (nw / w) 3)
  /\ jsMax 0.5 (jsMin (nw / w) 3) <= 3
  /\ (0.5 <= nw / w -> nw / w <= 3 -> jsMax 0.5 (jsMin (nw / w) 3) == nw / w).
Proof.
  intros Hw. unfold fontScale.
  destruct (Qeq_bool w 0) eqn:E; [apply Qeq_bool_iff in E; contradiction|].
  split; [reflexivity|].
  generalize (nw / w). intros r.
  repeat minmax_split; repeat split; intros; lra.
Qed.

(** The text resize from the top-left handle. *)
Lemma resizePatch_text (cRect : Rect) (snap : BlockSnapshot) (dx dy w : Q) :
  bs_type snap = text ->
  width (bs_size snap) = Some (pixels w) ->
  let nx := jsMax 0 (jsMin (x (bs_position snap) + dx)
                       (x (bs_position snap) + w - 20)) in
  let nw := x (bs_position snap) + w - nx in
  resizePatch cRect snap "top-left" dx dy
  = mkPatch (Some (mkPos nx (y (bs_position snap))))
      (Some (Some (mkSize (Some (pixels nw)) (height (bs_size snap)))))
      None
      (option_map (fun scale => orElse (bs_fontSize snap) 16 * scale)
         (fontScale nw w))
      None
  /\ nx + nw == x (bs_position snap) + w
  /\ 0 <= nx
  /\ (20 <= x (bs_position snap) + w -> 20 <= nw)
  /\ (~ w == 0 ->
      let scale := jsMax 0.5 (jsMin (nw / w) 3) in
      fontScale nw w = Some scale
      /\ 0.5 <= scale /\ scale <= 3
      /\ (0.5 <= nw / w -> nw / w <= 3 -> scale == nw / w)).
Proof.
  intros Hty Hw. cbv zeta. unfold resizePatch. rewrite Hty, Hw.
  cbn [isText String.eqb Ascii.eqb Bool.eqb andb orElse numeric].
  split; [reflexivity|].
  destruct (dragged_edge (x (bs_position snap)) w dx 20) as (E & H0 & Hmin).
  cbv zeta in E, H0, Hmin.
  split; [exact E|]. split; [exact H0|]. split; [exact Hmin|].
  intros Hne. now apply fontScale_nonzero.
Qed.

Section ResizeGesture.

Variables (cos sin : Q -> Q) (atan2 : Q -> Q -> Q) (PI : Q).

(** The single-block resize branch writes [resizePatch] of the snapshot
    taken at pointer-down. *)
Lemma singleResize_writes (env : Env) (st0 st : Store)
  (down event : PointerEvent) (id h : string) (i : Interaction)
  (b0 b : Block.t) (cRect : Rect) :
  beginInteraction atan2 env st0 down resize id (Some h) = Some i ->
  canvas env = Some cRect ->
  isGroupId id = false ->
  h <> EmptyString ->
  getBlockById st0 id = Some b0 ->
  hasNumericSize (Block.type b0) (Block.size b0) = true ->
  getBlockById st id = Some b ->
  getBlockById (handlePointerMove cos sin atan2 PI env i event st) id
  = Some (assignPatch
            (resizePatch cRect (snapshotBlock b0) h
               (clientX event - clientX down) (clientY event - clientY down))
            b).
Proof.
  intros Hbegin Hc Hng Hh Hb0 Hnum Hb.
  assert (Hid := getBlockById_id _ _ _ Hb0).
  assert (Hsnap := hasNumericSize_snapshot b0 Hnum).
  unfold beginInteraction in Hbegin. rewrite Hc, Hng, Hb0 in Hbegin.
  destruct (Block.locked b0); [discriminate|].
  simpl in Hbegin. injection Hbegin as <-.
  unfold handlePointerMove. cbn [i_blockId i_type]. rewrite Hng.
  unfold singleResize, handleOf.
  cbn [blockSnapshot handle startX startY canvasRect]. rewrite Hsnap.
  destruct h as [|a h]; [contradiction|].
  change (bs_id (snapshotBlock b0)) with (Block.id b0). rewrite Hid.
  now rewrite getBlockById_updateBlock, String.eqb_refl, Hb.
Qed.

End ResizeGesture.

(** The scenario of the specification: the block at (10, 10) of size
    50 x 50 whose bottom-right handle is dragged by (20, 0) ends with size
    70 x 50 at (10, 10), one command is pushed, and undo restores
    50 x 50. *)
Example resize_bottom_right_by_twenty :
  let ed := pointerUp
              (dragHandle demoStore resize "a" "bottom-right"
                 (mkEvent 60 60) (mkEvent 80 60)) in
  sizeIs (store ed) "a" (mkSize (Some (pixels 70)) (Some 50)) = true
  /\ blockAt (store ed) "a" (mkPos 10 10) = true
  /\ List.length (undoStack (store ed)) = 1%nat
  /\ sizeIs (undo (store ed)) "a" (mkSize (Some (pixels 50)) (Some 50)) = true
  /\ blockAt (undo (store ed)) "a" (mkPos 10 10) = true.
Proof. vm_compute. repeat split. Qed.

(** The font size is rescaled by the top-left handle of a text block
    only: dragging the "right" handle of a text block by 20 px widens it
    from 100 to 120 and leaves its font size at 16. *)
Example resize_right_handle_keeps_font :
  let ed := dragHandle labelStore resize "t" "right"
              (mkEvent 110 20) (mkEvent 130 20) in
  sizeIs (store ed) "t" (mkSize (Some (pixels 120)) None) = true
  /\ fontSizeIs (store ed) "t" 16 = true.
Proof. vm_compute. repeat split. Qed.

(** C8: the minimum size is not kept by the handles with "left" or "top".
    The branches for "right" and "bottom" take the maximum with the
    minimum size last, so the width or height they write is at least 40
    whatever the pointer and the canvas are.  The branches for "left" and
    "top" cap the dragged edge at the opposite edge minus 40 and then
    raise it to 0: for a block whose opposite edge lies less than 40 from
    the canvas origin the dragged edge lands on 0, for every pointer
    delta, and the extent written is the distance of the opposite edge
    from the origin, which is below 40 (and negative when that edge lies
    left of or above the origin).  On the image of the sample store whose
    left edge is at -20 and whose width is 50, a drag of the "left" handle
    by 10 to the left writes a width of 30 and puts the left edge at 0; a
    drag of its "right" handle by 10 to the left writes a width of 40 and
    leaves the left edge at -20. *)
Theorem resize_left_edge_breaks_minimum :
  (forall cRect snap h dx dy w,
      isText (bs_type snap) && String.eqb h "top-left" = false ->
      width (bs_size snap) = Some (pixels w) ->
      exists nx ny nw nh,
        resizePatch cRect snap h dx dy
        = mkPatch (Some (mkPos nx ny))
            (Some (Some (mkSize (Some (pixels nw)) nh))) None None None
        /\ (strIncludes "left" h = false -> strIncludes "right" h = true ->
            40 <= nw)
        /\ (strIncludes "left" h = true ->
            x (bs_position snap) + w < 40 ->
            nx == 0 /\ nw == x (bs_position snap) + w /\ nw < 40))
  /\ (forall cRect snap h dx dy sh,
         isText (bs_type snap) && String.eqb h "top-left" = false ->
         height (bs_size snap) = Some sh ->
         exists nx ny nw nh,
           resizePatch cRect snap h dx dy
           = mkPatch (Some (mkPos nx ny)) (Some (Some (mkSize nw (Some nh))))
               None None None
           /\ (strIncludes "top" h = false -> strIncludes "bottom" h = true ->
               40 <= nh)
           /\ (strIncludes "top" h = true ->
               y (bs_position snap) + sh < 40 ->
               ny == 0 /\ nh == y (bs_position snap) + sh /\ nh < 40))
  /\ (let ed := dragHandle labelStore resize "e" "left"
                  (mkEvent 0 35) (mkEvent (-10) 35) in
      sizeIs (store ed) "e" (mkSize (Some (pixels 30)) (Some 50)) = true
      /\ blockAt (store ed) "e" (mkPos 0 10) = true)
  /\ (let ed := dragHandle labelStore resize "e" "right"
                  (mkEvent 30 35) (mkEvent 20 35) in
      sizeIs (store ed) "e" (mkSize (Some (pixels 40)) (Some 50)) = true
      /\ blockAt (store ed) "e" (mkPos (-20) 10) = true).
Proof.
  split; [|split; [|split]].
  - intros cRect snap h dx dy w Hpath Hw.
    destruct (resizePatch_default_x cRect snap h dx dy w Hpath Hw)
      as (nx & ny & nw & nh & E & Hno & Hleft).
    exists nx, ny, nw, nh. split; [exact E|]. split.
    + intros Hl Hr. exact (proj1 (proj2 (Hno Hl)) Hr).
    + intros Hl Hlt. destruct (Hleft Hl) as (_ & _ & _ & Hz).
      destruct (Hz Hlt) as [Hx Hn]. split; [exact Hx|]. split; [exact Hn|].
      lra.
  - intros cRect snap h dx dy sh Hpath Hh.
    destruct (resizePatch_default_y cRect snap h dx dy sh Hpath Hh)
      as (nx & ny & nw & nh & E & Hno & Htop).
    exists nx, ny, nw, nh. split; [exact E|]. split.
    + intros Ht Hb. exact (proj1 (proj2 (Hno Ht)) Hb).
    + intros Ht Hlt. destruct (Htop Ht) as (_ & _ & _ & Hz).
      destruct (Hz Hlt) as [Hy Hn]. split; [exact Hy|]. split; [exact Hn|].
      lra.
  - vm_compute. repeat split.
  - vm_compute. repeat split.
Qed.

Lemma resize_left_edge_breaks_minimum_witness :
  exists nx ny nw nh,
    resizePatch (mkRect 0 0 260 551)
      (snapshotBlock
         (Block.mk "e" image (Some (mkPos (-20) 10))
            (Some (mkSize (Some (pixels 50)) (Some 50))) None None None None
            false))
      "left" (-10) 0
    = mkPatch (Some (mkPos nx ny))
        (Some (Some (mkSize (Some (pixels nw)) nh))) None None None
    /\ nx == 0 /\ nw == -20 + 50 /\ nw < 40.
Proof.
  destruct (proj1 resize_left_edge_breaks_minimum (mkRect 0 0 260 551)
              (snapshotBlock
                 (Block.mk "e" image (Some (mkPos (-20) 10))
                    (Some (mkSize (Some (pixels 50)) (Some 50))) None None
                    None None false))
              "left" (-10) 0 50 eq_refl eq_refl)
    as (nx & ny & nw & nh & E & _ & Hleft).
  exists nx, ny, nw, nh. split; [exact E|].
  apply Hleft; [reflexivity|]. cbn. lra.
Defined.

(** ** Pointer-up *)









(** The commands pointer-up builds never throw and do not change when
    they run. *)
Lemma finalCommand_returns (i : Interaction) (st st' : Store) (c : Command) :
  finalCommand i st = Some c -> exists st1, cmd_do c st' = Done st1 c.
Proof.
  unfold finalCommand.
  destruct (isGroupId (i_blockId i)).
  - match goal with
    | |- context [if ?c then None else _] => destruct c
    end; [discriminate|].
    intros [= <-]. simpl. eexists. reflexivity.
  - destruct (blockSnapshot i) as [snap|]; [|discriminate].
    destruct (getBlockById st (bs_id snap)) as [current|]; [|discriminate].
    destruct (i_type i).
    + destruct (Block.position current); [|discriminate].
      match goal with
      | |- context [if ?c then _ else None] => destruct c
      end; [|discriminate].
      intros [= <-]. simpl. eexists. reflexivity.
    + match goal with
      | |- context [if ?c then _ else None] => destruct c
      end; [|discriminate].
      intros [= <-]. simpl. eexists. reflexivity.
    + match goal with
      | |- context [if ?c then _ else None] => destruct c
      end; [|discriminate].
      intros [= <-]. simpl. eexists. reflexivity.
    + match goal with
      | |- context [if ?c then _ else None] => destruct c
      end; [|discriminate].
      intros [= <-]. simpl. eexists. reflexivity.
Qed.

(** Pointer-up pushes the command it builds, and nothing else. *)
Lemma endInteraction_stacks (i : Interaction) (st : Store) :
  match finalCommand i st with
  | Some c =>
      undoStack (endInteraction i st) = undoStack st ++ [c]
      /\ redoStack (endInteraction i st) = []
  | None => endInteraction i st = st
  end.
Proof.
  unfold endInteraction.
  destruct (finalCommand i st) as [c|] eqn:E; [|reflexivity].
  destruct (finalCommand_returns i st st c E) as [st1 Hd].
  assert (H := applyCommand_stacks c st). rewrite Hd in H.
  unfold stacks in H. injection H as -> ->. auto.
Qed.

Lemma objGet_objSet {A : Type} (k k' : string) (v : A) (m : list (string * A)) :
  objGet k (objSet k' v m) = if String.eqb k' k then Some v else objGet k m.
Proof.
  induction m as [|[k0 v0] m IH]; simpl.
  - reflexivity.
  - destruct (String.eqb_spec k0 k') as [->|Hne]; simpl.
    + destruct (String.eqb k' k); reflexivity.
    + rewrite IH. destruct (String.eqb_spec k0 k) as [->|Hk].
      * destruct (String.eqb_spec k' k); [congruence|reflexivity].
      * reflexivity.
Qed.




Section PointerUp.

Variables (cos sin : Q -> Q) (atan2 : Q -> Q -> Q) (PI : Q).


(** The payload of a single-block session. *)
Lemma beginInteraction_single (env : Env) (st0 : Store) (down : PointerEvent)
  (type : InteractionType) (id : string) (h : option string) (i : Interaction)
  (b0 : Block.t) :
  beginInteraction atan2 env st0 down type id h = Some i ->
  isGroupId id = false ->
  getBlockById st0 id = Some b0 ->
  i_type i = type /\ i_blockId i = id
  /\ blockSnapshot i = Some (snapshotBlock b0)
  /\ startX i = clientX down /\ startY i = clientY down
  /\ canvas env = Some (canvasRect i).
Proof.
  intros Hbegin Hng Hb0. unfold beginInteraction in Hbegin.
  destruct (canvas env) as [cRect|]; [|discriminate].
  rewrite Hng, Hb0 in Hbegin.
  destruct (Block.locked b0); [discriminate|].
  injection Hbegin as <-. repeat split.
Qed.




End PointerUp.





(** A pointer-down on the group of [looseGroupStore], whose children have
    no rotation field, followed by a pointer-up, with no pointer move in
    between: pages and groups are as before, and one
    GroupTransformCommand is on the undo list.  The snapshot taken at
    pointer-down defaults a missing rotation to 0 while the entry read at
    pointer-up leaves it out, so the two serialisations differ. *)
Example group_click_history_entry :
  let ed :=
    pointerUp
      (pointerDown axisAtan2 demoEnv (mkEvent 20 20) move "g-1" None
         (mkEditor looseGroupStore None)) in
  pages (store ed) = pages looseGroupStore
  /\ groups (store ed) = groups looseGroupStore
  /\ List.length (undoStack (store ed)) = 1%nat.
Proof. vm_compute. repeat split. Qed.

(** A crop session compares the serialised crop objects, so their keys
    count, not only their insets.  The image has a crop with the one key
    [left]; a pointer-down on its "left" handle, a move to the same point
    and a pointer-up leave every inset as it was, but the crop written by
    the move has all four keys, and pointer-up pushes a CropCommand from
    the one-key crop to the four-key crop. *)
Example crop_click_history_entry :
  let ed :=
    pointerUp
      (dragHandle leftCropStore crop_ "a" "left" (mkEvent 20 20)
         (mkEvent 20 20)) in
  exists newC,
    undoStack (store ed) = [CropCommand "a" [("left", Some 10)] newC]
    /\ map fst newC = ["top"; "right"; "bottom"; "left"]
    /\ cv_top (getCropValues (Some newC)) == 0
    /\ cv_right (getCropValues (Some newC)) == 0
    /\ cv_bottom (getCropValues (Some newC)) == 0
    /\ cv_left (getCropValues (Some newC)) == 10.
Proof.
  eexists. split; [vm_compute; reflexivity|].
  repeat split; vm_compute; reflexivity.
Qed.

(** ** Group crop *)

Lemma clampCropValue_range (v : Q) :
  0 <= clampCropValue v /\ clampCropValue v <= 45.
Proof.
  unfold clampCropValue. repeat minmax_split; lra.
Qed.

(** Scaling a pair of insets whose total exceeds 90 down to a total of
    90. *)
Lemma scaled_pair (a b : Q) :
  0 <= a -> 0 <= b -> 90 < a + b ->
  0 <= a * (90 / (a + b)) /\ a * (90 / (a + b)) <= a
  /\ 0 <= b * (90 / (a + b)) /\ b * (90 / (a + b)) <= b
  /\ a * (90 / (a + b)) + b * (90 / (a + b)) == 90.
Proof.
  intros Ha Hb Hs.
  set (s := 90 / (a + b)).
  assert (Hs1 : s * (a + b) == 90) by (unfold s; field; lra).
  assert (Hs0 : 0 < s).
  { unfold s. apply Qlt_shift_div_l; lra. }
  assert (Hs2 : s < 1).
  { unfold s. apply Qlt_shift_div_r; lra. }
  repeat split; nra.
Qed.

Lemma scaleCropTotals_bounds (c : CropValues) :
  0 <= cv_top c -> cv_top c <= 100 ->
  0 <= cv_right c -> cv_right c <= 100 ->
  0 <= cv_bottom c -> cv_bottom c <= 100 ->
  0 <= cv_left c -> cv_left c <= 100 ->
  cropBounds (scaleCropTotals c).
Proof.
  destruct c as [t r b l]. cbn [cv_top cv_right cv_bottom cv_left].
  intros Ht0 Ht1 Hr0 Hr1 Hb0 Hb1 Hl0 Hl1.
  unfold scaleCropTotals, cropBounds, MIN_VISIBLE_PERCENT.
  cbn [cv_top cv_right cv_bottom cv_left].
  destruct (Qlt_le_dec 90 (l + r)) as [Hh|Hh];
    destruct (Qlt_le_dec 90 (t + b)) as [Hv|Hv];
    cbn [cv_top cv_right cv_bottom cv_left];
    try (destruct (scaled_pair l r Hl0 Hr0 Hh) as (? & ? & ? & ? & ?));
    try (destruct (scaled_pair t b Ht0 Hb0 Hv) as (? & ? & ? & ? & ?));
    repeat split; lra.
Qed.

(** The group crop branch keeps the same bounds; it corrects a total above
    90 by rescaling both insets of the axis. *)
Lemma groupCropNext_bounds (h : string) (dx dy : Q) (c : CropValues) :
  0 <= cv_top c -> cv_top c <= 100 ->
  0 <= cv_right c -> cv_right c <= 100 ->
  0 <= cv_bottom c -> cv_bottom c <= 100 ->
  0 <= cv_left c -> cv_left c <= 100 ->
  cropBounds (groupCropNext h dx dy c).
Proof.
  intros Ht0 Ht1 Hr0 Hr1 Hb0 Hb1 Hl0 Hl1. unfold groupCropNext.
  apply scaleCropTotals_bounds; cbn [cv_top cv_right cv_bottom cv_left];
    match goal with
    | |- context [if ?t then _ else _] => destruct t
    end;
    try assumption;
    match goal with
    | |- context [clampCropValue ?v] =>
        destruct (clampCropValue_range v); lra
    end.
Qed.


(** [clampCropValue] with its default bounds 0 and 45. *)
Lemma clampCropValue_cases (v : Q) :
  (v <= 0 -> clampCropValue v == 0)
  /\ (0 <= v -> v <= 45 -> clampCropValue v == v)
  /\ (45 <= v -> clampCropValue v == 45).
Proof.
  unfold clampCropValue. repeat split; intros; repeat minmax_split; lra.
Qed.

(** The totals of the group crop branch: an axis whose two insets add up
    to 90 or less keeps them, and both insets of an axis above 90 are
    multiplied by 90 over their total. *)
Lemma scaleCropTotals_policy (c : CropValues) :
  let n := scaleCropTotals c in
  (cv_left c + cv_right c <= 90 ->
   cv_left n == cv_left c /\ cv_right n == cv_right c)
  /\ (90 < cv_left c + cv_right c ->
      cv_left n == cv_left c * (90 / (cv_left c + cv_right c))
      /\ cv_right n == cv_right c * (90 / (cv_left c + cv_right c)))
  /\ (cv_top c + cv_bottom c <= 90 ->
      cv_top n == cv_top c /\ cv_bottom n == cv_bottom c)
  /\ (90 < cv_top c + cv_bottom c ->
      cv_top n == cv_top c * (90 / (cv_top c + cv_bottom c))
      /\ cv_bottom n == cv_bottom c * (90 / (cv_top c + cv_bottom c))).
Proof.
  destruct c as [t r b l]. unfold scaleCropTotals.
  cbn [cv_top cv_right cv_bottom cv_left].
  destruct (Qlt_le_dec 90 (l + r)) as [Hh|Hh];
    destruct (Qlt_le_dec 90 (t + b)) as [Hv|Hv];
    cbn [cv_top cv_right cv_bottom cv_left];
    repeat split; intros; try reflexivity; exfalso; lra.
Qed.

(** What the group crop branch does with the insets of one image: the
    inset of the handle becomes its candidate clamped by [clampCropValue],
    the three others are read as they are, and then the totals are
    scaled. *)
Lemma groupCropNext_policy (h : string) (dx dy : Q) (c : CropValues) :
  let l := if String.eqb h "left"
           then clampCropValue (cv_left c + dx) else cv_left c in
  let r := if String.eqb h "right"
           then clampCropValue (cv_right c - dx) else cv_right c in
  let t := if String.eqb h "top"
           then clampCropValue (cv_top c + dy) else cv_top c in
  let b := if String.eqb h "bottom"
           then clampCropValue (cv_bottom c - dy) else cv_bottom c in
  let n := groupCropNext h dx dy c in
  (l + r <= 90 -> cv_left n == l /\ cv_right n == r)
  /\ (90 < l + r ->
      cv_left n == l * (90 / (l + r)) /\ cv_right n == r * (90 / (l + r)))
  /\ (t + b <= 90 -> cv_top n == t /\ cv_bottom n == b)
  /\ (90 < t + b ->
      cv_top n == t * (90 / (t + b)) /\ cv_bottom n == b * (90 / (t + b))).
Proof.
  cbv zeta. unfold groupCropNext.
  match goal with
  | |- context [scaleCropTotals ?m] =>
      exact (scaleCropTotals_policy m)
  end.
Qed.

(** Every application of a crop delta, by either branch, keeps the
    bounds. *)
Lemma cropSteps_bounds (steps : list CropStep) (c : CropValues) :
  cropBounds c -> cropBounds (fold_left applyCropStep steps c).
Proof.
  revert c. induction steps as [|s steps IH]; intros c Hc; simpl;
    [exact Hc|].
  apply IH. destruct s as [hd w h dx dy|hd dx dy]; simpl.
  - now apply cropNext_bounds.
  - destruct Hc as (H1 & H2 & H3 & H4 & H5 & H6 & H7 & H8 & _).
    now apply groupCropNext_bounds.
Qed.

(** The fallback of the vertical correction: when the handle is not a
    vertical one and less than [MIN_VISIBLE_PERCENT] is visible, both
    insets give up half of the excess (and are clamped again). *)
Lemma cropNext_fallback_vertical (c : CropValues) (w h dx dy : Q)
  (hd : string) :
  hd <> "top" -> hd <> "bottom" ->
  0 <= cv_top c -> cv_top c <= 100 ->
  0 <= cv_bottom c -> cv_bottom c <= 100 ->
  100 - MIN_VISIBLE_PERCENT < cv_top c + cv_bottom c ->
  let n := cropNext c w h hd dx dy in
  let excess := cv_top c + cv_bottom c - (100 - MIN_VISIBLE_PERCENT) in
  cv_top n == clamp100 (cv_top c - excess / 2)
  /\ cv_bottom n == clamp100 (cv_bottom c - excess / 2).
Proof.
  intros H1 H2 Ht0 Ht1 Hb0 Hb1 Hex. apply String.eqb_neq in H1, H2.
  unfold cropNext. rewrite H1, H2.
  generalize (percentOf w dx) (percentOf h dy). intros px py.
  destruct c as [t r b l]; cbn [cv_top cv_right cv_bottom cv_left] in *.
  unfold MIN_VISIBLE_PERCENT, Qdiv in *. change (/ 2) with (1 # 2) in *.
  assert (et : clamp100 t == t) by (apply clamp100_id; lra).
  assert (eb : clamp100 b == b) by (apply clamp100_id; lra).
  match goal with
  | |- context [let '(a, b) := ?V in _] => destruct V as [l2 r2]
  end.
  destruct (Qlt_le_dec (100 - (clamp100 t + clamp100 b)) 1) as [Hlt|Hge];
    [|exfalso; lra].
  cbn [cv_top cv_bottom].
  revert et eb Hlt. generalize (clamp100 t) (clamp100 b). intros t1 b1 et eb Hlt.
  split.
  - destruct (clamp100_cases (t1 - (1 - (100 - (t1 + b1))) * (1 # 2)))
      as [[? ->]|[(? & ? & ->)|[? ->]]];
      destruct (clamp100_cases (t - (t + b - (100 - 1)) * (1 # 2)))
        as [[? ->]|[(? & ? & ->)|[? ->]]]; lra.
  - destruct (clamp100_cases (b1 - (1 - (100 - (t1 + b1))) * (1 # 2)))
      as [[? ->]|[(? & ? & ->)|[? ->]]];
      destruct (clamp100_cases (b - (t + b - (100 - 1)) * (1 # 2)))
        as [[? ->]|[(? & ? & ->)|[? ->]]]; lra.
Qed.

(** A block the loop of the group crop branch does not come to. *)
Lemma cropChildren_other (h : string) (dx dy : Q) (ids : list string)
  (st : Store) (j : string) :
  ~ In j ids ->
  getBlockById (cropChildren h dx dy ids st) j = getBlockById st j.
Proof.
  revert st. induction ids as [|bid ids IH]; intros st Hj; simpl;
    [reflexivity|].
  assert (Hne : bid <> j) by (intros ->; apply Hj; now left).
  assert (Hrest : ~ In j ids) by (intros H; apply Hj; now right).
  assert (Hstep : forall p,
             getBlockById (cropChildren h dx dy ids (updateBlock bid p st)) j
             = getBlockById st j).
  { intros p. rewrite IH by exact Hrest. rewrite getBlockById_updateBlock.
    destruct (String.eqb_spec bid j); [congruence | reflexivity]. }
  destruct (getBlockById st bid) as [blk|]; [|now apply IH].
  destruct (isImage (Block.type blk)); [|now apply IH].
  destruct (Block.crop blk) as [[c|]|]; try reflexivity; apply Hstep.
Qed.

(** An image child the loop comes to, in a store where no image has
    [null] for its crop: it gets [groupCropNext] of its own insets. *)
Lemma cropChildren_lookup (h : string) (dx dy : Q) (ids : list string)
  (st : Store) (cid : string) (b0 : Block.t) :
  NoDup ids ->
  (forall j b,
      getBlockById st j = Some b -> isImage (Block.type b) = true ->
      Block.crop b <> Some None) ->
  In cid ids ->
  getBlockById st cid = Some b0 ->
  isImage (Block.type b0) = true ->
  getBlockById (cropChildren h dx dy ids st) cid
  = Some (assignPatch
            (cropPatch
               (groupCropNext h dx dy
                  (getCropValues (cropObject (Block.crop b0))))) b0).
Proof.
  intros Hnd. revert st.
  induction ids as [|bid ids IH]; intros st Hnn Hin Hb0 Himg; [destruct Hin|].
  inversion Hnd as [|? ? Hnotin Hnd']; subst.
  assert (Hkeep : forall c j b,
             getBlockById (updateBlock bid (cropPatch c) st) j = Some b ->
             isImage (Block.type b) = true -> Block.crop b <> Some None).
  { intros c j b. rewrite getBlockById_updateBlock.
    destruct (String.eqb_spec bid j) as [<-|Hne]; [|apply Hnn].
    destruct (getBlockById st bid); [|discriminate].
    intros [= <-] _. discriminate. }
  simpl. destruct (String.eqb_spec bid cid) as [->|Hne].
  - rewrite Hb0, Himg.
    assert (Hnull := Hnn cid b0 Hb0 Himg).
    destruct (Block.crop b0) as [[c|]|] eqn:Hc; try contradiction;
      rewrite (cropChildren_other _ _ _ _ _ _ Hnotin);
      rewrite getBlockById_updateBlock, String.eqb_refl, Hb0; reflexivity.
  - assert (Hin' : In cid ids) by (destruct Hin; [congruence | assumption]).
    assert (Hstep : forall c,
               getBlockById (updateBlock bid (cropPatch c) st) cid = Some b0).
    { intros c. rewrite getBlockById_updateBlock.
      destruct (String.eqb_spec bid cid); [congruence | exact Hb0]. }
    destruct (getBlockById st bid) as [blk|] eqn:Hblk; [|now apply IH].
    destruct (isImage (Block.type blk)) eqn:Hi; [|now apply IH].
    assert (Hnull := Hnn bid blk Hblk Hi).
    destruct (Block.crop blk) as [[c|]|] eqn:Hc; try contradiction;
      (apply IH; [exact Hnd' | apply Hkeep | exact Hin' | apply Hstep
                 | exact Himg]).
Qed.

Section CropPolicy.

Variables (cos sin : Q -> Q) (atan2 : Q -> Q -> Q) (PI : Q).

(** The group crop branch writes, to every image child, [groupCropNext]
    of the child's own insets for the pointer delta in percent of the size
    of the group. *)
Lemma groupCrop_writes (env : Env) (i : Interaction) (e : PointerEvent)
  (st : Store) (group : Group.t) (h cid : string) (b0 : Block.t) :
  isGroupId (i_blockId i) = true ->
  i_type i = crop_ ->
  groupSnapshot i = Some group ->
  handleOf i = Some h ->
  NoDup (getGroupBlockIds group) ->
  (forall j b,
      getBlockById st j = Some b -> isImage (Block.type b) = true ->
      Block.crop b <> Some None) ->
  In cid (getGroupBlockIds group) ->
  getBlockById st cid = Some b0 ->
  isImage (Block.type b0) = true ->
  exists b',
    getBlockById (handlePointerMove cos sin atan2 PI env i e st) cid = Some b'
    /\ Block.crop b'
       = Some (Some (cropOfValues
                       (groupCropNext h
                          ((clientX e - startX i)
                           / orIfZero (gwidth (Group.size group)) 1 * 100)
                          ((clientY e - startY i)
                           / orIfZero (gheight (Group.size group)) 1 * 100)
                          (getCropValues (cropObject (Block.crop b0)))))).
Proof.
  intros Hg Ht Hs Hh Hnd Hnn Hin Hb0 Himg.
  unfold handlePointerMove. rewrite Hg, Ht.
  unfold groupCrop. rewrite Hs, Hh. cbv zeta.
  rewrite (cropChildren_lookup _ _ _ _ _ _ _ Hnd Hnn Hin Hb0 Himg).
  eexists. split; reflexivity.
Qed.

(** C6 (amended): starting from crop insets within the bounds (each inset
    in [0, 100] and at least MIN_VISIBLE = 1% visible on each axis), every
    sequence of crop-delta applications, by the single-block crop branch
    and by the group crop branch in any order, keeps every inset in
    [0, 100] and left+right and top+bottom at most 100 - MIN_VISIBLE,
    hence at most 100.  How a total is corrected depends on the branch.
    In the single-block branch the correction falls on the edge that
    moved: the moved inset is its clamped candidate capped at
    100 - MIN_VISIBLE minus the opposite inset, and the three other insets
    keep their values; only when the handle is not on the axis whose
    visible span is below MIN_VISIBLE do both insets of that axis,
    horizontal or vertical, give up half of the excess.  In the group
    branch the moved inset is its candidate clamped to [0, 45] by
    clampCropValue, an axis whose insets add up to 90 or less keeps the
    inset that did not move, and on an axis whose insets add up to more
    than 90 both insets, the one opposite the handle too, are multiplied
    by 90 over their total.  The single-block crop branch of the
    pointer-move handler writes the first function of the pointer-down
    snapshot; the group crop branch writes the second function of each
    image child's own insets (for a group that lists each child once, in
    a store where no image has null for its crop). *)
Theorem crop_clamp_invariant :
  (forall steps c,
      cropBounds c ->
      cropBounds (fold_left applyCropStep steps c)
      /\ cv_left (fold_left applyCropStep steps c)
         + cv_right (fold_left applyCropStep steps c) <= 100
      /\ cv_top (fold_left applyCropStep steps c)
         + cv_bottom (fold_left applyCropStep steps c) <= 100)
  /\ (forall c w h dx dy,
         cropBounds c ->
         (let n := cropNext c w h "left" dx dy in
          cv_left n
          == jsMin (clamp100 (cv_left c + percentOf w dx))
               (100 - cv_right c - MIN_VISIBLE_PERCENT)
          /\ cv_right n == cv_right c /\ cv_top n == cv_top c
          /\ cv_bottom n == cv_bottom c)
         /\ (let n := cropNext c w h "right" dx dy in
             cv_right n
             == jsMin (clamp100 (cv_right c - percentOf w dx))
                  (100 - cv_left c - MIN_VISIBLE_PERCENT)
             /\ cv_left n == cv_left c /\ cv_top n == cv_top c
             /\ cv_bottom n == cv_bottom c)
         /\ (let n := cropNext c w h "top" dx dy in
             cv_top n
             == jsMin (clamp100 (cv_top c + percentOf h dy))
                  (100 - cv_bottom c - MIN_VISIBLE_PERCENT)
             /\ cv_left n == cv_left c /\ cv_right n == cv_right c
             /\ cv_bottom n == cv_bottom c)
         /\ (let n := cropNext c w h "bottom" dx dy in
             cv_bottom n
             == jsMin (clamp100 (cv_bottom c - percentOf h dy))
                  (100 - cv_top c - MIN_VISIBLE_PERCENT)
             /\ cv_left n == cv_left c /\ cv_right n == cv_right c
             /\ cv_top n == cv_top c))
  /\ (forall c w h dx dy hd,
         hd <> "left" -> hd <> "right" ->
         0 <= cv_left c -> cv_left c <= 100 ->
         0 <= cv_right c -> cv_right c <= 100 ->
         100 - MIN_VISIBLE_PERCENT < cv_left c + cv_right c ->
         let n := cropNext c w h hd dx dy in
         let excess := cv_left c + cv_right c - (100 - MIN_VISIBLE_PERCENT) in
         cv_left n == clamp100 (cv_left c - excess / 2)
         /\ cv_right n == clamp100 (cv_right c - excess / 2))
  /\ (forall c w h dx dy hd,
         hd <> "top" -> hd <> "bottom" ->
         0 <= cv_top c -> cv_top c <= 100 ->
         0 <= cv_bottom c -> cv_bottom c <= 100 ->
         100 - MIN_VISIBLE_PERCENT < cv_top c + cv_bottom c ->
         let n := cropNext c w h hd dx dy in
         let excess := cv_top c + cv_bottom c - (100 - MIN_VISIBLE_PERCENT) in
         cv_top n == clamp100 (cv_top c - excess / 2)
         /\ cv_bottom n == clamp100 (cv_bottom c - excess / 2))
  /\ (forall v,
         0 <= clampCropValue v /\ clampCropValue v <= 45
         /\ (v <= 0 -> clampCropValue v == 0)
         /\ (0 <= v -> v <= 45 -> clampCropValue v == v)
         /\ (45 <= v -> clampCropValue v == 45))
  /\ (forall hd dx dy c,
         let l := if String.eqb hd "left"
                  then clampCropValue (cv_left c + dx) else cv_left c in
         let r := if String.eqb hd "right"
                  then clampCropValue (cv_right c - dx) else cv_right c in
         let t := if String.eqb hd "top"
                  then clampCropValue (cv_top c + dy) else cv_top c in
         let b := if String.eqb hd "bottom"
                  then clampCropValue (cv_bottom c - dy) else cv_bottom c in
         let n := groupCropNext hd dx dy c in
         (l + r <= 90 -> cv_left n == l /\ cv_right n == r)
         /\ (90 < l + r ->
             cv_left n == l * (90 / (l + r))
             /\ cv_right n == r * (90 / (l + r)))
         /\ (t + b <= 90 -> cv_top n == t /\ cv_bottom n == b)
         /\ (90 < t + b ->
             cv_top n == t * (90 / (t + b))
             /\ cv_bottom n == b * (90 / (t + b))))
  /\ (forall env st0 st down event id hd i b0 b w h,
         beginInteraction atan2 env st0 down crop_ id (Some hd) = Some i ->
         isGroupId id = false ->
         hd <> EmptyString ->
         getBlockById st0 id = Some b0 ->
         Block.type b0 = image ->
         Block.size b0 = Some (mkSize (Some (pixels w)) (Some h)) ->
         getBlockById st id = Some b ->
         exists b',
           getBlockById (handlePointerMove cos sin atan2 PI env i event st) id
           = Some b'
           /\ Block.crop b'
              = Some (Some (cropOfValues
                              (cropNext
                                 (getCropValues (cropObject (Block.crop b0)))
                                 w h hd
                                 (clientX event - clientX down)
                                 (clientY event - clientY down)))))
  /\ (forall env i e st group hd cid b0,
         isGroupId (i_blockId i) = true ->
         i_type i = crop_ ->
         groupSnapshot i = Some group ->
         handleOf i = Some hd ->
         NoDup (getGroupBlockIds group) ->
         (forall j b,
             getBlockById st j = Some b -> isImage (Block.type b) = true ->
             Block.crop b <> Some None) ->
         In cid (getGroupBlockIds group) ->
         getBlockById st cid = Some b0 ->
         isImage (Block.type b0) = true ->
         exists b',
           getBlockById (handlePointerMove cos sin atan2 PI env i e st) cid
           = Some b'
           /\ Block.crop b'
              = Some (Some (cropOfValues
                              (groupCropNext hd
                                 ((clientX e - startX i)
                                  / orIfZero (gwidth (Group.size group)) 1
                                  * 100)
                                 ((clientY e - startY i)
                                  / orIfZero (gheight (Group.size group)) 1
                                  * 100)
                                 (getCropValues
                                    (cropObject (Block.crop b0))))))).
Proof.
  split; [|split; [|split; [|split; [|split; [|split; [|split]]]]]].
  - intros steps c Hc.
    assert (Hb := cropSteps_bounds steps c Hc).
    split; [exact Hb|].
    unfold cropBounds, MIN_VISIBLE_PERCENT in Hb. split; lra.
  - intros c w h dx dy Hc. repeat split.
    all: first [ apply (cropNext_left c w h dx dy Hc)
               | apply (cropNext_right c w h dx dy Hc)
               | apply (cropNext_top c w h dx dy Hc)
               | apply (cropNext_bottom c w h dx dy Hc) ].
  - intros c w h dx dy hd. apply cropNext_fallback.
  - intros c w h dx dy hd. apply cropNext_fallback_vertical.
  - intros v. destruct (clampCropValue_range v) as [H0 H45].
    destruct (clampCropValue_cases v) as (Hlo & Hmid & Hhi).
    repeat split; assumption.
  - intros hd dx dy c. apply groupCropNext_policy.
  - intros env st0 st down event id hd i b0 b w h.
    apply (singleCrop_writes cos sin atan2 PI).
  - intros env i e st group hd cid b0. apply groupCrop_writes.
Qed.

End CropPolicy.

Lemma groupedStore_noNullCrop (j : string) (b : Block.t) :
  getBlockById groupedStore j = Some b ->
  isImage (Block.type b) = true ->
  Block.crop b <> Some None.
Proof.
  intros Hb _. unfold getBlockById, groupedStore in Hb. cbn in Hb.
  repeat match type of Hb with
         | context [if ?c then _ else _] => destruct c
         end;
    try discriminate; injection Hb as <-; discriminate.
Defined.

Lemma crop_clamp_invariant_witness :
  cropBounds (fold_left applyCropStep demoCropSteps (getCropValues None))
  /\ cv_left (cropNext (getCropValues None) 200 100 "left" 20 0)
     == jsMin (clamp100 (cv_left (getCropValues None) + percentOf 200 20))
          (100 - cv_right (getCropValues None) - MIN_VISIBLE_PERCENT)
  /\ cv_left (cropNext (mkCropValues 0 60 0 60) 200 100 "top" 0 0)
     == clamp100 (60 - (60 + 60 - (100 - MIN_VISIBLE_PERCENT)) / 2)
  /\ cv_top (cropNext (mkCropValues 60 0 60 0) 200 100 "left" 0 0)
     == clamp100 (60 - (60 + 60 - (100 - MIN_VISIBLE_PERCENT)) / 2)
  /\ cv_right (groupCropNext "left" 30 0 (mkCropValues 0 50 0 0)) == 50
  /\ cv_right (groupCropNext "left" 60 0 (mkCropValues 0 80 0 0))
     == 80 * (90 / (clampCropValue (0 + 60) + 80))
  /\ (exists b',
         getBlockById
           (handlePointerMove axisCos axisSin axisAtan2 ratPI demoEnv
              (mkInteraction crop_ "a" 10 35 (mkRect 0 0 260 551)
                 (Some (snapshotBlock (demoBlock "a" None))) None (mkPos 0 0)
                 [] [] [] (Some "left") None 0 0)
              (mkEvent 15 35) demoStore) "a" = Some b'
         /\ Block.crop b'
            = Some (Some (cropOfValues
                            (cropNext (getCropValues None) 50 50 "left"
                               (15 - 10) (35 - 35)))))
  /\ exists i,
      beginInteraction axisAtan2 demoEnv groupedStore (mkEvent 10 35) crop_
        "g-1" (Some "left") = Some i
      /\ exists b',
          getBlockById
            (handlePointerMove axisCos axisSin axisAtan2 ratPI demoEnv i
               (mkEvent 30 35) groupedStore) "a" = Some b'
          /\ Block.crop b'
             = Some (Some (cropOfValues
                             (groupCropNext "left"
                                ((30 - 10) / orIfZero 80 1 * 100)
                                ((35 - 35) / orIfZero 50 1 * 100)
                                (getCropValues None)))).
Proof.
  pose proof (crop_clamp_invariant axisCos axisSin axisAtan2 ratPI)
    as (H1 & H2 & H3 & H4 & _ & H6 & H7 & H8).
  split; [|split; [|split; [|split; [|split; [|split; [|split]]]]]].
  - exact (proj1 (H1 demoCropSteps (getCropValues None) zeroCrop_bounds)).
  - exact (proj1 (proj1 (H2 (getCropValues None) 200 100 20 0 zeroCrop_bounds))).
  - refine (proj1 (H3 (mkCropValues 0 60 0 60) 200 100 0 0 "top" _ _ _ _ _ _ _)).
    all: try discriminate.
    all: unfold MIN_VISIBLE_PERCENT; cbn [cv_left cv_right]; lra.
  - refine (proj1 (H4 (mkCropValues 60 0 60 0) 200 100 0 0 "left" _ _ _ _ _ _ _)).
    all: try discriminate.
    all: unfold MIN_VISIBLE_PERCENT; cbn [cv_top cv_bottom]; lra.
  - destruct (H6 "left" 30 0 (mkCropValues 0 50 0 0)) as (Hkeep & _).
    refine (proj2 (Hkeep _)). vm_compute. discriminate.
  - destruct (H6 "left" 60 0 (mkCropValues 0 80 0 0)) as (_ & Hscale & _).
    refine (proj2 (Hscale _)). vm_compute. reflexivity.
  - refine (H7 demoEnv demoStore demoStore (mkEvent 10 35) (mkEvent 15 35)
              "a" "left" _ (demoBlock "a" None) (demoBlock "a" None) 50 50
              eq_refl eq_refl _ eq_refl eq_refl eq_refl eq_refl).
    discriminate.
  - eexists. split; [reflexivity|].
    match goal with
    | |- context [handlePointerMove _ _ _ _ _ ?i _ _] =>
        refine (H8 demoEnv i (mkEvent 30 35) groupedStore _ "left" "a"
                  (Block.mk "a" image (Some (mkPos 10 10))
                     (Some (mkSize (Some (pixels 50)) (Some 50))) (Some 0)
                     None None (Some "g-1") false)
                  eq_refl eq_refl eq_refl eq_refl _ groupedStore_noNullCrop
                  (or_introl eq_refl) eq_refl eq_refl)
    end.
    repeat constructor; simpl; intuition discriminate.
Defined.

(** C6 as stated fails: a correction can fall on the edge opposite the
    one that moved.  Image "a" of group "g-1" has its right edge cropped by
    80% and its other insets at 0, within the bounds.  A crop gesture on
    the group drags the "left" handle by 60% of the group's width: the
    left inset becomes 32.4 and the right inset, the edge opposite the
    handle, goes from 80 to 57.6. *)
Lemma opposite_edge_counterexample :
  exists i b b',
    beginInteraction axisAtan2 demoEnv croppedGroupStore (mkEvent 10 35)
      crop_ "g-1" (Some "left") = Some i
    /\ getBlockById croppedGroupStore "a" = Some b
    /\ getBlockById
         (handlePointerMove axisCos axisSin axisAtan2 ratPI demoEnv i
            (mkEvent 58 35) croppedGroupStore) "a" = Some b'
    /\ cropBounds (getCropValues (cropObject (Block.crop b)))
    /\ cv_right (getCropValues (cropObject (Block.crop b))) == 80
    /\ cv_left (getCropValues (cropObject (Block.crop b))) == 0
    /\ cv_right (getCropValues (cropObject (Block.crop b'))) == 288 # 5
    /\ cv_left (getCropValues (cropObject (Block.crop b'))) == 162 # 5.
Proof.
  do 3 eexists.
  split; [reflexivity|]. split; [reflexivity|]. split; [reflexivity|].
  split; [vm_compute; repeat split; discriminate|].
  repeat split; vm_compute; reflexivity.
Qed.

(** * Further properties *)

(** ** Lookup by id *)

Lemma findInPages_holds (i : string) (ps : list Page.t) :
  match find (holdsBlock i) ps with
  | Some page =>
      findInPages i ps = find (hasId i) (Page.blocks page)
      /\ findInPages i ps <> None /\ In page ps
  | None => findInPages i ps = None
  end.
Proof.
  induction ps as [|p ps IH]; simpl; [reflexivity|].
  unfold holdsBlock at 1. rewrite existsb_hasId.
  destruct (find (hasId i) (Page.blocks p)) as [b|] eqn:Hf; simpl.
  - rewrite Hf. repeat split; [discriminate | now left].
  - destruct (find (holdsBlock i) ps) as [page|]; [|exact IH].
    destruct IH as (H1 & H2 & H3). repeat split; auto.
Qed.

Lemma containing_page_lookup (st : Store) (i : string) :
  match findPageContainingBlock st i with
  | Some page =>
      In page (pages st)
      /\ exists b,
          getBlockById st i = Some b
          /\ find (hasId i) (Page.blocks page) = Some b
          /\ Block.id b = i
  | None => getBlockById st i = None
  end.
Proof.
  unfold findPageContainingBlock, getBlockById.
  assert (H := findInPages_holds i (pages st)).
  change (fun p : Page.t => existsb (hasId i) (Page.blocks p))
    with (holdsBlock i).
  destruct (find (holdsBlock i) (pages st)) as [page|]; [|exact H].
  destruct H as (H1 & H2 & H3). split; [exact H3|].
  destruct (findInPages i (pages st)) as [b|] eqn:Hb; [|contradiction].
  exists b. repeat split; auto.
  eapply find_hasId. symmetry. exact H1.
Qed.

(** X1: getBlockById and findPageContainingBlock agree.  When a page holds
    a block with the id, getBlockById returns the first block with that id
    of the page findPageContainingBlock returns, and that block carries the
    id; when no page holds one, both return null. *)
Theorem lookup_agrees_with_containing_page (st : Store) (i : string) :
  match findPageContainingBlock st i with
  | Some page =>
      In page (pages st)
      /\ exists b,
          getBlockById st i = Some b
          /\ find (hasId i) (Page.blocks page) = Some b
          /\ Block.id b = i
  | None => getBlockById st i = None
  end.
Proof. apply containing_page_lookup. Qed.

(** ** updateBlock *)

Lemma mutateInPages_absent (i : string) (f : Block.t -> Block.t)
  (ps : list Page.t) :
  findInPages i ps = None -> mutateInPages i f ps = ps.
Proof.
  induction ps as [|p ps IH]; simpl; [reflexivity|].
  rewrite existsb_hasId.
  destruct (find (hasId i) (Page.blocks p)); simpl; [discriminate|].
  intros H. now rewrite IH.
Qed.

Lemma mutateFirst_ids (i : string) (f : Block.t -> Block.t)
  (bs : list Block.t) :
  (forall b, Block.id (f b) = Block.id b) ->
  map Block.id (mutateFirst i f bs) = map Block.id bs.
Proof.
  intros Hf. induction bs as [|b bs IH]; simpl; [reflexivity|].
  destruct (hasId i b); simpl; [now rewrite Hf | now rewrite IH].
Qed.

Lemma mutateInPages_layout (i : string) (f : Block.t -> Block.t)
  (ps : list Page.t) :
  (forall b, Block.id (f b) = Block.id b) ->
  layout (mutateInPages i f ps) = layout ps.
Proof.
  intros Hf. induction ps as [|p ps IH]; simpl; [reflexivity|].
  destruct (existsb (hasId i) (Page.blocks p)); simpl.
  - now rewrite mutateFirst_ids.
  - now rewrite IH.
Qed.

(** X2: updateBlock(id, patch) changes one block and nothing else.  An id
    no page holds leaves the store as it is.  Otherwise the id resolves to
    the old block with the keys of the patch assigned, every other id
    resolves as before, the pages keep their ids and the order of their
    blocks, and groups, both history lists and the active page id are
    untouched. *)
Theorem updateBlock_changes_one_block (st : Store) (i : string) (patch : Patch) :
  (getBlockById st i = None -> updateBlock i patch st = st)
  /\ (forall b, getBlockById st i = Some b ->
        getBlockById (updateBlock i patch st) i = Some (assignPatch patch b))
  /\ (forall j, j <> i ->
        getBlockById (updateBlock i patch st) j = getBlockById st j)
  /\ layout (pages (updateBlock i patch st)) = layout (pages st)
  /\ groups (updateBlock i patch st) = groups st
  /\ undoStack (updateBlock i patch st) = undoStack st
  /\ redoStack (updateBlock i patch st) = redoStack st
  /\ activePageId (updateBlock i patch st) = activePageId st.
Proof.
  split; [|split; [|split; [|split]]].
  - intros H. unfold updateBlock, mutateBlock, setPages.
    unfold getBlockById in H. rewrite (mutateInPages_absent _ _ _ H).
    now destruct st.
  - intros b Hb. rewrite getBlockById_updateBlock, String.eqb_refl, Hb.
    reflexivity.
  - intros j Hj. rewrite getBlockById_updateBlock.
    destruct (String.eqb_spec i j); [congruence | reflexivity].
  - apply mutateInPages_layout. apply assignPatch_id.
  - repeat split.
Qed.

Lemma updateBlock_changes_one_block_witness :
  getBlockById (updateBlock "a" (positionPatch (mkPos 15 15)) demoStore) "a"
  = Some (assignPatch (positionPatch (mkPos 15 15)) (demoBlock "a" None))
  /\ getBlockById (updateBlock "a" (positionPatch (mkPos 15 15)) demoStore) "b"
     = getBlockById demoStore "b"
  /\ updateBlock "zz" (positionPatch (mkPos 15 15)) demoStore = demoStore.
Proof.
  destruct (updateBlock_changes_one_block demoStore "a"
              (positionPatch (mkPos 15 15))) as (_ & H2 & H3 & _).
  destruct (updateBlock_changes_one_block demoStore "zz"
              (positionPatch (mkPos 15 15))) as (H1 & _).
  split; [exact (H2 (demoBlock "a" None) eq_refl)|].
  split; [apply H3; discriminate|exact (H1 eq_refl)].
Defined.

(** ** addBlockToPage *)

Lemma find_snoc {A : Type} (f : A -> bool) (l : list A) (a : A) :
  find f (l ++ [a])
  = match find f l with
    | Some u => Some u
    | None => if f a then Some a else None
    end.
Proof.
  induction l as [|u l IH]; simpl; [reflexivity|].
  destruct (f u); [reflexivity | exact IH].
Qed.

Lemma find_updateFirstPage (pred : Page.t -> bool)
  (f : list Block.t -> list Block.t) (ps : list Page.t) (page : Page.t) :
  (forall p bs, pred (Page.mk (Page.id p) bs) = pred p) ->
  find pred ps = Some page ->
  find pred (updateFirstPage pred f ps)
  = Some (Page.mk (Page.id page) (f (Page.blocks page))).
Proof.
  intros Hp. induction ps as [|p ps IH]; simpl; [discriminate|].
  destruct (pred p) eqn:E; simpl.
  - intros [= <-]. now rewrite Hp, E.
  - rewrite E. exact IH.
Qed.

Lemma updateFirstPage_none (pred : Page.t -> bool)
  (f : list Block.t -> list Block.t) (ps : list Page.t) :
  find pred ps = None -> updateFirstPage pred f ps = ps.
Proof.
  induction ps as [|p ps IH]; simpl; [reflexivity|].
  destruct (pred p); [discriminate|]. intros H. now rewrite IH.
Qed.

Lemma isPage_mk (pid : string) (p : Page.t) (bs : list Block.t) :
  isPage pid (Page.mk (Page.id p) bs) = isPage pid p.
Proof. reflexivity. Qed.

Lemma findInPages_append (pred : Page.t -> bool) (b : Block.t) (j : string)
  (ps : list Page.t) :
  find pred ps <> None ->
  (hasId j b = false ->
   findInPages j (updateFirstPage pred (fun bs => bs ++ [b]) ps)
   = findInPages j ps)
  /\ (hasId j b = true -> findInPages j ps = None ->
      findInPages j (updateFirstPage pred (fun bs => bs ++ [b]) ps) = Some b).
Proof.
  induction ps as [|p ps IH]; simpl; [congruence|].
  destruct (pred p) eqn:E; simpl.
  - intros _. rewrite find_snoc. split.
    + intros Hj. rewrite Hj.
      now destruct (find (hasId j) (Page.blocks p)).
    + intros Hj. rewrite Hj.
      destruct (find (hasId j) (Page.blocks p)); [discriminate|].
      reflexivity.
  - intros H. destruct (IH H) as [H1 H2]. split.
    + intros Hj. now rewrite (H1 Hj).
    + intros Hj. destruct (find (hasId j) (Page.blocks p)); [discriminate|].
      auto.
Qed.

(** X3: addBlockToPage(block, pageId).  When the page id (the argument, or
    the active page id when the argument is null) names no page the store
    is unchanged and null is returned.  Otherwise the block returned keeps
    its id, or gets the generated one when its id is empty, and becomes the
    last block of the first page with that id; every other id resolves as
    before, and the new id resolves to the new block when no block had it
    before. *)
Theorem addBlockToPage_appends (genId : string) (block : Block.t)
  (pageId : option string) (st : Store) :
  match addBlockToPage genId block pageId st with
  | (st', None) => st' = st /\ findPage (pageIdOr pageId st) st = None
  | (st', Some b) =>
      Block.id b = (if emptyId (Block.id block) then genId else Block.id block)
      /\ withId (Block.id b) block = b
      /\ (exists page,
             findPage (pageIdOr pageId st) st = Some page
             /\ findPage (pageIdOr pageId st) st'
                = Some (Page.mk (Page.id page) (Page.blocks page ++ [b])))
      /\ (forall j, j <> Block.id b -> getBlockById st' j = getBlockById st j)
      /\ (getBlockById st (Block.id b) = None ->
          getBlockById st' (Block.id b) = Some b)
      /\ groups st' = groups st /\ activePageId st' = activePageId st
  end.
Proof.
  unfold addBlockToPage, findPage.
  destruct (pageIdOr pageId st) as [pid|]; [|split; reflexivity].
  destruct (find (isPage pid) (pages st)) as [page|] eqn:Hp;
    [|split; reflexivity].
  set (b := if emptyId (Block.id block) then withId genId block else block).
  assert (Hne : find (isPage pid) (pages st) <> None) by congruence.
  split; [|split; [|split; [|split; [|split]]]].
  - unfold b. now destruct (emptyId (Block.id block)).
  - unfold b. destruct (emptyId (Block.id block)); [reflexivity|].
    now destruct block.
  - exists page. split; [reflexivity|].
    cbn [pages setPages].
    apply (find_updateFirstPage (isPage pid) (fun bs => bs ++ [b]));
      [apply isPage_mk | exact Hp].
  - intros j Hj. unfold getBlockById. cbn [pages setPages].
    apply (findInPages_append (isPage pid) b j (pages st) Hne).
    unfold hasId. destruct (String.eqb_spec (Block.id b) j); congruence.
  - intros Hfree. unfold getBlockById. cbn [pages setPages].
    apply (findInPages_append (isPage pid) b (Block.id b) (pages st) Hne).
    + unfold hasId. apply String.eqb_refl.
    + exact Hfree.
  - split; reflexivity.
Qed.

Lemma addBlockToPage_appends_witness :
  match addBlockToPage "gen" (demoBlock "c" None) None demoStore with
  | (st', Some b) =>
      Block.id b = "c" /\ getBlockById st' "c" = Some b
      /\ getBlockById st' "a" = getBlockById demoStore "a"
  | (_, None) => False
  end.
Proof.
  pose proof (addBlockToPage_appends "gen" (demoBlock "c" None) None demoStore)
    as H.
  change (addBlockToPage "gen" (demoBlock "c" None) None demoStore)
    with (setPages [Page.mk "page_1"
                      [demoBlock "a" None; demoBlock "b" None;
                       demoBlock "c" None]] demoStore,
          Some (demoBlock "c" None)) in H |- *.
  cbv beta iota in H |- *.
  destruct H as (Hid & _ & _ & Hother & Hnew & _).
  split; [exact Hid|]. split; [exact (Hnew eq_refl)|].
  apply Hother. discriminate.
Defined.

(** ** removeBlock and ensureGroupRemovedForBlock *)

Lemma find_dropBlock_other (i j : string) (bs : list Block.t) :
  j <> i -> find (hasId j) (dropBlock i bs) = find (hasId j) bs.
Proof.
  intros Hne. unfold dropBlock.
  induction bs as [|b bs IH]; simpl; [reflexivity|].
  destruct (hasId i b) eqn:Hi; simpl.
  - rewrite IH. unfold hasId in Hi |- *. apply String.eqb_eq in Hi.
    destruct (String.eqb_spec (Block.id b) j); [congruence | reflexivity].
  - now rewrite IH.
Qed.

Lemma find_dropBlock_same (i : string) (bs : list Block.t) :
  find (hasId i) (dropBlock i bs) = None.
Proof.
  unfold dropBlock. induction bs as [|b bs IH]; simpl; [reflexivity|].
  destruct (hasId i b) eqn:E; simpl; [exact IH|]. now rewrite E.
Qed.

Lemma findInPages_drop_other (pred : Page.t -> bool) (i j : string)
  (ps : list Page.t) :
  j <> i ->
  findInPages j (updateFirstPage pred (dropBlock i) ps) = findInPages j ps.
Proof.
  intros Hne. induction ps as [|p ps IH]; simpl; [reflexivity|].
  destruct (pred p); simpl.
  - now rewrite find_dropBlock_other.
  - now rewrite IH.
Qed.

Lemma holdsBlock_false (i : string) (p : Page.t) :
  holdsBlock i p = false -> find (hasId i) (Page.blocks p) = None.
Proof.
  unfold holdsBlock. rewrite existsb_hasId.
  now destruct (find (hasId i) (Page.blocks p)).
Qed.

Lemma findInPages_none (i : string) (ps : list Page.t) :
  filter (holdsBlock i) ps = [] -> findInPages i ps = None.
Proof.
  induction ps as [|p ps IH]; simpl; [reflexivity|].
  destruct (holdsBlock i p) eqn:E; [discriminate|].
  rewrite (holdsBlock_false _ _ E). exact IH.
Qed.

Lemma findInPages_drop_same (i : string) (ps : list Page.t) :
  (List.length (filter (holdsBlock i) ps) <= 1)%nat ->
  findInPages i (updateFirstPage (holdsBlock i) (dropBlock i) ps) = None.
Proof.
  induction ps as [|p ps IH]; simpl; [reflexivity|].
  destruct (holdsBlock i p) eqn:E; simpl.
  - intros H. rewrite find_dropBlock_same. apply findInPages_none.
    destruct (filter (holdsBlock i) ps); [reflexivity | simpl in H; lia].
  - intros H. rewrite (holdsBlock_false _ _ E). now apply IH.
Qed.

Lemma dropBlock_absent (i : string) (bs : list Block.t) :
  find (hasId i) bs = None -> dropBlock i bs = bs.
Proof.
  unfold dropBlock. induction bs as [|b bs IH]; simpl; [reflexivity|].
  destruct (hasId i b); simpl; [discriminate|]. intros H. now rewrite IH.
Qed.

Lemma ensureGroupRemoved_childIds (i : string) (st : Store) (g : Group.t) :
  In g (groups (ensureGroupRemovedForBlock i st)) -> ~ In i (Group.childIds g).
Proof.
  unfold ensureGroupRemovedForBlock. cbn [groups setGroups].
  rewrite in_map_iff. intros (g0 & <- & _).
  destruct (includes i (Group.childIds g0)) eqn:E.
  - cbn [withChildIds Group.childIds]. rewrite filter_In.
    intros [_ H]. now rewrite String.eqb_refl in H.
  - intros H. apply includes_In in H. congruence.
Qed.

Lemma ensureGroupRemoved_frame (i : string) (st : Store) :
  pages (ensureGroupRemovedForBlock i st) = pages st
  /\ map Group.id (groups (ensureGroupRemovedForBlock i st))
     = map Group.id (groups st)
  /\ map Group.blockIds (groups (ensureGroupRemovedForBlock i st))
     = map Group.blockIds (groups st).
Proof.
  unfold ensureGroupRemovedForBlock. cbn [pages groups setGroups].
  split; [reflexivity|].
  rewrite !map_map. split; apply map_ext; intros g;
    destruct (includes i (Group.childIds g)); reflexivity.
Qed.

(** X4: removeBlock(blockId).  With neither a page that holds the block nor
    an active page nothing changes.  Otherwise no group lists the id in its
    childIds afterwards, while every group keeps its id and its blockIds
    alias as they were; every other id resolves as before; and the id
    itself no longer resolves when at most one page held a block with
    it. *)
Theorem removeBlock_postcondition (st : Store) (i : string) :
  (findPageContainingBlock st i = None -> activePage st = None ->
   removeBlock i st = st)
  /\ (findPageContainingBlock st i <> None \/ activePage st <> None ->
      forall g, In g (groups (removeBlock i st)) -> ~ In i (Group.childIds g))
  /\ (forall j, j <> i ->
        getBlockById (removeBlock i st) j = getBlockById st j)
  /\ ((List.length (filter (holdsBlock i) (pages st)) <= 1)%nat ->
      getBlockById (removeBlock i st) i = None)
  /\ map Group.id (groups (removeBlock i st)) = map Group.id (groups st)
  /\ map Group.blockIds (groups (removeBlock i st))
     = map Group.blockIds (groups st).
Proof.
  unfold removeBlock.
  assert (Hagree := containing_page_lookup st i).
  destruct (findPageContainingBlock st i) as [page|] eqn:Hc.
  - split; [discriminate|]. split; [|split; [|split]].
    + intros _ g. apply ensureGroupRemoved_childIds.
    + intros j Hj. unfold getBlockById.
      rewrite (proj1 (ensureGroupRemoved_frame _ _)). cbn [pages setPages].
      now apply findInPages_drop_other.
    + intros Hone. unfold getBlockById.
      rewrite (proj1 (ensureGroupRemoved_frame _ _)). cbn [pages setPages].
      now apply findInPages_drop_same.
    + destruct (ensureGroupRemoved_frame i
                  (setPages
                     (updateFirstPage (holdsBlock i) (dropBlock i) (pages st))
                     st)) as (_ & H1 & H2).
      split; assumption.
  - unfold activePage.
    destruct (activePageId st) as [a|] eqn:Ha;
      [destruct (find (fun p => String.eqb (Page.id p) a) (pages st))
         as [page|] eqn:Hp|].
    + split; [discriminate|]. split; [|split; [|split]].
      * intros _ g. apply ensureGroupRemoved_childIds.
      * intros j Hj. unfold getBlockById.
        rewrite (proj1 (ensureGroupRemoved_frame _ _)). cbn [pages setPages].
        now apply findInPages_drop_other.
      * intros _. unfold getBlockById.
        rewrite (proj1 (ensureGroupRemoved_frame _ _)). cbn [pages setPages].
        unfold getBlockById in Hagree. revert Hagree.
        generalize (pages st). intros ps. induction ps as [|p ps IH]; simpl;
          [reflexivity|].
        destruct (find (hasId i) (Page.blocks p)) eqn:Hf; [discriminate|].
        intros H. destruct (isPage a p); simpl.
        -- rewrite dropBlock_absent, Hf by exact Hf. exact H.
        -- rewrite Hf. now apply IH.
      * destruct (ensureGroupRemoved_frame i
                    (setPages
                       (updateFirstPage (isPage a) (dropBlock i) (pages st))
                       st)) as (_ & H1 & H2).
        split; assumption.
    + split; [reflexivity|]. split; [intros [H|H]; congruence|].
      repeat split. intros _. exact Hagree.
    + split; [reflexivity|]. split; [intros [H|H]; congruence|].
      repeat split. intros _. exact Hagree.
Qed.

Lemma removeBlock_postcondition_witness :
  getBlockById (removeBlock "a" mergeStore) "a" = None
  /\ getBlockById (removeBlock "a" mergeStore) "b" = getBlockById mergeStore "b"
  /\ (forall g, In g (groups (removeBlock "a" mergeStore)) ->
        ~ In "a" (Group.childIds g))
  /\ removeBlock "a" emptyStore = emptyStore.
Proof.
  destruct (removeBlock_postcondition mergeStore "a")
    as (_ & Hg & Hother & Hgone & _).
  destruct (removeBlock_postcondition emptyStore "a") as (Hnone & _).
  split; [apply Hgone; vm_compute; lia|].
  split; [apply Hother; discriminate|].
  split; [apply Hg; left; discriminate|].
  exact (Hnone eq_refl eq_refl).
Defined.

(** ** The active page *)

Lemma activePage_id (st : Store) (page : Page.t) :
  activePage st = Some page -> activePageId st = Some (Page.id page).
Proof.
  unfold activePage. destruct (activePageId st) as [a|]; [|discriminate].
  intros H. apply find_some in H. destruct H as [_ H].
  apply String.eqb_eq in H. now subst.
Qed.

Lemma find_setBlocksOfPage (a : string) (bs : list Block.t) (ps : list Page.t) :
  find (fun p => String.eqb (Page.id p) a) (setBlocksOfPage a bs ps)
  = option_map (fun p => Page.mk (Page.id p) bs)
      (find (fun p => String.eqb (Page.id p) a) ps).
Proof.
  induction ps as [|p ps IH]; simpl; [reflexivity|].
  destruct (String.eqb (Page.id p) a) eqn:E; simpl; rewrite E;
    [reflexivity | exact IH].
Qed.




(** ** The group registry *)

Lemma find_app_group (gid : string) (l1 l2 : list Group.t) :
  find (isGroup gid) (l1 ++ l2)
  = match find (isGroup gid) l1 with
    | Some g => Some g
    | None => find (isGroup gid) l2
    end.
Proof.
  induction l1 as [|a l1 IH]; simpl; [reflexivity|].
  destruct (isGroup gid a); [reflexivity | exact IH].
Qed.

Lemma find_removeFirstGroup_other (gid h : string) (gs : list Group.t) :
  h <> gid ->
  find (isGroup h) (removeFirstGroup gid gs) = find (isGroup h) gs.
Proof.
  intros Hne. induction gs as [|a gs IH]; simpl; [reflexivity|].
  destruct (String.eqb_spec (Group.id a) gid) as [E|E].
  - unfold isGroup at 2.
    destruct (String.eqb_spec (Group.id a) h); [congruence | reflexivity].
  - simpl. now rewrite IH.
Qed.

Lemma find_removeFirstGroup_same (gid : string) (gs : list Group.t) :
  (List.length (filter (isGroup gid) gs) <= 1)%nat ->
  find (isGroup gid) (removeFirstGroup gid gs) = None.
Proof.
  induction gs as [|a gs IH]; simpl; [reflexivity|].
  unfold isGroup at 1.
  destruct (String.eqb (Group.id a) gid) eqn:E; simpl.
  - intros H. destruct (find (isGroup gid) gs) as [g|] eqn:Hf; [|reflexivity].
    apply find_some in Hf.
    assert (Hin : In g (filter (isGroup gid) gs)) by (now apply filter_In).
    destruct (filter (isGroup gid) gs); [contradiction | simpl in H; lia].
  - intros H. unfold isGroup at 1. rewrite E. now apply IH.
Qed.

Lemma find_replaceFirstGroup_other (gid h : string) (new : Group.t)
  (gs : list Group.t) :
  h <> gid -> Group.id new = gid ->
  find (isGroup h) (replaceFirstGroup gid new gs) = find (isGroup h) gs.
Proof.
  intros Hne Hnew. induction gs as [|a gs IH]; simpl; [reflexivity|].
  destruct (String.eqb_spec (Group.id a) gid) as [E|E]; simpl.
  - unfold isGroup.
    destruct (String.eqb_spec (Group.id new) h); [congruence|].
    destruct (String.eqb_spec (Group.id a) h); [congruence | reflexivity].
  - now rewrite IH.
Qed.

(** X6: the group registry.  addGroup appends the record, so an id that is
    already registered keeps resolving to the older record and the new one
    is shadowed; a free id resolves to the new record.  removeGroup and
    updateGroup leave every other id's record alone; removeGroup takes out
    the first record with the id, and the id no longer resolves when it was
    the only one; updateGroup replaces the first record by the patched one;
    both do nothing for an id that is not registered. *)
Theorem group_registry_lookup :
  (forall genId spec st gid,
      getGroupById (addGroup genId spec st) gid
      = match getGroupById st gid with
        | Some g => Some g
        | None =>
            if isGroup gid (normalizeGroup genId spec)
            then Some (normalizeGroup genId spec) else None
        end)
  /\ (forall gid st h, h <> gid ->
         getGroupById (removeGroup gid st) h = getGroupById st h)
  /\ (forall gid st,
         (List.length (filter (isGroup gid) (groups st)) <= 1)%nat ->
         getGroupById (removeGroup gid st) gid = None)
  /\ (forall gid patch st h, h <> gid ->
         getGroupById (updateGroup gid patch st) h = getGroupById st h)
  /\ (forall gid patch st g,
         getGroupById st gid = Some g ->
         getGroupById (updateGroup gid patch st) gid
         = Some (assignAllowed patch
                   (match patchChildIds patch with
                    | Some newIds => setIds newIds g
                    | None => g
                    end)))
  /\ (forall gid patch st,
         getGroupById st gid = None ->
         updateGroup gid patch st = st /\ removeGroup gid st = st).
Proof.
  split; [|split; [|split; [|split; [|split]]]].
  - intros genId spec st gid. unfold getGroupById.
    rewrite groups_addGroup.
    change (fun gr : Group.t => String.eqb (Group.id gr) gid)
      with (isGroup gid).
    rewrite find_app_group. simpl.
    destruct (find (isGroup gid) (groups st)); reflexivity.
  - intros gid st h Hne.
    destruct (getGroupById st gid) as [g|] eqn:Hg.
    + unfold getGroupById at 1. rewrite (groups_removeGroup _ _ _ Hg).
      now apply find_removeFirstGroup_other.
    + unfold removeGroup. now rewrite Hg.
  - intros gid st Hone.
    destruct (getGroupById st gid) as [g|] eqn:Hg.
    + unfold getGroupById at 1. rewrite (groups_removeGroup _ _ _ Hg).
      now apply find_removeFirstGroup_same.
    + unfold removeGroup. now rewrite Hg.
  - intros gid patch st h Hne.
    destruct (getGroupById st gid) as [g|] eqn:Hg.
    + unfold getGroupById at 1. rewrite (groups_updateGroup _ patch _ _ Hg).
      apply find_replaceFirstGroup_other; [exact Hne|].
      destruct (find_group_split _ _ _ Hg) as (_ & _ & _ & Hid & _).
      destruct (patchChildIds patch); exact Hid.
    + unfold updateGroup. now rewrite Hg.
  - intros gid patch st g. apply getGroupById_updateGroup.
  - intros gid patch st Hg. unfold updateGroup, removeGroup.
    now rewrite Hg.
Qed.

Lemma group_registry_lookup_witness :
  getGroupById (removeGroup "g-1" reassignedStore) "g-2"
  = getGroupById reassignedStore "g-2"
  /\ getGroupById (removeGroup "g-1" reassignedStore) "g-1" = None
  /\ getGroupById (updateGroup "g-1" (childIdsPatch ["b"]) reassignedStore) "g-2"
     = getGroupById reassignedStore "g-2"
  /\ updateGroup "g-9" (childIdsPatch ["b"]) reassignedStore = reassignedStore.
Proof.
  destruct group_registry_lookup as (_ & Hr & Hgone & Hu & _ & Hnone).
  split; [apply Hr; discriminate|].
  split; [apply Hgone; vm_compute; lia|].
  split; [apply Hu; discriminate|].
  exact (proj1 (Hnone "g-9" (childIdsPatch ["b"]) reassignedStore eq_refl)).
Defined.

(** ** Undo and redo along the history *)

Lemma plainCommand_returns (c : Command) (st : Store) :
  plainCommand c = true ->
  (exists st1, cmd_do c st = Done st1 c)
  /\ (exists st1, cmd_undo c st = Done st1 c).
Proof.
  destruct c; simpl; try discriminate; intros _; split; eexists; reflexivity.
Qed.

Lemma last_split {A : Type} (l : list A) :
  l = [] \/ exists rest a, l = rest ++ [a].
Proof.
  destruct (rev l) as [|a r] eqn:E.
  - left. apply (f_equal (@rev A)) in E. now rewrite rev_involutive in E.
  - right. exists (rev r), a. apply (f_equal (@rev A)) in E.
    now rewrite rev_involutive in E.
Qed.

Lemma timeline_undo (st : Store) :
  forallb plainCommand (timeline st) = true ->
  timeline (undo st) = timeline st.
Proof.
  intros Hp. destruct (last_split (undoStack st)) as [E|(rest & c & E)].
  - unfold undo. now rewrite E.
  - assert (Hc : plainCommand c = true).
    { unfold timeline in Hp. rewrite E, !forallb_app in Hp. simpl in Hp.
      apply andb_prop in Hp. destruct Hp as [Hp _].
      apply andb_prop in Hp. destruct Hp as [_ Hp].
      now apply andb_prop in Hp. }
    assert (H := undo_stacks st rest c E).
    destruct (proj2 (plainCommand_returns c
                       (setStacks rest (redoStack st) st) Hc)) as [st1 Hd].
    rewrite Hd in H. unfold stacks in H. injection H as Hu Hr.
    unfold timeline. rewrite Hu, Hr, E, rev_app_distr. simpl.
    now rewrite <- app_assoc.
Qed.

Lemma timeline_redo (st : Store) :
  forallb plainCommand (timeline st) = true ->
  timeline (redo st) = timeline st.
Proof.
  intros Hp. destruct (last_split (redoStack st)) as [E|(rest & c & E)].
  - unfold redo. now rewrite E.
  - assert (Hc : plainCommand c = true).
    { unfold timeline in Hp. rewrite E, forallb_app, rev_app_distr in Hp.
      simpl in Hp. apply andb_prop in Hp. destruct Hp as [_ Hp].
      now apply andb_prop in Hp. }
    assert (H := redo_stacks st rest c E).
    destruct (proj1 (plainCommand_returns c
                       (setStacks (undoStack st) rest st) Hc)) as [st1 Hd].
    rewrite Hd in H. unfold stacks in H. injection H as Hu Hr.
    unfold timeline. rewrite Hu, Hr, E, rev_app_distr. simpl.
    now rewrite <- app_assoc.
Qed.

(** X8: undo and redo only move the boundary between the applied and the
    undone commands.  In a history whose entries are all MoveCommand,
    ResizeCommand, RotateCommand, CropCommand or GroupTransformCommand
    objects (the kinds pointer-up pushes; their do and undo only call
    updateBlock and updateGroup and do not throw), after any sequence of
    undo and redo key presses the undo list followed by the reversed redo
    list is the same list of commands as before: no entry is lost,
    duplicated or reordered, and the two lists together keep their length.
    A history with an entry of another kind is not covered: the store runs
    any object with do and undo, and drops an entry whose do or undo
    throws. *)
Theorem undo_redo_keep_timeline (ops : list HistoryOp) (st : Store) :
  forallb plainCommand (timeline st) = true ->
  timeline (runHistory ops st) = timeline st
  /\ (List.length (undoStack (runHistory ops st))
      + List.length (redoStack (runHistory ops st))
      = List.length (undoStack st) + List.length (redoStack st))%nat.
Proof.
  intros Hp.
  assert (H : timeline (runHistory ops st) = timeline st).
  { unfold runHistory. revert st Hp.
    induction ops as [|op ops IH]; intros st Hp; simpl; [reflexivity|].
    assert (Hstep : timeline (applyHistoryOp st op) = timeline st).
    { destruct op; simpl.
      - destruct (canUndo st); [now apply timeline_undo | reflexivity].
      - destruct (canRedo st); [now apply timeline_redo | reflexivity]. }
    rewrite IH; [exact Hstep | now rewrite Hstep]. }
  split; [exact H|].
  apply (f_equal (@List.length Command)) in H. unfold timeline in H.
  rewrite !length_app, !length_rev in H. exact H.
Qed.

Lemma undo_redo_keep_timeline_witness :
  timeline (runHistory [OpUndo; OpUndo; OpRedo; OpUndo; OpRedo; OpRedo; OpRedo]
              (applyAll [moveA; textResize] demoStore))
  = [moveA; textResize].
Proof.
  exact (proj1 (undo_redo_keep_timeline
                  [OpUndo; OpUndo; OpRedo; OpUndo; OpRedo; OpRedo; OpRedo]
                  (applyAll [moveA; textResize] demoStore) eq_refl)).
Defined.

(** ** Undo of the single-block commands *)

Lemma mutateFirst_compose (i : string) (f g : Block.t -> Block.t)
  (bs : list Block.t) :
  (forall b, Block.id (g b) = Block.id b) ->
  mutateFirst i f (mutateFirst i g bs) = mutateFirst i (fun b => f (g b)) bs.
Proof.
  intros Hg. induction bs as [|b bs IH]; simpl; [reflexivity|].
  destruct (hasId i b) eqn:E; simpl.
  - unfold hasId in *. now rewrite Hg, E.
  - now rewrite E, IH.
Qed.

Lemma existsb_mutateFirst (i j : string) (g : Block.t -> Block.t)
  (bs : list Block.t) :
  (forall b, Block.id (g b) = Block.id b) ->
  existsb (hasId j) (mutateFirst i g bs) = existsb (hasId j) bs.
Proof.
  intros Hg. induction bs as [|b bs IH]; simpl; [reflexivity|].
  destruct (hasId i b); simpl.
  - unfold hasId. now rewrite Hg.
  - now rewrite IH.
Qed.

Lemma mutateInPages_compose (i : string) (f g : Block.t -> Block.t)
  (ps : list Page.t) :
  (forall b, Block.id (g b) = Block.id b) ->
  mutateInPages i f (mutateInPages i g ps)
  = mutateInPages i (fun b => f (g b)) ps.
Proof.
  intros Hg. induction ps as [|p ps IH]; simpl; [reflexivity|].
  destruct (existsb (hasId i) (Page.blocks p)) eqn:E; simpl.
  - rewrite existsb_mutateFirst, E by exact Hg.
    now rewrite mutateFirst_compose.
  - now rewrite E, IH.
Qed.

Lemma mutateFirst_fixed (i : string) (f : Block.t -> Block.t)
  (bs : list Block.t) :
  (forall b, find (hasId i) bs = Some b -> f b = b) ->
  mutateFirst i f bs = bs.
Proof.
  induction bs as [|b bs IH]; simpl; [reflexivity|].
  destruct (hasId i b); intros H.
  - now rewrite H.
  - now rewrite IH.
Qed.

Lemma mutateInPages_fixed (i : string) (f : Block.t -> Block.t)
  (ps : list Page.t) :
  (forall b, findInPages i ps = Some b -> f b = b) ->
  mutateInPages i f ps = ps.
Proof.
  induction ps as [|p ps IH]; simpl; [reflexivity|].
  rewrite existsb_hasId.
  destruct (find (hasId i) (Page.blocks p)) as [b0|] eqn:E; simpl; intros H.
  - rewrite mutateFirst_fixed; [now destruct p|].
    intros b Hb. apply H. congruence.
  - now rewrite IH.
Qed.

Lemma updateBlock_twice_fixed (i : string) (p q : Patch) (st : Store)
  (b : Block.t) :
  getBlockById st i = Some b ->
  assignPatch q (assignPatch p b) = b ->
  updateBlock i q (updateBlock i p st) = st.
Proof.
  intros Hb Hfix. unfold updateBlock, mutateBlock. destruct st as [ps a gs u r].
  unfold setPages. cbn [pages activePageId groups undoStack redoStack].
  f_equal. rewrite mutateInPages_compose by apply assignPatch_id.
  apply mutateInPages_fixed. intros b' Hb'.
  unfold getBlockById in Hb. cbn [pages] in Hb. congruence.
Qed.

(** X9: where undo is the inverse of do.  For a MoveCommand, a
    ResizeCommand, a RotateCommand without child maps and a CropCommand
    whose "before" payload is the state of its block, do followed by undo
    gives back the store exactly; so do, undo, do ends where one do ends.
    For a ResizeCommand this needs a key that do writes (position, font
    size) to be written back by undo, which is the case when the old value
    is not null. *)
Theorem single_block_undo_inverts_do (cmd : Command) (st : Store) (b : Block.t) :
  getBlockById st (commandTarget cmd) = Some b ->
  beforeMatches cmd b ->
  exists st1,
    cmd_do cmd st = Done st1 cmd
    /\ cmd_undo cmd st1 = Done st cmd
    /\ cmd_do cmd (outcomeStore (cmd_undo cmd st1)) = Done st1 cmd.
Proof.
  intros Hb Hm.
  assert (Hgoal : exists st1,
             cmd_do cmd st = Done st1 cmd /\ cmd_undo cmd st1 = Done st cmd).
  { destruct cmd; simpl in *; try contradiction.
    - eexists. split; [reflexivity|]. f_equal.
      apply (updateBlock_twice_fixed _ _ _ _ _ Hb).
      destruct b; simpl in *. now subst.
    - destruct Hm as (Hs & Hp & Hf).
      eexists. split; [reflexivity|]. f_equal.
      apply (updateBlock_twice_fixed _ _ _ _ _ Hb).
      destruct b; unfold assignPatch; simpl in *. subst.
      f_equal.
      + destruct oldP; simpl in Hp; [now subst | now subst].
      + destruct oldFontSize; simpl in Hf; [now subst | now subst].
    - destruct childOld; [contradiction|]. destruct childNew; [contradiction|].
      eexists. split; [reflexivity|]. f_equal.
      apply (updateBlock_twice_fixed _ _ _ _ _ Hb).
      destruct b; simpl in *. now subst.
    - eexists. split; [reflexivity|]. f_equal.
      apply (updateBlock_twice_fixed _ _ _ _ _ Hb).
      destruct b; simpl in *. now subst. }
  destruct Hgoal as (st1 & H1 & H2). exists st1.
  split; [exact H1|]. split; [exact H2|]. rewrite H2. exact H1.
Qed.

Lemma single_block_undo_inverts_do_witness :
  cmd_undo dragA (outcomeStore (cmd_do dragA demoStore)) = Done demoStore dragA.
Proof.
  destruct (single_block_undo_inverts_do dragA demoStore (demoBlock "a" None)
              eq_refl eq_refl) as (st1 & Hdo & Hundo & _).
  rewrite Hdo. exact Hundo.
Defined.

(** ** Page commands *)

Lemma findIndex_spec {A : Type} (pred : A -> bool) (l : list A) :
  match find pred l with
  | None => findIndex pred l = (-1)%Z
  | Some a =>
      exists l1 l2,
        l = l1 ++ a :: l2
        /\ findIndex pred l = Z.of_nat (List.length l1)
        /\ pred a = true
        /\ forall u, In u l1 -> pred u = false
  end.
Proof.
  induction l as [|u l IH]; simpl; [reflexivity|].
  destruct (pred u) eqn:E.
  - exists [], l. repeat split; auto. intros ? [].
  - destruct (find pred l) as [a|].
    + destruct IH as (l1 & l2 & -> & Hi & Ha & Hl1).
      exists (u :: l1), l2. rewrite Hi.
      destruct (Z.ltb_spec (Z.of_nat (List.length l1)) 0); [lia|].
      repeat split; auto.
      * simpl List.length. lia.
      * intros w [<-|Hw]; auto.
    + now rewrite IH.
Qed.

Lemma spliceStart_index (n len : nat) :
  (n <= len)%nat -> spliceStart (Z.of_nat n) len = n.
Proof.
  intros H. unfold spliceStart.
  destruct (Z.ltb_spec (Z.of_nat n) 0); lia.
Qed.

Lemma spliceOut_middle {A : Type} (l1 l2 : list A) (a : A) :
  spliceOut (Z.of_nat (List.length l1)) (l1 ++ a :: l2) = l1 ++ l2.
Proof.
  unfold spliceOut. rewrite spliceStart_index
    by (rewrite length_app; simpl; lia).
  rewrite firstn_app, firstn_all, Nat.sub_diag.
  rewrite skipn_app, skipn_all2 by lia.
  replace (S (List.length l1) - List.length l1)%nat with 1%nat by lia.
  simpl. now rewrite app_nil_r.
Qed.

Lemma spliceIn_middle {A : Type} (l1 l2 : list A) (a : A) :
  spliceIn (Z.of_nat (List.length l1)) a (l1 ++ l2) = l1 ++ a :: l2.
Proof.
  unfold spliceIn. rewrite spliceStart_index
    by (rewrite length_app; lia).
  rewrite firstn_app, firstn_all, Nat.sub_diag.
  rewrite skipn_app, skipn_all, Nat.sub_diag.
  simpl. now rewrite app_nil_r.
Qed.

Lemma store_setPages_same (st : Store) : setPages (pages st) st = st.
Proof. now destruct st. Qed.

(** X10: the page commands.  Undo after do gives back the store, for an
    AddPageCommand and for a RemovePageCommand that has not run before;
    RemovePageCommand takes out the first page with the id and nothing
    else, and does nothing when no page has the id. *)
Theorem page_commands_undo_inverts_do :
  (forall page st,
      AddPageCommand_undo page (snd (AddPageCommand_do page st))
        (fst (AddPageCommand_do page st)) = st)
  /\ (forall pageId st,
         RemovePageCommand_undo
           (snd (RemovePageCommand_do pageId RemovePageCommand_new st))
           (fst (RemovePageCommand_do pageId RemovePageCommand_new st)) = st)
  /\ (forall pageId v st,
         match find (isPage pageId) (pages st) with
         | None => RemovePageCommand_do pageId v st = (st, v)
         | Some p =>
             exists l1 l2,
               pages st = l1 ++ p :: l2
               /\ (forall u, In u l1 -> Page.id u <> pageId)
               /\ pages (fst (RemovePageCommand_do pageId v st)) = l1 ++ l2
               /\ rp_oldPage (snd (RemovePageCommand_do pageId v st)) = Some p
         end).
Proof.
  split; [|split].
  - intros page st. unfold AddPageCommand_do, AddPageCommand_undo.
    cbn [fst snd pages setPages].
    replace (Z.of_nat (List.length (pages st ++ [page])) - 1)%Z
      with (Z.of_nat (List.length (pages st)))
      by (rewrite length_app; simpl; lia).
    rewrite spliceOut_middle, app_nil_r. now destruct st.
  - intros pageId st. unfold RemovePageCommand_do, RemovePageCommand_undo.
    assert (H := findIndex_spec (isPage pageId) (pages st)).
    destruct (find (isPage pageId) (pages st)) as [p|].
    + destruct H as (l1 & l2 & Hps & Hi & _ & _). rewrite Hi.
      destruct (Z.eqb_spec (Z.of_nat (List.length l1)) (-1)); [lia|].
      cbn [fst snd rp_oldPage rp_oldIndex pages setPages].
      rewrite Nat2Z.id, Hps, nth_error_app2, Nat.sub_diag by lia. simpl.
      rewrite spliceOut_middle, spliceIn_middle, <- Hps.
      now destruct st.
    + rewrite H. reflexivity.
  - intros pageId v st. unfold RemovePageCommand_do.
    assert (H := findIndex_spec (isPage pageId) (pages st)).
    destruct (find (isPage pageId) (pages st)) as [p|].
    + destruct H as (l1 & l2 & Hps & Hi & _ & Hl1). rewrite Hi.
      destruct (Z.eqb_spec (Z.of_nat (List.length l1)) (-1)); [lia|].
      exists l1, l2. cbn [fst snd rp_oldPage pages setPages].
      split; [exact Hps|]. split; [|split].
      * intros u Hu E. apply Hl1 in Hu. unfold isPage in Hu.
        rewrite E, String.eqb_refl in Hu. discriminate.
      * rewrite Hps. apply spliceOut_middle.
      * rewrite Nat2Z.id, Hps, nth_error_app2, Nat.sub_diag by lia.
        reflexivity.
    + rewrite H. reflexivity.
Qed.

(** ** Block commands *)

Lemma find_first {A : Type} (pred : A -> bool) (l : list A) (a : A) :
  find pred l = Some a ->
  exists l1 l2,
    l = l1 ++ a :: l2 /\ pred a = true /\ forall u, In u l1 -> pred u = false.
Proof.
  intros H. assert (S := findIndex_spec pred l). rewrite H in S.
  destruct S as (l1 & l2 & E & _ & Ha & Hl1). exists l1, l2. auto.
Qed.

Lemma find_middle {A : Type} (pred : A -> bool) (l1 l2 : list A) (a : A) :
  (forall u, In u l1 -> pred u = false) -> pred a = true ->
  find pred (l1 ++ a :: l2) = Some a.
Proof.
  intros Hl1 Ha. induction l1 as [|u l1 IH]; simpl.
  - now rewrite Ha.
  - rewrite (Hl1 u) by (now left). apply IH. intros w Hw. apply Hl1. now right.
Qed.

Lemma find_none_all {A : Type} (pred : A -> bool) (l : list A) :
  find pred l = None -> forall u, In u l -> pred u = false.
Proof.
  intros H u Hu. destruct (pred u) eqn:E; [|reflexivity].
  exfalso. revert H. induction l as [|w l IH]; simpl; [contradiction|].
  destruct Hu as [<-|Hu]; [now rewrite E|].
  destruct (pred w); [discriminate | now apply IH].
Qed.

Lemma first_positions_agree {A : Type} (p1 p2 : A -> bool) (l : list A) (a : A) :
  find p1 l = Some a -> find p2 l = Some a ->
  exists l1 l2,
    l = l1 ++ a :: l2
    /\ (forall u, In u l1 -> p1 u = false)
    /\ (forall u, In u l1 -> p2 u = false).
Proof.
  induction l as [|u l IH]; simpl; [discriminate|].
  destruct (p1 u) eqn:E1, (p2 u) eqn:E2.
  - intros [= <-] _. exists [], l. repeat split; intros ? [].
  - intros [= <-] H2. apply find_some in H2. destruct H2 as [_ H2]. congruence.
  - intros H1 [= <-]. apply find_some in H1. destruct H1 as [_ H1]. congruence.
  - intros H1 H2. destruct (IH H1 H2) as (l1 & l2 & -> & Ha & Hb).
    exists (u :: l1), l2.
    repeat split; intros w [<-|Hw]; auto.
Qed.

Lemma updateFirstPage_middle (pred : PageRef)
  (f : list Block.t -> list Block.t) (l1 l2 : list Page.t) (p : Page.t) :
  (forall u, In u l1 -> pred u = false) -> pred p = true ->
  updateFirstPage pred f (l1 ++ p :: l2)
  = l1 ++ Page.mk (Page.id p) (f (Page.blocks p)) :: l2.
Proof.
  intros Hl1 Hp. induction l1 as [|u l1 IH]; simpl.
  - now rewrite Hp.
  - rewrite (Hl1 u) by (now left). f_equal. apply IH.
    intros w Hw. apply Hl1. now right.
Qed.

Lemma dropBlock_single (i : string) (b1 b2 : list Block.t) (b : Block.t) :
  (forall u, In u b1 -> hasId i u = false) ->
  hasId i b = true ->
  filter (hasId i) b2 = [] ->
  dropBlock i (b1 ++ b :: b2) = b1 ++ b2.
Proof.
  intros H1 Hb H2. unfold dropBlock. rewrite filter_app. simpl. rewrite Hb.
  simpl. f_equal.
  - induction b1 as [|u b1 IH]; simpl; [reflexivity|].
    rewrite (H1 u) by (now left). simpl. f_equal. apply IH.
    intros w Hw. apply H1. now right.
  - induction b2 as [|u b2 IH]; simpl; [reflexivity|].
    simpl in H2. destruct (hasId i u); [discriminate|]. simpl.
    f_equal. now apply IH.
Qed.

Lemma page_eta (p : Page.t) : Page.mk (Page.id p) (Page.blocks p) = p.
Proof. now destruct p. Qed.

Lemma findPageContaining_none_index (st : Store) (i : string) (page : Page.t) :
  findPageContainingBlock st i = None -> In page (pages st) ->
  findIndex (hasId i) (Page.blocks page) = (-1)%Z.
Proof.
  intros Hn Hin. unfold findPageContainingBlock in Hn.
  assert (Hh := find_none_all _ _ Hn page Hin). simpl in Hh.
  rewrite existsb_hasId in Hh.
  assert (S := findIndex_spec (hasId i) (Page.blocks page)).
  destruct (find (hasId i) (Page.blocks page)); [discriminate | exact S].
Qed.

(** X11: DeleteBlockCommand.  When no page holds the block, do changes
    nothing.  When the page that holds it is the first page with its page
    id and holds one block with the id, do takes the block out of that
    page, and do followed by undo puts it back at its index, so that all
    pages are as before; the group records are those
    ensureGroupRemovedForBlock left, so a group that listed the block no
    longer lists it after the undo. *)
Theorem delete_block_then_undo (i : string) (st : Store) :
  (forall v, findPageContainingBlock st i = None ->
     fst (DeleteBlockCommand_do i v st) = st)
  /\ (forall v page,
         findPageContainingBlock st i = Some page ->
         find (isPage (Page.id page)) (pages st) = Some page ->
         List.length (filter (hasId i) (Page.blocks page)) = 1%nat ->
         find (isPage (Page.id page)) (pages (fst (DeleteBlockCommand_do i v st)))
         = Some (Page.mk (Page.id page) (dropBlock i (Page.blocks page)))
         /\ DeleteBlockCommand_undo (snd (DeleteBlockCommand_do i v st))
              (fst (DeleteBlockCommand_do i v st))
            = ensureGroupRemovedForBlock i st).
Proof.
  split.
  - intros v Hn. unfold DeleteBlockCommand_do, containingOrActive.
    rewrite Hn. unfold activePage.
    destruct (activePageId st) as [a|]; [|reflexivity].
    destruct (find (fun p => String.eqb (Page.id p) a) (pages st))
      as [page|] eqn:Hp; [|reflexivity].
    apply find_some in Hp. destruct Hp as [Hin _].
    now rewrite (findPageContaining_none_index st i page Hn Hin).
  - intros v page Hc Hfirst Hone.
    unfold DeleteBlockCommand_do, containingOrActive. rewrite Hc.
    assert (Hh : holdsBlock i page = true).
    { unfold findPageContainingBlock in Hc. apply find_some in Hc. apply Hc. }
    assert (S := findIndex_spec (hasId i) (Page.blocks page)).
    assert (Hh' := Hh). unfold holdsBlock in Hh'. rewrite existsb_hasId in Hh'.
    destruct (find (hasId i) (Page.blocks page)) as [b|] eqn:Hb;
      [|discriminate].
    destruct S as (b1 & b2 & Hbs & Hidx & Hbi & Hb1).
    rewrite Hidx.
    destruct (Z.eqb_spec (Z.of_nat (List.length b1)) (-1)); [lia|].
    cbn [fst snd].
    assert (Hb2 : filter (hasId i) b2 = []).
    { rewrite Hbs, filter_app in Hone. simpl in Hone. rewrite Hbi in Hone.
      rewrite length_app in Hone. simpl in Hone.
      destruct (filter (hasId i) b2); [reflexivity | simpl in Hone; lia]. }
    destruct (first_positions_agree (holdsBlock i) (isPage (Page.id page))
                (pages st) page Hc Hfirst) as (l1 & l2 & Hps & Hl1 & Hl1').
    assert (Hdrop : dropBlock i (Page.blocks page) = b1 ++ b2)
      by (rewrite Hbs; now apply dropBlock_single).
    assert (Hpages :
              updateFirstPage (holdsBlock i) (dropBlock i) (pages st)
              = l1 ++ Page.mk (Page.id page) (b1 ++ b2) :: l2).
    { rewrite Hps, updateFirstPage_middle by assumption. now rewrite Hdrop. }
    assert (Hfound :
              find (isPage (Page.id page))
                (l1 ++ Page.mk (Page.id page) (b1 ++ b2) :: l2)
              = Some (Page.mk (Page.id page) (b1 ++ b2))).
    { apply find_middle; [exact Hl1'|]. unfold isPage. simpl.
      apply String.eqb_refl. }
    split.
    + cbn [pages ensureGroupRemovedForBlock setGroups setPages].
      now rewrite Hpages, Hdrop.
    + unfold DeleteBlockCommand_undo, findPage.
      cbn [db_pageId db_oldBlock db_oldIndex pages
           ensureGroupRemovedForBlock setGroups setPages].
      rewrite Hpages, Hfound. cbn [option_map].
      rewrite Hbs, Nat2Z.id, nth_error_app2, Nat.sub_diag by lia.
      cbn [nth_error].
      rewrite updateFirstPage_middle;
        [|exact Hl1' | unfold isPage; simpl; apply String.eqb_refl].
      cbn [Page.id Page.blocks]. rewrite spliceIn_middle, <- Hbs, page_eta.
      rewrite <- Hps. unfold ensureGroupRemovedForBlock, setGroups, setPages.
      destruct st; reflexivity.
Qed.

Lemma delete_block_then_undo_witness :
  DeleteBlockCommand_undo
    (snd (DeleteBlockCommand_do "a" DeleteBlockCommand_new mergeStore))
    (fst (DeleteBlockCommand_do "a" DeleteBlockCommand_new mergeStore))
  = ensureGroupRemovedForBlock "a" mergeStore
  /\ fst (DeleteBlockCommand_do "a" DeleteBlockCommand_new emptyStore)
     = emptyStore.
Proof.
  destruct (delete_block_then_undo "a" mergeStore) as (_ & H).
  destruct (delete_block_then_undo "a" emptyStore) as (H0 & _).
  split.
  - exact (proj2 (H DeleteBlockCommand_new mergePage eq_refl eq_refl eq_refl)).
  - exact (H0 DeleteBlockCommand_new eq_refl).
Defined.

Lemma absent_no_page_holds (i : string) (ps : list Page.t) :
  findInPages i ps = None -> forall u, In u ps -> holdsBlock i u = false.
Proof.
  intros H. apply find_none_all.
  assert (S := findInPages_holds i ps).
  destruct (find (holdsBlock i) ps); [|reflexivity].
  destruct S as (_ & S & _). contradiction.
Qed.

Lemma filter_keep_all {A : Type} (f : A -> bool) (l : list A) :
  (forall u, In u l -> f u = true) -> filter f l = l.
Proof.
  induction l as [|a l IH]; simpl; intros H; [reflexivity|].
  rewrite (H a) by (now left). f_equal. apply IH. intros u Hu. apply H.
  now right.
Qed.

Lemma filter_drop_appended (i : string) (bs : list Block.t) (c : Block.t) :
  existsb (hasId i) bs = false -> Block.id c = i ->
  filter (notCreated (Some i)) (bs ++ [c]) = bs.
Proof.
  intros Hbs Hc.
  assert (Hcc : hasId i c = true)
    by (unfold hasId; rewrite Hc; apply String.eqb_refl).
  rewrite filter_app. simpl. rewrite Hcc. simpl. rewrite app_nil_r.
  apply filter_keep_all. intros u Hu. simpl.
  destruct (hasId i u) eqn:E; [|reflexivity].
  assert (existsb (hasId i) bs = true)
    by (apply existsb_exists; now exists u).
  congruence.
Qed.

(** X12: AddBlockCommand.  When the page id (the argument, or the active
    page id) names no page, do changes nothing.  Otherwise do appends the
    created block to the first page with that id, under its own id, or
    under the generated id when it has none or no block was given; and
    when no block of the project had that id before, undo after do gives
    back the store. *)
Theorem add_block_then_undo (genId : string) (pageId : option string)
  (createdBlock : option Block.t) (st : Store) :
  (findPage (pageIdOr pageId st) st = None ->
   AddBlockCommand_do genId pageId (AddBlockCommand_new createdBlock) st
   = (st, AddBlockCommand_new createdBlock))
  /\ (forall page,
         findPage (pageIdOr pageId st) st = Some page ->
         let r := AddBlockCommand_do genId pageId
                    (AddBlockCommand_new createdBlock) st in
         (exists c,
             cr_created (snd r) = Some c
             /\ Block.id c = createdIdOf genId createdBlock
             /\ cr_createdId (snd r) = Some (Block.id c)
             /\ findPage (pageIdOr pageId st) (fst r)
                = Some (Page.mk (Page.id page) (Page.blocks page ++ [c])))
         /\ (getBlockById st (createdIdOf genId createdBlock) = None ->
             AddBlockCommand_undo pageId (snd r) (fst r) = st)).
Proof.
  unfold AddBlockCommand_do. split.
  - intros H. now rewrite H.
  - intros page Hp. rewrite Hp.
    unfold findPage in Hp.
    destruct (pageIdOr pageId st) as [pid|] eqn:Hpid; [|discriminate].
    set (cc := match cr_created (AddBlockCommand_new createdBlock) with
               | None => (bareBlock genId, Some genId)
               | Some c =>
                   if noId (cr_createdId (AddBlockCommand_new createdBlock))
                   then (withId genId c, Some genId)
                   else (c, cr_createdId (AddBlockCommand_new createdBlock))
               end).
    assert (Hcc : Block.id (fst cc) = createdIdOf genId createdBlock
                  /\ snd cc = Some (Block.id (fst cc))).
    { unfold cc, createdIdOf, AddBlockCommand_new. simpl.
      destruct createdBlock as [c|]; simpl; [|auto].
      destruct (emptyId (Block.id c)); simpl; auto. }
    destruct cc as [c cid]. simpl in Hcc. destruct Hcc as [Hid Hcid].
    cbn zeta. cbn [fst snd cr_created cr_createdId].
    destruct (find_first _ _ _ Hp) as (l1 & l2 & Hps & Hpp & Hl1).
    assert (Hpages :
              updateFirstPage (isPage pid) (fun bs => bs ++ [c]) (pages st)
              = l1 ++ Page.mk (Page.id page) (Page.blocks page ++ [c]) :: l2).
    { rewrite Hps. now apply updateFirstPage_middle. }
    split.
    + exists c. repeat split; auto.
      unfold findPage. cbn [pages setPages]. rewrite Hpages.
      apply find_middle; [exact Hl1 | exact Hpp].
    + intros Hfree. unfold AddBlockCommand_undo.
      cbn [cr_createdId]. rewrite Hcid, Hid.
      unfold findPageContainingBlock. cbn [pages setPages].
      change (fun p : Page.t =>
                existsb (hasId (createdIdOf genId createdBlock)) (Page.blocks p))
        with (holdsBlock (createdIdOf genId createdBlock)).
      rewrite Hpages.
      assert (Hno := absent_no_page_holds _ _ Hfree).
      assert (Hl1h : forall u, In u l1 ->
                       holdsBlock (createdIdOf genId createdBlock) u = false).
      { intros u Hu. apply Hno. rewrite Hps. apply in_or_app. now left. }
      assert (Hpage : holdsBlock (createdIdOf genId createdBlock) page = false).
      { apply Hno. rewrite Hps. apply in_or_app. right. now left. }
      assert (Hnew : holdsBlock (createdIdOf genId createdBlock)
                       (Page.mk (Page.id page) (Page.blocks page ++ [c]))
                     = true).
      { unfold holdsBlock. simpl. rewrite existsb_app. simpl.
        assert (Hcc : hasId (createdIdOf genId createdBlock) c = true)
          by (unfold hasId; rewrite Hid; apply String.eqb_refl).
        rewrite Hcc. now rewrite orb_true_r. }
      rewrite (find_middle _ l1 l2 _ Hl1h Hnew).
      rewrite updateFirstPage_middle by assumption.
      cbn [Page.id Page.blocks].
      rewrite filter_drop_appended by (exact Hpage || exact Hid).
      rewrite page_eta, <- Hps. now destruct st.
Qed.

Lemma add_block_then_undo_witness :
  AddBlockCommand_undo None
    (snd (AddBlockCommand_do "gen" None
            (AddBlockCommand_new (Some (demoBlock "c" None))) demoStore))
    (fst (AddBlockCommand_do "gen" None
            (AddBlockCommand_new (Some (demoBlock "c" None))) demoStore))
  = demoStore
  /\ AddBlockCommand_do "gen" None (AddBlockCommand_new None) emptyStore
     = (emptyStore, AddBlockCommand_new None).
Proof.
  destruct (add_block_then_undo "gen" None (Some (demoBlock "c" None))
              demoStore) as (_ & H).
  destruct (add_block_then_undo "gen" None None emptyStore) as (H0 & _).
  split.
  - exact (proj2 (H demoPage eq_refl) eq_refl).
  - exact (H0 eq_refl).
Defined.

Lemma orIfZero_zero (v : Q) : orIfZero v 0 == v.
Proof.
  unfold orIfZero. destruct (Qeq_bool v 0) eqn:E; [|reflexivity].
  apply Qeq_bool_eq in E. now rewrite E.
Qed.

(** X13: DuplicateCommand.  The factory refuses to build a command from
    neither a created nor an original block.  When the page id names a
    page, do appends one block to the first page with that id: the created
    block it was given, or else a copy of the original under the generated
    id, moved by 12 in x and in y when the original has a position and
    equal to it in every other key.  When that page held no block with the
    new block's id, undo after do gives back the store.  When the page id
    names no page, do changes nothing. *)
Theorem duplicate_then_undo (genId : string) (pageId : option string)
  (createdBlock originalBlock : option Block.t) (st : Store) :
  DuplicateCommand_new None None = None
  /\ (forall v0,
         DuplicateCommand_new createdBlock originalBlock = Some v0 ->
         (findPage (pageIdOr pageId st) st = None ->
          DuplicateCommand_do genId pageId originalBlock v0 st = Some (st, v0))
         /\ forall page,
             findPage (pageIdOr pageId st) st = Some page ->
             exists c st1 v1,
               DuplicateCommand_do genId pageId originalBlock v0 st
               = Some (st1, v1)
               /\ Some c = match createdBlock with
                           | Some c0 => Some c0
                           | None => option_map (duplicateOf genId) originalBlock
                           end
               /\ cr_createdId v1 = Some (Block.id c)
               /\ findPage (pageIdOr pageId st) st1
                  = Some (Page.mk (Page.id page) (Page.blocks page ++ [c]))
               /\ (existsb (hasId (Block.id c)) (Page.blocks page) = false ->
                   DuplicateCommand_undo pageId v1 st1 = st))
  /\ (forall o,
         Block.id (duplicateOf genId o) = genId
         /\ withId (Block.id o)
              (assignPatch (mkPatch (Block.position o) None None None None)
                 (duplicateOf genId o)) = o
         /\ match Block.position o, Block.position (duplicateOf genId o) with
            | Some p, Some q => x q == x p + 12 /\ y q == y p + 12
            | None, None => True
            | _, _ => False
            end).
Proof.
  split; [reflexivity|]. split.
  - intros v0 Hv0. unfold DuplicateCommand_do. split.
    + intros H. now rewrite H.
    + intros page Hp. rewrite Hp. unfold findPage in Hp.
      destruct (pageIdOr pageId st) as [pid|] eqn:Hpid; [|discriminate].
      destruct (find_first _ _ _ Hp) as (l1 & l2 & Hps & Hpp & Hl1).
      assert (Hupd : forall f,
                 updateFirstPage (isPage pid) f (pages st)
                 = l1 ++ Page.mk (Page.id page) (f (Page.blocks page)) :: l2).
      { intros f. rewrite Hps. now apply updateFirstPage_middle. }
      assert (Hfind : forall bs,
                 find (isPage pid) (l1 ++ Page.mk (Page.id page) bs :: l2)
                 = Some (Page.mk (Page.id page) bs)).
      { intros bs. apply find_middle; [exact Hl1 | exact Hpp]. }
      assert (Hback : forall c v1,
                 cr_createdId v1 = Some (Block.id c) ->
                 existsb (hasId (Block.id c)) (Page.blocks page) = false ->
                 DuplicateCommand_undo pageId v1
                   (setPages
                      (updateFirstPage (isPage pid) (fun bs => bs ++ [c])
                         (pages st)) st) = st).
      { intros c v1 Hid Hfree. unfold DuplicateCommand_undo, findPage.
        cbn [pageIdOr activePageId pages setPages].
        replace (pageIdOr pageId
                   (setPages
                      (updateFirstPage (isPage pid) (fun bs => bs ++ [c])
                         (pages st)) st)) with (Some pid)
          by (rewrite <- Hpid; now destruct pageId).
        cbn [pages setPages]. rewrite Hupd, Hfind.
        rewrite updateFirstPage_middle by assumption.
        cbn [Page.id Page.blocks]. rewrite Hid.
        rewrite filter_drop_appended by (exact Hfree || reflexivity).
        rewrite page_eta, <- Hps. now destruct st. }
      unfold DuplicateCommand_new in Hv0.
      destruct createdBlock as [c0|].
      * injection Hv0 as <-. cbn [cr_created option_map].
        exists c0. eexists. eexists. split; [reflexivity|].
        split; [reflexivity|]. split; [reflexivity|]. split.
        -- unfold findPage. cbn [pages setPages]. now rewrite Hupd, Hfind.
        -- apply Hback. reflexivity.
      * destruct originalBlock as [o|]; [|discriminate].
        injection Hv0 as <-. cbn [cr_created option_map].
        exists (duplicateOf genId o). eexists. eexists.
        split; [reflexivity|].
        split; [reflexivity|]. split; [reflexivity|]. split.
        -- unfold findPage. cbn [pages setPages]. now rewrite Hupd, Hfind.
        -- apply Hback. reflexivity.
  - intros o. split; [reflexivity|].
    split; [destruct o as [i t p]; destruct p; reflexivity|].
    unfold duplicateOf. cbn [Block.position].
    destruct (Block.position o) as [p|]; [|exact I].
    cbn [x y]. now rewrite !orIfZero_zero.
Qed.

Lemma duplicate_then_undo_witness :
  exists st1 v1,
    DuplicateCommand_do "a-copy" None (Some (demoBlock "a" None))
      (mkCreatedVars None None) demoStore = Some (st1, v1)
    /\ findPage (Some "page_1") st1
       = Some (Page.mk "page_1"
                 [demoBlock "a" None; demoBlock "b" None;
                  duplicateOf "a-copy" (demoBlock "a" None)])
    /\ DuplicateCommand_undo None v1 st1 = demoStore.
Proof.
  destruct (duplicate_then_undo "a-copy" None None (Some (demoBlock "a" None))
              demoStore) as (_ & H & _).
  destruct (H (mkCreatedVars None None) eq_refl) as (_ & Hp).
  destruct (Hp demoPage eq_refl) as (c & st1 & v1 & Hdo & Hc & _ & Hf & Hu).
  injection Hc as Hc. subst c.
  exists st1, v1. split; [exact Hdo|]. split; [exact Hf|].
  apply Hu. reflexivity.
Defined.

(** ** The active page under the group operations *)

Lemma mutateFirst_fixed_in (i : string) (f : Block.t -> Block.t)
  (bs : list Block.t) :
  (forall b, In b bs -> hasId i b = true -> f b = b) ->
  mutateFirst i f bs = bs.
Proof.
  induction bs as [|b bs IH]; simpl; [reflexivity|].
  intros H. destruct (hasId i b) eqn:E.
  - now rewrite H by auto.
  - rewrite IH; [reflexivity|]. intros u Hu. apply H. now right.
Qed.

Lemma find_page_mutate_fixed (a i : string) (f : Block.t -> Block.t)
  (ps : list Page.t) (page : Page.t) :
  find (isPage a) ps = Some page ->
  (forall b, In b (Page.blocks page) -> hasId i b = true -> f b = b) ->
  find (isPage a) (mutateInPages i f ps) = Some page.
Proof.
  intros Hp Hfix. induction ps as [|p ps IH]; simpl in *; [discriminate|].
  destruct (existsb (hasId i) (Page.blocks p)) eqn:Eh; simpl.
  - change (isPage a (Page.mk (Page.id p) (mutateFirst i f (Page.blocks p))))
      with (isPage a p).
    destruct (isPage a p); [|exact Hp].
    injection Hp as <-. rewrite mutateFirst_fixed_in by exact Hfix.
    now rewrite page_eta.
  - destruct (isPage a p); [exact Hp | now apply IH].
Qed.

Lemma activePage_mutateBlock_fixed (i : string) (f : Block.t -> Block.t)
  (st : Store) (page : Page.t) :
  activePage st = Some page ->
  (forall b, In b (Page.blocks page) -> hasId i b = true -> f b = b) ->
  activePage (mutateBlock i f st) = Some page.
Proof.
  unfold activePage. cbn [activePageId pages mutateBlock setPages].
  destruct (activePageId st) as [a|]; [|discriminate].
  apply find_page_mutate_fixed.
Qed.

Lemma activePage_mutateAll_fixed (F : string -> Block.t -> Block.t)
  (ids : list string) (st : Store) (page : Page.t) :
  activePage st = Some page ->
  (forall i b, In i ids -> In b (Page.blocks page) -> hasId i b = true ->
               F i b = b) ->
  activePage (mutateAll F ids st) = Some page.
Proof.
  unfold mutateAll. revert st.
  induction ids as [|i ids IH]; intros st Hp Hfix; simpl; [exact Hp|].
  apply IH.
  - apply activePage_mutateBlock_fixed; [exact Hp|].
    intros b Hb Hi. apply Hfix; auto. now left.
  - intros j b Hj. apply Hfix. now right.
Qed.

Lemma activePage_fold_fixed (f : Block.t -> Block.t) (ids : list string)
  (st : Store) (page : Page.t) :
  activePage st = Some page ->
  (forall i b, In i ids -> In b (Page.blocks page) -> hasId i b = true ->
               f b = b) ->
  activePage (fold_left (fun s i => mutateBlock i f s) ids st) = Some page.
Proof. apply (activePage_mutateAll_fixed (fun _ => f)). Qed.

Lemma activePage_setGroups (gs : list Group.t) (st : Store) :
  activePage (setGroups gs st) = activePage st.
Proof. reflexivity. Qed.

Lemma activePage_setActiveBlocks (st : Store) (page : Page.t)
  (bs : list Block.t) :
  activePage st = Some page ->
  activePage (setActiveBlocks page bs st) = Some (Page.mk (Page.id page) bs).
Proof.
  intros Ha. assert (Hid := activePage_id _ _ Ha).
  unfold activePage in *. cbn [activePageId pages setActiveBlocks setPages].
  rewrite Hid in *. now rewrite find_setBlocksOfPage, Ha.
Qed.

Lemma activePage_removeGroup (gid : string) (st : Store) (page : Page.t) :
  activePage st = Some page ->
  (forall b, In b (Page.blocks page) -> pointsAt gid b = false) ->
  activePage (removeGroup gid st) = Some page.
Proof.
  intros Ha Hclean. unfold removeGroup.
  destruct (getGroupById st gid) as [g|]; [|exact Ha].
  rewrite activePage_setGroups.
  apply (activePage_mutateAll_fixed (fun _ => detachIfMember gid));
    [exact Ha|].
  intros _ b _ Hb _. specialize (Hclean b Hb).
  unfold pointsAt in Hclean. unfold detachIfMember.
  destruct (Block.groupId b); [now rewrite Hclean | reflexivity].
Qed.

Lemma activePage_detachRemoved (gid : string) (oldIds newIds : list string)
  (st : Store) (page : Page.t) :
  activePage st = Some page ->
  (forall b, In b (Page.blocks page) -> pointsAt gid b = false) ->
  activePage (detachRemoved gid oldIds newIds st) = Some page.
Proof.
  intros Ha Hclean. unfold detachRemoved.
  rewrite (fold_left_cond (fun i => negb (includes i newIds))
             (fun s i => mutateBlock i (detachIfMember gid) s)).
  apply (activePage_mutateAll_fixed (fun _ => detachIfMember gid));
    [exact Ha|].
  intros _ b _ Hb _. specialize (Hclean b Hb).
  unfold pointsAt in Hclean. unfold detachIfMember.
  destruct (Block.groupId b); [now rewrite Hclean | reflexivity].
Qed.

Lemma attachAdded_nothing (gid : string) (oldIds newIds : list string)
  (st : Store) :
  (forall i, In i newIds -> In i oldIds) ->
  attachAdded gid oldIds newIds st = st.
Proof.
  intros Hsub. unfold attachAdded. revert st.
  induction newIds as [|i l IH]; intros st; simpl; [reflexivity|].
  assert (Hi : includes i oldIds = true)
    by (apply includes_In, Hsub; now left).
  rewrite Hi. simpl. apply IH. intros j Hj. apply Hsub. now right.
Qed.

Lemma detachRemoved_nothing (gid : string) (oldIds newIds : list string)
  (st : Store) :
  (forall i, In i oldIds -> In i newIds) ->
  detachRemoved gid oldIds newIds st = st.
Proof.
  intros Hsub. unfold detachRemoved. revert st.
  induction oldIds as [|i l IH]; intros st; simpl; [reflexivity|].
  assert (Hi : includes i newIds = true)
    by (apply includes_In, Hsub; now left).
  rewrite Hi. simpl. apply IH. intros j Hj. apply Hsub. now right.
Qed.

Lemma ungroup_map_clean (gid : string) (targets : list string)
  (bs : list Block.t) (b : Block.t) :
  In b (map (fun b => if ungroupHit gid targets b
                      then Block.setGroupId None b else b) bs) ->
  pointsAt gid b = false.
Proof.
  rewrite in_map_iff. intros (b0 & <- & _).
  unfold ungroupHit. destruct (includes (Block.id b0) targets); simpl;
    [reflexivity|].
  destruct (pointsAt gid b0) eqn:E; [reflexivity | exact E].
Qed.

(** X14: UngroupCommand's do.  Without an active page it throws and leaves
    pages and groups as they were.  With one it returns, and afterwards the
    blocks of the active page are the old ones with the groupId cleared on
    every block that is a target (the given ids, or the group's childIds
    when none are given) or pointed at the group, so no block of the active
    page points at the group any more.  Given no ids it removes the first
    record of the group; given ids it keeps the record and takes exactly
    these ids out of its childIds. *)
Theorem ungroup_do_postcondition (gid : string)
  (blockIds : option (list string)) (v : UngroupVars) (st : Store) :
  (activePage st = None ->
   exists v1, UngroupCommand_do gid blockIds v st = Raised st v1)
  /\ (forall page,
         activePage st = Some page ->
         exists st1 v1,
           UngroupCommand_do gid blockIds v st = Returned st1 v1
           /\ blocks st1
              = map (fun b =>
                       if ungroupHit gid (ungroupTargets gid blockIds st) b
                       then Block.setGroupId None b else b)
                  (Page.blocks page)
           /\ (forall b, In b (blocks st1) -> Block.groupId b <> Some gid)
           /\ match getGroupById st gid, someIds blockIds with
              | None, _ => groups st1 = groups st
              | Some g, None =>
                  groups st1 = removeFirstGroup gid (groups st)
                  /\ ug_removedGroup v1 = true
                  /\ ug_oldGroupSnapshot v1 = Some g
              | Some g, Some ids =>
                  exists g1,
                    getGroupById st1 gid = Some g1
                    /\ Group.childIds g1
                       = filter (fun i => negb (includes i ids))
                           (Group.childIds g)
                    /\ ug_oldGroupSnapshot v1 = Some g
              end).
Proof.
  unfold UngroupCommand_do. split.
  - intros Ha. rewrite Ha. eexists. reflexivity.
  - intros page Ha. rewrite Ha.
    set (targets := ungroupTargets gid blockIds st).
    set (cleared := map (fun b => if ungroupHit gid targets b
                                  then Block.setGroupId None b else b)
                      (Page.blocks page)).
    set (st1 := setActiveBlocks page cleared st).
    assert (Ha1 : activePage st1 = Some (Page.mk (Page.id page) cleared))
      by (now apply activePage_setActiveBlocks).
    assert (Hclean : forall b, In b cleared -> pointsAt gid b = false)
      by (intros b; apply ungroup_map_clean).
    assert (Hpoint : forall b, In b cleared -> Block.groupId b <> Some gid).
    { intros b Hb E. apply Hclean in Hb. unfold pointsAt in Hb.
      rewrite E, String.eqb_refl in Hb. discriminate. }
    destruct (getGroupById st gid) as [g|] eqn:Hg.
    + destruct (someIds blockIds) as [ids|] eqn:Hids.
      * eexists. eexists. split; [reflexivity|].
        assert (Hg1 : getGroupById st1 gid = Some g) by exact Hg.
        assert (Hact :
                  activePage
                    (updateGroup gid
                       (mkGroupPatch
                          (Some (filter (fun i => negb (includes i ids))
                                   (Group.childIds g)))
                          None None None None None) st1)
                  = Some (Page.mk (Page.id page) cleared)).
        { unfold updateGroup. rewrite Hg1. cbn [patchChildIds gp_childIds].
          rewrite activePage_setGroups.
          rewrite attachAdded_nothing.
          - apply activePage_detachRemoved; [exact Ha1 | exact Hclean].
          - intros i. rewrite !jsSet_In, filter_In. tauto. }
        split; [|split].
        -- unfold blocks. now rewrite Hact.
        -- unfold blocks. rewrite Hact. exact Hpoint.
        -- eexists. split; [apply (getGroupById_updateGroup _ _ _ _ Hg1)|].
           split; reflexivity.
      * eexists. eexists. split; [reflexivity|].
        assert (Hact : activePage (removeGroup gid st1)
                       = Some (Page.mk (Page.id page) cleared))
          by (apply activePage_removeGroup; [exact Ha1 | exact Hclean]).
        split; [|split].
        -- unfold blocks. now rewrite Hact.
        -- unfold blocks. rewrite Hact. exact Hpoint.
        -- split; [|split; reflexivity].
           now rewrite (groups_removeGroup gid st1 g Hg).
    + eexists. eexists. split; [reflexivity|].
      split; [|split].
      * unfold blocks. now rewrite Ha1.
      * unfold blocks. rewrite Ha1. exact Hpoint.
      * destruct (someIds blockIds); reflexivity.
Qed.

Lemma ungroup_do_postcondition_witness :
  (exists v1,
      UngroupCommand_do "g-1" None UngroupCommand_new emptyStore
      = Raised emptyStore v1)
  /\ exists st1 v1,
      UngroupCommand_do "g-1" None UngroupCommand_new mergeStore
      = Returned st1 v1
      /\ blocks st1
         = [demoBlock "a" None; demoBlock "b" None; demoBlock "c" None]
      /\ forall b, In b (blocks st1) -> Block.groupId b <> Some "g-1".
Proof.
  destruct (ungroup_do_postcondition "g-1" None UngroupCommand_new emptyStore)
    as (H0 & _).
  destruct (ungroup_do_postcondition "g-1" None UngroupCommand_new mergeStore)
    as (_ & H).
  split; [exact (H0 eq_refl)|].
  destruct (H mergePage eq_refl) as (st1 & v1 & Hdo & Hb & Hn & _).
  exists st1, v1. split; [exact Hdo|]. split; [exact Hb|exact Hn].
Defined.

(** ** GroupCommand's do *)

Lemma stamped_fixed (gid : string) (ids : list string) (bs : list Block.t)
  (i : string) (b : Block.t) :
  In i ids -> In b (map (stampGroup gid ids) bs) -> hasId i b = true ->
  Block.setGroupId (Some gid) b = b.
Proof.
  intros Hi Hb Hid. apply in_map_iff in Hb. destruct Hb as (b0 & <- & _).
  unfold stampGroup in *.
  destruct (includes (Block.id b0) ids) eqn:E; [reflexivity|].
  unfold hasId in Hid. apply String.eqb_eq in Hid.
  apply includes_In in Hi. congruence.
Qed.

(** X15: GroupCommand's do.  Without an active page it throws and changes
    nothing.  With one it returns; afterwards the blocks of the active page
    are the old ones with groupId set to the group id on every block whose
    id is among the command's ids, and the group id resolves to a record
    that lists every id of the command.  When the id was not registered,
    that record is new, appended to the groups, with exactly the command's
    ids as childIds, and the command remembers that it created the group;
    when it was, the record keeps its children and gets the ids it did not
    list yet appended, each once. *)
Theorem group_do_postcondition (gid : string) (ids : list string)
  (meta : option GroupSpec) (og : option (list (string * option string)))
  (cg : bool) (st : Store) :
  (activePage st = None ->
   exists c1, cmd_do (GroupCommand gid ids meta og cg) st = Threw st c1)
  /\ (forall page,
         activePage st = Some page ->
         exists st1 c1 g,
           cmd_do (GroupCommand gid ids meta og cg) st = Done st1 c1
           /\ blocks st1 = map (stampGroup gid ids) (Page.blocks page)
           /\ getGroupById st1 gid = Some g
           /\ Group.id g = gid
           /\ (forall i, In i ids -> In i (Group.childIds g))
           /\ match getGroupById st gid with
              | None =>
                  groups st1 = groups st ++ [g]
                  /\ Group.childIds g = ids
                  /\ c1 = GroupCommand gid ids meta
                            (Some (captureOldGroups ids (Page.blocks page)))
                            true
              | Some g0 =>
                  Group.childIds g = jsSet (Group.childIds g0 ++ ids)
                  /\ (forall i, In i (Group.childIds g0) ->
                                In i (Group.childIds g))
                  /\ c1 = GroupCommand gid ids meta
                            (Some (captureOldGroups ids (Page.blocks page)))
                            cg
              end).
Proof.
  split.
  - intros Ha. simpl. rewrite Ha. eexists. reflexivity.
  - intros page Ha. simpl. rewrite Ha.
    change (fun b : Block.t =>
              if includes (Block.id b) ids
              then Block.setGroupId (Some gid) b else b)
      with (stampGroup gid ids).
    set (stamped := map (stampGroup gid ids) (Page.blocks page)).
    set (st1 := setActiveBlocks page stamped st).
    assert (Ha1 : activePage st1 = Some (Page.mk (Page.id page) stamped))
      by (now apply activePage_setActiveBlocks).
    change (getGroupById st1 gid) with (getGroupById st gid).
    destruct (getGroupById st gid) as [g0|] eqn:Hg.
    + assert (Hid : Group.id g0 = gid).
      { destruct (find_group_split _ _ _ Hg) as (_ & _ & _ & H & _).
        exact H. }
      rewrite Hid.
      assert (Hg1 : getGroupById st1 gid = Some g0) by exact Hg.
      eexists. eexists. eexists. split; [reflexivity|].
      split; [|split; [apply (getGroupById_updateGroup _ _ _ _ Hg1)|]].
      * unfold blocks, updateGroup. rewrite Hg1.
        cbn [patchChildIds gp_childIds]. rewrite activePage_setGroups.
        rewrite detachRemoved_nothing
          by (intros i; rewrite !jsSet_In, in_app_iff; tauto).
        unfold attachAdded.
        rewrite (fold_left_cond
                   (fun i => negb (includes i (jsSet (Group.childIds g0))))
                   (fun s i => mutateBlock i (Block.setGroupId (Some gid)) s)).
        rewrite (activePage_fold_fixed (Block.setGroupId (Some gid)) _ _ _ Ha1);
          [reflexivity|].
        intros i b Hi Hb Hh. apply filter_In in Hi. destruct Hi as [Hi Hn].
        rewrite !jsSet_In, in_app_iff in Hi.
        rewrite includes_jsSet in Hn.
        destruct Hi as [Hi|Hi].
        -- apply includes_In in Hi. rewrite Hi in Hn. discriminate.
        -- eapply stamped_fixed; eassumption.
      * cbn [patchChildIds gp_childIds assignAllowed setIds Group.id
             Group.childIds].
        split; [exact Hid|]. split; [|split; [reflexivity|split]].
        -- intros i Hi. rewrite jsSet_In, in_app_iff. now right.
        -- intros i Hi. rewrite jsSet_In, in_app_iff. now left.
        -- reflexivity.
    + eexists. eexists. eexists. split; [reflexivity|].
      split; [|split; [|split; [|split; [|split; [|split]]]]].
      * unfold blocks, addGroup.
        cbn [normalizeGroup gs_id gs_childIds orElse Group.childIds Group.id].
        rewrite (activePage_fold_fixed (Block.setGroupId (Some gid)) ids
                   (setGroups _ st1) (Page.mk (Page.id page) stamped));
          [reflexivity | exact Ha1 |].
        intros i b Hi Hb Hh. eapply stamped_fixed; eassumption.
      * unfold getGroupById. rewrite groups_addGroup.
        change (groups st1) with (groups st).
        change (fun gr : Group.t => String.eqb (Group.id gr) gid)
          with (isGroup gid).
        rewrite find_app_group.
        unfold getGroupById in Hg.
        change (fun gr : Group.t => String.eqb (Group.id gr) gid)
          with (isGroup gid) in Hg.
        rewrite Hg. simpl. unfold isGroup. simpl.
        now rewrite String.eqb_refl.
      * reflexivity.
      * intros i Hi. exact Hi.
      * now rewrite groups_addGroup.
      * reflexivity.
      * reflexivity.
Qed.

Lemma group_do_postcondition_witness :
  (exists c1, cmd_do groupingCommand emptyStore = Threw emptyStore c1)
  /\ exists st1 c1 g,
      cmd_do mergeCommand mergeStore = Done st1 c1
      /\ getGroupById st1 "g-1" = Some g
      /\ Group.childIds g = jsSet (["a"; "b"] ++ ["b"; "c"]).
Proof.
  destruct (group_do_postcondition "g-1" ["a"] None None false emptyStore)
    as (H0 & _).
  destruct (group_do_postcondition "g-1" ["b"; "c"] None None false mergeStore)
    as (_ & H).
  split; [exact (H0 eq_refl)|].
  destruct (H mergePage eq_refl) as (st1 & c1 & g & Hdo & _ & Hg & _ & _ & Hm).
  exists st1, c1, g. split; [exact Hdo|]. split; [exact Hg|].
  exact (proj1 Hm).
Defined.

(** ** GroupCommand: undo after do *)

Lemma activePage_split (st : Store) (page : Page.t) :
  activePage st = Some page ->
  exists l1 l2,
    activePageId st = Some (Page.id page)
    /\ pages st = l1 ++ page :: l2
    /\ forall u, In u l1 -> isPage (Page.id page) u = false.
Proof.
  intros Ha. assert (Hid := activePage_id _ _ Ha).
  unfold activePage in Ha. rewrite Hid in Ha.
  destruct (find_first _ _ _ Ha) as (l1 & l2 & Hps & _ & Hl1).
  exists l1, l2. auto.
Qed.

Lemma setBlocksOfPage_middle (a : string) (bs : list Block.t)
  (l1 l2 : list Page.t) (p : Page.t) :
  (forall u, In u l1 -> isPage a u = false) -> Page.id p = a ->
  setBlocksOfPage a bs (l1 ++ p :: l2) = l1 ++ Page.mk a bs :: l2.
Proof.
  intros Hl1 Hp. induction l1 as [|u l1 IH]; simpl.
  - now rewrite Hp, String.eqb_refl.
  - assert (Hu := Hl1 u (or_introl eq_refl)). unfold isPage in Hu.
    rewrite Hu. f_equal. apply IH. intros w Hw. apply Hl1. now right.
Qed.

Lemma findInPages_skip (i : string) (l1 rest : list Page.t) :
  (forall u, In u l1 -> holdsBlock i u = false) ->
  findInPages i (l1 ++ rest) = findInPages i rest.
Proof.
  induction l1 as [|u l1 IH]; intros Hl; simpl; [reflexivity|].
  rewrite (holdsBlock_false i u) by (apply Hl; now left).
  apply IH. intros w Hw. apply Hl. now right.
Qed.

Lemma mutateAll_fixed (F : string -> Block.t -> Block.t) (ids : list string)
  (st : Store) :
  (forall i b, In i ids -> getBlockById st i = Some b -> F i b = b) ->
  mutateAll F ids st = st.
Proof.
  unfold mutateAll. induction ids as [|i ids IH]; intros H; simpl;
    [reflexivity|].
  assert (Hstep : mutateBlock i (F i) st = st).
  { unfold mutateBlock. rewrite mutateInPages_fixed.
    - apply store_setPages_same.
    - intros b Hb. apply H; [now left | exact Hb]. }
  rewrite Hstep. apply IH. intros j b Hj. apply H. now right.
Qed.

Lemma fold_mutate_fixed (f : Block.t -> Block.t) (ids : list string)
  (st : Store) :
  (forall i b, In i ids -> getBlockById st i = Some b -> f b = b) ->
  fold_left (fun s i => mutateBlock i f s) ids st = st.
Proof. apply (mutateAll_fixed (fun _ => f)). Qed.

(** The first block with one of the ids, when only the active page holds
    such blocks and the active page's blocks are [bs]. *)
Lemma lookup_on_active_page (i : string) (ids : list string)
  (l1 l2 : list Page.t) (page : Page.t) (bs : list Block.t) (b : Block.t) :
  In i ids ->
  (forall j u, In j ids -> In u (l1 ++ page :: l2) ->
               holdsBlock j u = true -> u = page) ->
  (forall u, In u l1 -> isPage (Page.id page) u = false) ->
  map Block.id bs = map Block.id (Page.blocks page) ->
  findInPages i (l1 ++ Page.mk (Page.id page) bs :: l2) = Some b ->
  In b bs /\ Block.id b = i.
Proof.
  intros Hi Honly Hl1 Hids.
  rewrite findInPages_skip.
  - simpl. destruct (find (hasId i) bs) as [b0|] eqn:Hf.
    + intros [= <-]. split; [now apply find_some in Hf|].
      eapply find_hasId. exact Hf.
    + intros Hl2. exfalso.
      assert (S := findInPages_holds i l2).
      destruct (find (holdsBlock i) l2) as [u|] eqn:Hu;
        [|congruence].
      apply find_some in Hu. destruct Hu as [Hin Hh].
      assert (E : u = page).
      { apply (Honly i); auto. apply in_or_app. right. now right. }
      subst u. unfold holdsBlock in Hh. rewrite existsb_exists in Hh.
      destruct Hh as (b0 & Hb0 & Hh).
      assert (Hin' : In i (map Block.id bs)).
      { rewrite Hids. apply in_map_iff. exists b0. split; [|exact Hb0].
        unfold hasId in Hh. now apply String.eqb_eq in Hh. }
      apply in_map_iff in Hin'. destruct Hin' as (b1 & Hb1 & Hin1).
      assert (find (hasId i) bs <> None).
      { intros Hn. apply (find_none_all _ _ Hn) in Hin1.
        unfold hasId in Hin1. rewrite Hb1, String.eqb_refl in Hin1.
        discriminate. }
      contradiction.
  - intros u Hu. destruct (holdsBlock i u) eqn:E; [|reflexivity].
    assert (E' : u = page).
    { apply (Honly i); auto. apply in_or_app. now left. }
    subst u. specialize (Hl1 page Hu). unfold isPage in Hl1.
    now rewrite String.eqb_refl in Hl1.
Qed.

Lemma recorded_groupIds_lookup (c : Block.t -> bool) (bs : list Block.t)
  (m0 : list (string * option string)) (k : string) :
  NoDup (map Block.id bs) ->
  objGet k
    (fold_left
       (fun m b => if c b then objSet (Block.id b) (Block.groupId b) m else m)
       bs m0)
  = match find (hasId k) bs with
    | Some b => if c b then Some (Block.groupId b) else objGet k m0
    | None => objGet k m0
    end.
Proof.
  revert m0. induction bs as [|b bs IH]; intros m0 Hnd; simpl;
    [reflexivity|].
  inversion Hnd as [|? ? Hnotin Hnd']; subst.
  rewrite IH by exact Hnd'.
  unfold hasId at 2.
  destruct (String.eqb_spec (Block.id b) k) as [E|E].
  - subst k.
    assert (Hn : find (hasId (Block.id b)) bs = None).
    { destruct (find (hasId (Block.id b)) bs) as [b'|] eqn:Hf; [|reflexivity].
      exfalso. apply Hnotin. apply in_map_iff. exists b'.
      split; [eapply find_hasId; exact Hf | now apply find_some in Hf]. }
    rewrite Hn.
    destruct (c b); [|reflexivity].
    now rewrite objGet_objSet, String.eqb_refl.
  - assert (Hm : objGet k
                   (if c b
                    then objSet (Block.id b) (Block.groupId b) m0 else m0)
                 = objGet k m0).
    { destruct (c b); [|reflexivity].
      rewrite objGet_objSet.
      destruct (String.eqb_spec (Block.id b) k); [congruence | reflexivity]. }
    rewrite Hm. reflexivity.
Qed.

Lemma find_hasId_in (bs : list Block.t) (b : Block.t) :
  NoDup (map Block.id bs) -> In b bs -> find (hasId (Block.id b)) bs = Some b.
Proof.
  induction bs as [|u bs IH]; simpl; [contradiction|].
  intros Hnd Hin. inversion Hnd as [|? ? Hnotin Hnd']; subst.
  unfold hasId at 1.
  destruct (String.eqb_spec (Block.id u) (Block.id b)) as [E|E].
  - destruct Hin as [->|Hin]; [reflexivity|].
    exfalso. apply Hnotin. rewrite E. now apply in_map.
  - destruct Hin as [->|Hin]; [congruence | now apply IH].
Qed.

Lemma map_restore (f g : Block.t -> Block.t) (bs : list Block.t) :
  (forall b, In b bs -> g (f b) = b) -> map g (map f bs) = bs.
Proof.
  intros H. rewrite map_map. rewrite <- (map_id bs) at 2.
  apply map_ext_in. exact H.
Qed.

Lemma removeFirstGroup_appended (gid : string) (gs : list Group.t)
  (g : Group.t) :
  find (isGroup gid) gs = None -> Group.id g = gid ->
  removeFirstGroup gid (gs ++ [g]) = gs.
Proof.
  intros Hn Hg. induction gs as [|u gs IH]; simpl in *.
  - now rewrite Hg, String.eqb_refl.
  - unfold isGroup in Hn at 1.
    destruct (String.eqb (Group.id u) gid); [discriminate|].
    now rewrite IH.
Qed.

(** X16: where GroupCommand's undo is the inverse of its do.  When the
    command creates the group (the id is not registered), the blocks of the
    active page have distinct ids, no other page holds a block with one of
    the command's ids, and none of these blocks points at the group id
    already, do followed by undo gives back the store exactly. *)
Theorem group_create_then_undo (gid : string) (ids : list string)
  (meta : option GroupSpec) (og : option (list (string * option string)))
  (cg : bool) (st : Store) (page : Page.t) :
  activePage st = Some page ->
  getGroupById st gid = None ->
  NoDup (map Block.id (Page.blocks page)) ->
  onlyOnPage page ids st ->
  (forall b, In b (Page.blocks page) -> In (Block.id b) ids ->
             Block.groupId b <> Some gid) ->
  exists st1 c1,
    cmd_do (GroupCommand gid ids meta og cg) st = Done st1 c1
    /\ cmd_undo c1 st1 = Done st c1.
Proof.
  intros Ha Hg Hnd Honly Hfree.
  destruct (activePage_split _ _ Ha) as (l1 & l2 & Haid & Hps & Hl1).
  unfold onlyOnPage in Honly. rewrite Hps in Honly.
  simpl. rewrite Ha.
  change (fun b : Block.t =>
            if includes (Block.id b) ids
            then Block.setGroupId (Some gid) b else b)
    with (stampGroup gid ids).
  set (stamped := map (stampGroup gid ids) (Page.blocks page)).
  set (st1 := setActiveBlocks page stamped st).
  change (getGroupById st1 gid) with (getGroupById st gid). rewrite Hg.
  eexists. eexists. split; [reflexivity|].
  assert (Hstamped_ids : map Block.id stamped = map Block.id (Page.blocks page)).
  { unfold stamped. rewrite map_map. apply map_ext. intros b.
    unfold stampGroup. now destruct (includes (Block.id b) ids). }
  assert (Hpages1 : pages st1 = l1 ++ Page.mk (Page.id page) stamped :: l2).
  { unfold st1. cbn [pages setActiveBlocks setPages]. rewrite Hps.
    now apply setBlocksOfPage_middle. }
  (* addGroup stamps blocks that are stamped already *)
  match goal with
  | |- context [addGroup gid ?spec st1] => set (spec0 := spec)
  end.
  set (g := normalizeGroup gid spec0).
  assert (Hgids : Group.childIds g = ids) by reflexivity.
  assert (Hgid : Group.id g = gid) by reflexivity.
  assert (Hadd : addGroup gid spec0 st1 = setGroups (groups st ++ [g]) st1).
  { unfold addGroup. fold g. rewrite Hgids, Hgid.
    apply fold_mutate_fixed. intros i b Hi Hb.
    unfold getBlockById in Hb. cbn [pages setGroups] in Hb.
    rewrite Hpages1 in Hb.
    destruct (lookup_on_active_page i ids l1 l2 page stamped b Hi Honly Hl1
                Hstamped_ids Hb) as [Hin Hbid].
    eapply stamped_fixed; [exact Hi | exact Hin |].
    unfold hasId. rewrite Hbid. apply String.eqb_refl. }
  rewrite Hadd.
  cbn [cmd_undo].
  assert (Ha2 : activePage (setGroups (groups st ++ [g]) st1)
                = Some (Page.mk (Page.id page) stamped)).
  { rewrite activePage_setGroups. now apply activePage_setActiveBlocks. }
  rewrite Ha2. cbn [Page.blocks].
  set (restore := fun b : Block.t =>
                    if includes (Block.id b) ids
                    then Block.setGroupId
                           (orElse
                              (objGet (Block.id b)
                                 (captureOldGroups ids (Page.blocks page)))
                              None) b
                    else b).
  assert (Hrestored : map restore stamped = Page.blocks page).
  { unfold stamped. apply map_restore. intros b Hb.
    unfold restore, stampGroup.
    destruct (includes (Block.id b) ids) eqn:Hinc; simpl.
    - rewrite Hinc. unfold captureOldGroups.
      rewrite (recorded_groupIds_lookup
                 (fun b => includes (Block.id b) ids)) by exact Hnd.
      rewrite (find_hasId_in _ _ Hnd Hb), Hinc. simpl. now destruct b.
    - now rewrite Hinc. }
  fold restore. rewrite Hrestored.
  set (st3 := setActiveBlocks (Page.mk (Page.id page) stamped)
                (Page.blocks page) (setGroups (groups st ++ [g]) st1)).
  assert (Hpages3 : pages st3 = pages st).
  { unfold st3. cbn [pages setActiveBlocks setPages setGroups Page.id].
    rewrite Hpages1, setBlocksOfPage_middle by auto.
    now rewrite page_eta, Hps. }
  assert (Hg3 : getGroupById st3 gid = Some g).
  { unfold getGroupById, st3.
    cbn [groups setActiveBlocks setPages setGroups].
    change (fun gr : Group.t => String.eqb (Group.id gr) gid)
      with (isGroup gid).
    rewrite find_app_group.
    unfold getGroupById in Hg.
    change (fun gr : Group.t => String.eqb (Group.id gr) gid)
      with (isGroup gid) in Hg.
    rewrite Hg. simpl. unfold isGroup. now rewrite Hgid, String.eqb_refl. }
  f_equal. unfold removeGroup. rewrite Hg3, Hgids.
  rewrite fold_mutate_fixed.
  - unfold st3, st1, setActiveBlocks, setGroups, setPages.
    cbn [pages groups activePageId undoStack redoStack Page.id].
    assert (Hp : setBlocksOfPage (Page.id page) (Page.blocks page)
                   (setBlocksOfPage (Page.id page) stamped (pages st))
                 = pages st).
    { rewrite Hps, setBlocksOfPage_middle, setBlocksOfPage_middle by auto.
      now rewrite page_eta. }
    rewrite Hp.
    rewrite removeFirstGroup_appended; [now destruct st | | exact Hgid].
    exact Hg.
  - intros i b Hi Hb. unfold getBlockById in Hb. rewrite Hpages3, Hps in Hb.
    rewrite <- (page_eta page) in Hb at 1.
    destruct (lookup_on_active_page i ids l1 l2 page (Page.blocks page) b Hi
                Honly Hl1 eq_refl Hb) as [Hin Hbid].
    assert (Hne := Hfree b Hin). rewrite Hbid in Hne. specialize (Hne Hi).
    unfold detachIfMember. destruct (Block.groupId b) as [h|]; [|reflexivity].
    destruct (String.eqb_spec h gid); [congruence | reflexivity].
Qed.

Lemma group_create_then_undo_witness :
  exists st1 c1,
    cmd_do (GroupCommand "g-1" ["a"; "b"] None None false) demoStore
    = Done st1 c1
    /\ cmd_undo c1 st1 = Done demoStore c1.
Proof.
  refine (group_create_then_undo "g-1" ["a"; "b"] None None false demoStore
            demoPage eq_refl eq_refl _ _ _).
  - repeat constructor; simpl; intuition discriminate.
  - intros i u _ [Hu|[]] _. symmetry. exact Hu.
  - intros b [Hb|[Hb|[]]] _; subst b; discriminate.
Defined.

(** ** UngroupCommand: undo after do *)

Lemma normalize_groupToSpec (genId : string) (g : Group.t) :
  normalizeGroup genId (groupToSpec g) = g.
Proof. now destruct g. Qed.

(** X17: UngroupCommand, given no block ids, followed by its undo.  When
    the group is registered, the blocks of the active page have distinct
    ids, no other page holds a block with one of the group's child ids, and
    the children on the active page point at the group, do followed by undo
    gives back all pages, and the group's record comes back unchanged, now
    as the last record of the group list. *)
Theorem ungroup_then_undo (gid : string) (blockIds : option (list string))
  (v : UngroupVars) (st : Store) (page : Page.t) (g : Group.t) :
  activePage st = Some page ->
  getGroupById st gid = Some g ->
  someIds blockIds = None ->
  NoDup (map Block.id (Page.blocks page)) ->
  onlyOnPage page (Group.childIds g) st ->
  (forall b, In b (Page.blocks page) -> In (Block.id b) (Group.childIds g) ->
             Block.groupId b = Some gid) ->
  exists st1 v1 st2,
    UngroupCommand_do gid blockIds v st = Returned st1 v1
    /\ UngroupCommand_undo gid v1 st1 = Returned st2 v1
    /\ pages st2 = pages st
    /\ groups st2 = removeFirstGroup gid (groups st) ++ [g]
    /\ activePageId st2 = activePageId st
    /\ undoStack st2 = undoStack st /\ redoStack st2 = redoStack st.
Proof.
  intros Ha Hg Hids Hnd Honly Hmem.
  destruct (activePage_split _ _ Ha) as (l1 & l2 & Haid & Hps & Hl1).
  assert (Hgid : Group.id g = gid).
  { destruct (find_group_split _ _ _ Hg) as (_ & _ & _ & H & _). exact H. }
  unfold onlyOnPage in Honly. rewrite Hps in Honly.
  unfold UngroupCommand_do, ungroupTargets. rewrite Ha, Hg, Hids.
  set (hit := ungroupHit gid (Group.childIds g)).
  set (clear := fun b : Block.t => if hit b then Block.setGroupId None b else b).
  set (cleared := map clear (Page.blocks page)).
  set (st1 := setActiveBlocks page cleared st).
  set (oldGroups :=
         fold_left
           (fun m b => if hit b
                       then objSet (Block.id b) (Block.groupId b) m else m)
           (Page.blocks page) []).
  assert (Hcleared_ids : map Block.id cleared = map Block.id (Page.blocks page)).
  { unfold cleared. rewrite map_map. apply map_ext. intros b.
    unfold clear. now destruct (hit b). }
  assert (Hpages1 : pages st1 = l1 ++ Page.mk (Page.id page) cleared :: l2).
  { unfold st1. cbn [pages setActiveBlocks setPages]. rewrite Hps.
    now apply setBlocksOfPage_middle. }
  assert (Hrem : removeGroup gid st1
                 = setGroups (removeFirstGroup gid (groups st)) st1).
  { unfold removeGroup. change (getGroupById st1 gid) with (getGroupById st gid).
    rewrite Hg. rewrite fold_mutate_fixed; [reflexivity|].
    intros i b Hi Hb. unfold getBlockById in Hb. rewrite Hpages1 in Hb.
    destruct (lookup_on_active_page i (Group.childIds g) l1 l2 page cleared b
                Hi Honly Hl1 Hcleared_ids Hb) as [Hin _].
    assert (Hc := ungroup_map_clean gid (Group.childIds g) (Page.blocks page)
                    b Hin).
    unfold pointsAt in Hc. unfold detachIfMember.
    destruct (Block.groupId b); [now rewrite Hc | reflexivity]. }
  rewrite Hrem.
  eexists. eexists. eexists. split; [reflexivity|].
  unfold UngroupCommand_undo.
  cbn [ug_oldGroups ug_removedGroup ug_oldGroupSnapshot].
  assert (Ha2 : activePage (setGroups (removeFirstGroup gid (groups st)) st1)
                = Some (Page.mk (Page.id page) cleared)).
  { rewrite activePage_setGroups. now apply activePage_setActiveBlocks. }
  rewrite Ha2. cbn [Page.blocks].
  set (restore := fun b : Block.t =>
                    match objGet (Block.id b) oldGroups with
                    | Some old => Block.setGroupId old b
                    | None => b
                    end).
  assert (Hrestored : map restore cleared = Page.blocks page).
  { unfold cleared. apply map_restore. intros b Hb.
    unfold restore, clear.
    assert (Hk : objGet (Block.id b) oldGroups
                 = if hit b then Some (Block.groupId b) else None).
    { unfold oldGroups. rewrite (recorded_groupIds_lookup hit) by exact Hnd.
      now rewrite (find_hasId_in _ _ Hnd Hb). }
    destruct (hit b); simpl; rewrite Hk; [now destruct b | reflexivity]. }
  rewrite Hrestored.
  set (st3 := setActiveBlocks (Page.mk (Page.id page) cleared)
                (Page.blocks page)
                (setGroups (removeFirstGroup gid (groups st)) st1)).
  assert (Hpages3 : pages st3 = pages st).
  { unfold st3. cbn [pages setActiveBlocks setPages setGroups Page.id].
    rewrite Hpages1, setBlocksOfPage_middle by auto.
    now rewrite page_eta, Hps. }
  assert (Hadd : addGroup (Group.id g) (groupToSpec g) st3
                 = setGroups (groups st3 ++ [g]) st3).
  { unfold addGroup. rewrite normalize_groupToSpec.
    apply fold_mutate_fixed. intros i b Hi Hb.
    unfold getBlockById in Hb. cbn [pages setGroups] in Hb.
    rewrite Hpages3, Hps in Hb. rewrite <- (page_eta page) in Hb at 1.
    destruct (lookup_on_active_page i (Group.childIds g) l1 l2 page
                (Page.blocks page) b Hi Honly Hl1 eq_refl Hb) as [Hin Hbid].
    assert (Hm := Hmem b Hin). rewrite Hbid in Hm. specialize (Hm Hi).
    rewrite Hgid. destruct b; simpl in *. now subst. }
  rewrite Hadd. split; [reflexivity|].
  cbn [pages groups activePageId undoStack redoStack setGroups].
  split; [exact Hpages3|]. repeat split.
Qed.

Lemma ungroup_then_undo_witness :
  exists st1 v1 st2,
    UngroupCommand_do "g-1" None UngroupCommand_new mergeStore
    = Returned st1 v1
    /\ UngroupCommand_undo "g-1" v1 st1 = Returned st2 v1
    /\ pages st2 = pages mergeStore.
Proof.
  destruct (ungroup_then_undo "g-1" None UngroupCommand_new mergeStore
              mergePage (normalizeGroup "g-1" (childSpec "g-1" ["a"; "b"]))
              eq_refl eq_refl eq_refl)
    as (st1 & v1 & st2 & Hdo & Hundo & Hp & _).
  - repeat constructor; simpl; intuition discriminate.
  - intros i u _ [Hu|[]] _. symmetry. exact Hu.
  - intros b [Hb|[Hb|[Hb|[]]]] Hin; subst b; try reflexivity.
    simpl in Hin. destruct Hin as [Hc|[Hc|[]]]; discriminate.
  - exists st1, v1, st2. split; [exact Hdo|]. split; [exact Hundo|exact Hp].
Defined.

(** ** What gestures never change *)

Lemma shape_mutateBlock (i : string) (f : Block.t -> Block.t) (st : Store) :
  (forall b, Block.id (f b) = Block.id b) ->
  shape (mutateBlock i f st) = shape st.
Proof.
  intros Hf. unfold shape. cbn [pages groups activePageId mutateBlock setPages].
  now rewrite mutateInPages_layout.
Qed.

Lemma shape_updateBlock (i : string) (p : Patch) (st : Store) :
  shape (updateBlock i p st) = shape st.
Proof. apply shape_mutateBlock. apply assignPatch_id. Qed.

Lemma shape_updateBlocks (m : list (string * Patch)) (st : Store) :
  shape (updateBlocks m st) = shape st.
Proof. apply fold_left_frame. intros s e. apply shape_updateBlock. Qed.

Lemma shape_setGroups (gs : list Group.t) (st : Store) :
  map Group.id gs = map Group.id (groups st) ->
  shape (setGroups gs st) = shape st.
Proof. intros H. unfold shape. cbn [pages groups activePageId setGroups]. now rewrite H. Qed.

Lemma replaceFirstGroup_ids (gid : string) (new : Group.t) (gs : list Group.t) :
  Group.id new = gid ->
  map Group.id (replaceFirstGroup gid new gs) = map Group.id gs.
Proof.
  intros Hn. induction gs as [|g gs IH]; simpl; [reflexivity|].
  destruct (String.eqb_spec (Group.id g) gid) as [E|E]; simpl.
  - now rewrite Hn, E.
  - now rewrite IH.
Qed.

Lemma shape_updateGroup (gid : string) (patch : GroupPatch) (st : Store) :
  shape (updateGroup gid patch st) = shape st.
Proof.
  unfold updateGroup. destruct (getGroupById st gid) as [g|] eqn:Hg;
    [|reflexivity].
  assert (Hid : Group.id g = gid).
  { destruct (find_group_split _ _ _ Hg) as (_ & _ & _ & H & _). exact H. }
  destruct (patchChildIds patch) as [newIds|].
  - rewrite shape_setGroups.
    + unfold attachAdded, detachRemoved.
      rewrite (fold_left_frame shape);
        [|intros s b; destruct (negb _); [|reflexivity];
          now apply shape_mutateBlock].
      rewrite (fold_left_frame shape);
        [reflexivity|intros s b; destruct (negb _); [|reflexivity]].
      apply shape_mutateBlock. apply detachIfMember_id.
    + rewrite groups_attachAdded, groups_detachRemoved.
      now apply replaceFirstGroup_ids.
  - apply shape_setGroups. now apply replaceFirstGroup_ids.
Qed.

Lemma shape_setStacks (u r : list Command) (st : Store) :
  shape (setStacks u r st) = shape st.
Proof. reflexivity. Qed.

Lemma shape_cmd_do (c : Command) (st : Store) :
  plainCommand c = true -> shape (outcomeStore (cmd_do c st)) = shape st.
Proof.
  destruct c; simpl; try discriminate; intros _;
    try apply shape_updateBlock.
  - destruct childNew; [rewrite shape_updateBlocks|]; apply shape_updateBlock.
  - rewrite shape_updateBlocks. destruct ga; [apply shape_updateGroup|reflexivity].
Qed.

Lemma shape_cmd_undo (c : Command) (st : Store) :
  plainCommand c = true -> shape (outcomeStore (cmd_undo c st)) = shape st.
Proof.
  destruct c; simpl; try discriminate; intros _;
    try apply shape_updateBlock.
  - destruct childOld; [rewrite shape_updateBlocks|]; apply shape_updateBlock.
  - rewrite shape_updateBlocks. destruct gb; [apply shape_updateGroup|reflexivity].
Qed.

Lemma finalCommand_plain (i : Interaction) (st : Store) (c : Command) :
  finalCommand i st = Some c -> plainCommand c = true.
Proof.
  unfold finalCommand.
  destruct (isGroupId (i_blockId i)).
  - match goal with
    | |- (if ?c then _ else _) = _ -> _ => destruct c
    end; [discriminate|]. now intros [= <-].
  - destruct (blockSnapshot i) as [snap|]; [|discriminate].
    destruct (getBlockById st (bs_id snap)) as [cur|]; [|discriminate].
    destruct (i_type i).
    + destruct (Block.position cur); [|discriminate].
      match goal with
      | |- (if ?c then _ else _) = _ -> _ => destruct c
      end; [|discriminate]. now intros [= <-].
    + match goal with
      | |- (if ?c then _ else _) = _ -> _ => destruct c
      end; [|discriminate]. now intros [= <-].
    + match goal with
      | |- (if ?c then _ else _) = _ -> _ => destruct c
      end; [|discriminate]. now intros [= <-].
    + match goal with
      | |- (if ?c then _ else _) = _ -> _ => destruct c
      end; [|discriminate]. now intros [= <-].
Qed.

Lemma shape_applyCommand (c : Command) (st : Store) :
  plainCommand c = true -> shape (applyCommand c st) = shape st.
Proof.
  intros Hc. unfold applyCommand. assert (H := shape_cmd_do c st Hc).
  destruct (cmd_do c st); simpl in H; [|exact H].
  now rewrite shape_setStacks.
Qed.

Lemma shape_endInteraction (i : Interaction) (st : Store) :
  shape (endInteraction i st) = shape st.
Proof.
  unfold endInteraction. destruct (finalCommand i st) as [c|] eqn:E;
    [|reflexivity].
  apply shape_applyCommand. eapply finalCommand_plain. exact E.
Qed.

Section GestureShape.

Variables (cos sin : Q -> Q) (atan2 : Q -> Q -> Q) (PI : Q).
Variable env : Env.

Lemma shape_handlePointerMove (i : Interaction) (e : PointerEvent)
  (st : Store) :
  shape (handlePointerMove cos sin atan2 PI env i e st) = shape st.
Proof.
  unfold handlePointerMove.
  destruct (isGroupId (i_blockId i)); destruct (i_type i).
  - unfold groupMove. cbv zeta. rewrite shape_updateGroup.
    apply fold_left_frame. intros s b. apply shape_updateBlock.
  - unfold groupResize.
    destruct (groupSnapshot i) as [snap|]; [|reflexivity].
    destruct (handleOf i) as [h|]; [|reflexivity].
    cbv zeta.
    destruct (strIncludes "right" h), (strIncludes "left" h),
      (strIncludes "bottom" h), (strIncludes "top" h);
      cbv beta iota zeta; rewrite shape_updateGroup;
      apply fold_left_frame; intros s b;
      (destruct (find _ (childSnapshots i)); [apply shape_updateBlock|reflexivity]).
  - unfold groupRotate.
    destruct (groupSnapshot i) as [snap|]; [|reflexivity].
    destruct (center i) as [c|]; [|reflexivity].
    cbv zeta. rewrite shape_updateGroup.
    apply fold_left_frame. intros s b. apply shape_updateBlock.
  - unfold groupCrop.
    destruct (groupSnapshot i) as [snap|]; [|reflexivity].
    destruct (handleOf i) as [h|]; [|reflexivity].
    cbv zeta. apply cropChildren_frame. intros s b p.
    apply shape_updateBlock.
  - unfold singleMove. destruct (blockSnapshot i) as [snap|]; [|reflexivity].
    destruct (numberOr0 _); [apply shape_updateBlock|reflexivity].
  - unfold singleResize. destruct (blockSnapshot i) as [snap|]; [|reflexivity].
    destruct (hasNumericSize _ _); [|reflexivity].
    destruct (handleOf i); [apply shape_updateBlock|reflexivity].
  - unfold singleRotate. destruct (blockSnapshot i) as [snap|]; [|reflexivity].
    destruct (hasNumericSize _ _); [|reflexivity].
    destruct (center i); [apply shape_updateBlock|reflexivity].
  - unfold singleCrop. destruct (blockSnapshot i) as [snap|]; [|reflexivity].
    destruct (_ && _); [|reflexivity].
    destruct (handleOf i); [apply shape_updateBlock|reflexivity].
Qed.

Lemma shape_gestureStep (ed : Editor) (g : Gesture) :
  shape (store (gestureStep cos sin atan2 PI env ed g)) = shape (store ed).
Proof.
  destruct g as [e type blockId h|e|]; simpl.
  - unfold pointerDown. now destruct (beginInteraction _ _ _ _ _ _ _).
  - unfold pointerMove. destruct (interactionRef ed); [|reflexivity].
    apply shape_handlePointerMove.
  - unfold pointerUp. destruct (interactionRef ed); [|reflexivity].
    apply shape_endInteraction.
Qed.

Lemma gestures_keep_shape (gs : list Gesture) (ed : Editor) :
  shape (store (runGestures cos sin atan2 PI env gs ed)) = shape (store ed).
Proof.
  unfold runGestures. revert ed.
  induction gs as [|g gs IH]; intros ed; simpl; [reflexivity|].
  rewrite IH. apply shape_gestureStep.
Qed.

Lemma plain_timeline_split (st : Store) :
  forallb plainCommand (timeline st) = true
  <-> forallb plainCommand (undoStack st) = true
      /\ forallb plainCommand (redoStack st) = true.
Proof.
  unfold timeline. rewrite forallb_app, andb_true_iff.
  assert (H : forallb plainCommand (rev (redoStack st))
              = forallb plainCommand (redoStack st)).
  { induction (redoStack st) as [|c l IH]; simpl; [reflexivity|].
    rewrite forallb_app, IH. simpl. rewrite andb_true_r. apply andb_comm. }
  now rewrite H.
Qed.

Lemma plain_endInteraction (i : Interaction) (st : Store) :
  forallb plainCommand (timeline st) = true ->
  forallb plainCommand (timeline (endInteraction i st)) = true.
Proof.
  intros Hp. assert (H := endInteraction_stacks i st).
  destruct (finalCommand i st) as [c|] eqn:E; [|now rewrite H].
  destruct H as [Hu Hr]. apply plain_timeline_split in Hp.
  apply plain_timeline_split. rewrite Hu, Hr, forallb_app. simpl.
  rewrite (finalCommand_plain _ _ _ E). destruct Hp as [-> _]. auto.
Qed.

Lemma stacks_handlePointerMove (i : Interaction) (e : PointerEvent)
  (st : Store) :
  stacks (handlePointerMove cos sin atan2 PI env i e st) = stacks st.
Proof.
  unfold handlePointerMove.
  destruct (isGroupId (i_blockId i)); destruct (i_type i).
  - unfold groupMove. cbv zeta. rewrite stacks_updateGroup.
    apply fold_left_frame. reflexivity.
  - unfold groupResize.
    destruct (groupSnapshot i) as [snap|]; [|reflexivity].
    destruct (handleOf i) as [h|]; [|reflexivity].
    cbv zeta.
    destruct (strIncludes "right" h), (strIncludes "left" h),
      (strIncludes "bottom" h), (strIncludes "top" h);
      cbv beta iota zeta; rewrite stacks_updateGroup;
      apply fold_left_frame; intros s b;
      (destruct (find _ (childSnapshots i)); reflexivity).
  - unfold groupRotate.
    destruct (groupSnapshot i) as [snap|]; [|reflexivity].
    destruct (center i) as [c|]; [|reflexivity].
    cbv zeta. rewrite stacks_updateGroup.
    apply fold_left_frame. reflexivity.
  - unfold groupCrop.
    destruct (groupSnapshot i) as [snap|]; [|reflexivity].
    destruct (handleOf i) as [h|]; [|reflexivity].
    cbv zeta. apply cropChildren_frame. reflexivity.
  - unfold singleMove. destruct (blockSnapshot i) as [snap|]; [|reflexivity].
    destruct (numberOr0 _); reflexivity.
  - unfold singleResize. destruct (blockSnapshot i) as [snap|]; [|reflexivity].
    destruct (hasNumericSize _ _); [|reflexivity].
    destruct (handleOf i); reflexivity.
  - unfold singleRotate. destruct (blockSnapshot i) as [snap|]; [|reflexivity].
    destruct (hasNumericSize _ _); [|reflexivity].
    destruct (center i); reflexivity.
  - unfold singleCrop. destruct (blockSnapshot i) as [snap|]; [|reflexivity].
    destruct (_ && _); [|reflexivity].
    destruct (handleOf i); reflexivity.
Qed.

Lemma shape_undo (st : Store) :
  forallb plainCommand (timeline st) = true -> shape (undo st) = shape st.
Proof.
  intros Hp. unfold undo.
  destruct (pop (undoStack st)) as [[rest c]|] eqn:E; [|reflexivity].
  assert (Hc : plainCommand c = true).
  { apply plain_timeline_split in Hp. destruct Hp as [Hu _].
    unfold pop in E. destruct (rev (undoStack st)) as [|a r] eqn:Er;
      [discriminate|]. injection E as <- <-.
    apply (f_equal (@rev Command)) in Er. rewrite rev_involutive in Er.
    rewrite Er in Hu. simpl in Hu. rewrite forallb_app in Hu. simpl in Hu.
    apply andb_prop in Hu. destruct Hu as [_ Hu].
    now apply andb_prop in Hu. }
  assert (H := shape_cmd_undo c (setStacks rest (redoStack st) st) Hc).
  destruct (cmd_undo c (setStacks rest (redoStack st) st)); simpl in H;
    [|exact H].
  now rewrite shape_setStacks.
Qed.

Lemma shape_redo (st : Store) :
  forallb plainCommand (timeline st) = true -> shape (redo st) = shape st.
Proof.
  intros Hp. unfold redo.
  destruct (pop (redoStack st)) as [[rest c]|] eqn:E; [|reflexivity].
  assert (Hc : plainCommand c = true).
  { apply plain_timeline_split in Hp. destruct Hp as [_ Hr].
    unfold pop in E. destruct (rev (redoStack st)) as [|a r] eqn:Er;
      [discriminate|]. injection E as <- <-.
    apply (f_equal (@rev Command)) in Er. rewrite rev_involutive in Er.
    rewrite Er in Hr. simpl in Hr. rewrite forallb_app in Hr. simpl in Hr.
    apply andb_prop in Hr. destruct Hr as [_ Hr].
    now apply andb_prop in Hr. }
  assert (H := shape_cmd_do c (setStacks (undoStack st) rest st) Hc).
  destruct (cmd_do c (setStacks (undoStack st) rest st)); simpl in H;
    [|exact H].
  now rewrite shape_setStacks.
Qed.

Lemma editorStep_keeps (ed : Editor) (a : EditorAction) :
  forallb plainCommand (timeline (store ed)) = true ->
  shape (store (editorStep cos sin atan2 PI env ed a)) = shape (store ed)
  /\ forallb plainCommand
       (timeline (store (editorStep cos sin atan2 PI env ed a))) = true.
Proof.
  intros Hp. destruct a as [g|op]; simpl.
  - split; [apply shape_gestureStep|].
    destruct g as [e type blockId h|e|]; simpl.
    + unfold pointerDown. now destruct (beginInteraction _ _ _ _ _ _ _).
    + unfold pointerMove. destruct (interactionRef ed) as [i|]; [|exact Hp].
      cbn [store]. assert (H := stacks_handlePointerMove i e (store ed)).
      unfold stacks in H. injection H as Hu Hr.
      unfold timeline. rewrite Hu, Hr. exact Hp.
    + unfold pointerUp. destruct (interactionRef ed) as [i|]; [|exact Hp].
      cbn [store]. now apply plain_endInteraction.
  - destruct op; simpl.
    + destruct (canUndo (store ed)); [|auto].
      split; [now apply shape_undo|].
      now rewrite timeline_undo.
    + destruct (canRedo (store ed)); [|auto].
      split; [now apply shape_redo|].
      now rewrite timeline_redo.
Qed.

(** X18: what pointer gestures and their undo never change.  Starting
    from a history whose entries are all MoveCommand, ResizeCommand,
    RotateCommand, CropCommand or GroupTransformCommand objects (the kinds
    pointer-up pushes), whatever sequence of pointer-downs (on blocks or
    groups, with any interaction type and handle), pointer moves,
    pointer-ups and undo and redo keys is run, the pages keep their ids and
    order, every page keeps its block ids in order, the group records keep
    their ids and order, and the active page id stays: gestures and their
    undo edit blocks and group records in place and never add, remove or
    reorder one; and the history again holds only commands of these kinds.
    A history that also holds commands of the toolbar and the keyboard
    (DeleteBlockCommand, DuplicateCommand, AddBlockCommand, GroupCommand,
    UngroupCommand) is not covered: their undo and redo add and remove
    blocks and group records. *)
Theorem editing_keeps_shape (acts : list EditorAction) (ed : Editor) :
  forallb plainCommand (timeline (store ed)) = true ->
  shape (store (runEditor cos sin atan2 PI env acts ed)) = shape (store ed)
  /\ forallb plainCommand
       (timeline (store (runEditor cos sin atan2 PI env acts ed))) = true.
Proof.
  unfold runEditor. revert ed.
  induction acts as [|a acts IH]; intros ed Hp; simpl; [auto|].
  destruct (editorStep_keeps ed a Hp) as [Hs Hp'].
  destruct (IH _ Hp') as [Hs' Hp'']. split; [now rewrite Hs'|exact Hp''].
Qed.

End GestureShape.

Lemma editing_keeps_shape_witness :
  shape
    (store
       (runEditor axisCos axisSin axisAtan2 ratPI demoEnv
          [Pointer (GDown (mkEvent 20 20) move "a" None);
           Pointer (GMove (mkEvent 30 30)); Pointer GUp;
           Key OpUndo; Key OpRedo;
           Pointer (GDown (mkEvent 100 100) move "g-1" None);
           Pointer (GMove (mkEvent 120 100)); Pointer GUp; Key OpUndo]
          groupedEditor))
  = shape groupedStore.
Proof.
  exact (proj1 (editing_keeps_shape axisCos axisSin axisAtan2 ratPI demoEnv
                  [Pointer (GDown (mkEvent 20 20) move "a" None);
                   Pointer (GMove (mkEvent 30 30)); Pointer GUp;
                   Key OpUndo; Key OpRedo;
                   Pointer (GDown (mkEvent 100 100) move "g-1" None);
                   Pointer (GMove (mkEvent 120 100)); Pointer GUp; Key OpUndo]
                  groupedEditor eq_refl)).
Defined.

(** ** Locked blocks *)

Section LockedBlocks.

Variables (cos sin : Q -> Q) (atan2 : Q -> Q -> Q) (PI : Q).
Variable env : Env.

Lemma locked_gestures_idle (st : Store) (id : string) (b : Block.t)
  (gs : list Gesture) :
  getBlockById st id = Some b ->
  Block.locked b = true ->
  isGroupId id = false ->
  onlyTarget id gs ->
  runGestures cos sin atan2 PI env gs (mkEditor st None) = mkEditor st None.
Proof.
  intros Hb Hl Hg. unfold runGestures.
  induction gs as [|g gs IH]; intros Hall; simpl; [reflexivity|].
  assert (Hstep : gestureStep cos sin atan2 PI env (mkEditor st None) g
                  = mkEditor st None).
  { destruct g as [e type blockId h|e|]; simpl; try reflexivity.
    assert (blockId = id) by (eapply Hall; now left). subst blockId.
    unfold pointerDown, beginInteraction. cbn [store].
    destruct (canvas env); [|reflexivity].
    now rewrite Hg, Hb, Hl. }
  rewrite Hstep. apply IH. intros e t j h Hin. eapply Hall. right. exact Hin.
Qed.

(** X19: locking.  LockUnlockCommand's do sets the block's locked flag and
    nothing else, and its undo gives back the store when the old flag it
    was built with is the block's.  While a block is locked, pointer
    gestures on it (of any type, on any handle) open no session and change
    nothing: after any sequence of pointer-downs on the block, pointer
    moves and pointer-ups the store is as it was, with nothing pushed on
    the undo list. *)
Theorem lock_stops_gestures (st : Store) (id : string) (b : Block.t)
  (newLocked : bool) :
  getBlockById st id = Some b ->
  (getBlockById (LockUnlockCommand_do id (Block.locked b) newLocked st) id
   = Some (setLocked newLocked b)
   /\ (forall j, j <> id ->
         getBlockById (LockUnlockCommand_do id (Block.locked b) newLocked st) j
         = getBlockById st j)
   /\ LockUnlockCommand_undo id (Block.locked b) newLocked
        (LockUnlockCommand_do id (Block.locked b) newLocked st) = st)
  /\ (isGroupId id = false ->
      forall gs,
        onlyTarget id gs ->
        runGestures cos sin atan2 PI env gs
          (mkEditor (LockUnlockCommand_do id (Block.locked b) true st) None)
        = mkEditor (LockUnlockCommand_do id (Block.locked b) true st) None).
Proof.
  intros Hb.
  assert (Hsid : forall l u, Block.id (setLocked l u) = Block.id u)
    by reflexivity.
  split; [split; [|split]|].
  - unfold LockUnlockCommand_do.
    rewrite (getBlockById_mutateBlock _ (Hsid newLocked)), String.eqb_refl, Hb.
    reflexivity.
  - intros j Hj. unfold LockUnlockCommand_do.
    rewrite (getBlockById_mutateBlock _ (Hsid newLocked)).
    destruct (String.eqb_spec id j); [congruence | reflexivity].
  - unfold LockUnlockCommand_undo, LockUnlockCommand_do, mutateBlock.
    cbn [pages setPages]. rewrite mutateInPages_compose by apply Hsid.
    rewrite mutateInPages_fixed.
    + destruct st; reflexivity.
    + intros b' Hb'. unfold getBlockById in Hb. rewrite Hb in Hb'.
      injection Hb' as <-. now destruct b.
  - intros Hg gs Hall.
    apply (locked_gestures_idle _ id (setLocked true b)); auto.
    unfold LockUnlockCommand_do.
    rewrite (getBlockById_mutateBlock _ (Hsid true)), String.eqb_refl, Hb.
    reflexivity.
Qed.

End LockedBlocks.

Lemma lock_stops_gestures_witness :
  runGestures axisCos axisSin axisAtan2 ratPI demoEnv
    (dragGesture (mkEvent 20 20) move "a" None [mkEvent 30 30])
    (mkEditor (LockUnlockCommand_do "a" false true demoStore) None)
  = mkEditor (LockUnlockCommand_do "a" false true demoStore) None
  /\ LockUnlockCommand_undo "a" false true
       (LockUnlockCommand_do "a" false true demoStore) = demoStore.
Proof.
  destruct (lock_stops_gestures axisCos axisSin axisAtan2 ratPI demoEnv
              demoStore "a" (demoBlock "a" None) true eq_refl)
    as ((_ & _ & Hundo) & Hidle).
  split; [|exact Hundo].
  apply (Hidle eq_refl).
  intros e type blockId optHandle [H|[H|[H|[]]]]; inversion H. reflexivity.
Defined.

(** ** Undo after a gesture on one block *)

Lemma mutateFirst_ext (i : string) (f g : Block.t -> Block.t)
  (bs : list Block.t) :
  (forall b, f b = g b) -> mutateFirst i f bs = mutateFirst i g bs.
Proof.
  intros H. induction bs as [|b bs IH]; simpl; [reflexivity|].
  destruct (hasId i b); [now rewrite H | now rewrite IH].
Qed.

Lemma mutateInPages_ext (i : string) (f g : Block.t -> Block.t)
  (ps : list Page.t) :
  (forall b, f b = g b) -> mutateInPages i f ps = mutateInPages i g ps.
Proof.
  intros H. induction ps as [|p ps IH]; simpl; [reflexivity|].
  destruct (existsb (hasId i) (Page.blocks p)).
  - now rewrite (mutateFirst_ext i f g).
  - now rewrite IH.
Qed.

Lemma gesturePatch_merge (type : InteractionType) (t : bool) (p q : Patch) :
  gesturePatch type t p -> gesturePatch type t q ->
  exists r,
    gesturePatch type t r
    /\ forall b, assignPatch q (assignPatch p b) = assignPatch r b.
Proof.
  destruct type; simpl.
  - intros [p1 ->] [q1 ->]. eexists. split; [eexists; reflexivity|].
    intros b. reflexivity.
  - intros (p1 & s1 & f1 & -> & Hf1) (q1 & s2 & f2 & -> & Hf2).
    exists (mkPatch (Some q1) (Some (Some s2)) None
              (match f2 with Some f => Some f | None => f1 end) None).
    split.
    + do 3 eexists. split; [reflexivity|]. destruct f2; auto.
    + intros b. unfold assignPatch. simpl. now destruct f2.
  - intros [p1 ->] [q1 ->]. eexists. split; [eexists; reflexivity|].
    intros b. reflexivity.
  - intros [p1 ->] [q1 ->]. eexists. split; [eexists; reflexivity|].
    intros b. reflexivity.
Qed.

Lemma gesturePatch_initial (type : InteractionType) (b : Block.t) :
  editable type b ->
  exists p, gesturePatch type (isText (Block.type b)) p /\ assignPatch p b = b.
Proof.
  destruct type; simpl.
  - destruct b as [i t [p|] s r f c g l]; simpl; [|congruence]. intros _.
    eexists. split; [eexists; reflexivity | reflexivity].
  - destruct b as [i t [p|] [s|] r f c g l]; simpl;
      try (intros (H1 & H2 & _); congruence).
    intros _. exists (mkPatch (Some p) (Some (Some s)) None None None).
    split; [|reflexivity]. do 3 eexists. split; [reflexivity | congruence].
  - destruct b as [i t p s [r|] f c g l]; simpl; [|congruence]. intros _.
    eexists. split; [eexists; reflexivity | reflexivity].
  - destruct b as [i t p s r f [[c|]|] g l]; simpl; try congruence.
    intros _. eexists. split; [eexists; reflexivity | reflexivity].
Qed.

Section GestureUndo.

Variables (cos sin : Q -> Q) (atan2 : Q -> Q -> Q) (PI : Q).
Variable env : Env.

(** One pointer move of a session on a single block. *)
Lemma single_pointer_move (i : Interaction) (e : PointerEvent) (st : Store)
  (b : Block.t) :
  isGroupId (i_blockId i) = false ->
  blockSnapshot i = Some (snapshotBlock b) ->
  handlePointerMove cos sin atan2 PI env i e st = st
  \/ exists q,
      gesturePatch (i_type i) (isText (Block.type b)) q
      /\ handlePointerMove cos sin atan2 PI env i e st
         = updateBlock (Block.id b) q st.
Proof.
  intros Hg Hs. unfold handlePointerMove. rewrite Hg.
  destruct (i_type i); simpl.
  - unfold singleMove. rewrite Hs.
    destruct (numberOr0 _); [|now left]. right. eexists.
    split; [eexists; reflexivity | reflexivity].
  - unfold singleResize. rewrite Hs.
    destruct (hasNumericSize _ _); [|now left].
    destruct (handleOf i) as [h|]; [|now left]. right.
    eexists. split; [|reflexivity].
    unfold resizePatch. cbn [bs_type snapshotBlock].
    destruct (isText (Block.type b) && String.eqb h "top-left") eqn:E.
    + apply andb_prop in E. destruct E as [E _].
      do 3 eexists. split; [reflexivity | auto].
    + destruct (strIncludes "left" h);
        destruct (height (bs_size (snapshotBlock b)));
        try destruct (strIncludes "top" h);
        do 3 eexists; (split; [reflexivity | congruence]).
  - unfold singleRotate. rewrite Hs.
    destruct (hasNumericSize _ _); [|now left].
    destruct (center i); [|now left]. right.
    eexists. split; [eexists; reflexivity | reflexivity].
  - unfold singleCrop. rewrite Hs.
    destruct (_ && _); [|now left].
    destruct (handleOf i); [|now left]. right.
    eexists. split; [eexists; reflexivity | reflexivity].
Qed.

(** The store during a gesture on the block [b] of [st0]: the block with
    the keys of the gesture patched, everything else as in [st0]. *)
Lemma moves_keep_patched (i : Interaction) (b : Block.t) (st0 : Store)
  (moves : list PointerEvent) (ed : Editor) :
  isGroupId (i_blockId i) = false ->
  blockSnapshot i = Some (snapshotBlock b) ->
  interactionRef ed = Some i ->
  (exists p,
      gesturePatch (i_type i) (isText (Block.type b)) p
      /\ pages (store ed)
         = mutateInPages (Block.id b) (assignPatch p) (pages st0)) ->
  groups (store ed) = groups st0 ->
  stacks (store ed) = stacks st0 ->
  let ed' := runGestures cos sin atan2 PI env (map GMove moves) ed in
  interactionRef ed' = Some i
  /\ (exists p,
         gesturePatch (i_type i) (isText (Block.type b)) p
         /\ pages (store ed')
            = mutateInPages (Block.id b) (assignPatch p) (pages st0))
  /\ groups (store ed') = groups st0
  /\ stacks (store ed') = stacks st0.
Proof.
  intros Hg Hs. unfold runGestures. revert ed.
  induction moves as [|e moves IH]; intros ed Hi Hp Hgr Hst; simpl; [auto|].
  apply IH; unfold pointerMove; rewrite Hi; cbn [store interactionRef];
    try reflexivity.
  - destruct Hp as (p & Hk & Hp).
    destruct (single_pointer_move i e (store ed) b Hg Hs) as [->|(q & Hq & ->)];
      [eauto|].
    destruct (gesturePatch_merge _ _ _ _ Hk Hq) as (r & Hr & Hrb).
    exists r. split; [exact Hr|].
    unfold updateBlock, mutateBlock. cbn [pages setPages]. rewrite Hp.
    rewrite mutateInPages_compose by apply assignPatch_id.
    now apply mutateInPages_ext.
  - destruct (single_pointer_move i e (store ed) b Hg Hs) as [->|(q & Hq & ->)];
      [exact Hgr|]. exact Hgr.
  - destruct (single_pointer_move i e (store ed) b Hg Hs) as [->|(q & Hq & ->)];
      [exact Hst|]. exact Hst.
Qed.

Lemma pop_snoc {A : Type} (l : list A) (a : A) : pop (l ++ [a]) = Some (l, a).
Proof. apply pop_app. Qed.

(** Undo right after a pushed single-block command whose do and undo are
    one [updateBlock] each. *)
Lemma undo_pushed (c : Command) (id : string) (qd qu : Patch) (s : Store) :
  (forall s', cmd_do c s' = Done (updateBlock id qd s') c) ->
  (forall s', cmd_undo c s' = Done (updateBlock id qu s') c) ->
  pages (undo (applyCommand c s))
  = mutateInPages id (assignPatch qu)
      (mutateInPages id (assignPatch qd) (pages s))
  /\ groups (undo (applyCommand c s)) = groups s
  /\ undoStack (undo (applyCommand c s)) = undoStack s
  /\ redoStack (undo (applyCommand c s)) = [c].
Proof.
  intros Hd Hu. unfold applyCommand. rewrite Hd.
  unfold undo. cbn [undoStack redoStack setStacks updateBlock mutateBlock setPages].
  rewrite pop_snoc, Hu. cbn. repeat split.
Qed.

(** X20: undo after a gesture on one block.  For a block that has the keys
    the gesture edits (a position for a move; a position, a size and, for a
    text block, a font size for a resize; a rotation for a rotate; a crop
    for a crop), after a pointer-down on the block, any pointer moves and
    the pointer-up, either nothing was pushed on the undo list, or one
    command for that block was pushed, and then undo gives back every page
    exactly as it was before the gesture, leaves the groups alone, and
    leaves the undo list as it was before the gesture with the command on
    the redo list. *)
Theorem gesture_then_undo (st : Store) (id : string) (b : Block.t)
  (type : InteractionType) (h : option string) (down : PointerEvent)
  (moves : list PointerEvent) :
  isGroupId id = false ->
  getBlockById st id = Some b ->
  editable type b ->
  let ed := runGestures cos sin atan2 PI env
              (dragGesture down type id h moves) (mkEditor st None) in
  interactionRef ed = None
  /\ ((undoStack (store ed) = undoStack st
       /\ redoStack (store ed) = redoStack st)
      \/ exists c,
          undoStack (store ed) = undoStack st ++ [c]
          /\ commandTarget c = id
          /\ pages (undo (store ed)) = pages st
          /\ groups (undo (store ed)) = groups st
          /\ undoStack (undo (store ed)) = undoStack st
          /\ redoStack (undo (store ed)) = [c]).
Proof.
  intros Hg Hb Hed ed.
  assert (Hid := getBlockById_id _ _ _ Hb).
  assert (Hedeq :
            ed = pointerUp
                   (fold_left (gestureStep cos sin atan2 PI env)
                      (map GMove moves)
                      (pointerDown atan2 env down type id h
                         (mkEditor st None)))).
  { unfold ed, dragGesture, runGestures. cbn [fold_left gestureStep].
    rewrite fold_left_app. reflexivity. }
  clearbody ed. subst ed.
  destruct (beginInteraction atan2 env st down type id h) as [i|] eqn:Hbegin.
  - assert (Hdown : pointerDown atan2 env down type id h (mkEditor st None)
                    = mkEditor st (Some i)).
    { unfold pointerDown. cbn [store]. now rewrite Hbegin. }
    rewrite Hdown.
    destruct (beginInteraction_single _ _ _ _ _ _ _ _ _ Hbegin Hg Hb)
      as (Ht & Hbid & Hsnap & _).
    assert (Hg' : isGroupId (i_blockId i) = false) by (now rewrite Hbid).
    destruct (gesturePatch_initial type b Hed) as (p0 & Hk0 & Hp0).
    assert (Hinit : exists p,
               gesturePatch (i_type i) (isText (Block.type b)) p
               /\ pages (store (mkEditor st (Some i)))
                  = mutateInPages (Block.id b) (assignPatch p) (pages st)).
    { exists p0. rewrite Ht. split; [exact Hk0|]. cbn [store].
      symmetry. apply mutateInPages_fixed. intros b' Hb'.
      unfold getBlockById in Hb. rewrite Hid in Hb'. congruence. }
    destruct (moves_keep_patched i b st moves (mkEditor st (Some i)) Hg' Hsnap
                eq_refl Hinit eq_refl eq_refl)
      as (Hi & (p & Hk & Hp) & Hgr & Hst).
    unfold runGestures in Hi, Hp, Hgr, Hst.
    set (edm := fold_left (gestureStep cos sin atan2 PI env) (map GMove moves)
                  (mkEditor st (Some i))) in *.
    unfold pointerUp. rewrite Hi. cbn [store interactionRef].
    split; [reflexivity|].
    assert (Hcur : getBlockById (store edm) id = Some (assignPatch p b)).
    { unfold getBlockById. rewrite Hp, Hid.
      rewrite (findInPages_mutate _ (assignPatch_id p)), String.eqb_refl.
      unfold getBlockById in Hb. now rewrite Hb. }
    unfold stacks in Hst. injection Hst as Hus Hrs.
    unfold endInteraction.
    destruct (finalCommand i (store edm)) as [c|] eqn:Hfin;
      [|left; cbn [store]; split; assumption].
    right. exists c. cbn [store].
    assert (Hpush := endInteraction_stacks i (store edm)).
    rewrite Hfin in Hpush. unfold endInteraction in Hpush. rewrite Hfin in Hpush.
    destruct Hpush as [Hpu _]. rewrite Hus in Hpu.
    split; [exact Hpu|].
    (* the command, by the type of the gesture *)
    unfold finalCommand in Hfin. rewrite Hg', Hsnap in Hfin.
    change (bs_id (snapshotBlock b)) with (Block.id b) in Hfin.
    rewrite Hid, Hcur, Ht in Hfin.
    assert (Hback : forall qd qu,
               (forall s', cmd_do c s' = Done (updateBlock id qd s') c) ->
               (forall s', cmd_undo c s' = Done (updateBlock id qu s') c) ->
               assignPatch qu (assignPatch qd (assignPatch p b)) = b ->
               pages (undo (applyCommand c (store edm))) = pages st
               /\ groups (undo (applyCommand c (store edm))) = groups st
               /\ undoStack (undo (applyCommand c (store edm))) = undoStack st
               /\ redoStack (undo (applyCommand c (store edm))) = [c]).
    { intros qd qu Hd Hu Hfix.
      destruct (undo_pushed c id qd qu (store edm) Hd Hu)
        as (H1 & H2 & H3 & H4).
      rewrite H1, H2, H3, H4, Hp, Hgr, Hus, Hid.
      rewrite !mutateInPages_compose by apply assignPatch_id.
      repeat split.
      apply mutateInPages_fixed. intros b' Hb'.
      unfold getBlockById in Hb. rewrite Hb in Hb'. injection Hb' as <-.
      exact Hfix. }
    rewrite Ht in Hk.
    destruct type; simpl in Hk, Hed.
    + destruct Hk as [p1 ->]. cbn [assignPatch Block.position p_position] in Hfin.
      destruct (numNeq _ _ || numNeq _ _); [|discriminate].
      injection Hfin as <-. split; [reflexivity|].
      eapply Hback; try (intros; reflexivity).
      destruct b as [bi bt [bp|] bs br bf bc bg bl]; simpl in *;
        [reflexivity | congruence].
    + destruct Hk as (p1 & s1 & f1 & -> & Hf1).
      destruct (negb _ || negb _ || negb _); [|discriminate].
      injection Hfin as <-. split; [reflexivity|].
      eapply Hback; try (intros; reflexivity).
      destruct Hed as (H1 & H2 & H3).
      destruct b as [bi bt [bp|] [bs|] br bf bc bg bl]; simpl in *;
        try congruence.
      unfold assignPatch. simpl. f_equal.
      destruct bf as [f0|]; [reflexivity|].
      destruct f1 as [f|]; [|reflexivity].
      exfalso. apply H3; [|reflexivity]. apply Hf1. discriminate.
    + destruct Hk as [r1 ->].
      destruct (numNeq _ _); [|discriminate].
      injection Hfin as <-. split; [reflexivity|].
      eapply Hback; try (intros; reflexivity).
      destruct b as [bi bt bp bs [br|] bf bc bg bl]; simpl in *;
        [reflexivity | congruence].
    + destruct Hk as [c1 ->].
      destruct (negb _); [|discriminate].
      injection Hfin as <-. split; [reflexivity|].
      eapply Hback; try (intros; reflexivity).
      destruct b as [bi bt bp bs br bf [[bc|]|] bg bl]; simpl in *;
        solve [reflexivity | congruence].
  - (* no session: the moves and the pointer-up find nothing to do *)
    assert (Hdown : pointerDown atan2 env down type id h (mkEditor st None)
                    = mkEditor st None).
    { unfold pointerDown. cbn [store]. now rewrite Hbegin. }
    rewrite Hdown.
    assert (Hidle : forall gs,
               fold_left (gestureStep cos sin atan2 PI env) (map GMove gs)
                 (mkEditor st None) = mkEditor st None).
    { induction gs as [|g gs IH]; simpl; [reflexivity | exact IH]. }
    rewrite Hidle. simpl. split; [reflexivity|]. left. split; reflexivity.
Qed.

End GestureUndo.

Lemma gesture_then_undo_witness :
  let ed := runGestures axisCos axisSin axisAtan2 ratPI demoEnv
              (dragGesture (mkEvent 20 20) move "a" None [mkEvent 30 30])
              (mkEditor demoStore None) in
  interactionRef ed = None
  /\ ((undoStack (store ed) = undoStack demoStore
       /\ redoStack (store ed) = redoStack demoStore)
      \/ exists c,
          undoStack (store ed) = undoStack demoStore ++ [c]
          /\ commandTarget c = "a"
          /\ pages (undo (store ed)) = pages demoStore
          /\ groups (undo (store ed)) = groups demoStore
          /\ undoStack (undo (store ed)) = undoStack demoStore
          /\ redoStack (undo (store ed)) = [c]).
Proof.
  refine (gesture_then_undo axisCos axisSin axisAtan2 ratPI demoEnv demoStore
            "a" (demoBlock "a" None) move None (mkEvent 20 20) [mkEvent 30 30]
            eq_refl eq_refl _).
  discriminate.
Defined.

(** ** The move clamp *)

Lemma clampBetween_cases (v lo hi : Q) :
  clampBetween v lo hi <= hi
  /\ (lo <= hi -> lo <= clampBetween v lo hi)
  /\ (lo <= v -> v <= hi -> clampBetween v lo hi == v).
Proof.
  unfold clampBetween. repeat minmax_split; repeat split; intros; lra.
Qed.

Section MoveClamp.

Variables (cos sin : Q -> Q) (atan2 : Q -> Q -> Q) (PI : Q).
Variable env : Env.

Lemma clampTopLeft_window (cRect : Rect) (w h rot : Q) (cand : Pos) :
  inMoveWindow cos sin PI env cRect w h rot
    (clampTopLeft cos sin PI env cRect w h rot cand).
Proof.
  unfold inMoveWindow, clampTopLeft, effectiveW, effectiveH, allowOutsideFactor.
  cbv zeta. cbn [x y].
  set (ew := Qabs (w * Qabs (cos (rot * PI / 180)))
             + Qabs (h * Qabs (sin (rot * PI / 180)))).
  set (eh := Qabs (w * Qabs (sin (rot * PI / 180)))
             + Qabs (h * Qabs (cos (rot * PI / 180)))).
  set (ws := workspaceRectOf env).
  match goal with
  | |- context [clampBetween (x cand) ?lo ?hi] =>
      destruct (clampBetween_cases (x cand) lo hi) as (Hx1 & Hx2 & _)
  end.
  match goal with
  | |- context [clampBetween (y cand) ?lo ?hi] =>
      destruct (clampBetween_cases (y cand) lo hi) as (Hy1 & Hy2 & _)
  end.
  split; [lra|]. split; [lra|]. split; intros Hfit.
  - assert (H := Hx2). lapply H; [intros; lra | lra].
  - assert (H := Hy2). lapply H; [intros; lra | lra].
Qed.

(** X21: the move clamp.  After a pointer move of a move gesture, the top
    left corner written to a single block whose width at pointer-down was
    a number or absent (an absent width counts as 0), and the one written
    to a group record, lies in the move window of the element as it was at
    pointer-down: the axis-aligned box of the rotated element does not pass
    the right or the bottom edge of the workspace, and, when the workspace
    is at least a tenth of the box wide (high), at most nine tenths of the
    box lie left of (above) the workspace.  A block whose width is a string
    is not covered: the clamp computes with the width, and the position
    written is then not a number. *)
Theorem move_stays_in_window (i : Interaction) (e : PointerEvent) (st : Store) :
  i_type i = move ->
  (forall b b0 w,
      isGroupId (i_blockId i) = false ->
      blockSnapshot i = Some (snapshotBlock b) ->
      numberOr0 (width (bs_size (snapshotBlock b))) = Some w ->
      getBlockById st (Block.id b) = Some b0 ->
      exists b1 p,
        getBlockById (handlePointerMove cos sin atan2 PI env i e st)
          (Block.id b) = Some b1
        /\ Block.position b1 = Some p
        /\ inMoveWindow cos sin PI env (canvasRect i) w
             (orElse (height (bs_size (snapshotBlock b))) 0)
             (bs_rotation (snapshotBlock b)) p)
  /\ (forall g g0,
         isGroupId (i_blockId i) = true ->
         groupSnapshot i = Some g ->
         getGroupById st (i_blockId i) = Some g0 ->
         exists g1,
           getGroupById (handlePointerMove cos sin atan2 PI env i e st)
             (i_blockId i) = Some g1
           /\ inMoveWindow cos sin PI env (canvasRect i)
                (gwidth (Group.size g)) (gheight (Group.size g))
                (Group.rotation g) (Group.position g1)).
Proof.
  intros Ht. split.
  - intros b b0 w Hg Hs Hw Hb0. unfold handlePointerMove. rewrite Hg, Ht.
    unfold singleMove. rewrite Hs, Hw.
    change (bs_id (snapshotBlock b)) with (Block.id b).
    rewrite getBlockById_updateBlock, String.eqb_refl, Hb0.
    eexists. eexists. split; [reflexivity|]. split; [reflexivity|].
    apply clampTopLeft_window.
  - intros g g0 Hg Hs Hg0. unfold handlePointerMove. rewrite Hg, Ht.
    unfold groupMove. rewrite Hs. cbv zeta.
    match goal with
    | |- context [updateGroup _ ?p ?s] => set (patch := p); set (st1 := s)
    end.
    assert (Hg1 : getGroupById st1 (i_blockId i) = Some g0).
    { unfold getGroupById, st1.
      rewrite (fold_left_frame groups); [exact Hg0 | reflexivity]. }
    exists (assignAllowed patch g0).
    split; [apply (getGroupById_updateGroup _ patch _ _ Hg1)|].
    unfold patch. cbn [assignAllowed Group.position gp_position orElse
                       groupPositionPatch].
    assert (H := clampTopLeft_window (canvasRect i) (gwidth (Group.size g))
                   (gheight (Group.size g)) (Group.rotation g)
                   (mkPos (x (groupSnapshotPosition i)
                           + (clientX e - startX i))
                      (y (groupSnapshotPosition i)
                       + (clientY e - startY i)))).
    unfold inMoveWindow in *. cbv zeta in *. cbn [x y] in *. exact H.
Qed.

End MoveClamp.

Lemma move_stays_in_window_witness :
  exists b1 p,
    getBlockById
      (handlePointerMove axisCos axisSin axisAtan2 ratPI demoEnv
         (mkInteraction move "a" 20 20 demoRect
            (Some (snapshotBlock (demoBlock "a" None))) None (mkPos 0 0)
            [] [] [] None None 0 0)
         (mkEvent 5000 20) demoStore) "a" = Some b1
    /\ Block.position b1 = Some p
    /\ inMoveWindow axisCos axisSin ratPI demoEnv demoRect 50
         (orElse (height (bs_size (snapshotBlock (demoBlock "a" None)))) 0)
         (bs_rotation (snapshotBlock (demoBlock "a" None))) p.
Proof.
  exact (proj1 (move_stays_in_window axisCos axisSin axisAtan2 ratPI demoEnv
                  (mkInteraction move "a" 20 20 demoRect
                     (Some (snapshotBlock (demoBlock "a" None))) None
                     (mkPos 0 0) [] [] [] None None 0 0)
                  (mkEvent 5000 20) demoStore eq_refl)
           (demoBlock "a" None) (demoBlock "a" None) 50
           eq_refl eq_refl eq_refl eq_refl).
Defined.

(** ** Moving a group that stores no offsets *)

Lemma computeOffsets_fold (st : Store) (gpos : Pos) (ids : list string)
  (cid : string) (b : Block.t) (m0 : Offsets) :
  getBlockById st cid = Some b ->
  objGet cid
    (fold_left
       (fun m bid =>
          match getBlockById st bid with
          | None => m
          | Some b =>
              let p := orElse (Block.position b) (mkPos 0 0) in
              objSet bid (mkPos (x p - x gpos) (y p - y gpos)) m
          end) ids m0)
  = if includes cid ids
    then Some (mkPos (x (orElse (Block.position b) (mkPos 0 0)) - x gpos)
                 (y (orElse (Block.position b) (mkPos 0 0)) - y gpos))
    else objGet cid m0.
Proof.
  intros Hb. revert m0.
  induction ids as [|a ids IH]; intros m0; simpl; [reflexivity|].
  rewrite IH.
  destruct (includes cid ids) eqn:Hi.
  - now rewrite orb_true_r.
  - rewrite orb_false_r.
    destruct (String.eqb_spec cid a) as [<-|Hne].
    + rewrite Hb. cbv zeta. now rewrite objGet_objSet, String.eqb_refl.
    + destruct (getBlockById st a); [|reflexivity]. cbv zeta.
      rewrite objGet_objSet.
      destruct (String.eqb_spec a cid); [congruence | reflexivity].
Qed.

Lemma computeOffsets_lookup (st : Store) (gpos : Pos) (ids : list string)
  (cid : string) (b : Block.t) :
  In cid ids ->
  getBlockById st cid = Some b ->
  objGet cid (computeOffsets st gpos ids)
  = Some (mkPos (x (orElse (Block.position b) (mkPos 0 0)) - x gpos)
            (y (orElse (Block.position b) (mkPos 0 0)) - y gpos)).
Proof.
  intros Hin Hb. unfold computeOffsets.
  etransitivity; [exact (computeOffsets_fold st gpos ids cid b [] Hb)|].
  apply includes_In in Hin. now rewrite Hin.
Qed.

Section RigidMove.

Variables (cos sin : Q -> Q) (atan2 : Q -> Q -> Q) (PI : Q).
Variable env : Env.

(** X22: moving a group that stores no offsets.  The offsets are then
    taken from the children's positions at pointer-down, and a pointer move
    of the move gesture displaces every child the store holds by the same
    vector as the group record (the clamped one): the children keep their
    places relative to the group and to each other. *)
Theorem group_move_is_rigid (st : Store) (gid : string) (g : Group.t)
  (down e : PointerEvent) (h : option string) (i : Interaction) :
  isGroupId gid = true ->
  getGroupById st gid = Some g ->
  Group.blockOffsets g = [] ->
  beginInteraction atan2 env st down move gid h = Some i ->
  exists g1,
    getGroupById (handlePointerMove cos sin atan2 PI env i e st) gid = Some g1
    /\ Group.childIds g1 = Group.childIds g
    /\ forall cid b,
        In cid (Group.childIds g) ->
        getBlockById st cid = Some b ->
        exists b1 p1,
          getBlockById (handlePointerMove cos sin atan2 PI env i e st) cid
          = Some b1
          /\ Block.position b1 = Some p1
          /\ x p1 - x (orElse (Block.position b) (mkPos 0 0))
             == x (Group.position g1) - x (Group.position g)
          /\ y p1 - y (orElse (Block.position b) (mkPos 0 0))
             == y (Group.position g1) - y (Group.position g).
Proof.
  intros Hgid Hg Hoff Hbegin.
  unfold beginInteraction in Hbegin.
  destruct (canvas env) as [cRect|]; [|discriminate].
  rewrite Hgid, Hg, Hoff in Hbegin. injection Hbegin as <-.
  unfold handlePointerMove. cbn [i_blockId i_type]. rewrite Hgid.
  unfold groupMove.
  cbn [startX startY groupSnapshotPosition groupSnapshot canvasRect
       i_blockOffsets groupBlockIds i_blockId].
  cbv zeta.
  set (clamped := clampTopLeft cos sin PI env cRect _ _ _ _).
  match goal with
  | |- context [updateGroup _ ?p ?s] => set (patch := p); set (st1 := s)
  end.
  assert (Hg1 : getGroupById st1 gid = Some g).
  { unfold getGroupById, st1.
    rewrite (fold_left_frame groups); [exact Hg | reflexivity]. }
  exists (assignAllowed patch g).
  split; [apply (getGroupById_updateGroup _ patch _ _ Hg1)|].
  split; [reflexivity|].
  intros cid b Hin Hb.
  rewrite (lookup_updateGroup_other _ patch _ _ eq_refl).
  unfold st1. rewrite lookup_moveChildren.
  assert (Hinc := Hin). apply includes_In in Hinc. rewrite Hinc, Hb.
  cbn [option_map]. eexists. eexists. split; [reflexivity|].
  unfold movedChild, positionPatch.
  cbn [assignPatch p_position Block.position].
  split; [reflexivity|].
  rewrite (computeOffsets_lookup st (Group.position g) (Group.childIds g)
             cid b Hin Hb).
  cbn [orElse x y assignAllowed Group.position patch gp_position
       groupPositionPatch].
  split; ring.
Qed.

End RigidMove.

Lemma group_move_is_rigid_witness :
  exists i,
    beginInteraction axisAtan2 demoEnv looseGroupStore (mkEvent 20 20) move
      "g-1" None = Some i
    /\ exists g1,
        getGroupById
          (handlePointerMove axisCos axisSin axisAtan2 ratPI demoEnv i
             (mkEvent 30 25) looseGroupStore) "g-1" = Some g1
        /\ Group.childIds g1 = ["a"; "b"].
Proof.
  eexists. split; [reflexivity|].
  destruct (group_move_is_rigid axisCos axisSin axisAtan2 ratPI demoEnv
              looseGroupStore "g-1"
              (normalizeGroup "g-1" (childSpec "g-1" ["a"; "b"]))
              (mkEvent 20 20) (mkEvent 30 25) None _
              eq_refl eq_refl eq_refl eq_refl)
    as (g1 & Hg1 & Hids & _).
  exists g1. split; [exact Hg1|exact Hids].
Defined.

(** ** Objects used as maps *)

Lemma objSet_keys {A : Type} (k : string) (v : A) (m : list (string * A)) :
  map fst (objSet k v m)
  = if existsb (String.eqb k) (map fst m) then map fst m
    else map fst m ++ [k].
Proof.
  induction m as [|[k0 v0] m IH]; simpl; [reflexivity|].
  rewrite (String.eqb_sym k k0).
  destruct (String.eqb_spec k0 k) as [->|Hne]; simpl; [reflexivity|].
  rewrite IH. now destruct (existsb (String.eqb k) (map fst m)).
Qed.

Lemma objSet_NoDup {A : Type} (k : string) (v : A) (m : list (string * A)) :
  NoDup (map fst m) -> NoDup (map fst (objSet k v m)).
Proof.
  intros H. rewrite objSet_keys.
  destruct (existsb (String.eqb k) (map fst m)) eqn:E; [exact H|].
  apply NoDup_app; [exact H | repeat constructor; intros [] | ].
  intros a Ha [Hk|[]]. subst a.
  assert (existsb (String.eqb k) (map fst m) = true).
  { apply existsb_exists. exists k. split; [exact Ha | apply String.eqb_refl]. }
  congruence.
Qed.

Lemma objGet_map {A B : Type} (G : A -> B) (k : string)
  (m : list (string * A)) :
  objGet k (map (fun e => (fst e, G (snd e))) m) = option_map G (objGet k m).
Proof.
  induction m as [|[k0 v0] m IH]; simpl; [reflexivity|].
  destruct (String.eqb k0 k); [reflexivity | exact IH].
Qed.

Lemma objGet_absent {A : Type} (k : string) (m : list (string * A)) :
  ~ In k (map fst m) -> objGet k m = None.
Proof.
  induction m as [|[k0 v0] m IH]; simpl; [reflexivity|].
  intros H. destruct (String.eqb_spec k0 k) as [->|Hne]; [tauto|].
  apply IH. tauto.
Qed.

(** [{ ...a, ...b }] when [b] has each key once. *)
Lemma objGet_objMerge {A : Type} (k : string) (a b : list (string * A)) :
  NoDup (map fst b) ->
  objGet k (objMerge a b)
  = match objGet k b with
    | Some v => Some v
    | None => objGet k a
    end.
Proof.
  unfold objMerge. revert a.
  induction b as [|[k0 v0] b IH]; intros a Hnd; simpl; [reflexivity|].
  inversion Hnd as [|? ? Hnotin Hnd']; subst.
  rewrite IH by exact Hnd'. simpl. rewrite objGet_objSet.
  destruct (String.eqb_spec k0 k) as [->|Hne].
  - now rewrite (objGet_absent k b Hnotin).
  - reflexivity.
Qed.

(** The blocks after [Object.entries(m).forEach(([id, v]) =>
    store.updateBlock(id, P(v)))] for a map with each key once. *)
Lemma lookup_updateEntries {A : Type} (P : A -> Patch)
  (m : list (string * A)) (st : Store) (j : string) :
  NoDup (map fst m) ->
  getBlockById (fold_left (fun s e => updateBlock (fst e) (P (snd e)) s) m st) j
  = match objGet j m with
    | Some v => option_map (assignPatch (P v)) (getBlockById st j)
    | None => getBlockById st j
    end.
Proof.
  revert st. induction m as [|[k0 v0] m IH]; intros st Hnd; simpl;
    [reflexivity|].
  inversion Hnd as [|? ? Hnotin Hnd']; subst.
  rewrite IH by exact Hnd'. rewrite getBlockById_updateBlock.
  destruct (String.eqb_spec k0 j) as [->|Hne].
  - now rewrite (objGet_absent j m Hnotin).
  - reflexivity.
Qed.

(** A map built by [updates[snapshot.id] = F(snapshot)] over a list. *)
Lemma built_map_entries {S A : Type} (key : S -> string) (F : S -> A)
  (l : list S) (m0 : list (string * A)) (k : string) :
  NoDup (map fst m0) ->
  NoDup (map fst (fold_left (fun m s => objSet (key s) (F s) m) l m0))
  /\ (forall v,
        objGet k (fold_left (fun m s => objSet (key s) (F s) m) l m0) = Some v ->
        (exists s, In s l /\ key s = k /\ v = F s) \/ objGet k m0 = Some v)
  /\ ((exists s, In s l /\ key s = k) ->
      objGet k (fold_left (fun m s => objSet (key s) (F s) m) l m0) <> None).
Proof.
  revert m0. induction l as [|s l IH]; intros m0 Hnd; simpl.
  - split; [exact Hnd|]. split; [auto|]. intros (s & [] & _).
  - destruct (IH (objSet (key s) (F s) m0) (objSet_NoDup _ _ _ Hnd))
      as (H1 & H2 & H3).
    split; [exact H1|]. split.
    + intros v Hv. destruct (H2 v Hv) as [(s' & Hin & Hk & Hvs)|Hm].
      * left. exists s'. auto.
      * rewrite objGet_objSet in Hm.
        destruct (String.eqb_spec (key s) k) as [E|E].
        -- left. exists s. injection Hm as <-. auto.
        -- now right.
    + intros (s' & [<-|Hin] & Hk).
      * destruct l as [|s2 l2].
        -- simpl. rewrite objGet_objSet, Hk, String.eqb_refl. discriminate.
        -- (* a later snapshot may overwrite the key, never remove it *)
           clear H2 H3.
           assert (Hkeep : forall l' m,
                      objGet k m <> None ->
                      objGet k (fold_left (fun m s => objSet (key s) (F s) m)
                                  l' m) <> None).
           { induction l' as [|u l' IHl]; intros m Hm; simpl; [exact Hm|].
             apply IHl. rewrite objGet_objSet.
             destruct (String.eqb (key u) k); [discriminate | exact Hm]. }
           apply Hkeep. rewrite objGet_objSet, Hk, String.eqb_refl.
           discriminate.
      * apply H3. exists s'. auto.
Qed.

(** The entries of a map that have a value under [G], with that value
    under [H]. *)
Lemma objGet_chosen {A B C : Type} (G : A -> option B) (H : B -> C)
  (k : string) (m : list (string * A)) :
  NoDup (map fst m) ->
  objGet k
    (flat_map
       (fun e =>
          match G (snd e) with
          | Some p => [(fst e, H p)]
          | None => []
          end) m)
  = match objGet k m with
    | Some v => option_map H (G v)
    | None => None
    end.
Proof.
  induction m as [|[k0 v0] m IH]; intros Hnd; simpl; [reflexivity|].
  inversion Hnd as [|? ? Hnotin Hnd']; subst.
  destruct (String.eqb_spec k0 k) as [->|Hne].
  - destruct (G v0) as [p|]; simpl.
    + now rewrite String.eqb_refl.
    + rewrite IH by exact Hnd'. now rewrite (objGet_absent k m Hnotin).
  - destruct (G v0) as [p|]; simpl; [|now apply IH].
    destruct (String.eqb_spec k0 k); [congruence | now apply IH].
Qed.

Lemma chosen_keys {A B C : Type} (G : A -> option B) (H : B -> C)
  (m : list (string * A)) :
  NoDup (map fst m) ->
  NoDup
    (map fst
       (flat_map
          (fun e =>
             match G (snd e) with
             | Some p => [(fst e, H p)]
             | None => []
             end) m)).
Proof.
  assert (Hsub : forall (l : list (string * A)) k,
             In k (map fst
                     (flat_map
                        (fun e =>
                           match G (snd e) with
                           | Some p => [(fst e, H p)]
                           | None => []
                           end) l)) ->
             In k (map fst l)).
  { induction l as [|[k0 v0] l IH]; simpl; [tauto|]. intros k.
    destruct (G v0); simpl; intros Hin; [destruct Hin|]; auto. }
  induction m as [|[k0 v0] m IH]; intros Hnd; simpl; [constructor|].
  inversion Hnd as [|? ? Hnotin Hnd']; subst.
  destruct (G v0); simpl; [|now apply IH].
  constructor; [|now apply IH]. intros Hin. apply Hnotin. now apply Hsub.
Qed.

(** ** Turning a group *)

Section GroupTurn.

Variables (cos sin : Q -> Q) (atan2 : Q -> Q -> Q) (PI : Q).
Variable env : Env.

Lemma turnedPosition_rigid (gcx gcy dr w : Q) (s : ChildSnapshot) :
  cos dr * cos dr + sin dr * sin dr == 1 ->
  sqDistance
    (centreOf (turnedPosition cos sin gcx gcy dr w s) w (cs_size s))
    (mkPos gcx gcy)
  == sqDistance (centreOf (cs_position s) w (cs_size s)) (mkPos gcx gcy).
Proof.
  intros H.
  unfold sqDistance, centreOf, turnedPosition. cbn [x y].
  set (hh := orElse (height (cs_size s)) 0).
  set (dx := x (cs_position s) + w / 2 - gcx).
  set (dy := y (cs_position s) + hh / 2 - gcy).
  set (c := cos dr) in *. set (sn := sin dr) in *.
  transitivity ((dx * dx + dy * dy) * (c * c + sn * sn)).
  - unfold dx, dy. field.
  - rewrite H. ring.
Qed.

(** X23: turning a group.  On a pointer move of a rotate gesture on a
    group, a child that was captured at pointer-down with a width that is
    a number or absent (an absent width counts as 0), and that is still in
    the store, gets the rotation of its snapshot plus the angle the pointer
    has turned (in degrees) and a new position; when the values used for
    cos and sin of that angle satisfy cos^2 + sin^2 = 1, the child's centre
    stays at the same distance from the group's centre; and the group
    record stores, for the child, the offset of its new position from the
    group's position at pointer-down.  A child whose width is a string is
    not covered: the branch computes its centre with the width, and the
    position and the offset it writes are then not numbers. *)
Theorem group_turn_is_rigid (i : Interaction) (e : PointerEvent) (st : Store)
  (snap g0 : Group.t) (c : Pos) (cid : string) (b0 : Block.t) :
  isGroupId (i_blockId i) = true ->
  i_type i = rotate ->
  groupSnapshot i = Some snap ->
  center i = Some c ->
  getGroupById st (i_blockId i) = Some g0 ->
  (exists s, In s (childSnapshots i) /\ cs_id s = cid) ->
  (forall s, In s (childSnapshots i) -> cs_id s = cid ->
             numberOr0 (width (cs_size s)) <> None) ->
  getBlockById st cid = Some b0 ->
  let dr := pointerDeltaAngle atan2 c (startAngle i) e in
  let st' := handlePointerMove cos sin atan2 PI env i e st in
  let gc := mkPos (x (Group.position snap) + gwidth (Group.size snap) / 2)
              (y (Group.position snap) + gheight (Group.size snap) / 2) in
  exists s w b1 p1 g1,
    In s (childSnapshots i) /\ cs_id s = cid
    /\ numberOr0 (width (cs_size s)) = Some w
    /\ getBlockById st' cid = Some b1
    /\ Block.rotation b1 = Some (cs_rotation s + (dr * 180) / PI)
    /\ Block.position b1 = Some p1
    /\ (cos dr * cos dr + sin dr * sin dr == 1 ->
        sqDistance (centreOf p1 w (cs_size s)) gc
        == sqDistance (centreOf (cs_position s) w (cs_size s)) gc)
    /\ getGroupById st' (i_blockId i) = Some g1
    /\ objGet cid (Group.blockOffsets g1)
       = Some (mkPos (x p1 - x (Group.position snap))
                 (y p1 - y (Group.position snap))).
Proof.
  intros Hg Ht Hs Hc Hg0 Hex Hnum Hb0 dr st' gc.
  unfold st', handlePointerMove. rewrite Hg, Ht.
  unfold groupRotate. rewrite Hs, Hc. cbv zeta. fold dr.
  set (F := rotateChild cos sin
              (x (Group.position snap) + gwidth (Group.size snap) / 2)
              (y (Group.position snap) + gheight (Group.size snap) / 2)
              dr ((dr * 180) / PI)).
  set (updates := fold_left (fun m snapshot => objSet (cs_id snapshot)
                                                 (F snapshot) m)
                    (childSnapshots i) []).
  destruct (built_map_entries cs_id F (childSnapshots i) [] cid (NoDup_nil _))
    as (Hnd & Hfrom & Hhas).
  fold updates in Hnd, Hfrom, Hhas.
  destruct (objGet cid updates) as [v|] eqn:Hv; [|exfalso; now apply Hhas].
  destruct (Hfrom v eq_refl) as [(s & Hin & Hk & Hvs)|Hm]; [|discriminate].
  destruct (numberOr0 (width (cs_size s))) as [w|] eqn:Hw;
    [|exfalso; now apply (Hnum s Hin Hk)].
  assert (Hpos : snd v
                 = Some (turnedPosition cos sin
                           (x (Group.position snap)
                            + gwidth (Group.size snap) / 2)
                           (y (Group.position snap)
                            + gheight (Group.size snap) / 2) dr w s)).
  { rewrite Hvs. unfold F, rotateChild. cbn [snd]. now rewrite Hw. }
  set (p1 := turnedPosition cos sin
               (x (Group.position snap) + gwidth (Group.size snap) / 2)
               (y (Group.position snap) + gheight (Group.size snap) / 2)
               dr w s) in *.
  set (st1 := fold_left
                (fun s e =>
                   updateBlock (fst e)
                     (mkPatch (snd (snd e)) None (Some (fst (snd e)))
                        None None) s) updates st).
  assert (Hb1 : getBlockById st1 cid
                = Some (assignPatch
                          (mkPatch (Some p1) None (Some (fst v)) None None)
                          b0)).
  { unfold st1.
    rewrite (lookup_updateEntries
               (fun v => mkPatch (snd v) None (Some (fst v)) None None)
               updates st cid Hnd).
    now rewrite Hv, Hb0, Hpos. }
  assert (Hg1 : getGroupById st1 (i_blockId i) = Some g0).
  { unfold getGroupById, st1.
    rewrite (fold_left_frame groups); [exact Hg0 | reflexivity]. }
  rewrite Hg1.
  match goal with
  | |- context [updateGroup _ ?p st1] => set (patch := p)
  end.
  exists s, w,
    (assignPatch (mkPatch (Some p1) None (Some (fst v)) None None) b0),
    p1, (assignAllowed patch g0).
  split; [exact Hin|]. split; [exact Hk|]. split; [exact Hw|].
  split; [now rewrite (lookup_updateGroup_other _ patch _ _ eq_refl)|].
  split.
  - cbn [assignPatch p_rotation Block.rotation]. now rewrite Hvs.
  - split; [reflexivity|]. split.
    + intros Hunit. unfold p1. now apply turnedPosition_rigid.
    + split; [apply (getGroupById_updateGroup _ patch _ _ Hg1)|].
      unfold patch.
      cbn [assignAllowed Group.blockOffsets gp_blockOffsets orElse
           patchChildIds gp_childIds gp_blockIds].
      rewrite objGet_objMerge.
      * rewrite (objGet_chosen (fun v : Q * option Pos => snd v)
                   (fun p : Pos =>
                      mkPos (x p - x (Group.position snap))
                        (y p - y (Group.position snap)))
                   cid updates Hnd).
        now rewrite Hv, Hpos.
      * apply (chosen_keys (fun v : Q * option Pos => snd v)
                 (fun p : Pos =>
                    mkPos (x p - x (Group.position snap))
                      (y p - y (Group.position snap)))
                 updates Hnd).
Qed.

End GroupTurn.

Lemma group_turn_is_rigid_witness :
  exists i c,
    beginInteraction axisAtan2 demoEnv groupedStore (mkEvent 100 35) rotate
      "g-1" None = Some i
    /\ center i = Some c
    /\ exists s b1 g1,
        In s (childSnapshots i) /\ cs_id s = "b"
        /\ getBlockById
             (handlePointerMove axisCos axisSin axisAtan2 ratPI demoEnv i
                (mkEvent 50 100) groupedStore) "b" = Some b1
        /\ Block.rotation b1
           = Some (cs_rotation s
                   + (pointerDeltaAngle axisAtan2 c (startAngle i)
                        (mkEvent 50 100) * 180) / ratPI)
        /\ getGroupById
             (handlePointerMove axisCos axisSin axisAtan2 ratPI demoEnv i
                (mkEvent 50 100) groupedStore) "g-1" = Some g1.
Proof.
  eexists. eexists. split; [reflexivity|]. split; [reflexivity|].
  match goal with
  | |- context [handlePointerMove _ _ _ _ _ ?i _ _] =>
      destruct (group_turn_is_rigid axisCos axisSin axisAtan2 ratPI demoEnv
                  i (mkEvent 50 100) groupedStore _ _ _ "b"
                  (Block.mk "b" image (Some (mkPos 40 10))
                     (Some (mkSize (Some (pixels 50)) (Some 50))) (Some 0)
                     None None (Some "g-1") false)
                  eq_refl eq_refl eq_refl eq_refl eq_refl
                  (ex_intro _ _ (conj (or_intror (or_introl eq_refl)) eq_refl)))
        as (s & w & b1 & p1 & g1 & Hs & Hid & _ & Hb1 & Hrot & _ & _ & Hg1 & _);
        [intros s0 [<-|[<-|[]]] _; discriminate | reflexivity |]
  end.
  exists s, b1, g1. repeat split; assumption.
Defined.

(** ** Resizing a group *)

Section GroupResize.

Variables (cos sin : Q -> Q) (atan2 : Q -> Q -> Q) (PI : Q).
Variable env : Env.

(** The loop of the group resize branch over the child ids, for the new
    group corner [(ngx, ngy)] and the scale factors [sx], [sy]. *)
Lemma resizeChildren_lookup (ngx ngy sx sy : Q) (offsets : Offsets)
  (snaps : list ChildSnapshot) (ids : list string) (st : Store)
  (cid : string) (s : ChildSnapshot) (b0 : Block.t) :
  In cid ids ->
  find (fun c => String.eqb (cs_id c) cid) snaps = Some s ->
  getBlockById st cid = Some b0 ->
  exists b1,
    getBlockById
      (fold_left
         (fun st bid =>
            match find (fun c => String.eqb (cs_id c) bid) snaps with
            | None => st
            | Some snapshot =>
                let offset := orElse (objGet bid offsets) (mkPos 0 0) in
                let newBlockX := ngx + x offset * sx in
                let newBlockY := ngy + y offset * sy in
                let newSize := scaleSize sx sy (cs_size snapshot) in
                let newFontSize :=
                  match getBlockById st bid, cs_fontSize snapshot with
                  | Some blk, Some f =>
                      if isText (Block.type blk)
                      then Some (f * jsMin sx sy) else Some f
                  | _, f => f
                  end in
                updateBlock bid
                  (mkPatch (Some (mkPos newBlockX newBlockY))
                     (Some (Some newSize)) None newFontSize None) st
            end) ids st) cid = Some b1
    /\ Block.position b1
       = Some (mkPos (ngx + x (orElse (objGet cid offsets) (mkPos 0 0)) * sx)
                 (ngy + y (orElse (objGet cid offsets) (mkPos 0 0)) * sy))
    /\ Block.size b1 = Some (scaleSize sx sy (cs_size s)).
Proof.
  intros Hin Hs Hb0.
  set (step := fun (st : Store) (bid : string) =>
                 match find (fun c => String.eqb (cs_id c) bid) snaps with
                 | None => st
                 | Some snapshot =>
                     let offset := orElse (objGet bid offsets) (mkPos 0 0) in
                     let newBlockX := ngx + x offset * sx in
                     let newBlockY := ngy + y offset * sy in
                     let newSize := scaleSize sx sy (cs_size snapshot) in
                     let newFontSize :=
                       match getBlockById st bid, cs_fontSize snapshot with
                       | Some blk, Some f =>
                           if isText (Block.type blk)
                           then Some (f * jsMin sx sy) else Some f
                       | _, f => f
                       end in
                     updateBlock bid
                       (mkPatch (Some (mkPos newBlockX newBlockY))
                          (Some (Some newSize)) None newFontSize None) st
                 end).
  assert (Hother : forall st0 bid j, bid <> j ->
             getBlockById (step st0 bid) j = getBlockById st0 j).
  { intros st0 bid j Hne. unfold step.
    destruct (find (fun c => String.eqb (cs_id c) bid) snaps);
      [|reflexivity]. cbv zeta.
    rewrite getBlockById_updateBlock.
    destruct (String.eqb_spec bid j); [congruence | reflexivity]. }
  assert (Hsame : forall st0 b, getBlockById st0 cid = Some b ->
             exists b1,
               getBlockById (step st0 cid) cid = Some b1
               /\ Block.position b1
                  = Some (mkPos
                            (ngx + x (orElse (objGet cid offsets) (mkPos 0 0)) * sx)
                            (ngy + y (orElse (objGet cid offsets) (mkPos 0 0)) * sy))
               /\ Block.size b1 = Some (scaleSize sx sy (cs_size s))).
  { intros st0 b Hb. unfold step. rewrite Hs. cbv zeta.
    rewrite getBlockById_updateBlock, String.eqb_refl, Hb.
    eexists. split; [reflexivity|]. split; reflexivity. }
  assert (Hpres : forall st0 bid, getBlockById st0 cid <> None ->
             getBlockById (step st0 bid) cid <> None).
  { intros st0 bid Hne. destruct (String.eqb_spec bid cid) as [->|Hd].
    - destruct (getBlockById st0 cid) as [b|] eqn:Hb; [|contradiction].
      destruct (Hsame st0 b Hb) as (b1 & -> & _). discriminate.
    - now rewrite Hother. }
  change (exists b1,
             getBlockById (fold_left step ids st) cid = Some b1
             /\ Block.position b1
                = Some (mkPos
                          (ngx + x (orElse (objGet cid offsets) (mkPos 0 0)) * sx)
                          (ngy + y (orElse (objGet cid offsets) (mkPos 0 0)) * sy))
             /\ Block.size b1 = Some (scaleSize sx sy (cs_size s))).
  assert (Hex : getBlockById st cid <> None) by congruence.
  clear Hb0. revert st Hex Hin.
  induction ids as [|a ids IH] using rev_ind; intros st Hex Hin;
    [contradiction|].
  rewrite fold_left_app. simpl.
  assert (Hfold : getBlockById (fold_left step ids st) cid <> None).
  { clear IH Hin. revert st Hex.
    induction ids as [|u ids IHl]; intros st Hex; simpl; [exact Hex|].
    apply IHl. now apply Hpres. }
  destruct (String.eqb_spec a cid) as [->|Hne].
  - destruct (getBlockById (fold_left step ids st) cid) as [b|] eqn:Hb;
      [|contradiction].
    exact (Hsame _ b Hb).
  - rewrite Hother by exact Hne. apply IH; [exact Hex|].
    apply in_app_or in Hin. destruct Hin as [Hin|[Ha|[]]]; [exact Hin|].
    congruence.
Qed.

Lemma jsMax_ge_l (a b : Q) : a <= jsMax a b.
Proof. minmax_split; lra. Qed.

Lemma resizeAxis_spec (near far : bool) (start extent delta : Q) :
  let '(newExtent, scale, newStart) := resizeAxis near far start extent delta in
  (if near
   then 40 <= newExtent /\ newStart + newExtent == start + extent
   else newStart = start
        /\ if far then 40 <= newExtent else newExtent = extent)
  /\ (if near || far then scale = newExtent / orIfZero extent 1
      else scale = 1).
Proof.
  unfold resizeAxis. destruct near, far; cbn [orb]; repeat split;
    try apply jsMax_ge_l; ring.
Qed.

(** The group resize branch, axis by axis. *)
Lemma groupResize_by_axis (i : Interaction) (e : PointerEvent) (st : Store)
  (snap : Group.t) (h : string) :
  groupSnapshot i = Some snap ->
  handleOf i = Some h ->
  let '(nw, sx, ngx) :=
    resizeAxis (strIncludes "left" h) (strIncludes "right" h)
      (x (Group.position snap)) (gwidth (Group.size snap))
      (clientX e - startX i) in
  let '(nh, sy, ngy) :=
    resizeAxis (strIncludes "top" h) (strIncludes "bottom" h)
      (y (Group.position snap)) (gheight (Group.size snap))
      (clientY e - startY i) in
  groupResize i e st
  = updateGroup (i_blockId i)
      (mkGroupPatch None None (Some (mkPos ngx ngy)) (Some (mkGSize nw nh))
         None
         (Some (map (fun en => (fst en, mkPos (x (snd en) * sx)
                                          (y (snd en) * sy)))
                  (i_blockOffsets i))))
      (fold_left
         (fun st bid =>
            match find (fun c => String.eqb (cs_id c) bid) (childSnapshots i)
            with
            | None => st
            | Some snapshot =>
                let offset := orElse (objGet bid (i_blockOffsets i))
                                (mkPos 0 0) in
                let newBlockX := ngx + x offset * sx in
                let newBlockY := ngy + y offset * sy in
                let newSize := scaleSize sx sy (cs_size snapshot) in
                let newFontSize :=
                  match getBlockById st bid, cs_fontSize snapshot with
                  | Some blk, Some f =>
                      if isText (Block.type blk)
                      then Some (f * jsMin sx sy) else Some f
                  | _, f => f
                  end in
                updateBlock bid
                  (mkPatch (Some (mkPos newBlockX newBlockY))
                     (Some (Some newSize)) None newFontSize None) st
            end) (groupBlockIds i) st).
Proof.
  intros Hs Hh. unfold groupResize, resizeAxis. rewrite Hs, Hh.
  destruct (strIncludes "left" h), (strIncludes "right" h),
    (strIncludes "top" h), (strIncludes "bottom" h); reflexivity.
Qed.

(** X24: resizing a group.  On a pointer move of a resize gesture on a
    group, a handle with "left" keeps the right edge of the group and one
    without keeps the left edge; the width is at least 40 when the handle
    has "left" or "right" and is the starting width otherwise; the same
    holds vertically with "top" and "bottom".  Every child that was
    captured at pointer-down, is listed by the session and is in the store
    gets the size of its snapshot scaled by the two factors (new extent
    over starting extent on a resized axis, 1 on the other), and sits at
    the group's new position plus the scaled offset, which is the offset
    the group record stores for it afterwards. *)
Theorem group_resize_postcondition (i : Interaction) (e : PointerEvent)
  (st : Store) (snap g0 : Group.t) (h : string) :
  isGroupId (i_blockId i) = true ->
  i_type i = resize ->
  groupSnapshot i = Some snap ->
  handleOf i = Some h ->
  getGroupById st (i_blockId i) = Some g0 ->
  let st' := handlePointerMove cos sin atan2 PI env i e st in
  exists g1 sx sy,
    getGroupById st' (i_blockId i) = Some g1
    /\ (if strIncludes "left" h
        then 40 <= gwidth (Group.size g1)
             /\ x (Group.position g1) + gwidth (Group.size g1)
                == x (Group.position snap) + gwidth (Group.size snap)
        else x (Group.position g1) = x (Group.position snap)
             /\ if strIncludes "right" h
                then 40 <= gwidth (Group.size g1)
                else gwidth (Group.size g1) = gwidth (Group.size snap))
    /\ (if strIncludes "top" h
        then 40 <= gheight (Group.size g1)
             /\ y (Group.position g1) + gheight (Group.size g1)
                == y (Group.position snap) + gheight (Group.size snap)
        else y (Group.position g1) = y (Group.position snap)
             /\ if strIncludes "bottom" h
                then 40 <= gheight (Group.size g1)
                else gheight (Group.size g1) = gheight (Group.size snap))
    /\ (if strIncludes "left" h || strIncludes "right" h
        then sx = gwidth (Group.size g1) / orIfZero (gwidth (Group.size snap)) 1
        else sx = 1)
    /\ (if strIncludes "top" h || strIncludes "bottom" h
        then sy = gheight (Group.size g1)
                  / orIfZero (gheight (Group.size snap)) 1
        else sy = 1)
    /\ forall cid s b0 off,
        In cid (groupBlockIds i) ->
        find (fun c => String.eqb (cs_id c) cid) (childSnapshots i) = Some s ->
        getBlockById st cid = Some b0 ->
        objGet cid (i_blockOffsets i) = Some off ->
        exists b1,
          getBlockById st' cid = Some b1
          /\ Block.size b1 = Some (scaleSize sx sy (cs_size s))
          /\ objGet cid (Group.blockOffsets g1)
             = Some (mkPos (x off * sx) (y off * sy))
          /\ Block.position b1
             = Some (mkPos (x (Group.position g1) + x off * sx)
                       (y (Group.position g1) + y off * sy)).
Proof.
  intros Hg Ht Hs Hh Hg0 st'.
  unfold st', handlePointerMove. rewrite Hg, Ht.
  assert (Hax := groupResize_by_axis i e st snap h Hs Hh).
  assert (Hx := resizeAxis_spec (strIncludes "left" h) (strIncludes "right" h)
                  (x (Group.position snap)) (gwidth (Group.size snap))
                  (clientX e - startX i)).
  assert (Hy := resizeAxis_spec (strIncludes "top" h) (strIncludes "bottom" h)
                  (y (Group.position snap)) (gheight (Group.size snap))
                  (clientY e - startY i)).
  destruct (resizeAxis (strIncludes "left" h) (strIncludes "right" h) _ _ _)
    as [[nw sx] ngx].
  destruct (resizeAxis (strIncludes "top" h) (strIncludes "bottom" h) _ _ _)
    as [[nh sy] ngy].
  rewrite Hax. clear Hax.
  match goal with
  | |- context [updateGroup _ ?p ?s] => set (patch := p); set (st1 := s)
  end.
  assert (Hg1 : getGroupById st1 (i_blockId i) = Some g0).
  { unfold getGroupById, st1.
    rewrite (fold_left_frame groups); [exact Hg0|].
    intros s0 bid.
    destruct (find (fun c => String.eqb (cs_id c) bid) (childSnapshots i));
      reflexivity. }
  exists (assignAllowed patch g0), sx, sy.
  split; [apply (getGroupById_updateGroup _ patch _ _ Hg1)|].
  cbn [assignAllowed patch Group.position Group.size Group.blockOffsets
       gp_position gp_size gp_blockOffsets orElse x y gwidth gheight
       patchChildIds gp_childIds gp_blockIds].
  destruct Hx as [Hx1 Hx2]. destruct Hy as [Hy1 Hy2].
  split; [exact Hx1|]. split; [exact Hy1|].
  split; [exact Hx2|]. split; [exact Hy2|].
  intros cid s b0 off Hin Hfind Hb0 Hoff.
  rewrite (lookup_updateGroup_other _ patch _ _ eq_refl).
  destruct (resizeChildren_lookup ngx ngy sx sy (i_blockOffsets i)
              (childSnapshots i) (groupBlockIds i) st cid s b0 Hin Hfind Hb0)
    as (b1 & Hb1 & Hpos & Hsize).
  exists b1. split; [exact Hb1|]. split; [exact Hsize|]. split.
  - rewrite (objGet_map (fun p : Pos => mkPos (x p * sx) (y p * sy))).
    now rewrite Hoff.
  - rewrite Hpos, Hoff. reflexivity.
Qed.

End GroupResize.

Lemma group_resize_postcondition_witness :
  exists i,
    beginInteraction axisAtan2 demoEnv groupedStore (mkEvent 90 60) resize
      "g-1" (Some "bottom-right") = Some i
    /\ exists g1,
        getGroupById
          (handlePointerMove axisCos axisSin axisAtan2 ratPI demoEnv i
             (mkEvent 170 60) groupedStore) "g-1" = Some g1
        /\ x (Group.position g1) = 10
        /\ 40 <= gwidth (Group.size g1)
        /\ 40 <= gheight (Group.size g1).
Proof.
  eexists. split; [reflexivity|].
  match goal with
  | |- context [handlePointerMove _ _ _ _ _ ?i _ _] =>
      destruct (group_resize_postcondition axisCos axisSin axisAtan2 ratPI
                  demoEnv i (mkEvent 170 60) groupedStore _ _ "bottom-right"
                  eq_refl eq_refl eq_refl eq_refl eq_refl)
        as (g1 & sx & sy & Hg1 & Hx & Hy & _)
  end.
  exists g1. split; [exact Hg1|].
  split; [exact (proj1 Hx)|]. split; [exact (proj2 Hx)|exact (proj2 Hy)].
Defined.

(** ** Cropping a group *)

Lemma fold_left_snoc_inv {A B : Type} (F : A -> B -> A)
  (P : list B -> A -> Prop) (l : list B) (a0 : A) :
  P [] a0 ->
  (forall l' b a, P l' a -> P (l' ++ [b]) (F a b)) ->
  P l (fold_left F l a0).
Proof.
  intros H0 Hstep. induction l as [|b l IH] using rev_ind; [exact H0|].
  rewrite fold_left_app. simpl. apply Hstep. exact IH.
Qed.

Lemma getCropValues_cropOfValues (c : CropValues) :
  getCropValues (Some (cropOfValues c)) = c.
Proof. destruct c. reflexivity. Qed.

Lemma cropBounds_insetsInRange (c : CropValues) :
  cropBounds c -> insetsInRange c.
Proof. unfold cropBounds, insetsInRange. tauto. Qed.

Lemma groupCropNext_inRange (h : string) (dx dy : Q) (c : CropValues) :
  insetsInRange c -> cropBounds (groupCropNext h dx dy c).
Proof.
  intros (H1 & H2 & H3 & H4 & H5 & H6 & H7 & H8).
  now apply groupCropNext_bounds.
Qed.

Section GroupCrop.

Variables (cos sin : Q -> Q) (atan2 : Q -> Q -> Q) (PI : Q).
Variable env : Env.

(** Without a [null] crop the loop goes through all the ids. *)
Lemma cropChildren_fold (h : string) (dx dy : Q) (ids : list string)
  (st : Store) :
  (forall j b,
      getBlockById st j = Some b -> isImage (Block.type b) = true ->
      Block.crop b <> Some None) ->
  cropChildren h dx dy ids st
  = fold_left
      (fun s bid =>
         match getBlockById s bid with
         | None => s
         | Some block =>
             if isImage (Block.type block)
             then updateBlock bid
                    (cropPatch
                       (groupCropNext h dx dy
                          (getCropValues (cropObject (Block.crop block))))) s
             else s
         end) ids st.
Proof.
  revert st. induction ids as [|bid ids IH]; intros st Hnn; simpl;
    [reflexivity|].
  destruct (getBlockById st bid) as [block|] eqn:Hb; [|now apply IH].
  destruct (isImage (Block.type block)) eqn:Himg; [|now apply IH].
  assert (Hkeep : forall c j b,
             getBlockById (updateBlock bid (cropPatch c) st) j = Some b ->
             isImage (Block.type b) = true -> Block.crop b <> Some None).
  { intros c j b. rewrite getBlockById_updateBlock.
    destruct (String.eqb_spec bid j) as [<-|Hne]; [|apply Hnn].
    rewrite Hb. intros [= <-] _. discriminate. }
  destruct (Block.crop block) as [[c|]|] eqn:Hc.
  - apply IH, Hkeep.
  - exfalso. now apply (Hnn bid block Hb Himg).
  - apply IH, Hkeep.
Qed.

(** An image whose crop is [null] keeps it: the loop ends when it comes to
    the image, and changes no other block's crop to [null]. *)
Lemma cropChildren_null_kept (h : string) (dx dy : Q) (ids : list string)
  (st : Store) (cid : string) (b0 : Block.t) :
  getBlockById st cid = Some b0 ->
  isImage (Block.type b0) = true ->
  Block.crop b0 = Some None ->
  getBlockById (cropChildren h dx dy ids st) cid = Some b0.
Proof.
  intros Hb0 Himg Hnull. revert st Hb0.
  induction ids as [|bid ids IH]; intros st Hb0; simpl; [exact Hb0|].
  destruct (getBlockById st bid) as [block|] eqn:Hb; [|now apply IH].
  destruct (isImage (Block.type block)) eqn:Hi; [|now apply IH].
  assert (Hother : Block.crop block <> Some None ->
                   forall c, getBlockById (updateBlock bid (cropPatch c) st) cid
                             = Some b0).
  { intros Hne c. rewrite getBlockById_updateBlock.
    destruct (String.eqb_spec bid cid) as [->|]; [congruence | exact Hb0]. }
  destruct (Block.crop block) as [[c|]|] eqn:Hc.
  - apply IH, Hother. discriminate.
  - exact Hb0.
  - apply IH, Hother. discriminate.
Qed.

Lemma groupCrop_loop (h : string) (dx dy : Q) (ids : list string) (st : Store) :
  imageCropsInRange st ->
  croppedSoFar st ids (cropChildren h dx dy ids st).
Proof.
  intros Hrange.
  rewrite cropChildren_fold
    by (intros j b Hb Himg; exact (proj1 (Hrange j b Hb Himg))).
  apply (fold_left_snoc_inv _ (croppedSoFar st)).
  - intros j. destruct (getBlockById st j) as [b0|] eqn:Hj; [|reflexivity].
    right. split; [right; intros []|reflexivity].
  - intros l a s Hinv j. specialize (Hinv j) as Hj.
    assert (Hother : a <> j -> (In j (l ++ [a]) <-> In j l)).
    { intros Hne. rewrite in_app_iff. simpl. tauto. }
    destruct (getBlockById s a) as [block|] eqn:Ha;
      [destruct (isImage (Block.type block)) eqn:Himg|].
    + rewrite getBlockById_updateBlock.
      destruct (String.eqb_spec a j) as [->|Hne].
      * rewrite Ha. cbn [option_map].
        assert (Hlast : In j (l ++ [j])) by (apply in_or_app; right; now left).
        specialize (Hrange j).
        destruct (getBlockById st j) as [b0|]; [|congruence].
        left.
        destruct Hj as [(Hi & _ & c & Hc & Hs)|(_ & Hs)].
        -- split; [exact Hi|]. split; [exact Hlast|].
           rewrite Ha in Hs. injection Hs as ->.
           eexists. split; [|reflexivity].
           apply groupCropNext_inRange.
           cbn [assignPatch cropPatch p_crop Block.crop cropObject].
           rewrite getCropValues_cropOfValues.
           now apply cropBounds_insetsInRange.
        -- rewrite Ha in Hs. injection Hs as ->.
           split; [exact Himg|]. split; [exact Hlast|].
           eexists. split; [|reflexivity].
           apply groupCropNext_inRange. now apply (Hrange b0).
      * destruct (getBlockById st j) as [b0|]; [|exact Hj].
        destruct Hj as [(Hi & Hin & Hc)|([Hi|Hin] & Hs)].
        -- left. split; [exact Hi|]. split; [|exact Hc].
           now apply Hother.
        -- right. split; [now left|exact Hs].
        -- right. split; [|exact Hs]. right. now rewrite (Hother Hne).
    + destruct (String.eqb_spec a j) as [->|Hne].
      * destruct (getBlockById st j) as [b0|]; [|congruence].
        destruct Hj as [(Hi & _ & c & _ & Hs)|(_ & Hs)];
          rewrite Ha in Hs; injection Hs as ->.
        -- cbn [assignPatch Block.type] in Himg. congruence.
        -- right. split; [now left|exact Ha].
      * destruct (getBlockById st j) as [b0|]; [|exact Hj].
        destruct Hj as [(Hi & Hin & Hc)|([Hi|Hin] & Hs)].
        -- left. split; [exact Hi|]. split; [|exact Hc].
           now apply Hother.
        -- right. split; [now left|exact Hs].
        -- right. split; [|exact Hs]. right. now rewrite (Hother Hne).
    + destruct (String.eqb_spec a j) as [->|Hne].
      * destruct (getBlockById st j) as [b0|]; [|exact Ha].
        destruct Hj as [(_ & _ & c & _ & Hs)|(_ & Hs)]; congruence.
      * destruct (getBlockById st j) as [b0|]; [|exact Hj].
        destruct Hj as [(Hi & Hin & Hc)|([Hi|Hin] & Hs)].
        -- left. split; [exact Hi|]. split; [|exact Hc].
           now apply Hother.
        -- right. split; [now left|exact Hs].
        -- right. split; [|exact Hs]. right. now rewrite (Hother Hne).
Qed.

(** X25: cropping a group.  On a pointer move of a crop gesture on a
    group, the group records are not touched.  When the crop of every
    image in the store is absent or an object whose insets are percentages
    (between 0 and 100), every image child of the group gets a crop whose
    insets are between 0 and 100 and leave at least MIN_VISIBLE_PERCENT of
    each axis, and keeps every other key; a block that is not an image, or
    whose id the group does not list, is left as it is; and the crops of
    all images are again objects that hold percentages, so the same holds
    after every later move.  An image whose crop is null keeps it: reading
    the insets of a null crop throws, and the handler ends at the first
    image child it finds with one. *)
Theorem group_crop_keeps_bounds (i : Interaction) (e : PointerEvent)
  (st : Store) (group : Group.t) (h : string) :
  isGroupId (i_blockId i) = true ->
  i_type i = crop_ ->
  groupSnapshot i = Some group ->
  handleOf i = Some h ->
  let st' := handlePointerMove cos sin atan2 PI env i e st in
  groups st' = groups st
  /\ (imageCropsInRange st ->
      (forall cid b0,
          In cid (getGroupBlockIds group) ->
          getBlockById st cid = Some b0 ->
          isImage (Block.type b0) = true ->
          exists c,
            cropBounds c
            /\ getBlockById st' cid = Some (assignPatch (cropPatch c) b0))
      /\ (forall j b0,
             getBlockById st j = Some b0 ->
             isImage (Block.type b0) = false
             \/ ~ In j (getGroupBlockIds group) ->
             getBlockById st' j = Some b0)
      /\ (forall j, getBlockById st j = None -> getBlockById st' j = None)
      /\ imageCropsInRange st')
  /\ (forall cid b0,
         getBlockById st cid = Some b0 ->
         isImage (Block.type b0) = true ->
         Block.crop b0 = Some None ->
         getBlockById st' cid = Some b0).
Proof.
  intros Hg Ht Hs Hh st'.
  unfold st', handlePointerMove. rewrite Hg, Ht.
  unfold groupCrop. rewrite Hs, Hh. cbv zeta.
  split; [apply (cropChildren_frame groups); reflexivity|].
  split; [|intros cid b0; apply cropChildren_null_kept].
  intros Hrange.
  match goal with
  | |- context [cropChildren ?h0 ?dx ?dy ?l st] =>
      set (s1 := cropChildren h0 dx dy l st);
      assert (Hinv : croppedSoFar st l s1)
        by (apply groupCrop_loop; exact Hrange)
  end.
  clearbody s1.
  split; [|split; [|split]].
  - intros cid b0 Hin Hb0 Himg. specialize (Hinv cid). rewrite Hb0 in Hinv.
    destruct Hinv as [(_ & _ & Hc)|([Hi|Hn] & _)];
      [exact Hc|congruence|contradiction].
  - intros j b0 Hb0 Hor. specialize (Hinv j). rewrite Hb0 in Hinv.
    destruct Hinv as [(Hi & Hin & _)|(_ & Hsame)]; [|exact Hsame].
    destruct Hor; [congruence|contradiction].
  - intros j Hj. specialize (Hinv j). now rewrite Hj in Hinv.
  - intros j b1 Hb1 Himg. specialize (Hinv j). specialize (Hrange j).
    destruct (getBlockById st j) as [b0|]; [|congruence].
    destruct Hinv as [(_ & _ & c & Hc & Hsame)|(_ & Hsame)];
      rewrite Hb1 in Hsame; injection Hsame as ->.
    + cbn [assignPatch cropPatch p_crop Block.crop cropObject].
      split; [discriminate|].
      rewrite getCropValues_cropOfValues.
      now apply cropBounds_insetsInRange.
    + now apply (Hrange b0).
Qed.

End GroupCrop.

Lemma groupedStore_cropsInRange : imageCropsInRange groupedStore.
Proof.
  intros j b Hb _. unfold getBlockById, groupedStore in Hb. cbn in Hb.
  repeat match type of Hb with
         | context [if ?c then _ else _] => destruct c
         end;
    try discriminate; injection Hb as <-;
    (split; [discriminate|]);
    unfold insetsInRange; cbn; repeat split; lra.
Defined.

Lemma group_crop_keeps_bounds_witness :
  exists i,
    beginInteraction axisAtan2 demoEnv groupedStore (mkEvent 10 35) crop_
      "g-1" (Some "left") = Some i
    /\ exists b0 c,
        getBlockById groupedStore "a" = Some b0
        /\ cropBounds c
        /\ getBlockById
             (handlePointerMove axisCos axisSin axisAtan2 ratPI demoEnv i
                (mkEvent 30 35) groupedStore) "a"
           = Some (assignPatch (cropPatch c) b0).
Proof.
  eexists. split; [reflexivity|].
  eexists. 
  match goal with
  | |- context [handlePointerMove _ _ _ _ _ ?i _ _] =>
      destruct (group_crop_keeps_bounds axisCos axisSin axisAtan2 ratPI
                  demoEnv i (mkEvent 30 35) groupedStore _ "left"
                  eq_refl eq_refl eq_refl eq_refl)
        as (_ & Hcrop & _);
        destruct (Hcrop groupedStore_cropsInRange) as (H & _)
  end.
  destruct (H "a" _ (or_introl eq_refl) eq_refl eq_refl) as (c & Hc & Hb).
  exists c. split; [reflexivity|]. split; [exact Hc|exact Hb].
Defined.
